(** * ImmutableLinkedOrderedMap: a shallow embedding of the structural-sharing engine

    The development follows [src/ImmutableLinkedOrderedMap.js].  JavaScript
    objects that are shared and mutated (nodes, heap maps, map instances) live
    in a store ([world]) and are named by references; objects that are owned
    by exactly one holder (the internal [LinkedOrderedMap]s used as depth maps
    and version stacks) are values.  Every function threads the store
    explicitly. *)

From Stdlib Require Import ZArith String DecimalString.
From stdpp Require Import base list gmap strings.

Local Open Scope string_scope.
Local Open Scope list_scope.

(** ** Keys, values, items *)

(** Keys are the integer ids of the items. *)
Abbreviation key := nat (only parsing).

(** A JavaScript value up to [===]: [Undefined] is [void 0], [Val n] is the
    primitive or the object whose identity is [n]. *)
Inductive value := Undefined | Val (n : nat).

Global Instance value_eq_dec : EqDecision value.
Proof. solve_decision. Defined.

(** The two item shapes of the documentation: an object carrying its key under
    [keyPropName] (the object itself is the stored value), or a one-property
    object [{key: value}]. *)
Inductive item :=
  | ItemObject (k : key) (self : value)
  | ItemPair (k : key) (v : value).

Definition keyValueForItem (keyPropName : string) (it : item) : key * value :=
  match it with
  | ItemObject k self => (k, self)
  | ItemPair k v => (k, v)
  end.

(** ** The mutable linked ordered map used internally

    A hash plus a doubly linked list of [(key, value)] cells: an
    insertion-ordered association list without repeated keys. *)
Module LinkedOrderedMap.
Section Def.
Context {K V : Type} `{EqDecision K}.

Definition t := list (K * V).

Definition new : t := [].

(** [key in this.map] *)
Fixpoint has (k : K) (m : t) : bool :=
  match m with
  | [] => false
  | (k', _) :: m' => if decide (k = k') then true else has k m'
  end.

(** [this.map[key].element.value = value] *)
Fixpoint overwrite (k : K) (v : V) (m : t) : t :=
  match m with
  | [] => []
  | (k', v') :: m' =>
      if decide (k = k') then (k', v) :: m' else (k', v') :: overwrite k v m'
  end.

Definition set (k : K) (v : V) (prepend : bool) (m : t) : t :=
  if has k m then overwrite k v m
  else if prepend then (k, v) :: m else m ++ [(k, v)].

Fixpoint get (k : K) (m : t) : option V :=
  match m with
  | [] => None
  | (k', v) :: m' => if decide (k = k') then Some v else get k m'
  end.

(** [forEach(f)]: the callback receives key and value and returns [false]
    to stop the loop at once; here it also threads the variables it
    captures and answers [true] to go on. *)
Fixpoint forEach {S : Type} (f : K → V → S → S * bool) (m : t) (s : S) : S :=
  match m with
  | [] => s
  | (k, v) :: m' =>
      let '(s', continue) := f k v s in
      if continue then forEach f m' s' else s'
  end.
End Def.
Arguments t : clear implicits.
End LinkedOrderedMap.

(** ** Modes *)

Inductive Mode := SINGLE | MULTIWAY | LIGHTWEIGHT.

Global Instance Mode_eq_dec : EqDecision Mode.
Proof. solve_decision. Defined.

(** [ImmutableLinkedOrderedMapMode]: the numeric codes of the enum. *)
Definition ImmutableLinkedOrderedMapMode (m : Mode) : nat :=
  match m with SINGLE => 1 | MULTIWAY => 2 | LIGHTWEIGHT => 3 end.

Definition DEFAULT_KEY_PROP_NAME : string := "id".
Definition MULTIWAY_MODE_INITIAL_MAP_TREE_DEPTH_VERSION : string := "".
Definition MULTIWAY_MODE_MAP_TREE_DEPTH_VERSION_SEPARATOR : string := "@".
Definition DEFAULT_MAP_MODE : Mode := SINGLE.

(** ** The store *)

Abbreviation nref := nat (only parsing).  (* reference to a node *)
Abbreviation href := nat (only parsing).  (* reference to a heap map *)
Abbreviation mref := nat (only parsing).  (* reference to a map instance *)

(** The neighbour field of a node: a depth map in single mode, a depth map of
    version stacks in multiway mode, a raw reference in lightweight mode. *)
Inductive links :=
  | SingleLinks (depthMap : LinkedOrderedMap.t nat (option nref))
  | MultiwayLinks
      (depthMap : LinkedOrderedMap.t nat (LinkedOrderedMap.t string (option nref)))
  | LightweightLinks (neighbour : option nref).

Module Node.
Record t := make { previous : links; next : links; element : key * value }.
Definition set_previous (l : links) (n : t) : t :=
  make l (next n) (element n).
Definition set_next (l : links) (n : t) : t :=
  make (previous n) l (element n).
End Node.

(** [makeNode(previous, next, element)] *)
Definition makeNode (previous next : links) (element : key * value) : Node.t :=
  Node.make previous next element.

(** The heap map of a root: keys to depth maps (single), to depth maps of
    version stacks (multiway), or directly to nodes (lightweight). *)
Inductive heap :=
  | SingleHeap (h : gmap key (LinkedOrderedMap.t nat nref))
  | MultiwayHeap
      (h : gmap key (LinkedOrderedMap.t nat (LinkedOrderedMap.t string nref)))
  | LightweightHeap (h : gmap key nref).

Inductive changeRecord :=
  | ChangeSet (inserted updated : list (key * value)) (prependMissing : bool)
  | ChangeReplace (oldKey : key) (k : key) (v : value)
      (wasInserted wasUpdated hadExistentNodeForKey prependMissing : bool)
  | ChangeUnset (k : key) (v : value)
  | ChangeEmpty.

Module Map.
Record t := make {
  heapMap : href;
  depth : nat;
  length : Z;
  keyPropName : string;
  mode : Mode;
  head : option nref;
  tail : option nref;
  ancestorMap : option mref;
  change : option changeRecord;
  (* single and lightweight mode *)
  mutationOperationOccurred : bool;
  (* multiway mode *)
  childrenCount : nat;
  version : string
}.
Definition set_depth (d : nat) (m : t) : t :=
  make (heapMap m) d (length m) (keyPropName m) (mode m) (head m) (tail m)
    (ancestorMap m) (change m) (mutationOperationOccurred m)
    (childrenCount m) (version m).
Definition set_length (l : Z) (m : t) : t :=
  make (heapMap m) (depth m) l (keyPropName m) (mode m) (head m) (tail m)
    (ancestorMap m) (change m) (mutationOperationOccurred m)
    (childrenCount m) (version m).
Definition set_head (h : option nref) (m : t) : t :=
  make (heapMap m) (depth m) (length m) (keyPropName m) (mode m) h (tail m)
    (ancestorMap m) (change m) (mutationOperationOccurred m)
    (childrenCount m) (version m).
Definition set_tail (tl : option nref) (m : t) : t :=
  make (heapMap m) (depth m) (length m) (keyPropName m) (mode m) (head m) tl
    (ancestorMap m) (change m) (mutationOperationOccurred m)
    (childrenCount m) (version m).
Definition set_ancestorMap (a : option mref) (m : t) : t :=
  make (heapMap m) (depth m) (length m) (keyPropName m) (mode m) (head m)
    (tail m) a (change m) (mutationOperationOccurred m)
    (childrenCount m) (version m).
Definition set_change (c : option changeRecord) (m : t) : t :=
  make (heapMap m) (depth m) (length m) (keyPropName m) (mode m) (head m)
    (tail m) (ancestorMap m) c (mutationOperationOccurred m)
    (childrenCount m) (version m).
Definition set_mutationOperationOccurred (b : bool) (m : t) : t :=
  make (heapMap m) (depth m) (length m) (keyPropName m) (mode m) (head m)
    (tail m) (ancestorMap m) (change m) b (childrenCount m) (version m).
Definition set_childrenCount (c : nat) (m : t) : t :=
  make (heapMap m) (depth m) (length m) (keyPropName m) (mode m) (head m)
    (tail m) (ancestorMap m) (change m) (mutationOperationOccurred m)
    c (version m).
Definition set_version (v : string) (m : t) : t :=
  make (heapMap m) (depth m) (length m) (keyPropName m) (mode m) (head m)
    (tail m) (ancestorMap m) (change m) (mutationOperationOccurred m)
    (childrenCount m) v.
End Map.

Record world := World {
  nodeStore : list Node.t;
  heapStore : list heap;
  mapStore : list Map.t
}.

Definition emptyWorld : world := World [] [] [].

(** Dereferencing and updating the store.  A reference that names nothing has
    no counterpart in the program; reading a map through one yields
    [dummyMap], writing through one changes nothing. *)
Definition dummyMap : Map.t :=
  Map.make 0 0 0 "" SINGLE None None None None false 0 "".

Definition mapAt (w : world) (m : mref) : Map.t := default dummyMap (mapStore w !! m).
Definition nodeAt (w : world) (n : nref) : option Node.t := nodeStore w !! n.
Definition heapAt (w : world) (h : href) : option heap := heapStore w !! h.

Definition updMap (m : mref) (f : Map.t → Map.t) (w : world) : world :=
  World (nodeStore w) (heapStore w) (alter f m (mapStore w)).
Definition updNode (n : nref) (f : Node.t → Node.t) (w : world) : world :=
  World (alter f n (nodeStore w)) (heapStore w) (mapStore w).
Definition updHeap (h : href) (f : heap → heap) (w : world) : world :=
  World (nodeStore w) (alter f h (heapStore w)) (mapStore w).

Definition allocMap (M : Map.t) (w : world) : mref * world :=
  (length (mapStore w), World (nodeStore w) (heapStore w) (mapStore w ++ [M])).
Definition allocNode (N : Node.t) (w : world) : nref * world :=
  (length (nodeStore w), World (nodeStore w ++ [N]) (heapStore w) (mapStore w)).
Definition allocHeap (h : heap) (w : world) : href * world :=
  (length (heapStore w), World (nodeStore w) (heapStore w ++ [h]) (mapStore w)).

Inductive direction := Previous | Next.

Definition directionField (d : direction) (N : Node.t) : links :=
  match d with Previous => Node.previous N | Next => Node.next N end.

(** [(fromNode === map.tail && direction === "next") ||
     (fromNode === map.head && direction === "previous")] *)
Definition isBoundary (M : Map.t) (fromNode : nref) (d : direction) : bool :=
  match d with
  | Next => bool_decide (Map.tail M = Some fromNode)
  | Previous => bool_decide (Map.head M = Some fromNode)
  end.

(** ** Single mode *)

Definition bindSingleModeNodes (M : Map.t) (previousNode nextNode : nref)
    (w : world) : world :=
  let depth := Map.depth M in
  let w := updNode previousNode (λ N,
    match Node.next N with
    | SingleLinks dm =>
        Node.set_next
          (SingleLinks (LinkedOrderedMap.set depth (Some nextNode) true dm)) N
    | _ => N
    end) w in
  updNode nextNode (λ N,
    match Node.previous N with
    | SingleLinks dm =>
        Node.set_previous
          (SingleLinks (LinkedOrderedMap.set depth (Some previousNode) true dm)) N
    | _ => N
    end) w.

Definition makeSingleModeImmutableLinkedOrderedMapNode (M : Map.t)
    (previous next : option nref) (k : key) (v : value) (w : world)
    : nref * world :=
  let depth := Map.depth M in
  let previousDepthMap :=
    LinkedOrderedMap.set depth previous false LinkedOrderedMap.new in
  let nextDepthMap :=
    LinkedOrderedMap.set depth next false LinkedOrderedMap.new in
  allocNode
    (makeNode (SingleLinks previousDepthMap) (SingleLinks nextDepthMap) (k, v)) w.

Definition findSingleModeMapNodeByDirection (w : world) (M : Map.t)
    (fromNode : nref) (d : direction) : option nref :=
  if isBoundary M fromNode d then None
  else
    let depth := Map.depth M in
    match nodeAt w fromNode with
    | Some N =>
        match directionField d N with
        | SingleLinks directionMap =>
            LinkedOrderedMap.forEach (λ depthKey v node,
              if (depthKey <=? depth)%nat then (v, false) else (node, true))
              directionMap None
        | _ => None
        end
    | None => None
    end.

Definition updateSingleModeHeapMap (M : Map.t) (itemNode : nref) (w : world)
    : world :=
  match nodeAt w itemNode with
  | Some N =>
      let k := fst (Node.element N) in
      updHeap (Map.heapMap M) (λ hp,
        match hp with
        | SingleHeap h =>
            let depthMap := default LinkedOrderedMap.new (h !! k) in
            SingleHeap
              (<[k := LinkedOrderedMap.set (Map.depth M) itemNode true depthMap]> h)
        | _ => hp
        end) w
  | None => w
  end.

Definition lookupSingleMode (w : world) (M : Map.t) (k : key) : option nref :=
  match heapAt w (Map.heapMap M) with
  | Some (SingleHeap h) =>
      match h !! k with
      | None => None
      | Some depthMap =>
          LinkedOrderedMap.forEach (λ depthKey v node,
            if (depthKey <=? Map.depth M)%nat then (Some v, false) else (node, true))
            depthMap None
      end
  | _ => None
  end.

(** ** Multiway mode *)

(** [descendantVersion.substring(0, possibleAncestorVersion.length)
     === possibleAncestorVersion] *)
Definition isAncestorVersionOfDescendantVersion
    (possibleAncestorVersion descendantVersion : string) : bool :=
  String.eqb
    (String.substring 0 (String.length possibleAncestorVersion) descendantVersion)
    possibleAncestorVersion.

(** The entry of [version] in the stack kept under [depth], created (and
    prepended) when the depth has none yet. *)
Definition setVersionAtDepth {V : Type} (depth : nat) (version : string) (v : V)
    (dm : LinkedOrderedMap.t nat (LinkedOrderedMap.t string V))
    : LinkedOrderedMap.t nat (LinkedOrderedMap.t string V) :=
  let dm :=
    if LinkedOrderedMap.has depth dm then dm
    else LinkedOrderedMap.set depth LinkedOrderedMap.new true dm in
  let stack := default LinkedOrderedMap.new (LinkedOrderedMap.get depth dm) in
  LinkedOrderedMap.overwrite depth (LinkedOrderedMap.set version v true stack) dm.

Definition bindMultiwayModeNodes (M : Map.t) (previousNode nextNode : nref)
    (w : world) : world :=
  let depth := Map.depth M in
  let version := Map.version M in
  let w := updNode previousNode (λ N,
    match Node.next N with
    | MultiwayLinks dm =>
        Node.set_next
          (MultiwayLinks (setVersionAtDepth depth version (Some nextNode) dm)) N
    | _ => N
    end) w in
  updNode nextNode (λ N,
    match Node.previous N with
    | MultiwayLinks dm =>
        Node.set_previous
          (MultiwayLinks (setVersionAtDepth depth version (Some previousNode) dm)) N
    | _ => N
    end) w.

Definition makeMultiwayModeImmutableLinkedOrderedMapNode (M : Map.t)
    (previous next : option nref) (k : key) (v : value) (w : world)
    : nref * world :=
  let depth := Map.depth M in
  let version := Map.version M in
  let previousVersionMap :=
    LinkedOrderedMap.set version previous false LinkedOrderedMap.new in
  let previousDepthMap :=
    LinkedOrderedMap.set depth previousVersionMap false LinkedOrderedMap.new in
  let nextVersionMap :=
    LinkedOrderedMap.set version next false LinkedOrderedMap.new in
  let nextDepthMap :=
    LinkedOrderedMap.set depth nextVersionMap false LinkedOrderedMap.new in
  allocNode
    (makeNode (MultiwayLinks previousDepthMap) (MultiwayLinks nextDepthMap) (k, v))
    w.

Definition findMultiwayModeMapNodeByDirection (w : world) (M : Map.t)
    (fromNode : nref) (d : direction) : option nref :=
  if isBoundary M fromNode d then None
  else
    let depth := Map.depth M in
    let version := Map.version M in
    match nodeAt w fromNode with
    | Some N =>
        match directionField d N with
        | MultiwayLinks directionMap =>
            LinkedOrderedMap.forEach (λ depthKey v node,
              if (depthKey <=? depth)%nat then
                let node :=
                  LinkedOrderedMap.forEach (λ stackVersion possibleNode node,
                    if isAncestorVersionOfDescendantVersion stackVersion version
                    then (possibleNode, false) else (node, true)) v node in
                if node is Some _ then (node, false) else (node, true)
              else (node, true))
              directionMap None
        | _ => None
        end
    | None => None
    end.

Definition updateMultiWayModeHeapMap (M : Map.t) (itemNode : nref) (w : world)
    : world :=
  match nodeAt w itemNode with
  | Some N =>
      let k := fst (Node.element N) in
      updHeap (Map.heapMap M) (λ hp,
        match hp with
        | MultiwayHeap h =>
            let depthMap := default LinkedOrderedMap.new (h !! k) in
            MultiwayHeap
              (<[k := setVersionAtDepth (Map.depth M) (Map.version M) itemNode
                        depthMap]> h)
        | _ => hp
        end) w
  | None => w
  end.

Definition lookupMultiwayMode (w : world) (M : Map.t) (k : key) : option nref :=
  match heapAt w (Map.heapMap M) with
  | Some (MultiwayHeap h) =>
      match h !! k with
      | None => None
      | Some depthMap =>
          LinkedOrderedMap.forEach (λ depthKey v node,
            if (depthKey <=? Map.depth M)%nat then
              let node :=
                LinkedOrderedMap.forEach (λ stackVersion possibleNode node,
                  if isAncestorVersionOfDescendantVersion stackVersion
                       (Map.version M)
                  then (Some possibleNode, false) else (node, true)) v node in
              if node is Some _ then (node, false) else (node, true)
            else (node, true))
            depthMap None
      end
  | _ => None
  end.

(** The decimal numeral of a counter, as a template literal prints it. *)
Definition decimal (n : nat) : string := NilZero.string_of_uint (Nat.to_uint n).

Definition forkMultiwayModeMap (ancestorMap forkedMap : mref) (w : world)
    : world :=
  let A := mapAt w ancestorMap in
  let count := S (Map.childrenCount A) in
  let w := updMap ancestorMap (Map.set_childrenCount count) w in
  let version :=
    if (String.length (Map.version A) =? 0)%nat then decimal count
    else Map.version A +:+ MULTIWAY_MODE_MAP_TREE_DEPTH_VERSION_SEPARATOR
           +:+ decimal count in
  updMap forkedMap (Map.set_version version) w.

(** ** Lightweight mode *)

Definition bindLightweightModeNodes (M : Map.t) (previousNode nextNode : nref)
    (w : world) : world :=
  let w := updNode previousNode
             (Node.set_next (LightweightLinks (Some nextNode))) w in
  updNode nextNode (Node.set_previous (LightweightLinks (Some previousNode))) w.

Definition lookupLightweightMode (w : world) (M : Map.t) (k : key)
    : option nref :=
  match heapAt w (Map.heapMap M) with
  | Some (LightweightHeap h) => h !! k
  | _ => None
  end.

Definition updateLightweightModeHeapMap (M : Map.t) (itemNode : nref)
    (w : world) : world :=
  match nodeAt w itemNode with
  | Some N =>
      let k := fst (Node.element N) in
      updHeap (Map.heapMap M) (λ hp,
        match hp with
        | LightweightHeap h => LightweightHeap (<[k := itemNode]> h)
        | _ => hp
        end) w
  | None => w
  end.

Definition findLightweightModeMapNodeByDirection (w : world) (M : Map.t)
    (fromNode : nref) (d : direction) : option nref :=
  match nodeAt w fromNode with
  | Some N =>
      match directionField d N with
      | LightweightLinks neighbour => neighbour
      | _ => None
      end
  | None => None
  end.

Definition makeLightweightModeImmutableLinkedOrderedMapNode (M : Map.t)
    (previous next : option nref) (k : key) (v : value) (w : world)
    : nref * world :=
  allocNode (makeNode (LightweightLinks previous) (LightweightLinks next) (k, v)) w.

(** ** The per-mode dispatch table *)

Module ModeOps.
Record t := make {
  lookup : world → Map.t → key → option nref;
  updateHeapMap : Map.t → nref → world → world;
  findMapNodeByDirection : world → Map.t → nref → direction → option nref;
  makeImmutableLinkedOrderedMapNode :
    Map.t → option nref → option nref → key → value → world → nref * world;
  bindNodes : Map.t → nref → nref → world → world;
  (* optional entry *)
  fork : option (mref → mref → world → world)
}.
End ModeOps.

Definition ImmutableLinkedOrderedMapForMode (mode : Mode) : ModeOps.t :=
  match mode with
  | SINGLE =>
      ModeOps.make lookupSingleMode updateSingleModeHeapMap
        findSingleModeMapNodeByDirection
        makeSingleModeImmutableLinkedOrderedMapNode bindSingleModeNodes
        None
  | MULTIWAY =>
      ModeOps.make lookupMultiwayMode updateMultiWayModeHeapMap
        findMultiwayModeMapNodeByDirection
        makeMultiwayModeImmutableLinkedOrderedMapNode bindMultiwayModeNodes
        (Some forkMultiwayModeMap)
  | LIGHTWEIGHT =>
      ModeOps.make lookupLightweightMode updateLightweightModeHeapMap
        findLightweightModeMapNodeByDirection
        makeLightweightModeImmutableLinkedOrderedMapNode bindLightweightModeNodes
        None
  end.

Abbreviation forMode := ImmutableLinkedOrderedMapForMode.

(** ** Creating and forking maps *)

(** [const heapMap = {}]: an empty object, typed here by what the mode will
    store in it. *)
Definition newHeapMap (mode : Mode) : heap :=
  match mode with
  | SINGLE => SingleHeap ∅
  | MULTIWAY => MultiwayHeap ∅
  | LIGHTWEIGHT => LightweightHeap ∅
  end.

(** [hydrate] on an instance fresh from its constructor
    ([mutationOperationOccurred = false], [childrenCount = 0]). *)
Definition hydrate (heapMap : href) (depth : nat) (length : Z)
    (keyPropName : string) (mode : Mode) (head tail : option nref)
    (ancestorMap : option mref) : Map.t :=
  Map.make heapMap depth length keyPropName mode head tail ancestorMap None
    false 0 MULTIWAY_MODE_INITIAL_MAP_TREE_DEPTH_VERSION.

Definition hydrateNew (keyPropName : string) (mode : Mode) (w : world)
    : mref * world :=
  let '(heapMap, w) := allocHeap (newHeapMap mode) w in
  allocMap (hydrate heapMap 0 0 keyPropName mode None None None) w.

(** [map.length++ && (keysMap[key] = true)]: the post-increment yields the
    old length, and the key is recorded only when that is not zero. *)
Definition incrementLengthAndRecord (map : mref) (k : key) (keysMap : gset key)
    (w : world) : gset key * world :=
  let oldLength := Map.length (mapAt w map) in
  let w := updMap map (Map.set_length (oldLength + 1)) w in
  (if bool_decide (oldLength = 0%Z) then keysMap else {[k]} ∪ keysMap, w).

(** The loop of [appendInitialItemsToMap] over the items below the last one,
    from index [length - 2] down to [0]; [itemsBelow] lists them in that
    order. *)
Fixpoint appendInitialItemsLoop (map : mref) (itemsBelow : list item)
    (keysMap : gset key) (lastNode : nref) (w : world) : nref * world :=
  match itemsBelow with
  | [] => (lastNode, w)
  | it :: itemsBelow =>
      let ops := forMode (Map.mode (mapAt w map)) in
      let '(k, v) := keyValueForItem (Map.keyPropName (mapAt w map)) it in
      if bool_decide (k ∈ keysMap) then
        appendInitialItemsLoop map itemsBelow keysMap lastNode w
      else
        let '(node, w) :=
          ModeOps.makeImmutableLinkedOrderedMapNode ops (mapAt w map)
            None None k v w in
        let w := ModeOps.updateHeapMap ops (mapAt w map) node w in
        let w := ModeOps.bindNodes ops (mapAt w map) node lastNode w in
        let '(keysMap, w) := incrementLengthAndRecord map k keysMap w in
        appendInitialItemsLoop map itemsBelow keysMap node w
  end.

Definition appendInitialItemsToMap (map : mref) (items : list item)
    (w : world) : world :=
  let ops := forMode (Map.mode (mapAt w map)) in
  let keyPropName := Map.keyPropName (mapAt w map) in
  match reverse items with
  | [] => w
  | lastItem :: itemsBelow =>
      let '(tailKey, tailValue) := keyValueForItem keyPropName lastItem in
      let '(newTail, w) :=
        ModeOps.makeImmutableLinkedOrderedMapNode ops (mapAt w map)
          None None tailKey tailValue w in
      let w := ModeOps.updateHeapMap ops (mapAt w map) newTail w in
      let previousTail := Map.tail (mapAt w map) in
      let w := updMap map (Map.set_tail (Some newTail)) w in
      (* keysMap[tailKey] || (map.length++ && (keysMap[tailKey] = true)) *)
      let '(keysMap, w) := incrementLengthAndRecord map tailKey ∅ w in
      match itemsBelow with
      | _ :: _ =>
          let '(lastNode, w) :=
            appendInitialItemsLoop map itemsBelow keysMap newTail w in
          if Map.head (mapAt w map) is None
          then updMap map (Map.set_head (Some lastNode)) w else w
      | [] =>
          match previousTail with
          | None => updMap map (Map.set_head (Some newTail)) w
          | Some previousTail =>
              ModeOps.bindNodes ops (mapAt w map) previousTail newTail w
          end
      end
  end.

Definition addInitialItemsToMap (map : mref) (initialItems : list item)
    (w : world) : world :=
  appendInitialItemsToMap map initialItems w.

(** The options object of the factory; [None] is an omitted property.  The
    mode is the number the caller passed. *)
Record options := Options {
  initialItems : option (list item);
  keyPropNameOption : option string;
  modeOption : option nat
}.

(** [ImmutableLinkedOrderedMapForMode[mode] && mode]: the table has entries
    for the three codes only. *)
Definition modeOfCode (code : nat) : option Mode :=
  match code with
  | 1 => Some SINGLE
  | 2 => Some MULTIWAY
  | 3 => Some LIGHTWEIGHT
  | _ => None
  end.

Definition newImmutableLinkedOrderedMap (o : options) (w : world)
    : mref * world :=
  let initialItems := default [] (initialItems o) in
  let keyPropName := default DEFAULT_KEY_PROP_NAME (keyPropNameOption o) in
  let mode := default (ImmutableLinkedOrderedMapMode DEFAULT_MAP_MODE) (modeOption o) in
  let mode := default DEFAULT_MAP_MODE (modeOfCode mode) in
  let '(map, w) := hydrateNew keyPropName mode w in
  let w := addInitialItemsToMap map initialItems w in
  (map, w).

Definition forkMap (map : mref) (w : world) : mref * world :=
  let M := mapAt w map in
  let '(newMap, w) :=
    allocMap
      (hydrate (Map.heapMap M) (Map.depth M) (Map.length M) (Map.keyPropName M)
         (Map.mode M) (Map.head M) (Map.tail M) (Some map)) w in
  let w := updMap newMap (λ N, Map.set_depth (S (Map.depth N)) N) w in
  let w :=
    match ModeOps.fork (forMode (Map.mode M)) with
    | Some fork => fork map newMap w
    | None => w
    end in
  (newMap, w).

Definition addImmutableLinkedOrderedMapOrphanNode (map : mref) (k : key)
    (w : world) : world :=
  let ops := forMode (Map.mode (mapAt w map)) in
  let '(newNode, w) :=
    ModeOps.makeImmutableLinkedOrderedMapNode ops (mapAt w map)
      None None k Undefined w in
  ModeOps.updateHeapMap ops (mapAt w map) newNode w.

Definition mapChange (map : mref) (c : changeRecord) (w : world) : world :=
  updMap map (Map.set_change (Some c)) w.

(** [node.element] of a node of the store. *)
Definition elementAt (w : world) (n : nref) : key * value :=
  default (0, Undefined) (Node.element <$> nodeAt w n).

(** ** Outcomes of the methods *)

Inductive error :=
  | SingleModeMutationOperationOccurred (operation : string)
  | LightweightModeOperationAfterMutationOperationOccurred (operation : string)
  | TypeError
  | RangeError
  | NonTermination.

Inductive result (A : Type) :=
  | Return (a : A) (w : world)
  | Throw (e : error) (w : world).
Arguments Return {A} a w.
Arguments Throw {A} e w.

(** [bindNodes] where the second node comes from a variable that may hold
    [null]: dereferencing it raises a [TypeError]. *)
Definition bindNodesOrThrow (M : Map.t) (previousNode : nref)
    (nextNode : option nref) (w : world) : result unit :=
  match nextNode with
  | Some nextNode =>
      Return tt (ModeOps.bindNodes (forMode (Map.mode M)) M previousNode nextNode w)
  | None => Throw TypeError w
  end.

(** The variables of the loop of [set]. *)
Module SetLoop.
Record t := make {
  map : option mref;
  justForked : bool;
  inserted : list (key * value);
  updated : list (key * value);
  keysMap : gset key;
  firstPrepend : bool;
  appendOperationOldTail : option nref;
  lastPrepend : option nref
}.
Definition init : t := make None false [] [] ∅ true None None.
Definition set_keysMap (s : gset key) (st : t) : t :=
  make (map st) (justForked st) (inserted st) (updated st) s
    (firstPrepend st) (appendOperationOldTail st) (lastPrepend st).
Definition set_inserted (l : list (key * value)) (st : t) : t :=
  make (map st) (justForked st) l (updated st) (keysMap st)
    (firstPrepend st) (appendOperationOldTail st) (lastPrepend st).
Definition set_updated (l : list (key * value)) (st : t) : t :=
  make (map st) (justForked st) (inserted st) l (keysMap st)
    (firstPrepend st) (appendOperationOldTail st) (lastPrepend st).
Definition set_fork (m : option mref) (jf : bool) (st : t) : t :=
  make m jf (inserted st) (updated st) (keysMap st)
    (firstPrepend st) (appendOperationOldTail st) (lastPrepend st).
Definition set_firstPrepend (b : bool) (st : t) : t :=
  make (map st) (justForked st) (inserted st) (updated st) (keysMap st)
    b (appendOperationOldTail st) (lastPrepend st).
Definition set_appendOperationOldTail (n : option nref) (st : t) : t :=
  make (map st) (justForked st) (inserted st) (updated st) (keysMap st)
    (firstPrepend st) n (lastPrepend st).
Definition set_lastPrepend (n : option nref) (st : t) : t :=
  make (map st) (justForked st) (inserted st) (updated st) (keysMap st)
    (firstPrepend st) (appendOperationOldTail st) n.
End SetLoop.

(** * The base class *)
Module ImmutableLinkedOrderedMap.

(** [map = (map && ((justForked = false) || map))
          || ((justForked = true) && forkMap(this))] *)
Definition forkOnce (this : mref) (st : SetLoop.t) (w : world)
    : mref * SetLoop.t * world :=
  match SetLoop.map st with
  | Some map => (map, SetLoop.set_fork (Some map) false st, w)
  | None =>
      let '(map, w) := forkMap this w in
      (map, SetLoop.set_fork (Some map) true st, w)
  end.

(** The closure [nodes] of [set]: what it returns is [false] ([None]) or an
    object carrying [newNext]. *)
Definition nodes (prependMissing : bool) (map : mref) (newNode : nref)
    (st : SetLoop.t) (w : world) : option (option nref) * SetLoop.t * world :=
  if prependMissing then
    let oldHead := Map.head (mapAt w map) in
    let w := updMap map (Map.set_head (Some newNode)) w in
    (Some oldHead, st, w)
  else
    if SetLoop.firstPrepend st then
      let st := SetLoop.set_firstPrepend false st in
      let st :=
        match Map.tail (mapAt w map) with
        | Some tl => SetLoop.set_appendOperationOldTail (Some tl) st
        | None => st
        end in
      let w := updMap map (Map.set_tail (Some newNode)) w in
      (None, SetLoop.set_lastPrepend (Some newNode) st, w)
    else
      (Some (SetLoop.lastPrepend st),
       SetLoop.set_lastPrepend (Some newNode) st, w).

Definition loopEnd (prependMissing : bool) (st : SetLoop.t) (w : world)
    : world :=
  if prependMissing then w
  else
    match SetLoop.lastPrepend st, SetLoop.map st with
    | Some lastPrepend, Some map =>
        let w :=
          if Map.head (mapAt w map) is None
          then updMap map (Map.set_head (Some lastPrepend)) w else w in
        match SetLoop.appendOperationOldTail st with
        | Some oldTail =>
            ModeOps.bindNodes (forMode (Map.mode (mapAt w map))) (mapAt w map)
              oldTail lastPrepend w
        | None => w
        end
    | _, _ => w
    end.

(** One turn of the loop of [set]. *)
Definition setItem (this : mref) (prependMissing : bool) (it : item)
    (st : SetLoop.t) (w : world) : result SetLoop.t :=
  let '(k, v) := keyValueForItem (Map.keyPropName (mapAt w this)) it in
  if bool_decide (k ∈ SetLoop.keysMap st) then Return st w
  else
    let st := SetLoop.set_keysMap ({[k]} ∪ SetLoop.keysMap st) st in
    match ModeOps.lookup (forMode (Map.mode (mapAt w this))) w (mapAt w this) k with
    | None =>
        (* Key is missing, either a new tail or a new head is needed. *)
        let '(map, st, w) := forkOnce this st w in
        let ops := forMode (Map.mode (mapAt w map)) in
        let '(newNode, w) :=
          ModeOps.makeImmutableLinkedOrderedMapNode ops (mapAt w map)
            None None k v w in
        let w := ModeOps.updateHeapMap ops (mapAt w map) newNode w in
        let bound :=
          if bool_decide (Map.tail (mapAt w map) = None) && prependMissing then
            let w := updMap map (Map.set_tail (Some newNode)) w in
            let w := updMap map (Map.set_head (Some newNode)) w in
            Return st w
          else
            let '(nodesRet, st, w) := nodes prependMissing map newNode st w in
            match nodesRet with
            | Some newNext =>
                match bindNodesOrThrow (mapAt w map) newNode newNext w with
                | Return _ w => Return st w
                | Throw e w => Throw e w
                end
            | None => Return st w
            end in
        match bound with
        | Return st w =>
            let w := updMap map (λ M, Map.set_length (Map.length M + 1) M) w in
            Return (SetLoop.set_inserted ((k, v) :: SetLoop.inserted st) st) w
        | Throw e w => Throw e w
        end
    | Some node =>
        if bool_decide (snd (elementAt w node) ≠ v) then
          (* Existent key, but value is different. *)
          let '(map, st, w) := forkOnce this st w in
          let ops := forMode (Map.mode (mapAt w map)) in
          let find (d : direction) : option nref :=
            let viaMap :=
              if SetLoop.justForked st then None
              else ModeOps.findMapNodeByDirection ops w (mapAt w map) node d in
            match viaMap with
            | Some n => Some n
            | None => ModeOps.findMapNodeByDirection ops w (mapAt w this) node d
            end in
          let previous := find Previous in
          let next := find Next in
          let '(newNode, w) :=
            ModeOps.makeImmutableLinkedOrderedMapNode ops (mapAt w map)
              None None k v w in
          let w :=
            ModeOps.updateHeapMap (forMode (Map.mode (mapAt w this)))
              (mapAt w map) newNode w in
          let w :=
            match previous with
            | Some previous => ModeOps.bindNodes ops (mapAt w map) previous newNode w
            | None => updMap map (Map.set_head (Some newNode)) w
            end in
          let '(st, w) :=
            match next with
            | Some next => (st, ModeOps.bindNodes ops (mapAt w map) newNode next w)
            | None =>
                if SetLoop.appendOperationOldTail st is Some _
                then (SetLoop.set_appendOperationOldTail (Some newNode) st, w)
                else (st, updMap map (Map.set_tail (Some newNode)) w)
            end in
          Return (SetLoop.set_updated ((k, v) :: SetLoop.updated st) st) w
        else Return st w
    end.

(** The loop proper: [i] runs from [items.length - 1] down to [0];
    [itemsDown] lists the items in that order. *)
Fixpoint setLoop (this : mref) (prependMissing : bool) (itemsDown : list item)
    (st : SetLoop.t) (w : world) : result SetLoop.t :=
  match itemsDown with
  | [] => Return st w
  | it :: itemsDown =>
      match setItem this prependMissing it st w with
      | Return st w => setLoop this prependMissing itemsDown st w
      | Throw e w => Throw e w
      end
  end.

(** [set(items, prependMissing)]; a single item is the one-element array. *)
Definition set (this : mref) (items : list item) (prependMissing : bool)
    (w : world) : result mref :=
  match items with
  | [] => Return this w
  | _ =>
      match setLoop this prependMissing (reverse items) SetLoop.init w with
      | Throw e w => Throw e w
      | Return st w =>
          let w := loopEnd prependMissing st w in
          match SetLoop.map st with
          | None => Return this w
          | Some map =>
              let w :=
                mapChange map
                  (ChangeSet (SetLoop.inserted st) (SetLoop.updated st)
                     prependMissing) w in
              Return map w
          end
      end
  end.

(** [lookup(this, key)] where the variable [key] may still be [undefined]
    ([None]): the heap map has no property of that name. *)
Definition lookupVariable (w : world) (M : Map.t) (k : option key)
    : option nref :=
  match k with
  | Some k => ModeOps.lookup (forMode (Map.mode M)) w M k
  | None => None
  end.

Definition replace (this : mref) (oldKey : key) (it : item)
    (addMissing prependMissing : bool) (w : world) : result mref :=
  let opsThis := forMode (Map.mode (mapAt w this)) in
  match ModeOps.lookup opsThis w (mapAt w this) oldKey with
  | None =>
      (* The old key does not exist. *)
      if addMissing then
        let '(map, w) := forkMap this w in
        (* [key] is declared above and assigned only below. *)
        let existentNodeForKey := lookupVariable w (mapAt w this) None in
        let '(k, v) := keyValueForItem (Map.keyPropName (mapAt w map)) it in
        let ops := forMode (Map.mode (mapAt w map)) in
        let '(newNode, w) :=
          ModeOps.makeImmutableLinkedOrderedMapNode ops (mapAt w map)
            None None k v w in
        let w := ModeOps.updateHeapMap ops (mapAt w map) newNode w in
        let '(hadExistentNodeForKey, wasUpdated, w) :=
          match existentNodeForKey with
          | Some existent =>
              if bool_decide (snd (elementAt w existent) ≠ v) then
                let w :=
                  if bool_decide (Map.head (mapAt w map) = Some existent)
                  then updMap map (Map.set_head (Some newNode)) w else w in
                let w :=
                  if bool_decide (Map.tail (mapAt w map) = Some existent)
                  then updMap map (Map.set_tail (Some newNode)) w else w in
                let existentPrevious :=
                  ModeOps.findMapNodeByDirection opsThis w (mapAt w this)
                    existent Previous in
                let existentNext :=
                  ModeOps.findMapNodeByDirection opsThis w (mapAt w this)
                    existent Next in
                let w :=
                  match existentPrevious with
                  | Some p => ModeOps.bindNodes ops (mapAt w map) p newNode w
                  | None => w
                  end in
                let w :=
                  match existentNext with
                  | Some n => ModeOps.bindNodes ops (mapAt w map) newNode n w
                  | None => w
                  end in
                (true, true, w)
              else (true, false, w)
          | None => (false, false, w)
          end in
        let '(wasInserted, w) :=
          if hadExistentNodeForKey then (false, w)
          else
            let w := updMap map (λ M, Map.set_length (Map.length M + 1) M) w in
            if negb prependMissing then
              (* Append new item. *)
              let newPrevious := Map.tail (mapAt w map) in
              let w := updMap map (Map.set_tail (Some newNode)) w in
              match newPrevious with
              | None =>
                  (true, updMap map (λ M, Map.set_head (Map.tail M) M) w)
              | Some newPrevious =>
                  (true, ModeOps.bindNodes ops (mapAt w map) newPrevious newNode w)
              end
            else
              (* Prepend new item. *)
              let newNext := Map.head (mapAt w map) in
              let w := updMap map (Map.set_head (Some newNode)) w in
              match newNext with
              | None =>
                  (true, updMap map (λ M, Map.set_tail (Map.head M) M) w)
              | Some newNext =>
                  (true, ModeOps.bindNodes ops (mapAt w map) newNode newNext w)
              end in
        let w :=
          mapChange map
            (ChangeReplace oldKey k v wasInserted wasUpdated
               hadExistentNodeForKey prependMissing) w in
        Return map w
      else Return this w
  | Some node =>
      (* The old key exists. *)
      let '(k, v) := keyValueForItem (Map.keyPropName (mapAt w this)) it in
      if bool_decide (snd (elementAt w node) ≠ v) then
        let '(map, w) := forkMap this w in
        let ops := forMode (Map.mode (mapAt w map)) in
        let '(newNode, w) :=
          ModeOps.makeImmutableLinkedOrderedMapNode ops (mapAt w map)
            None None k v w in
        let previous :=
          ModeOps.findMapNodeByDirection opsThis w (mapAt w this) node Previous in
        let next :=
          ModeOps.findMapNodeByDirection opsThis w (mapAt w this) node Next in
        let '(hadExistentNodeForKey, w) :=
          if bool_decide (oldKey ≠ k) then
            let w := addImmutableLinkedOrderedMapOrphanNode map oldKey w in
            match ModeOps.lookup opsThis w (mapAt w this) k with
            | Some existent =>
                let w :=
                  if bool_decide (snd (elementAt w existent) ≠ v) then
                    let w :=
                      if bool_decide (Map.head (mapAt w map) = Some existent)
                      then updMap map (Map.set_head (Some newNode)) w else w in
                    let w :=
                      if bool_decide (Map.tail (mapAt w map) = Some existent)
                      then updMap map (Map.set_tail (Some newNode)) w else w in
                    let existentPrevious :=
                      ModeOps.findMapNodeByDirection opsThis w (mapAt w this)
                        existent Previous in
                    let existentNext :=
                      ModeOps.findMapNodeByDirection opsThis w (mapAt w this)
                        existent Next in
                    let w :=
                      match existentPrevious with
                      | Some p =>
                          if bool_decide (node ≠ p) then
                            ModeOps.bindNodes ops (mapAt w map) p newNode w
                          else
                            match previous with
                            | Some previous =>
                                ModeOps.bindNodes ops (mapAt w map) previous
                                  newNode w
                            | None => updMap map (Map.set_head (Some newNode)) w
                            end
                      | None => w
                      end in
                    match existentNext with
                    | Some n =>
                        if bool_decide (node ≠ n) then
                          ModeOps.bindNodes ops (mapAt w map) newNode n w
                        else
                          match next with
                          | Some next =>
                              ModeOps.bindNodes ops (mapAt w map) newNode next w
                          | None => updMap map (Map.set_tail (Some newNode)) w
                          end
                    | None => w
                    end
                  else w in
                (true, updMap map (λ M, Map.set_length (Map.length M - 1) M) w)
            | None => (false, w)
            end
          else (false, w) in
        let w :=
          if hadExistentNodeForKey then w
          else
            match previous, next with
            | None, None =>
                let w := updMap map (Map.set_head (Some newNode)) w in
                updMap map (Map.set_tail (Some newNode)) w
            | None, Some next =>
                let w := updMap map (Map.set_head (Some newNode)) w in
                ModeOps.bindNodes ops (mapAt w map) newNode next w
            | Some previous, None =>
                let w := updMap map (Map.set_tail (Some newNode)) w in
                ModeOps.bindNodes ops (mapAt w map) previous newNode w
            | Some previous, Some next =>
                let w := ModeOps.bindNodes ops (mapAt w map) previous newNode w in
                ModeOps.bindNodes ops (mapAt w map) newNode next w
            end in
        let w := ModeOps.updateHeapMap ops (mapAt w map) newNode w in
        let w :=
          mapChange map
            (ChangeReplace oldKey k v false true hadExistentNodeForKey
               prependMissing) w in
        Return map w
      else Return this w
  end.

Definition unset (this : mref) (k : key) (w : world) : result mref :=
  match ModeOps.lookup (forMode (Map.mode (mapAt w this))) w (mapAt w this) k with
  | Some node =>
      (* Node exists and therefore must be unset in the new map. *)
      let '(map, w) := forkMap this w in
      let v := snd (elementAt w node) in
      let w := addImmutableLinkedOrderedMapOrphanNode map k w in
      let ops := forMode (Map.mode (mapAt w map)) in
      let previous :=
        ModeOps.findMapNodeByDirection ops w (mapAt w this) node Previous in
      let next :=
        ModeOps.findMapNodeByDirection ops w (mapAt w this) node Next in
      let w :=
        match previous, next with
        | None, None =>
            (* It's a head that's being removed, and also a tail. *)
            let w := updMap map (Map.set_head None) w in
            let w := updMap map (Map.set_tail None) w in
            updMap map (Map.set_length 0) w
        | None, Some next =>
            (* It's a head and has a next node. *)
            let '(nk, nv) := elementAt w next in
            let '(newHeadNode, w) :=
              ModeOps.makeImmutableLinkedOrderedMapNode ops (mapAt w map)
                None None nk nv w in
            let w := ModeOps.updateHeapMap ops (mapAt w map) newHeadNode w in
            let w := updMap map (Map.set_head (Some newHeadNode)) w in
            let nextNext :=
              ModeOps.findMapNodeByDirection ops w (mapAt w this) next Next in
            let w :=
              match nextNext with
              | None => updMap map (Map.set_tail (Some newHeadNode)) w
              | Some nextNext =>
                  ModeOps.bindNodes ops (mapAt w map) newHeadNode nextNext w
              end in
            updMap map (λ M, Map.set_length (Map.length M - 1) M) w
        | Some previous, None =>
            (* It's a tail that's being removed and it has a previous node. *)
            let '(pk, pv) := elementAt w previous in
            let '(newTailNode, w) :=
              ModeOps.makeImmutableLinkedOrderedMapNode ops (mapAt w map)
                None None pk pv w in
            let w := ModeOps.updateHeapMap ops (mapAt w map) newTailNode w in
            let w := updMap map (Map.set_tail (Some newTailNode)) w in
            let previousPrevious :=
              ModeOps.findMapNodeByDirection ops w (mapAt w this) previous
                Previous in
            let w :=
              match previousPrevious with
              | None => updMap map (Map.set_head (Some newTailNode)) w
              | Some previousPrevious =>
                  ModeOps.bindNodes ops (mapAt w map) previousPrevious
                    newTailNode w
              end in
            updMap map (λ M, Map.set_length (Map.length M - 1) M) w
        | Some previous, Some next =>
            (* It's a node in between. *)
            let w := ModeOps.bindNodes ops (mapAt w map) previous next w in
            updMap map (λ M, Map.set_length (Map.length M - 1) M) w
        end in
      let w := mapChange map (ChangeUnset k v) w in
      Return map w
  | None => Return this w
  end.

Definition empty (this : mref) (w : world) : result mref :=
  let This := mapAt w this in
  if bool_decide (Map.length This ≤ 0)%Z then Return this w
  else
    let '(map, w) :=
      newImmutableLinkedOrderedMap
        (Options (Some []) (Some (Map.keyPropName This))
           (Some (ImmutableLinkedOrderedMapMode (Map.mode This)))) w in
    let w := updMap map (Map.set_length 0) w in
    let w := updMap map (Map.set_depth (Map.depth This + 1)) w in
    let w := updMap map (Map.set_ancestorMap (Some this)) w in
    let w := mapChange map ChangeEmpty w in
    Return map w.

(** *** Reads *)

Definition get (this : mref) (k : key) (w : world) : value :=
  match ModeOps.lookup (forMode (Map.mode (mapAt w this))) w (mapAt w this) k with
  | Some node => snd (elementAt w node)
  | None => Undefined
  end.

Definition first (this : mref) (w : world) : option (key * value) :=
  match Map.head (mapAt w this) with
  | Some head => Some (elementAt w head)
  | None => None
  end.

Definition last (this : mref) (w : world) : option (key * value) :=
  match Map.tail (mapAt w this) with
  | Some tail => Some (elementAt w tail)
  | None => None
  end.

Definition isEmpty (this : mref) (w : world) : bool :=
  bool_decide (Map.length (mapAt w this) ≤ 0)%Z.

(** The [while (current)] loop of [forEach].  The callback receives value
    and key, threads the variables it captures and answers [false] for a
    returned [false]; callbacks here never call [break()].  The walk is a
    function of the current node alone, so one that takes more steps than
    the store has nodes never ends: [None]. *)
Fixpoint forEachLoop {S : Type} (fuel : nat) (w : world) (M : Map.t)
    (nextNodeDirection : direction) (fn : value → key → S → S * bool)
    (current : option nref) (s : S) : option S :=
  match current with
  | None => Some s
  | Some node =>
      match fuel with
      | 0 => None
      | Datatypes.S fuel =>
          let '(k, v) := elementAt w node in
          let '(s, continue) := fn v k s in
          if continue then
            forEachLoop fuel w M nextNodeDirection fn
              (ModeOps.findMapNodeByDirection (forMode (Map.mode M)) w M
                 node nextNodeDirection) s
          else Some s
      end
  end.

Definition forEach {S : Type} (this : mref) (fn : value → key → S → S * bool)
    (reversed : bool) (s : S) (w : world) : option S :=
  let This := mapAt w this in
  let '(current, nextNodeDirection) :=
    if reversed then (Map.tail This, Previous) else (Map.head This, Next) in
  forEachLoop (Datatypes.S (length (nodeStore w))) w This nextNodeDirection fn
    current s.

(** [new Array(n)] ([None] where that raises a [RangeError]) and
    [array[i] = x]; an array is the list of its slots, [None] a hole. *)
Definition newArray {A : Type} (n : Z) : option (list (option A)) :=
  if bool_decide (n < 0 ∨ 2 ^ 32 ≤ n)%Z then None
  else Some (replicate (Z.to_nat n) None).

Definition arrayAssign {A : Type} (array : list (option A)) (i : nat) (x : A)
    : list (option A) :=
  if bool_decide (i < length array) then <[i := Some x]> array
  else array ++ replicate (i - length array) None ++ [Some x].

(** [map(fn, reversed)]: [fn] receives value, key and index. *)
Definition map {B : Type} (this : mref) (fn : value → key → nat → B)
    (reversed : bool) (w : world) : result (list (option B)) :=
  match newArray (Map.length (mapAt w this)) with
  | None => Throw RangeError w
  | Some array =>
      match forEach this
              (λ v k '(array, i), ((arrayAssign array i (fn v k i), S i), true))
              reversed (array, 0) w with
      | Some (array, _) => Return array w
      | None => Throw NonTermination w
      end
  end.

Definition values (this : mref) (w : world) : result (list (option value)) :=
  match newArray (Map.length (mapAt w this)) with
  | None => Throw RangeError w
  | Some array =>
      match forEach this
              (λ v _ '(array, i), ((arrayAssign array i v, S i), true))
              false (array, 0) w with
      | Some (array, _) => Return array w
      | None => Throw NonTermination w
      end
  end.

Definition keys (this : mref) (w : world) : result (list (option key)) :=
  match newArray (Map.length (mapAt w this)) with
  | None => Throw RangeError w
  | Some array =>
      match forEach this
              (λ _ k '(array, i), ((arrayAssign array i k, S i), true))
              false (array, 0) w with
      | Some (array, _) => Return array w
      | None => Throw NonTermination w
      end
  end.

Definition keysValues (this : mref) (w : world)
    : result (list (option (key * value))) :=
  match newArray (Map.length (mapAt w this)) with
  | None => Throw RangeError w
  | Some array =>
      match forEach this
              (λ v k '(array, i), ((arrayAssign array i (k, v), S i), true))
              false (array, 0) w with
      | Some (array, _) => Return array w
      | None => Throw NonTermination w
      end
  end.

End ImmutableLinkedOrderedMap.

(** * The single-mode class *)
Module SingleModeImmutableLinkedOrderedMap.

Definition throwSingleModemutationOperationOccurredError {A : Type}
    (operation : string) (w : world) : result A :=
  Throw (SingleModeMutationOperationOccurred operation) w.

(** [if (this !== map) this.mutationOperationOccurred = true] *)
Definition noteMutation (this : mref) (r : result mref) : result mref :=
  match r with
  | Return map w =>
      if bool_decide (this ≠ map)
      then Return map (updMap this (Map.set_mutationOperationOccurred true) w)
      else Return map w
  | Throw e w => Throw e w
  end.

Definition set (this : mref) (items : list item) (prependMissing : bool)
    (w : world) : result mref :=
  if Map.mutationOperationOccurred (mapAt w this)
  then throwSingleModemutationOperationOccurredError "set" w
  else noteMutation this (ImmutableLinkedOrderedMap.set this items prependMissing w).

Definition replace (this : mref) (oldKey : key) (it : item)
    (addMissing prependMissing : bool) (w : world) : result mref :=
  if Map.mutationOperationOccurred (mapAt w this)
  then throwSingleModemutationOperationOccurredError "replace" w
  else
    noteMutation this
      (ImmutableLinkedOrderedMap.replace this oldKey it addMissing
         prependMissing w).

Definition unset (this : mref) (k : key) (w : world) : result mref :=
  if Map.mutationOperationOccurred (mapAt w this)
  then throwSingleModemutationOperationOccurredError "unset" w
  else noteMutation this (ImmutableLinkedOrderedMap.unset this k w).

Definition empty (this : mref) (w : world) : result mref :=
  if Map.mutationOperationOccurred (mapAt w this)
  then throwSingleModemutationOperationOccurredError "empty" w
  else noteMutation this (ImmutableLinkedOrderedMap.empty this w).

End SingleModeImmutableLinkedOrderedMap.

(** * The lightweight-mode class *)
Module LightweightModeImmutableLinkedOrderedMap.

Definition throwLightweightModeOperationAftermutationOperationOccurredError
    {A : Type} (operation : string) (w : world) : result A :=
  Throw (LightweightModeOperationAfterMutationOperationOccurred operation) w.

Definition noteMutation (this : mref) (r : result mref) : result mref :=
  match r with
  | Return map w =>
      if bool_decide (this ≠ map)
      then Return map (updMap this (Map.set_mutationOperationOccurred true) w)
      else Return map w
  | Throw e w => Throw e w
  end.

(** [this.mutationOperationOccurred && throw...(operation)], then the
    method of the base class. *)
Definition guarded {A : Type} (operation : string) (this : mref)
    (super : world → result A) (w : world) : result A :=
  if Map.mutationOperationOccurred (mapAt w this)
  then throwLightweightModeOperationAftermutationOperationOccurredError operation w
  else super w.

Definition set (this : mref) (items : list item) (prependMissing : bool)
    : world → result mref :=
  guarded "set" this (λ w,
    noteMutation this (ImmutableLinkedOrderedMap.set this items prependMissing w)).

Definition replace (this : mref) (oldKey : key) (it : item)
    (addMissing prependMissing : bool) : world → result mref :=
  guarded "replace" this (λ w,
    noteMutation this
      (ImmutableLinkedOrderedMap.replace this oldKey it addMissing
         prependMissing w)).

Definition unset (this : mref) (k : key) : world → result mref :=
  guarded "unset" this (λ w,
    noteMutation this (ImmutableLinkedOrderedMap.unset this k w)).

Definition empty (this : mref) : world → result mref :=
  guarded "empty" this (λ w,
    noteMutation this (ImmutableLinkedOrderedMap.empty this w)).

Definition get (this : mref) (k : key) : world → result value :=
  guarded "get" this (λ w, Return (ImmutableLinkedOrderedMap.get this k w) w).

Definition first (this : mref) : world → result (option (key * value)) :=
  guarded "first" this (λ w, Return (ImmutableLinkedOrderedMap.first this w) w).

Definition last (this : mref) : world → result (option (key * value)) :=
  guarded "last" this (λ w, Return (ImmutableLinkedOrderedMap.last this w) w).

Definition isEmpty (this : mref) : world → result bool :=
  guarded "isEmpty" this (λ w,
    Return (ImmutableLinkedOrderedMap.isEmpty this w) w).

Definition forEach {S : Type} (this : mref) (fn : value → key → S → S * bool)
    (reversed : bool) (s : S) : world → result S :=
  guarded "forEach" this (λ w,
    match ImmutableLinkedOrderedMap.forEach this fn reversed s w with
    | Some s => Return s w
    | None => Throw NonTermination w
    end).

Definition values (this : mref) : world → result (list (option value)) :=
  guarded "values" this (ImmutableLinkedOrderedMap.values this).

Definition keys (this : mref) : world → result (list (option key)) :=
  guarded "keys" this (ImmutableLinkedOrderedMap.keys this).

Definition keysValues (this : mref)
    : world → result (list (option (key * value))) :=
  guarded "keysValues" this (ImmutableLinkedOrderedMap.keysValues this).

Definition map {B : Type} (this : mref) (fn : value → key → nat → B)
    (reversed : bool) : world → result (list (option B)) :=
  guarded "map" this (ImmutableLinkedOrderedMap.map this fn reversed).

End LightweightModeImmutableLinkedOrderedMap.

(** * Method calls

    [M.method(...)] runs the method of the class of the instance [M]: the
    single-mode and lightweight-mode classes override what they gate, the
    multiway class inherits everything. *)
Module Call.
Module Base := ImmutableLinkedOrderedMap.
Module Single := SingleModeImmutableLinkedOrderedMap.
Module Light := LightweightModeImmutableLinkedOrderedMap.

Definition classOf (w : world) (this : mref) : Mode := Map.mode (mapAt w this).

Definition set (this : mref) (items : list item) (prependMissing : bool)
    (w : world) : result mref :=
  match classOf w this with
  | SINGLE => Single.set this items prependMissing w
  | MULTIWAY => Base.set this items prependMissing w
  | LIGHTWEIGHT => Light.set this items prependMissing w
  end.

Definition replace (this : mref) (oldKey : key) (it : item)
    (addMissing prependMissing : bool) (w : world) : result mref :=
  match classOf w this with
  | SINGLE => Single.replace this oldKey it addMissing prependMissing w
  | MULTIWAY => Base.replace this oldKey it addMissing prependMissing w
  | LIGHTWEIGHT => Light.replace this oldKey it addMissing prependMissing w
  end.

Definition unset (this : mref) (k : key) (w : world) : result mref :=
  match classOf w this with
  | SINGLE => Single.unset this k w
  | MULTIWAY => Base.unset this k w
  | LIGHTWEIGHT => Light.unset this k w
  end.

Definition empty (this : mref) (w : world) : result mref :=
  match classOf w this with
  | SINGLE => Single.empty this w
  | MULTIWAY => Base.empty this w
  | LIGHTWEIGHT => Light.empty this w
  end.

Definition get (this : mref) (k : key) (w : world) : result value :=
  match classOf w this with
  | LIGHTWEIGHT => Light.get this k w
  | _ => Return (Base.get this k w) w
  end.

Definition first (this : mref) (w : world) : result (option (key * value)) :=
  match classOf w this with
  | LIGHTWEIGHT => Light.first this w
  | _ => Return (Base.first this w) w
  end.

Definition last (this : mref) (w : world) : result (option (key * value)) :=
  match classOf w this with
  | LIGHTWEIGHT => Light.last this w
  | _ => Return (Base.last this w) w
  end.

Definition isEmpty (this : mref) (w : world) : result bool :=
  match classOf w this with
  | LIGHTWEIGHT => Light.isEmpty this w
  | _ => Return (Base.isEmpty this w) w
  end.

Definition forEach {S : Type} (this : mref) (fn : value → key → S → S * bool)
    (reversed : bool) (s : S) (w : world) : result S :=
  match classOf w this with
  | LIGHTWEIGHT => Light.forEach this fn reversed s w
  | _ =>
      match Base.forEach this fn reversed s w with
      | Some s => Return s w
      | None => Throw NonTermination w
      end
  end.

Definition values (this : mref) (w : world) : result (list (option value)) :=
  match classOf w this with
  | LIGHTWEIGHT => Light.values this w
  | _ => Base.values this w
  end.

Definition keys (this : mref) (w : world) : result (list (option key)) :=
  match classOf w this with
  | LIGHTWEIGHT => Light.keys this w
  | _ => Base.keys this w
  end.

Definition keysValues (this : mref) (w : world)
    : result (list (option (key * value))) :=
  match classOf w this with
  | LIGHTWEIGHT => Light.keysValues this w
  | _ => Base.keysValues this w
  end.

Definition map {B : Type} (this : mref) (fn : value → key → nat → B)
    (reversed : bool) (w : world) : result (list (option B)) :=
  match classOf w this with
  | LIGHTWEIGHT => Light.map this fn reversed w
  | _ => Base.map this fn reversed w
  end.
End Call.

(** * The mutable linked list and linked ordered map used internally

    [LinkedList] and [LinkedOrderedMap] as the source writes them: nodes
    that are mutated in place live in a store of their own and are named by
    references.  The module [LinkedOrderedMap] above is the view of the
    second one as an association list. *)

Module LinkedList.

(** How a call ends when it does not return: a property of [null] is read
    or written ([TypeError]), an [Error] or a [RangeError] is thrown, a
    reference names no node of the store (which JavaScript cannot form), or
    a loop does not end. *)
Inductive exception :=
  | TypeError
  | Error (message : string)
  | RangeError
  | NoSuchNode
  | NonTermination.

Inductive outcome (X : Type) :=
  | Done (x : X)
  | Raise (e : exception).
Arguments Done {X} x.
Arguments Raise {X} e.

Definition bind {X Y : Type} (o : outcome X) (k : X → outcome Y) : outcome Y :=
  match o with
  | Done x => k x
  | Raise e => Raise e
  end.

Section Def.
Context {A : Type}.

(** [makeNode(previous, next, element)] *)
Record node := makeNode {
  previous : option nat;
  next : option nat;
  element : A
}.

Definition set_previous (p : option nat) (N : node) : node :=
  makeNode p (next N) (element N).
Definition set_next (x : option nat) (N : node) : node :=
  makeNode (previous N) x (element N).
Definition set_element (e : A) (N : node) : node :=
  makeNode (previous N) (next N) e.

(** The nodes of the lists, by reference. *)
Definition store := list node.

(** [node.field = ...] on the node of a reference. *)
Definition update (n : nat) (f : node → node) (st : store) : outcome store :=
  match st !! n with
  | Some _ => Done (alter f n st)
  | None => Raise NoSuchNode
  end.

(** The list object. *)
Record t := make {
  head : option nat;
  tail : option nat;
  length : Z;
  shouldNextForEachBreak : bool
}.

Definition set_head (h : option nat) (l : t) : t :=
  make h (tail l) (length l) (shouldNextForEachBreak l).
Definition set_tail (tl : option nat) (l : t) : t :=
  make (head l) tl (length l) (shouldNextForEachBreak l).
Definition set_length (n : Z) (l : t) : t :=
  make (head l) (tail l) n (shouldNextForEachBreak l).
Definition set_shouldNextForEachBreak (b : bool) (l : t) : t :=
  make (head l) (tail l) (length l) b.

(** [new LinkedList()] *)
Definition new : t := make None None 0 false.

(** [append(anything)] returns the new node. *)
Definition append (anything : A) (l : t) (st : store)
    : outcome (nat * t * store) :=
  let l := set_length (length l + 1) l in
  let newNode := List.length st in
  match head l with
  | Some _ =>
      let oldTail := tail l in
      let st := st ++ [makeNode oldTail None anything] in
      let l := set_tail (Some newNode) l in
      match oldTail with
      | Some oldTail =>
          bind (update oldTail (set_next (Some newNode)) st) (λ st,
          Done (newNode, l, st))
      | None => Raise TypeError
      end
  | None =>
      let st := st ++ [makeNode None None anything] in
      let l := set_tail (Some newNode) l in
      let l := set_head (tail l) l in
      Done (newNode, l, st)
  end.

(** [prepend(anything)] returns the new node. *)
Definition prepend (anything : A) (l : t) (st : store)
    : outcome (nat * t * store) :=
  let l := set_length (length l + 1) l in
  let newNode := List.length st in
  match head l with
  | Some oldHead =>
      let st := st ++ [makeNode None (Some oldHead) anything] in
      let l := set_head (Some newNode) l in
      bind (update oldHead (set_previous (Some newNode)) st) (λ st,
      Done (newNode, l, st))
  | None =>
      let st := st ++ [makeNode None None anything] in
      let l := set_tail (Some newNode) l in
      let l := set_head (tail l) l in
      Done (newNode, l, st)
  end.

(** [remove(node)]; the argument may be [null]. *)
Definition remove (node : option nat) (l : t) (st : store)
    : outcome (t * store) :=
  match node with
  | None => Done (l, st)
  | Some node =>
      match st !! node with
      | None => Raise NoSuchNode
      | Some N =>
          match previous N, next N with
          | Some p, Some x =>
              bind (update p (set_next (Some x)) st) (λ st,
              bind (update x (set_previous (Some p)) st) (λ st,
              Done (set_length (length l - 1) l, st)))
          | Some p, None =>
              bind (update p (set_next None) st) (λ st,
              let l := set_tail (Some p) l in
              Done (set_length (length l - 1) l, st))
          | None, Some x =>
              let l := set_head (Some x) l in
              bind (update x (set_previous None) st) (λ st,
              Done (set_length (length l - 1) l, st))
          | None, None =>
              Done (set_length 0 (set_tail None (set_head None l)), st)
          end
      end
  end.

(** [pop()] and [shift()] return the element removed, or [undefined]
    ([None]). *)
Definition pop (l : t) (st : store) : outcome (option A * t * store) :=
  match tail l with
  | Some tl =>
      match st !! tl with
      | None => Raise NoSuchNode
      | Some N =>
          bind (remove (Some tl) l st) (λ '(l, st),
          Done (Some (element N), l, st))
      end
  | None => Done (None, l, st)
  end.

Definition shift (l : t) (st : store) : outcome (option A * t * store) :=
  match head l with
  | Some h =>
      match st !! h with
      | None => Raise NoSuchNode
      | Some N =>
          bind (remove (Some h) l st) (λ '(l, st),
          Done (Some (element N), l, st))
      end
  | None => Done (None, l, st)
  end.

(** The [while (current)] loop of [forEach].  The callback sees the list
    ([this.shouldNextForEachBreak]), receives index and element, threads
    the variables it captures, and answers whether what it returned is
    other than [false] and whether it called [this.break()]. *)
Fixpoint forEachLoop {S : Type} (fuel : nat)
    (fn : bool → Z → A → S → S * bool * bool) (reversed : bool) (st : store)
    (flag : bool) (current : option nat) (i : Z) (s : S)
    : outcome (S * bool) :=
  match current with
  | None => Done (s, flag)
  | Some c =>
      if flag then Done (s, flag)
      else
        match fuel with
        | 0 => Raise NonTermination
        | Datatypes.S fuel =>
            match st !! c with
            | None => Raise NoSuchNode
            | Some N =>
                let '(s, continue, break) := fn flag i (element N) s in
                let flag := flag || break in
                if continue then
                  forEachLoop fuel fn reversed st flag
                    (if reversed then previous N else next N)
                    (if reversed then i - 1 else i + 1)%Z s
                else Done (s, flag)
            end
        end
  end.

Definition forEach {S : Type} (fn : bool → Z → A → S → S * bool * bool)
    (reversed : bool) (s : S) (l : t) (st : store) : outcome (S * t) :=
  let l := set_shouldNextForEachBreak false l in
  let '(i, current) :=
    if reversed then ((length l - 1)%Z, tail l) else (0%Z, head l) in
  bind (forEachLoop (Datatypes.S (List.length st)) fn reversed st
          (shouldNextForEachBreak l) current i s) (λ '(s, flag),
  Done (s, set_shouldNextForEachBreak flag l)).

(** [break()] *)
Definition break (l : t) : t := set_shouldNextForEachBreak true l.

End Def.
Arguments node : clear implicits.
Arguments store : clear implicits.
End LinkedList.

(** The [LinkedOrderedMap] of the source: a hash from keys to the nodes of
    a linked list of [{ key, value }] elements.  The keys are the numbers
    and the version strings the library uses, for which [key in this.map]
    and [this.map[key]] test and read own properties. *)
Module MutableLinkedOrderedMap.
Import LinkedList.
Section Def.
Context {K V : Type} `{Countable K}.

Record t := make {
  map : gmap K nat;
  keyValueList : LinkedList.t;
  shouldNextForEachBreak : bool
}.

Definition set_map (h : gmap K nat) (m : t) : t :=
  make h (keyValueList m) (shouldNextForEachBreak m).
Definition set_keyValueList (l : LinkedList.t) (m : t) : t :=
  make (map m) l (shouldNextForEachBreak m).
Definition set_shouldNextForEachBreak (b : bool) (m : t) : t :=
  make (map m) (keyValueList m) b.

(** [new LinkedOrderedMap()] *)
Definition new : t := make ∅ LinkedList.new false.

(** [set(key, value, prepend)] *)
Definition set (key : K) (value : V) (prepend : bool) (m : t)
    (st : store (K * V)) : outcome (t * store (K * V)) :=
  match map m !! key with
  | Some node =>
      (* key already exists, replace value. *)
      bind (update node (λ N, set_element (fst (element N), value) N) st) (λ st,
      Done (m, st))
  | None =>
      (* Insert new key and value. *)
      bind ((if prepend then LinkedList.prepend else LinkedList.append)
              (key, value) (keyValueList m) st) (λ '(node, l, st),
      let m := set_keyValueList l m in
      Done (set_map (<[key := node]> (map m)) m, st))
  end.

(** [remove(key)] *)
Definition remove (key : K) (m : t) (st : store (K * V))
    : outcome (t * store (K * V)) :=
  match map m !! key with
  | Some node =>
      bind (LinkedList.remove (Some node) (keyValueList m) st) (λ '(l, st),
      let m := set_keyValueList l m in
      Done (set_map (delete key (map m)) m, st))
  | None => Raise (Error "key does not exist")
  end.

(** [getLength()] and [isEmpty()] *)
Definition getLength (m : t) : Z := LinkedList.length (keyValueList m).

Definition isEmpty (m : t) : bool := bool_decide (getLength m ≤ 0)%Z.

(** [get(key)], and [get(key, true)], which returns the node. *)
Definition get (key : K) (m : t) (st : store (K * V)) : outcome (option V) :=
  match map m !! key with
  | Some node =>
      match st !! node with
      | Some N => Done (Some (snd (element N)))
      | None => Raise NoSuchNode
      end
  | None => Done None
  end.

Definition getWholeNode (key : K) (m : t) : option nat := map m !! key.

(** [forEach(f, reversed)].  The callback receives key and value, threads
    the variables it captures, and answers whether what it returned is
    other than [false] and whether it called [this.break()], which sets the
    flag of the map; the function handed to the list tests the flag of the
    list. *)
Definition forEach {S : Type} (f : K → V → S → S * bool * bool)
    (reversed : bool) (s : S) (m : t) (st : store (K * V)) : outcome (S * t) :=
  let m := set_shouldNextForEachBreak false m in
  bind (LinkedList.forEach
          (λ (listFlag : bool) (_ : Z) (element : K * V) '(s, mapFlag),
             if negb listFlag then
               let '(s, continue, break) := f (fst element) (snd element) s in
               ((s, mapFlag || break), continue, false)
             else ((s, mapFlag), false, false))
          reversed (s, shouldNextForEachBreak m) (keyValueList m) st)
    (λ '((s, mapFlag), l),
       Done (s, set_shouldNextForEachBreak mapFlag (set_keyValueList l m))).

(** [break()] *)
Definition break (m : t) : t := set_shouldNextForEachBreak true m.

(** [toArray()] and [keys()]: [new Array(this.getLength())], filled by a
    [forEach]. *)
Definition arrayOf {B : Type} (g : K → V → B) (m : t) (st : store (K * V))
    : outcome (list (option B) * t) :=
  match ImmutableLinkedOrderedMap.newArray (getLength m) with
  | None => Raise RangeError
  | Some array =>
      bind (forEach
              (λ k v '(array, i),
                 ((ImmutableLinkedOrderedMap.arrayAssign array i (g k v), S i),
                  true, false))
              false (array, 0) m st) (λ '((array, _), m),
      Done (array, m))
  end.

Definition toArray (m : t) (st : store (K * V))
    : outcome (list (option V) * t) :=
  arrayOf (λ _ v, v) m st.

Definition keys (m : t) (st : store (K * V))
    : outcome (list (option K) * t) :=
  arrayOf (λ k _, k) m st.

(** [LinkedOrderedMap.fromArray(array, key)]; [keyOf] reads the property
    [key] of an item. *)
Fixpoint fromArrayLoop (keyOf : V → K) (array : list V) (m : t)
    (st : store (K * V)) : outcome (t * store (K * V)) :=
  match array with
  | [] => Done (m, st)
  | item :: array =>
      bind (set (keyOf item) item false m st) (λ '(m, st),
      fromArrayLoop keyOf array m st)
  end.

Definition fromArray (keyOf : V → K) (array : list V) (st : store (K * V))
    : outcome (t * store (K * V)) :=
  fromArrayLoop keyOf array new st.

End Def.
Arguments t : clear implicits.
Arguments t K {_ _}.
End MutableLinkedOrderedMap.

Local Close Scope string_scope.
Module Base := ImmutableLinkedOrderedMap.
Module Single := SingleModeImmutableLinkedOrderedMap.
Module Light := LightweightModeImmutableLinkedOrderedMap.

(** * Observing outcomes *)

Definition returned {A : Type} (r : result A) : option A :=
  match r with Return a _ => Some a | Throw _ _ => None end.

Definition thrown {A : Type} (r : result A) : option error :=
  match r with Return _ _ => None | Throw e _ => Some e end.

Definition worldAfter {A : Type} (r : result A) : world :=
  match r with Return _ w => w | Throw _ w => w end.

(** * Sequences of calls

    The calls that change the store: the factory and the four mutation
    methods.  [run] gives the store a call leaves behind, whether it returns
    or throws. *)
Inductive mutation :=
  | MSet (items : list item) (prependMissing : bool)
  | MReplace (oldKey : key) (it : item) (addMissing prependMissing : bool)
  | MUnset (k : key)
  | MEmpty.

Definition invoke (this : mref) (μ : mutation) (w : world) : result mref :=
  match μ with
  | MSet items prependMissing => Call.set this items prependMissing w
  | MReplace oldKey it addMissing prependMissing =>
      Call.replace this oldKey it addMissing prependMissing w
  | MUnset k => Call.unset this k w
  | MEmpty => Call.empty this w
  end.

(** The method of the base class behind a mutation. *)
Definition super (this : mref) (μ : mutation) (w : world) : result mref :=
  match μ with
  | MSet items prependMissing =>
      ImmutableLinkedOrderedMap.set this items prependMissing w
  | MReplace oldKey it addMissing prependMissing =>
      ImmutableLinkedOrderedMap.replace this oldKey it addMissing prependMissing w
  | MUnset k => ImmutableLinkedOrderedMap.unset this k w
  | MEmpty => ImmutableLinkedOrderedMap.empty this w
  end.

(** The name under which a mutation is reported by the gates. *)
Definition operationName (μ : mutation) : string :=
  match μ with
  | MSet _ _ => "set"
  | MReplace _ _ _ _ => "replace"
  | MUnset _ => "unset"
  | MEmpty => "empty"
  end.

Inductive call :=
  | New (o : options)
  | Method (this : mref) (μ : mutation).

Definition run (c : call) (w : world) : world :=
  match c with
  | New o => snd (newImmutableLinkedOrderedMap o w)
  | Method this μ => worldAfter (invoke this μ w)
  end.

Definition runAll (cs : list call) (w : world) : world :=
  fold_left (λ w c, run c w) cs w.

(** * The gates of the maps of the store

    The gate of a map is armed in single and lightweight mode once a mutation
    has produced another map. *)
Definition gateArmed (w : world) (m : mref) : bool :=
  Map.mutationOperationOccurred (mapAt w m).

(** The two errors the gates raise. *)
Definition isGateError (e : error) : bool :=
  match e with
  | SingleModeMutationOperationOccurred _
  | LightweightModeOperationAfterMutationOperationOccurred _ => true
  | _ => false
  end.

(** An outcome other than a refusal by a gate. *)
Definition notRefused {A : Type} (r : result A) : Prop :=
  ∀ e, thrown r = Some e → isGateError e = false.

(** The maps of [w] are still there in [w'], each with its mode and with its
    gate as it was, and no map created since has its gate armed. *)
Definition gatesKept (w w' : world) : Prop :=
  length (mapStore w) ≤ length (mapStore w') ∧
  (∀ m, m < length (mapStore w) →
    Map.mode (mapAt w' m) = Map.mode (mapAt w m) ∧
    gateArmed w' m = gateArmed w m) ∧
  (∀ m, length (mapStore w) ≤ m → gateArmed w' m = false).

(** A field update that touches neither mode nor gate. *)
Definition keepsGate (f : Map.t → Map.t) : Prop :=
  ∀ M, Map.mode (f M) = Map.mode M ∧
       Map.mutationOperationOccurred (f M) = Map.mutationOperationOccurred M.

(** The maps of [w] are still there in [w'], each with its mode, and every
    gate that was armed still is. *)
Definition gatesGrow (w w' : world) : Prop :=
  length (mapStore w) ≤ length (mapStore w') ∧
  ∀ m, m < length (mapStore w) →
    Map.mode (mapAt w' m) = Map.mode (mapAt w m) ∧
    (gateArmed w m = true → gateArmed w' m = true).

(** A call answered by the method of the base class, which no gate refuses. *)
Definition served {A : Type} (called base : result A) : Prop :=
  called = base ∧ notRefused base.

(** The reads of a map are answered: the four direct ones return what the
    base class computes, the traversals are those of the base class. *)
Definition readsAnswered (w : world) (M : mref) : Prop :=
  (∀ k, Call.get M k w = Return (Base.get M k w) w) ∧
  Call.first M w = Return (Base.first M w) w ∧
  Call.last M w = Return (Base.last M w) w ∧
  Call.isEmpty M w = Return (Base.isEmpty M w) w ∧
  (∀ (S : Type) (fn : value → key → S → S * bool) reversed s,
     notRefused (Call.forEach M fn reversed s w)) ∧
  served (Call.values M w) (Base.values M w) ∧
  served (Call.keys M w) (Base.keys M w) ∧
  served (Call.keysValues M w) (Base.keysValues M w) ∧
  (∀ (B : Type) (fn : value → key → nat → B) reversed,
     served (Call.map M fn reversed w) (Base.map M fn reversed w)).

(** Every read of a map is refused by the lightweight gate, the store left
    as it is. *)
Definition readsRefused (w : world) (M : mref) : Prop :=
  let refused {A : Type} (operation : string) : result A :=
    Throw (LightweightModeOperationAfterMutationOperationOccurred operation) w in
  (∀ k, Call.get M k w = refused "get") ∧
  Call.first M w = refused "first" ∧
  Call.last M w = refused "last" ∧
  Call.isEmpty M w = refused "isEmpty" ∧
  (∀ (S : Type) (fn : value → key → S → S * bool) reversed s,
     Call.forEach M fn reversed s w = refused "forEach") ∧
  Call.values M w = refused "values" ∧
  Call.keys M w = refused "keys" ∧
  Call.keysValues M w = refused "keysValues" ∧
  (∀ (B : Type) (fn : value → key → nat → B) reversed,
     Call.map M fn reversed w = refused "map").

(** * Small stores to evaluate on *)

Definition optionsFor (mode : Mode) (items : list item) : options :=
  Options (Some items) None (Some (ImmutableLinkedOrderedMapMode mode)).

(** The map the factory builds in an empty store; it is map [0]. *)
Definition fresh (mode : Mode) (items : list item) : world :=
  snd (newImmutableLinkedOrderedMap (optionsFor mode items) emptyWorld).

(** [{id: k, ...}], the object of identity [n]. *)
Definition obj (k : key) (n : nat) : item := ItemObject k (Val n).

Definition twoItems : list item := [obj 1 10; obj 2 20].

Definition threeItems : list item := [obj 1 10; obj 2 20; obj 3 30].

(** Two items under one key. *)
Definition sameKeyTwice : list item := [obj 1 10; obj 1 11].

(** A multiway root without items and ten children of it: child [i], for
    [i] from 1 to 10, is [root.set({id: i})] and is map [i] of the store. *)
Definition tenChildren : world :=
  runAll ((λ i, Method 0 (MSet [obj i (10 * i)] false)) <$> seq 1 10)
    (fresh MULTIWAY []).

(** [unset(1)] on the map of [threeItems]; the result is map [1]. *)
Definition afterUnset (mode : Mode) : world :=
  run (Method 0 (MUnset 1)) (fresh mode threeItems).

(** A lightweight map without items whose gate a [set] has armed; it is
    map [0]. *)
Definition lockedEmpty : world :=
  run (Method 0 (MSet [obj 1 10] false)) (fresh LIGHTWEIGHT []).

(** The map the factory builds in an empty store when given no options. *)
Definition freshDefault : world :=
  snd (newImmutableLinkedOrderedMap (Options None None None) emptyWorld).

(** * Items sharing a key *)

Definition keyOf (it : item) : key := fst (keyValueForItem DEFAULT_KEY_PROP_NAME it).
Definition valueOf (it : item) : value :=
  snd (keyValueForItem DEFAULT_KEY_PROP_NAME it).

(** The items without those that a later item of the same key follows: of
    the entries sharing a key the one of highest index stays. *)
Fixpoint keepLast (items : list item) : list item :=
  match items with
  | [] => []
  | it :: rest =>
      if bool_decide (keyOf it ∈ keyOf <$> rest) then keepLast rest
      else it :: keepLast rest
  end.

(** The value of the entry of highest index among those of key [k]. *)
Fixpoint lastEntry (k : key) (items : list item) : option value :=
  match items with
  | [] => None
  | it :: rest =>
      match lastEntry k rest with
      | Some v => Some v
      | None => if bool_decide (keyOf it = k) then Some (valueOf it) else None
      end
  end.

(** The key of the last item occurs once. *)
Definition lastKeyOnce (items : list item) : Prop :=
  match reverse items with
  | [] => True
  | lastItem :: itemsBelow => keyOf lastItem ∉ keyOf <$> itemsBelow
  end.

(** What a walk that skips the keys it has [seen] goes through. *)
Fixpoint firstOccurrences (seen : gset key) (items : list item) : list item :=
  match items with
  | [] => []
  | it :: rest =>
      if bool_decide (keyOf it ∈ seen) then firstOccurrences seen rest
      else it :: firstOccurrences ({[keyOf it]} ∪ seen) rest
  end.

(** Key 1 twice, then key 2. *)
Definition sameKeyThenAnother : list item := [obj 1 10; obj 1 11; obj 2 20].

(** [set] of [sameKeyTwice] on a single-mode map without items; the result
    is map [1]. *)
Definition afterSetTwice : world :=
  run (Method 0 (MSet sameKeyTwice false)) (fresh SINGLE []).

(** * Well-formed maps *)

(** The nodes a traversal goes through, from [current] on in direction [d];
    [None] when the walk outlasts its fuel. *)
Fixpoint walk (fuel : nat) (w : world) (M : Map.t) (d : direction)
    (current : option nref) : option (list nref) :=
  match current with
  | None => Some []
  | Some node =>
      match fuel with
      | 0 => None
      | S fuel =>
          cons node <$>
            walk fuel w M d
              (ModeOps.findMapNodeByDirection (forMode (Map.mode M)) w M node d)
      end
  end.

(** The nodes of a map, walked as [forEach] walks them: from the head by
    [Next], or from the tail by [Previous]. *)
Definition nodesOf (w : world) (m : mref) (d : direction) : option (list nref) :=
  let M := mapAt w m in
  walk (S (length (nodeStore w))) w M d
    (match d with Next => Map.head M | Previous => Map.tail M end).

Definition keyAt (w : world) (n : nref) : key := fst (elementAt w n).

(** The invariants of a map of the store: walking from the head reaches the
    tail in [length] steps through nodes of the store, walking back from the
    tail goes through the same nodes in reverse (I1); the keys of these
    nodes are pairwise distinct (I2); and the heap index resolves each of
    these keys, from this map, to its node. *)
Definition wellFormed (w : world) (m : mref) : Prop :=
  m < length (mapStore w) ∧
  ∃ chain,
    nodesOf w m Next = Some chain ∧
    nodesOf w m Previous = Some (reverse chain) ∧
    Z.of_nat (length chain) = Map.length (mapAt w m) ∧
    NoDup (keyAt w <$> chain) ∧
    Forall (λ n,
      n < length (nodeStore w) ∧
      ModeOps.lookup (forMode (Map.mode (mapAt w m))) w (mapAt w m) (keyAt w n)
      = Some n) chain.

(** A key of one of the nodes of the map. *)
Definition present (w : world) (m : mref) (k : key) : Prop :=
  ∃ chain, nodesOf w m Next = Some chain ∧ k ∈ keyAt w <$> chain.

(** Whether the heap map of [M] holds, under key [k], an entry for
    [depth]. *)
Definition layerAt (w : world) (M : Map.t) (k : key) (depth : nat) : bool :=
  match heapAt w (Map.heapMap M) with
  | Some (SingleHeap h) =>
      LinkedOrderedMap.has depth (default LinkedOrderedMap.new (h !! k))
  | Some (MultiwayHeap h) =>
      LinkedOrderedMap.has depth (default LinkedOrderedMap.new (h !! k))
  | _ => false
  end.

(** The heap map [h] of the store is one of [mode]. *)
Definition heapOf (mode : Mode) (w : world) (h : href) : Prop :=
  match heapAt w h, mode with
  | Some (SingleHeap _), SINGLE
  | Some (MultiwayHeap _), MULTIWAY
  | Some (LightweightHeap _), LIGHTWEIGHT => True
  | _, _ => False
  end.

(** Reads look at the depth, the version, the heap map, the head and the
    tail of the map they are asked for, not at its other fields. *)
Definition sameView (M M' : Map.t) : Prop :=
  Map.heapMap M' = Map.heapMap M ∧ Map.depth M' = Map.depth M ∧
  Map.version M' = Map.version M ∧ Map.head M' = Map.head M ∧
  Map.tail M' = Map.tail M.


(** What [unset] keeps true of the store once the orphan node [o] of [k] is
    planted in [map], the fork of [this] made in the store [w0]: the fork
    and the receiver are the maps they were, up to the head, tail, length
    and change record of the fork; the fork resolves [k] to the orphan; the
    receiver resolves [k] as in [w0], where the mode keeps depths; and the
    elements of the nodes of [w0] are the ones they were. *)
Definition unsetting (w0 : world) (this : mref) (k : key) (map : mref)
    (o : nref) (len : Z) (w : world) : Prop :=
  let mode := Map.mode (mapAt w0 this) in
  this < length (mapStore w0) ∧ map = length (mapStore w0) ∧
  map < length (mapStore w) ∧
  Map.mode (mapAt w map) = mode ∧
  Map.mutationOperationOccurred (mapAt w map) = false ∧
  Map.length (mapAt w map) = len ∧
  Map.mode (mapAt w this) = mode ∧
  Map.mutationOperationOccurred (mapAt w this)
  = Map.mutationOperationOccurred (mapAt w0 this) ∧
  sameView (mapAt w0 this) (mapAt w this) ∧
  ModeOps.lookup (forMode mode) w (mapAt w map) k = Some o ∧
  o < length (nodeStore w) ∧
  elementAt w o = (k, Undefined) ∧
  (mode ≠ LIGHTWEIGHT →
   ModeOps.lookup (forMode mode) w (mapAt w this) k
   = ModeOps.lookup (forMode mode) w0 (mapAt w0 this) k) ∧
  length (nodeStore w0) ≤ length (nodeStore w) ∧
  (∀ n, n < length (nodeStore w0) → elementAt w n = elementAt w0 n).

(** * Traversals *)

(** What a traversal leaves in the variables of its callback, given the
    entries it goes through: the callback is called on each entry in turn
    until it answers [false]. *)
Fixpoint visit {S : Type} (fn : value → key → S → S * bool)
    (entries : list (key * value)) (s : S) : S :=
  match entries with
  | [] => s
  | (k, v) :: entries =>
      let '(s, continue) := fn v k s in
      if continue then visit fn entries s else s
  end.

(** The nodes of a map from its head on, and their elements. *)
Definition chainOf (w : world) (m : mref) : list nref :=
  default [] (nodesOf w m Next).

Definition entriesOf (w : world) (m : mref) : list (key * value) :=
  elementAt w <$> chainOf w m.

(** The map is not a lightweight map that a mutation has locked. *)
Definition readable (w : world) (m : mref) : Prop :=
  Map.mode (mapAt w m) ≠ LIGHTWEIGHT ∨ gateArmed w m = false.

(** A mutation of the map is not refused: it is a multiway map, or no
    mutation has armed its gate. *)
Definition mutable (w : world) (m : mref) : Prop :=
  Map.mode (mapAt w m) = MULTIWAY ∨ gateArmed w m = false.

(** The map resolves the key of the item to a node that holds the value of
    the item ([===]). *)
Definition stored (w : world) (m : mref) (it : item) : Prop :=
  ∃ node,
    ModeOps.lookup (forMode (Map.mode (mapAt w m))) w (mapAt w m) (keyOf it)
    = Some node ∧
    snd (elementAt w node) = valueOf it.

(** * Maps fresh from the factory *)

(** The neighbour field that [make...Node] gives a node created for a map
    of the given depth and version, and that [bindNodes] leaves in it when
    it binds the node for a map of the same depth and version: one entry,
    for that depth (and that version). *)
Definition flatLinks (mode : Mode) (depth : nat) (version : string)
    (neighbour : option nref) : links :=
  match mode with
  | SINGLE => SingleLinks [(depth, neighbour)]
  | MULTIWAY => MultiwayLinks [(depth, [(version, neighbour)])]
  | LIGHTWEIGHT => LightweightLinks neighbour
  end.

(** The heap map of [M] is one of the mode of [M] and has no entry under
    [k]. *)
Definition unknown (w : world) (M : Map.t) (k : key) : Prop :=
  match heapAt w (Map.heapMap M), Map.mode M with
  | Some (SingleHeap h), SINGLE => h !! k = None
  | Some (MultiwayHeap h), MULTIWAY => h !! k = None
  | Some (LightweightHeap h), LIGHTWEIGHT => h !! k = None
  | _, _ => False
  end.

(** The key and the value of an item. *)
Definition entryOf (it : item) : key * value := (keyOf it, valueOf it).

(** The nodes that [appendInitialItemsToMap] has created so far for the
    entries [made], the entry of the last item first: they are the nodes of
    the store from [n0] on, each bound to the one created before it (its
    next node) and to the one created after it (its previous node). *)
Definition builtNode (mode : Mode) (n0 : nref) (made : list (key * value))
    (i : nat) (kv : key * value) : Node.t :=
  Node.make
    (flatLinks mode 0 MULTIWAY_MODE_INITIAL_MAP_TREE_DEPTH_VERSION
       (if bool_decide (S i = length made) then None else Some (n0 + S i)))
    (flatLinks mode 0 MULTIWAY_MODE_INITIAL_MAP_TREE_DEPTH_VERSION
       (match i with 0 => None | S i' => Some (n0 + i') end))
    kv.

Definition built (w : world) (m : mref) (mode : Mode) (n0 : nref) (h0 : href)
    (made : list (key * value)) : Prop :=
  let M := mapAt w m in
  m < length (mapStore w) ∧
  Map.mode M = mode ∧ Map.depth M = 0 ∧ Map.heapMap M = h0 ∧
  Map.version M = MULTIWAY_MODE_INITIAL_MAP_TREE_DEPTH_VERSION ∧
  Map.mutationOperationOccurred M = false ∧
  Map.length M = Z.of_nat (length made) ∧
  Map.tail M = (if made is [] then None else Some n0) ∧
  length (nodeStore w) = n0 + length made ∧
  (∀ i kv, made !! i = Some kv →
     nodeAt w (n0 + i) = Some (builtNode mode n0 made i kv) ∧
     ModeOps.lookup (forMode mode) w M (fst kv) = Some (n0 + i)) ∧
  (∀ k, k ∉ made.*1 → unknown w M k).

From Stdlib Require DecimalFacts DecimalNat.

(** * Versions of multiway maps *)

(** The version [forkMultiwayModeMap] gives the fork that brings the
    children count of a map of version [version] to [count]. *)
Definition childVersion (version : string) (count : nat) : string :=
  if (String.length version =? 0)%nat then decimal count
  else (version +:+ MULTIWAY_MODE_MAP_TREE_DEPTH_VERSION_SEPARATOR
          +:+ decimal count)%string.

(** * Linked lists in the store *)

Section Cells.
Context {A : Type}.
Implicit Types (st : LinkedList.store A) (cells : list (nat * A)).

(** The reference of the first of the cells, or [otherwise]; of the last of
    them, or [otherwise]. *)
Definition firstRef (cells : list (nat * A)) (otherwise : option nat)
    : option nat :=
  match cells with
  | [] => otherwise
  | (n, _) :: _ => Some n
  end.

Definition lastRef (cells : list (nat * A)) (otherwise : option nat)
    : option nat :=
  match last cells with
  | Some (n, _) => Some n
  | None => otherwise
  end.

(** The cells, each a reference with the element of its node, are linked
    to one another in this order, the first one to [before] and the last
    one to [after]. *)
Fixpoint linked (st : LinkedList.store A) (before : option nat)
    (cells : list (nat * A)) (after : option nat) : Prop :=
  match cells with
  | [] => True
  | (n, x) :: rest =>
      st !! n = Some (LinkedList.makeNode before (firstRef rest after) x) ∧
      linked st (Some n) rest after
  end.

(** The list object is the list of these cells: no cell twice, linked from
    the head to the tail, counted by [length]. *)
Definition listOf (st : LinkedList.store A) (l : LinkedList.t)
    (cells : list (nat * A)) : Prop :=
  NoDup cells.*1 ∧
  linked st None cells None ∧
  LinkedList.head l = firstRef cells None ∧
  LinkedList.tail l = lastRef cells None ∧
  LinkedList.length l = Z.of_nat (length cells).

(** The nodes of the store other than those of the cells are in [st'] what
    they are in [st]. *)
Definition othersKept (st st' : LinkedList.store A) (cells : list (nat * A))
    : Prop :=
  ∀ n, n < length st → n ∉ cells.*1 → st' !! n = st !! n.

(** What a [forEach] of a list leaves in the variables of its callback and
    in the flag of the list, given the elements it goes through and the
    index of the first one. *)
Fixpoint listVisit {S : Type} (fn : bool → Z → A → S → S * bool * bool)
    (step : Z) (elements : list A) (i : Z) (s : S) : S * bool :=
  match elements with
  | [] => (s, false)
  | x :: elements =>
      let '(s, continue, break) := fn false i x s in
      if continue then
        if break then (s, true) else listVisit fn step elements (i + step)%Z s
      else (s, break)
  end.

End Cells.

(** * Linked ordered maps in the store *)

Section Entries.
Context {K V : Type} `{Countable K}.

(** The map object holds the entries of the cells, in this order: its list
    is the list of the cells, and its hash leads from each key to the cell
    of that key. *)
Definition mapOf (st : LinkedList.store (K * V)) (m : MutableLinkedOrderedMap.t K)
    (cells : list (nat * (K * V))) : Prop :=
  listOf st (MutableLinkedOrderedMap.keyValueList m) cells ∧
  ∀ k n, MutableLinkedOrderedMap.map m !! k = Some n
         ↔ ∃ v, (n, (k, v)) ∈ cells.

End Entries.

(** A list of two elements and a map of two entries, as two calls of
    [append] and of [set] leave them in an empty store. *)
Definition twoNodes {A : Type} (a b : A) : LinkedList.store A :=
  [LinkedList.makeNode None (Some 1) a; LinkedList.makeNode (Some 0) None b].

Definition twoList : LinkedList.t := LinkedList.make (Some 0) (Some 1) 2 false.

Definition twoCells {A : Type} (a b : A) : list (nat * A) := [(0, a); (1, b)].

Definition twoMap : MutableLinkedOrderedMap.t nat :=
  MutableLinkedOrderedMap.make {[1 := 0; 2 := 1]} twoList false.

(** * The first mutation of a map fresh from the factory *)

(** The heap map holds, under each of its keys, one entry: that of a root
    (depth 0, initial version). *)
Definition rootHeap (mode : Mode) (w : world) (h : href) : Prop :=
  match heapAt w h, mode with
  | Some (SingleHeap hp), SINGLE =>
      ∀ k e, hp !! k = Some e → ∃ n, e = [(0, n)]
  | Some (MultiwayHeap hp), MULTIWAY =>
      ∀ k e, hp !! k = Some e →
        ∃ n, e = [(0, [(MULTIWAY_MODE_INITIAL_MAP_TREE_DEPTH_VERSION, n)])]
  | Some (LightweightHeap _), LIGHTWEIGHT => True
  | _, _ => False
  end.

(** The neighbour field of a node of a root once [bindNodes] has bound the
    node for a map of depth [depth] and version [version]: the entry of
    that map on top of the entry of the root.  In lightweight mode the
    field holds the new neighbour only. *)
Definition layeredLinks (mode : Mode) (depth : nat) (version : string)
    (over under : option nref) : links :=
  match mode with
  | SINGLE => SingleLinks [(depth, over); (0, under)]
  | MULTIWAY =>
      MultiwayLinks
        [(depth, [(version, over)]);
         (0, [(MULTIWAY_MODE_INITIAL_MAP_TREE_DEPTH_VERSION, under)])]
  | LIGHTWEIGHT => LightweightLinks over
  end.

(** * Lemmas on the store *)

Section Store.
Implicit Types (w : world) (m : mref) (n : nref) (M : Map.t).

Lemma mapAt_updMap_eq w m f :
  m < length (mapStore w) → mapAt (updMap m f w) m = f (mapAt w m).
Proof.
  intros Hm. unfold mapAt, updMap; simpl.
  destruct (lookup_lt_is_Some_2 (mapStore w) m Hm) as [M HM].
  rewrite list_lookup_alter_eq, HM. reflexivity.
Qed.

Lemma mapAt_updMap_ne w m m' f :
  m ≠ m' → mapAt (updMap m f w) m' = mapAt w m'.
Proof.
  intros Hne. unfold mapAt, updMap; simpl.
  rewrite list_lookup_alter_ne by done. reflexivity.
Qed.

Lemma length_updMap w m f :
  length (mapStore (updMap m f w)) = length (mapStore w).
Proof. unfold updMap; simpl. apply length_alter. Qed.

Lemma mapAt_allocMap_new w M :
  mapAt (snd (allocMap M w)) (fst (allocMap M w)) = M.
Proof.
  unfold mapAt, allocMap; simpl.
  rewrite lookup_app_r by lia. replace (_ - _) with 0 by lia. reflexivity.
Qed.

Lemma mapAt_allocMap_old w M m :
  m < length (mapStore w) → mapAt (snd (allocMap M w)) m = mapAt w m.
Proof.
  intros Hm. unfold mapAt, allocMap; simpl. rewrite lookup_app_l by done.
  reflexivity.
Qed.

Lemma length_allocMap w M :
  length (mapStore (snd (allocMap M w))) = S (length (mapStore w)).
Proof. unfold allocMap; simpl. rewrite length_app; simpl. lia. Qed.

End Store.

(** ** The maps of the store under the primitive steps *)

Lemma gateArmed_beyond w m : length (mapStore w) ≤ m → gateArmed w m = false.
Proof.
  intros H. unfold gateArmed, mapAt. rewrite lookup_ge_None_2 by done. done.
Qed.

Lemma gatesKept_refl w : gatesKept w w.
Proof. split; [lia | split; [auto | apply gateArmed_beyond]]. Qed.

Lemma gatesKept_trans w1 w2 w3 :
  gatesKept w1 w2 → gatesKept w2 w3 → gatesKept w1 w3.
Proof.
  intros (L12 & H12 & N12) (L23 & H23 & N23). split; [lia | split].
  - intros m Hm. destruct (H12 m Hm) as [<- <-]. apply H23. lia.
  - intros m Hm. destruct (decide (m < length (mapStore w2))) as [Hlt | Hge].
    + destruct (H23 m Hlt) as [_ ->]. by apply N12.
    + apply N23. lia.
Qed.

Lemma gatesKept_mapStore w0 w w' :
  mapStore w' = mapStore w → gatesKept w0 w → gatesKept w0 w'.
Proof.
  intros E (L & H & N). unfold gatesKept, gateArmed, mapAt in *. rewrite E. auto.
Qed.

Lemma gatesKept_updMap w0 w m f :
  keepsGate f → gatesKept w0 w → gatesKept w0 (updMap m f w).
Proof.
  intros Hf (L & H & N).
  assert (∀ m', Map.mode (mapAt (updMap m f w) m') = Map.mode (mapAt w m') ∧
                gateArmed (updMap m f w) m' = gateArmed w m') as Hkeep.
  { intros m'. unfold gateArmed. destruct (decide (m = m')) as [-> | Hne].
    - destruct (decide (m' < length (mapStore w))) as [Hlt | Hge].
      + rewrite mapAt_updMap_eq by done. apply Hf.
      + unfold mapAt, updMap; simpl.
        rewrite list_lookup_alter_eq, lookup_ge_None_2 by lia. done.
    - rewrite mapAt_updMap_ne by done. done. }
  split; [rewrite length_updMap; lia | split].
  - intros m' Hm'. destruct (Hkeep m') as [-> ->]. by apply H.
  - intros m' Hm'. destruct (Hkeep m') as [_ ->]. by apply N.
Qed.

Lemma gatesKept_allocMap w0 w M r w' :
  allocMap M w = (r, w') → Map.mutationOperationOccurred M = false →
  gatesKept w0 w → gatesKept w0 w'.
Proof.
  intros E HM (L & H & N).
  replace w' with (snd (allocMap M w)) by (rewrite E; done).
  split; [rewrite length_allocMap; lia | split].
  - intros m Hm. unfold gateArmed. rewrite mapAt_allocMap_old by lia. apply H, Hm.
  - intros m Hm. destruct (decide (m < length (mapStore w))) as [Hlt | Hge].
    + unfold gateArmed. rewrite mapAt_allocMap_old by done. by apply N.
    + destruct (decide (m = length (mapStore w))) as [-> | Hne].
      * unfold gateArmed.
        change (length (mapStore w)) with (fst (allocMap M w)).
        by rewrite mapAt_allocMap_new.
      * apply gateArmed_beyond. rewrite length_allocMap. lia.
Qed.

Lemma mapStore_allocHeap h w r w' :
  allocHeap h w = (r, w') → mapStore w' = mapStore w.
Proof. intros [= _ <-]. reflexivity. Qed.

Lemma mapStore_bindNodes mode M a b w :
  mapStore (ModeOps.bindNodes (forMode mode) M a b w) = mapStore w.
Proof. destruct mode; reflexivity. Qed.

Lemma mapStore_updateHeapMap mode M a w :
  mapStore (ModeOps.updateHeapMap (forMode mode) M a w) = mapStore w.
Proof.
  destruct mode; simpl;
    [unfold updateSingleModeHeapMap | unfold updateMultiWayModeHeapMap
     | unfold updateLightweightModeHeapMap];
    destruct (nodeAt w a); reflexivity.
Qed.

Lemma mapStore_makeNode mode M p x k v w r w' :
  ModeOps.makeImmutableLinkedOrderedMapNode (forMode mode) M p x k v w = (r, w') →
  mapStore w' = mapStore w.
Proof. destruct mode; simpl; intros [= <- <-]; reflexivity. Qed.

Lemma nodeStore_makeNode mode M p x k v w r w' :
  ModeOps.makeImmutableLinkedOrderedMapNode (forMode mode) M p x k v w = (r, w') →
  r = length (nodeStore w) ∧
  ∃ N, nodeStore w' = nodeStore w ++ [N] ∧ Node.element N = (k, v).
Proof.
  destruct mode; simpl; intros [= <- <-]; (split; [done |]);
    eexists; split; reflexivity.
Qed.

Lemma keepsGate_compose f g : keepsGate f → keepsGate g → keepsGate (f ∘ g).
Proof. intros Hf Hg M. simpl. destruct (Hf (g M)) as [-> ->]. apply Hg. Qed.

Lemma forkMap_gatesKept w0 w this r w' :
  forkMap this w = (r, w') → gatesKept w0 w → gatesKept w0 w'.
Proof.
  unfold forkMap. destruct (allocMap _ w) as [newMap w1] eqn:Ealloc.
  intros E H. apply (gatesKept_allocMap _ _ _ _ _ Ealloc eq_refl) in H.
  assert (gatesKept w0 (updMap newMap (λ N, Map.set_depth (S (Map.depth N)) N) w1))
    as H1 by (apply gatesKept_updMap; [intros ?; split; reflexivity | done]).
  destruct (Map.mode (mapAt w this)); simpl in E; injection E as <- <-; try done.
  unfold forkMultiwayModeMap.
  repeat (apply gatesKept_updMap; [intros ?; split; reflexivity |]). done.
Qed.

Lemma forkMap_ref w this r w' :
  forkMap this w = (r, w') → r = length (mapStore w).
Proof.
  unfold forkMap. simpl. destruct (Map.mode (mapAt w this)); simpl;
    intros [= <- _]; reflexivity.
Qed.

Lemma incrementLengthAndRecord_gatesKept w0 map k s w s' w' :
  incrementLengthAndRecord map k s w = (s', w') →
  gatesKept w0 w → gatesKept w0 w'.
Proof.
  unfold incrementLengthAndRecord. intros [= _ <-] H.
  apply gatesKept_updMap; [intros ?; split; reflexivity | done].
Qed.

Lemma addOrphan_gatesKept w0 map k w :
  gatesKept w0 w → gatesKept w0 (addImmutableLinkedOrderedMapOrphanNode map k w).
Proof.
  intros H. unfold addImmutableLinkedOrderedMapOrphanNode.
  destruct (ModeOps.makeImmutableLinkedOrderedMapNode _ _ _ _ _ _ _)
    as [newNode w1] eqn:E.
  apply (gatesKept_mapStore _ _ _ (mapStore_updateHeapMap _ _ _ _)).
  apply (gatesKept_mapStore _ _ _ (mapStore_makeNode _ _ _ _ _ _ _ _ _ E)), H.
Qed.

(** Peeling the steps of a method off a goal [gatesKept w0 _]. *)
Ltac gates_step :=
  match goal with
  | |- gatesKept ?w ?w => apply gatesKept_refl
  | H : gatesKept ?w0 ?w |- gatesKept ?w0 ?w => exact H
  | |- gatesKept _ (updMap _ _ _) =>
      apply gatesKept_updMap; [intros ?; split; reflexivity |]
  | |- gatesKept _ (mapChange _ _ _) => unfold mapChange
  | |- gatesKept _ (addImmutableLinkedOrderedMapOrphanNode _ _ _) =>
      apply addOrphan_gatesKept
  | |- gatesKept _ (ModeOps.bindNodes (forMode _) _ _ _ _) =>
      apply (gatesKept_mapStore _ _ _ (mapStore_bindNodes _ _ _ _ _))
  | |- gatesKept _ (ModeOps.updateHeapMap (forMode _) _ _ _) =>
      apply (gatesKept_mapStore _ _ _ (mapStore_updateHeapMap _ _ _ _))
  | E : ModeOps.makeImmutableLinkedOrderedMapNode (forMode _) _ _ _ _ _ _ = (_, ?w)
    |- gatesKept _ ?w =>
      apply (gatesKept_mapStore _ _ _ (mapStore_makeNode _ _ _ _ _ _ _ _ _ E))
  | E : forkMap _ _ = (_, ?w) |- gatesKept _ ?w => apply (forkMap_gatesKept _ _ _ _ _ E)
  | E : allocMap _ _ = (_, ?w) |- gatesKept _ ?w =>
      apply (gatesKept_allocMap _ _ _ _ _ E eq_refl)
  | E : incrementLengthAndRecord _ _ _ _ = (_, ?w) |- gatesKept _ ?w =>
      apply (incrementLengthAndRecord_gatesKept _ _ _ _ _ _ _ E)
  | E : allocHeap _ _ = (_, ?w) |- gatesKept _ ?w =>
      apply (gatesKept_mapStore _ _ _ (mapStore_allocHeap _ _ _ _ E))
  end.

(** * The methods of the base class keep every mode and every gate *)

Arguments incrementLengthAndRecord : simpl never.
Arguments forkMap : simpl never.
Arguments hydrateNew : simpl never.
Arguments appendInitialItemsToMap : simpl never.
Arguments addImmutableLinkedOrderedMapOrphanNode : simpl never.
Arguments mapChange : simpl never.
Arguments updMap : simpl never.
Arguments mapAt : simpl never.
Arguments elementAt : simpl never.

Ltac destruct_let :=
  match goal with
  | |- context [match ?e with _ => _ end] =>
      match type of e with
      | prod _ _ => destruct e as [? ?] eqn:?
      end
  end.

(** Case analysis on a scrutinee that has no case analysis inside. *)
Ltac destruct_inner :=
  match goal with
  | |- context [match ?x with _ => _ end] =>
      lazymatch x with
      | context [match _ with _ => _ end] => fail
      | _ => destruct x eqn:?
      end
  end.

Ltac gates :=
  repeat first [ gates_step | progress cbn [worldAfter fst snd] | destruct_inner ].

Lemma appendInitialItemsLoop_gatesKept w0 map itemsBelow :
  ∀ keysMap lastNode w r w',
    appendInitialItemsLoop map itemsBelow keysMap lastNode w = (r, w') →
    gatesKept w0 w → gatesKept w0 w'.
Proof.
  induction itemsBelow as [| it itemsBelow IH]; cbn [appendInitialItemsLoop];
    intros keysMap lastNode w r w'.
  - intros [= _ <-]. done.
  - destruct_let. destruct (bool_decide _); [apply IH |].
    repeat destruct_let.
    intros E H. eapply IH; [exact E |]. gates.
Qed.

Lemma appendInitialItemsToMap_gatesKept w0 map items w :
  gatesKept w0 w → gatesKept w0 (appendInitialItemsToMap map items w).
Proof.
  intros H. unfold appendInitialItemsToMap.
  destruct (reverse items) as [| lastItem itemsBelow]; [done |].
  repeat destruct_let.
  destruct itemsBelow as [| it itemsBelow].
  - gates.
  - match goal with
    | E : appendInitialItemsLoop _ _ _ _ _ = _ |- _ =>
        apply (appendInitialItemsLoop_gatesKept w0) in E; [| gates]
    end.
    gates.
Qed.

Lemma hydrateNew_gatesKept w0 keyPropName mode w r w' :
  hydrateNew keyPropName mode w = (r, w') → gatesKept w0 w → gatesKept w0 w'.
Proof. unfold hydrateNew. destruct_let. intros E H. gates. Qed.

Lemma newImmutableLinkedOrderedMap_gatesKept w0 o w :
  gatesKept w0 w → gatesKept w0 (snd (newImmutableLinkedOrderedMap o w)).
Proof.
  intros H. unfold newImmutableLinkedOrderedMap.
  destruct (hydrateNew _ _ w) as [map w1] eqn:Ehyd. simpl.
  apply appendInitialItemsToMap_gatesKept.
  eapply hydrateNew_gatesKept; [exact Ehyd | exact H].
Qed.

Arguments Base.forkOnce : simpl never.
Arguments Base.nodes : simpl never.
Arguments Base.loopEnd : simpl never.
Arguments Base.setItem : simpl never.
Arguments newImmutableLinkedOrderedMap : simpl never.

Lemma forkOnce_gatesKept w0 this st w map st' w' :
  Base.forkOnce this st w = (map, st', w') → gatesKept w0 w → gatesKept w0 w'.
Proof.
  unfold Base.forkOnce. destruct (SetLoop.map st).
  - intros [= _ _ <-]. done.
  - destruct_let. intros [= _ _ <-] H. gates.
Qed.

Lemma nodes_gatesKept w0 prependMissing map newNode st w ret st' w' :
  Base.nodes prependMissing map newNode st w = (ret, st', w') →
  gatesKept w0 w → gatesKept w0 w'.
Proof.
  unfold Base.nodes. destruct prependMissing.
  - intros [= _ _ <-] H. gates.
  - destruct (SetLoop.firstPrepend st); intros [= _ _ <-] H; gates.
Qed.

Lemma loopEnd_gatesKept w0 prependMissing st w :
  gatesKept w0 w → gatesKept w0 (Base.loopEnd prependMissing st w).
Proof. intros H. unfold Base.loopEnd. gates. Qed.

Lemma setItem_gatesKept w0 this prependMissing it st w :
  gatesKept w0 w →
  gatesKept w0 (worldAfter (Base.setItem this prependMissing it st w)).
Proof.
  intros H. unfold Base.setItem, bindNodesOrThrow.
  repeat first
    [ gates_step
    | progress cbn [worldAfter fst snd]
    | match goal with
      | E : Base.forkOnce _ _ _ = (_, _, ?w) |- gatesKept _ ?w =>
          apply (forkOnce_gatesKept _ _ _ _ _ _ _ E)
      | E : Base.nodes _ _ _ _ _ = (_, _, ?w) |- gatesKept _ ?w =>
          apply (nodes_gatesKept _ _ _ _ _ _ _ _ _ E)
      end
    | destruct_inner ].
Qed.

Lemma setLoop_gatesKept w0 this prependMissing itemsDown :
  ∀ st w, gatesKept w0 w →
    gatesKept w0 (worldAfter (Base.setLoop this prependMissing itemsDown st w)).
Proof.
  induction itemsDown as [| it itemsDown IH]; intros st w H; [done |].
  cbn [Base.setLoop].
  pose proof (setItem_gatesKept w0 this prependMissing it st w H) as Hit.
  destruct (Base.setItem this prependMissing it st w); [apply IH |]; done.
Qed.

Lemma set_gatesKept w0 this items prependMissing w :
  gatesKept w0 w →
  gatesKept w0 (worldAfter (Base.set this items prependMissing w)).
Proof.
  intros H. unfold Base.set. destruct items as [| it items]; [done |].
  pose proof (setLoop_gatesKept w0 this prependMissing (reverse (it :: items))
                SetLoop.init w H) as Hloop.
  destruct (Base.setLoop _ _ _ _ _) as [st w1 | e w1]; [| done].
  simpl in Hloop. pose proof (loopEnd_gatesKept w0 prependMissing st w1 Hloop).
  destruct (SetLoop.map st); gates.
Qed.

Lemma replace_gatesKept w0 this oldKey it addMissing prependMissing w :
  gatesKept w0 w →
  gatesKept w0
    (worldAfter (Base.replace this oldKey it addMissing prependMissing w)).
Proof. intros H. unfold Base.replace, Base.lookupVariable. gates. Qed.

Lemma unset_gatesKept w0 this k w :
  gatesKept w0 w → gatesKept w0 (worldAfter (Base.unset this k w)).
Proof.
  intros H. unfold Base.unset. gates.
Qed.

Lemma empty_gatesKept w0 this w :
  gatesKept w0 w → gatesKept w0 (worldAfter (Base.empty this w)).
Proof.
  intros H. unfold Base.empty.
  destruct (bool_decide _); [done |].
  destruct (newImmutableLinkedOrderedMap _ w) as [map w1] eqn:Enew.
  assert (gatesKept w0 w1) as H1.
  { replace w1 with (snd (newImmutableLinkedOrderedMap
      (Options (Some []) (Some (Map.keyPropName (mapAt w this)))
         (Some (ImmutableLinkedOrderedMapMode (Map.mode (mapAt w this))))) w))
      by (rewrite Enew; done).
    by apply newImmutableLinkedOrderedMap_gatesKept. }
  gates.
Qed.

(** * A mutation returns the receiver or a map created by the call *)

Lemma forkOnce_map this st w map st' w' :
  Base.forkOnce this st w = (map, st', w') →
  SetLoop.map st' = Some map ∧
  (SetLoop.map st = Some map ∨
   SetLoop.map st = None ∧ map = length (mapStore w)).
Proof.
  unfold Base.forkOnce. destruct (SetLoop.map st) as [map0 |] eqn:Est.
  - intros [= <- <- _]. auto.
  - destruct (forkMap this w) as [map1 w1] eqn:Efork. intros [= <- <- _].
    split; [done |]. right. split; [done |]. by eapply forkMap_ref.
Qed.

Lemma nodes_map prependMissing map newNode st w ret st' w' :
  Base.nodes prependMissing map newNode st w = (ret, st', w') →
  SetLoop.map st' = SetLoop.map st.
Proof.
  unfold Base.nodes. destruct prependMissing.
  - intros [= _ <- _]. done.
  - destruct (SetLoop.firstPrepend st).
    + destruct (Map.tail (mapAt w map)); intros [= _ <- _]; done.
    + intros [= _ <- _]. done.
Qed.

(** The map a turn of the loop of [set] works on is the one of the turn
    before, or one it has just created. *)
Lemma setItem_map this prependMissing it st w st' w' :
  Base.setItem this prependMissing it st w = Return st' w' →
  SetLoop.map st' = SetLoop.map st ∨
  SetLoop.map st = None ∧ SetLoop.map st' = Some (length (mapStore w)).
Proof.
  unfold Base.setItem, bindNodesOrThrow.
  repeat destruct_inner; cbn [worldAfter]; try discriminate;
    intros [= <- <-]; cbn;
    repeat match goal with
    | E : Base.forkOnce _ _ _ = _ |- _ => apply forkOnce_map in E; cbn in E
    | E : Base.nodes _ _ _ _ _ = _ |- _ => apply nodes_map in E; cbn in E
    | E : (_, _) = (_, _) |- _ => injection E as <- <-
    end;
    cbn in *; intuition (subst; try congruence; eauto).
Qed.

Lemma setLoop_map this prependMissing itemsDown :
  ∀ st w st' w',
    Base.setLoop this prependMissing itemsDown st w = Return st' w' →
    SetLoop.map st' = SetLoop.map st ∨
    ∃ map, SetLoop.map st' = Some map ∧ length (mapStore w) ≤ map.
Proof.
  induction itemsDown as [| it itemsDown IH]; intros st w st' w';
    cbn [Base.setLoop].
  - intros [= <- <-]. auto.
  - destruct (Base.setItem this prependMissing it st w) as [st1 w1 | e w1] eqn:Eit;
      [| done].
    intros Eloop. pose proof (setItem_gatesKept w this prependMissing it st w
                                (gatesKept_refl w)) as (L & _).
    rewrite Eit in L; simpl in L.
    destruct (setItem_map _ _ _ _ _ _ _ Eit) as [Esame | [_ Enew]];
      destruct (IH _ _ _ _ Eloop) as [E1 | (map & E1 & Hm)].
    + left. congruence.
    + right. exists map. split; [done | lia].
    + right. exists (length (mapStore w)). split; [congruence | lia].
    + right. exists map. split; [done | lia].
Qed.

Lemma set_result this items prependMissing w map w' :
  Base.set this items prependMissing w = Return map w' →
  map = this ∨ length (mapStore w) ≤ map.
Proof.
  unfold Base.set. destruct items as [| it items]; [intros [= <- _]; auto |].
  destruct (Base.setLoop _ _ _ _ _) as [st w1 | e w1] eqn:Eloop; [| done].
  destruct (setLoop_map _ _ _ _ _ _ _ Eloop) as [E | (map0 & E & Hm)];
    rewrite E; simpl.
  - intros [= <- _]. auto.
  - intros [= <- _]. auto.
Qed.

Lemma replace_result this oldKey it addMissing prependMissing w map w' :
  Base.replace this oldKey it addMissing prependMissing w = Return map w' →
  map = this ∨ length (mapStore w) ≤ map.
Proof.
  unfold Base.replace.
  repeat destruct_inner; intros [= <- _]; auto;
    match goal with
    | E : forkMap _ _ = _ |- _ => apply forkMap_ref in E; subst
    end; right; lia.
Qed.

Lemma unset_result this k w map w' :
  Base.unset this k w = Return map w' →
  map = this ∨ length (mapStore w) ≤ map.
Proof.
  unfold Base.unset.
  repeat destruct_inner; intros [= <- _]; auto;
    match goal with
    | E : forkMap _ _ = _ |- _ => apply forkMap_ref in E; subst
    end; right; lia.
Qed.

Lemma newImmutableLinkedOrderedMap_ref o w :
  fst (newImmutableLinkedOrderedMap o w) = length (mapStore w).
Proof.
  unfold newImmutableLinkedOrderedMap, hydrateNew, allocHeap, allocMap.
  reflexivity.
Qed.

Lemma empty_result this w map w' :
  Base.empty this w = Return map w' →
  map = this ∨ length (mapStore w) ≤ map.
Proof.
  unfold Base.empty. destruct (bool_decide _); [intros [= <- _]; auto |].
  destruct (newImmutableLinkedOrderedMap _ w) as [map1 w1] eqn:Enew.
  intros [= <- _]. right.
  pose proof (newImmutableLinkedOrderedMap_ref
    (Options (Some []) (Some (Map.keyPropName (mapAt w this)))
       (Some (ImmutableLinkedOrderedMapMode (Map.mode (mapAt w this))))) w) as E.
  rewrite Enew in E. simpl in E. lia.
Qed.

(** ** The map the loop of [set] works on is a map of the store *)

Lemma forkMap_length this w r w' :
  forkMap this w = (r, w') → length (mapStore w') = S (length (mapStore w)).
Proof.
  unfold forkMap, allocMap. destruct (ModeOps.fork _) as [fork |] eqn:Efork.
  - destruct (Map.mode (mapAt w this)); simpl in Efork; try discriminate.
    injection Efork as <-. intros [= _ <-]. unfold forkMultiwayModeMap.
    rewrite !length_updMap. simpl. rewrite length_app. simpl. lia.
  - intros [= _ <-]. rewrite length_updMap. simpl. rewrite length_app. simpl. lia.
Qed.

Lemma forkOnce_valid this st w map st' w' :
  (∀ m, SetLoop.map st = Some m → m < length (mapStore w)) →
  Base.forkOnce this st w = (map, st', w') →
  map < length (mapStore w') ∧ SetLoop.map st' = Some map.
Proof.
  intros Hvalid. unfold Base.forkOnce.
  destruct (SetLoop.map st) as [m |] eqn:Est.
  - intros [= <- <- <-]. auto.
  - destruct (forkMap this w) as [m w1] eqn:Efork. intros [= <- <- <-].
    rewrite (forkMap_length _ _ _ _ Efork), (forkMap_ref _ _ _ _ Efork).
    split; [lia | done].
Qed.

Lemma nodes_length prependMissing map newNode st w ret st' w' :
  Base.nodes prependMissing map newNode st w = (ret, st', w') →
  length (mapStore w') = length (mapStore w).
Proof.
  unfold Base.nodes. destruct prependMissing.
  - intros [= _ _ <-]. apply length_updMap.
  - destruct (SetLoop.firstPrepend st); intros [= _ _ <-];
      [apply length_updMap | done].
Qed.

(** Rewriting the number of maps of a store back to where it was set. *)
Ltac store_length :=
  repeat first
    [ rewrite length_updMap
    | rewrite mapStore_bindNodes
    | rewrite mapStore_updateHeapMap
    | match goal with
      | E : ModeOps.makeImmutableLinkedOrderedMapNode (forMode _) _ _ _ _ _ _
            = (_, ?w) |- context [mapStore ?w] =>
          rewrite (mapStore_makeNode _ _ _ _ _ _ _ _ _ E)
      | E : Base.nodes _ _ _ _ _ = (_, _, ?w) |- context [mapStore ?w] =>
          rewrite (nodes_length _ _ _ _ _ _ _ _ E)
      end ].

Lemma setItem_valid this prependMissing it st w st' w' :
  (∀ m, SetLoop.map st = Some m → m < length (mapStore w)) →
  Base.setItem this prependMissing it st w = Return st' w' →
  ∀ m, SetLoop.map st' = Some m → m < length (mapStore w').
Proof.
  intros Hvalid. unfold Base.setItem, bindNodesOrThrow.
  repeat destruct_inner; cbn [worldAfter]; try discriminate;
    intros [= <- <-]; cbn; try done;
    repeat match goal with
    | E : Base.forkOnce _ _ _ = _ |- _ =>
        apply forkOnce_valid in E; [destruct E | by cbn]
    | E : (_, _) = (_, _) |- _ => injection E as <- <-
    end;
    intros m Hm; store_length;
    repeat match goal with
    | E : Base.nodes _ _ _ _ _ = _ |- _ => apply nodes_map in E; cbn in E
    end;
    cbn in *; congruence.
Qed.

Lemma setLoop_valid this prependMissing itemsDown :
  ∀ st w st' w',
    (∀ m, SetLoop.map st = Some m → m < length (mapStore w)) →
    Base.setLoop this prependMissing itemsDown st w = Return st' w' →
    ∀ m, SetLoop.map st' = Some m → m < length (mapStore w').
Proof.
  induction itemsDown as [| it itemsDown IH]; intros st w st' w' Hvalid;
    cbn [Base.setLoop].
  - intros [= <- <-]. done.
  - destruct (Base.setItem this prependMissing it st w) as [st1 w1 | e w1] eqn:Eit;
      [| done].
    apply IH. by eapply setItem_valid.
Qed.

(** * Method calls: gates are only ever armed *)

Lemma gatesKept_gatesGrow w w' : gatesKept w w' → gatesGrow w w'.
Proof.
  intros (L & H & _). split; [done |]. intros m Hm.
  destruct (H m Hm) as [-> ->]. done.
Qed.

Lemma gatesGrow_refl w : gatesGrow w w.
Proof. apply gatesKept_gatesGrow, gatesKept_refl. Qed.

Lemma gatesGrow_trans w1 w2 w3 :
  gatesGrow w1 w2 → gatesGrow w2 w3 → gatesGrow w1 w3.
Proof.
  intros [L12 H12] [L23 H23]. split; [lia |]. intros m Hm.
  destruct (H12 m Hm) as [E12 G12]. destruct (H23 m ltac:(lia)) as [E23 G23].
  split; [congruence | auto].
Qed.

Lemma gatesGrow_arm w this :
  gatesGrow w (updMap this (Map.set_mutationOperationOccurred true) w).
Proof.
  split; [rewrite length_updMap; lia |]. intros m Hm. unfold gateArmed.
  destruct (decide (this = m)) as [-> | Hne].
  - rewrite mapAt_updMap_eq by done. done.
  - rewrite mapAt_updMap_ne by done. done.
Qed.

Lemma gateArmed_arm w this :
  this < length (mapStore w) →
  gateArmed (updMap this (Map.set_mutationOperationOccurred true) w) this = true.
Proof. intros H. unfold gateArmed. rewrite mapAt_updMap_eq by done. done. Qed.

Lemma gateArmed_arm_ne w this m :
  this ≠ m →
  gateArmed (updMap this (Map.set_mutationOperationOccurred true) w) m
  = gateArmed w m.
Proof. intros H. unfold gateArmed. rewrite mapAt_updMap_ne by done. done. Qed.

(** The gate bookkeeping of the two gated classes is the same function. *)
Lemma noteMutation_same this r :
  LightweightModeImmutableLinkedOrderedMap.noteMutation this r
  = SingleModeImmutableLinkedOrderedMap.noteMutation this r.
Proof. reflexivity. Qed.

Lemma noteMutation_gatesGrow w this r :
  gatesKept w (worldAfter r) →
  gatesGrow w (worldAfter (Single.noteMutation this r)).
Proof.
  intros H. destruct r as [map w' | e w']; simpl in *.
  - destruct (bool_decide (this ≠ map)); simpl.
    + eapply gatesGrow_trans; [apply gatesKept_gatesGrow, H | apply gatesGrow_arm].
    + by apply gatesKept_gatesGrow.
  - by apply gatesKept_gatesGrow.
Qed.

(** What a gated mutation leaves behind: the receiver's gate is armed
    exactly when another map is returned, every other gate is as before. *)
Lemma noteMutation_returned w this r map w' :
  this < length (mapStore w) →
  gatesKept w (worldAfter r) →
  Single.noteMutation this r = Return map w' →
  (∀ m, m < length (mapStore w) → m ≠ this → gateArmed w' m = gateArmed w m) ∧
  (map ≠ this → gateArmed w' this = true) ∧
  (map = this → gateArmed w' this = gateArmed w this).
Proof.
  intros Hthis (L & H & _) E. destruct r as [map0 w0 | e w0]; simpl in *; [| done].
  destruct (bool_decide_reflect (this ≠ map0)) as [Hne | Heq];
    injection E as <- <-.
  - split; [| split].
    + intros m Hm Hm'. rewrite gateArmed_arm_ne by done. apply H, Hm.
    + intros _. apply gateArmed_arm. lia.
    + intros ->. done.
  - split; [| split].
    + intros m Hm _. apply H, Hm.
    + intros Hne. destruct Heq. congruence.
    + intros _. apply H, Hthis.
Qed.

Lemma Call_set_gatesGrow this items prependMissing w :
  gatesGrow w (worldAfter (Call.set this items prependMissing w)).
Proof.
  unfold Call.set, Call.classOf, Single.set, Light.set, Light.guarded,
    Single.throwSingleModemutationOperationOccurredError,
    Light.throwLightweightModeOperationAftermutationOperationOccurredError.
  destruct (Map.mode (mapAt w this));
    try destruct (Map.mutationOperationOccurred (mapAt w this));
    try apply gatesGrow_refl;
    try apply noteMutation_gatesGrow;
    try apply gatesKept_gatesGrow;
    apply set_gatesKept, gatesKept_refl.
Qed.

Lemma Call_replace_gatesGrow this oldKey it addMissing prependMissing w :
  gatesGrow w
    (worldAfter (Call.replace this oldKey it addMissing prependMissing w)).
Proof.
  unfold Call.replace, Call.classOf, Single.replace, Light.replace, Light.guarded,
    Single.throwSingleModemutationOperationOccurredError,
    Light.throwLightweightModeOperationAftermutationOperationOccurredError.
  destruct (Map.mode (mapAt w this));
    try destruct (Map.mutationOperationOccurred (mapAt w this));
    try apply gatesGrow_refl;
    try apply noteMutation_gatesGrow;
    try apply gatesKept_gatesGrow;
    apply replace_gatesKept, gatesKept_refl.
Qed.

Lemma Call_unset_gatesGrow this k w :
  gatesGrow w (worldAfter (Call.unset this k w)).
Proof.
  unfold Call.unset, Call.classOf, Single.unset, Light.unset, Light.guarded,
    Single.throwSingleModemutationOperationOccurredError,
    Light.throwLightweightModeOperationAftermutationOperationOccurredError.
  destruct (Map.mode (mapAt w this));
    try destruct (Map.mutationOperationOccurred (mapAt w this));
    try apply gatesGrow_refl;
    try apply noteMutation_gatesGrow;
    try apply gatesKept_gatesGrow;
    apply unset_gatesKept, gatesKept_refl.
Qed.

Lemma Call_empty_gatesGrow this w :
  gatesGrow w (worldAfter (Call.empty this w)).
Proof.
  unfold Call.empty, Call.classOf, Single.empty, Light.empty, Light.guarded,
    Single.throwSingleModemutationOperationOccurredError,
    Light.throwLightweightModeOperationAftermutationOperationOccurredError.
  destruct (Map.mode (mapAt w this));
    try destruct (Map.mutationOperationOccurred (mapAt w this));
    try apply gatesGrow_refl;
    try apply noteMutation_gatesGrow;
    try apply gatesKept_gatesGrow;
    apply empty_gatesKept, gatesKept_refl.
Qed.

Lemma run_gatesGrow c w : gatesGrow w (run c w).
Proof.
  destruct c as [o | this []]; simpl.
  - apply gatesKept_gatesGrow, newImmutableLinkedOrderedMap_gatesKept,
      gatesKept_refl.
  - apply Call_set_gatesGrow.
  - apply Call_replace_gatesGrow.
  - apply Call_unset_gatesGrow.
  - apply Call_empty_gatesGrow.
Qed.

Lemma runAll_gatesGrow cs : ∀ w, gatesGrow w (runAll cs w).
Proof.
  induction cs as [| c cs IH]; intros w; simpl.
  - apply gatesGrow_refl.
  - eapply gatesGrow_trans; [apply run_gatesGrow | apply IH].
Qed.

(** An armed gate belongs to a map of the store. *)
Lemma gateArmed_valid w m : gateArmed w m = true → m < length (mapStore w).
Proof.
  unfold gateArmed, mapAt. intros H.
  destruct (mapStore w !! m) eqn:E; [by eapply lookup_lt_Some | done].
Qed.

Lemma runAll_armed cs w m :
  gateArmed w m = true →
  gateArmed (runAll cs w) m = true ∧
  Map.mode (mapAt (runAll cs w) m) = Map.mode (mapAt w m).
Proof.
  intros H. destruct (runAll_gatesGrow cs w) as [_ G].
  destruct (G m (gateArmed_valid _ _ H)) as [-> G']. auto.
Qed.

(** ** Mutations through the gates *)

Lemma super_gatesKept this μ w : gatesKept w (worldAfter (super this μ w)).
Proof.
  destruct μ; simpl.
  - apply set_gatesKept, gatesKept_refl.
  - apply replace_gatesKept, gatesKept_refl.
  - apply unset_gatesKept, gatesKept_refl.
  - apply empty_gatesKept, gatesKept_refl.
Qed.

Lemma super_result this μ w map w' :
  super this μ w = Return map w' → map = this ∨ length (mapStore w) ≤ map.
Proof.
  destruct μ; simpl.
  - apply set_result.
  - apply replace_result.
  - apply unset_result.
  - apply empty_result.
Qed.

Lemma invoke_single this μ w :
  Map.mode (mapAt w this) = SINGLE →
  invoke this μ w =
    if gateArmed w this
    then Throw (SingleModeMutationOperationOccurred (operationName μ)) w
    else Single.noteMutation this (super this μ w).
Proof.
  intros Hmode. unfold gateArmed.
  destruct μ; simpl;
    unfold Call.set, Call.replace, Call.unset, Call.empty, Call.classOf;
    rewrite Hmode; reflexivity.
Qed.

Lemma invoke_lightweight this μ w :
  Map.mode (mapAt w this) = LIGHTWEIGHT →
  invoke this μ w =
    if gateArmed w this
    then Throw
           (LightweightModeOperationAfterMutationOperationOccurred
              (operationName μ)) w
    else Single.noteMutation this (super this μ w).
Proof.
  intros Hmode. unfold gateArmed.
  destruct μ; simpl;
    unfold Call.set, Call.replace, Call.unset, Call.empty, Call.classOf;
    rewrite Hmode; reflexivity.
Qed.

Lemma invoke_multiway this μ w :
  Map.mode (mapAt w this) = MULTIWAY → invoke this μ w = super this μ w.
Proof.
  intros Hmode.
  destruct μ; simpl;
    unfold Call.set, Call.replace, Call.unset, Call.empty, Call.classOf;
    rewrite Hmode; reflexivity.
Qed.

(** The base class throws nothing but the [TypeError] of a null neighbour. *)
Lemma setItem_thrown this prependMissing it st w e w' :
  Base.setItem this prependMissing it st w = Throw e w' → e = TypeError.
Proof.
  unfold Base.setItem, bindNodesOrThrow.
  repeat destruct_inner; try discriminate; intros [= <- _]; reflexivity.
Qed.

Lemma setLoop_thrown this prependMissing itemsDown :
  ∀ st w e w',
    Base.setLoop this prependMissing itemsDown st w = Throw e w' → e = TypeError.
Proof.
  induction itemsDown as [| it itemsDown IH]; intros st w e w';
    cbn [Base.setLoop]; [done |].
  destruct (Base.setItem this prependMissing it st w) eqn:Eit.
  - apply IH.
  - intros [= <- _]. by eapply setItem_thrown.
Qed.

Lemma super_thrown this μ w e : thrown (super this μ w) = Some e → e = TypeError.
Proof.
  destruct μ; simpl.
  - unfold Base.set. destruct items; [done |].
    destruct (Base.setLoop _ _ _ _ _) eqn:Eloop.
    + destruct (SetLoop.map a); done.
    + simpl. intros [= <-]. by eapply setLoop_thrown.
  - unfold Base.replace. repeat destruct_inner; done.
  - unfold Base.unset. repeat destruct_inner; done.
  - unfold Base.empty. repeat destruct_inner; done.
Qed.

Lemma noteMutation_thrown this r :
  thrown (Single.noteMutation this r) = thrown r.
Proof. destruct r; simpl; [destruct (bool_decide _) |]; reflexivity. Qed.

(** A map whose gate is not armed is refused nothing. *)
Lemma invoke_notRefused this μ w :
  gateArmed w this = false → notRefused (invoke this μ w).
Proof.
  intros Hgate e.
  destruct (Map.mode (mapAt w this)) eqn:Hmode.
  - rewrite invoke_single, Hgate, noteMutation_thrown by done.
    intros ->%super_thrown. reflexivity.
  - rewrite invoke_multiway by done. intros ->%super_thrown. reflexivity.
  - rewrite invoke_lightweight, Hgate, noteMutation_thrown by done.
    intros ->%super_thrown. reflexivity.
Qed.

(** The outcome of a gated mutation that returns. *)
Lemma invoke_gated_returned this μ w map w' :
  this < length (mapStore w) →
  Map.mode (mapAt w this) ≠ MULTIWAY →
  invoke this μ w = Return map w' →
  gatesGrow w w' ∧
  (map ≠ this → gateArmed w' this = true ∧ gateArmed w' map = false) ∧
  (map = this → gateArmed w' this = gateArmed w this).
Proof.
  intros Hthis Hmode E.
  assert (gatesGrow w w') as Hgrow.
  { replace w' with (run (Method this μ) w) by (simpl; rewrite E; done).
    apply run_gatesGrow. }
  split; [done |].
  assert (gateArmed w this = false ∧
          Single.noteMutation this (super this μ w) = Return map w')
    as [Hgate Enote].
  { destruct (Map.mode (mapAt w this)) eqn:Hm; [| done |].
    - rewrite invoke_single in E by done.
      destruct (gateArmed w this); [done | auto].
    - rewrite invoke_lightweight in E by done.
      destruct (gateArmed w this); [done | auto]. }
  pose proof (super_gatesKept this μ w) as Hkept.
  destruct (noteMutation_returned w this _ map w' Hthis Hkept Enote)
    as (Hother & Harm & Hnoop).
  split; [| done]. intros Hne. split; [auto |].
  destruct (super this μ w) as [map0 w0 | e w0] eqn:Esuper; [| done].
  simpl in Enote, Hkept. destruct Hkept as (_ & _ & Hnew).
  destruct (bool_decide_reflect (this ≠ map0)) as [Hne0 | Heq0];
    injection Enote as <- <-; [| destruct Heq0; congruence].
  rewrite gateArmed_arm_ne by done. apply Hnew.
  destruct (super_result _ _ _ _ _ Esuper) as [-> | Hfresh]; [done | done].
Qed.

(** * Reads through the gates *)

Lemma base_values_notRefused this w : notRefused (Base.values this w).
Proof.
  intros e. unfold Base.values.
  destruct (Base.newArray _); [| by intros [= <-]].
  destruct (Base.forEach _ _ _ _ _) as [[] |]; [done | by intros [= <-]].
Qed.

Lemma base_keys_notRefused this w : notRefused (Base.keys this w).
Proof.
  intros e. unfold Base.keys.
  destruct (Base.newArray _); [| by intros [= <-]].
  destruct (Base.forEach _ _ _ _ _) as [[] |]; [done | by intros [= <-]].
Qed.

Lemma base_keysValues_notRefused this w : notRefused (Base.keysValues this w).
Proof.
  intros e. unfold Base.keysValues.
  destruct (Base.newArray _); [| by intros [= <-]].
  destruct (Base.forEach _ _ _ _ _) as [[] |]; [done | by intros [= <-]].
Qed.

Lemma base_map_notRefused {B : Type} this (fn : value → nat → nat → B) reversed w :
  notRefused (Base.map this fn reversed w).
Proof.
  intros e. unfold Base.map.
  destruct (Base.newArray _); [| by intros [= <-]].
  destruct (Base.forEach _ _ _ _ _) as [[] |]; [done | by intros [= <-]].
Qed.

(** Reads are answered unless the map is a lightweight one with its gate
    armed. *)
Lemma readsAnswered_intro w M :
  Map.mode (mapAt w M) ≠ LIGHTWEIGHT ∨ gateArmed w M = false →
  readsAnswered w M.
Proof.
  intros H.
  assert (∀ (A : Type) (operation : string) (super : world → result A),
            match Call.classOf w M with
            | LIGHTWEIGHT => Light.guarded operation M super w
            | _ => super w
            end = super w) as Hcall.
  { intros A operation super. unfold Call.classOf, Light.guarded.
    destruct (Map.mode (mapAt w M)) eqn:Hmode; try reflexivity.
    destruct H as [H | H]; [done |]. unfold gateArmed in H. by rewrite H. }
  unfold readsAnswered, served.
  repeat split.
  - intros k. apply (Hcall _ "get"%string (λ w, Return (Base.get M k w) w)).
  - apply (Hcall _ "first"%string (λ w, Return (Base.first M w) w)).
  - apply (Hcall _ "last"%string (λ w, Return (Base.last M w) w)).
  - apply (Hcall _ "isEmpty"%string (λ w, Return (Base.isEmpty M w) w)).
  - intros S fn reversed s e.
    pose proof (Hcall _ "forEach"%string (λ w,
      match Base.forEach M fn reversed s w with
      | Some s => Return s w
      | None => Throw NonTermination w
      end)) as E.
    unfold Call.forEach, Light.forEach. simpl in E.
    destruct (Call.classOf w M); try rewrite E;
      destruct (Base.forEach M fn reversed s w); simpl; try done;
      by intros [= <-].
  - apply (Hcall _ "values"%string (Base.values M)).
  - apply base_values_notRefused.
  - apply (Hcall _ "keys"%string (Base.keys M)).
  - apply base_keys_notRefused.
  - apply (Hcall _ "keysValues"%string (Base.keysValues M)).
  - apply base_keysValues_notRefused.
  - apply (Hcall _ "map"%string (Base.map M fn reversed)).
  - apply base_map_notRefused.
Qed.

Lemma readsRefused_intro w M :
  Map.mode (mapAt w M) = LIGHTWEIGHT → gateArmed w M = true →
  readsRefused w M.
Proof.
  intros Hmode Hgate. unfold gateArmed in Hgate.
  unfold readsRefused, Call.get, Call.first, Call.last, Call.isEmpty,
    Call.forEach, Call.values, Call.keys, Call.keysValues, Call.map,
    Call.classOf, Light.get, Light.first, Light.last, Light.isEmpty,
    Light.forEach, Light.values, Light.keys, Light.keysValues, Light.map,
    Light.guarded,
    Light.throwLightweightModeOperationAftermutationOperationOccurredError.
  rewrite Hmode, Hgate. repeat split.
Qed.

(** A gate that is armed stays armed, and the map keeps its mode, whatever
    is called afterwards. *)
Lemma armed_for_good w M w' cs :
  M < length (mapStore w) →
  gatesGrow w w' → gateArmed w' M = true →
  gateArmed (runAll cs w') M = true ∧
  Map.mode (mapAt (runAll cs w') M) = Map.mode (mapAt w M).
Proof.
  intros Hvalid [_ Hgrow] Harmed.
  destruct (runAll_armed cs w' M Harmed) as [-> ->].
  destruct (Hgrow M Hvalid) as [-> _]. done.
Qed.





(** * Where the code departs from its specification *)

(** C1.  The factory given two items under one key builds a map of length 2
    that [forEach] walks through the same key twice: the key of the last
    item is never recorded in [keysMap], because [map.length++] yields the
    old length 0 and short-circuits the recording. *)
Theorem duplicate_initial_key_is_kept_twice (mode : Mode) :
  returned (Call.keysValues 0 (fresh mode sameKeyTwice))
  = Some [Some (1, Val 10); Some (1, Val 11)] ∧
  returned (Call.keys 0 (fresh mode sameKeyTwice)) = Some [Some 1; Some 1] ∧
  Map.length (mapAt (fresh mode sameKeyTwice) 0) = 2%Z.
Proof. destruct mode; vm_compute; auto. Qed.

(** C2.  The tenth child of a multiway root reads the key that only the
    first child has set: its version ["10"] has the version ["1"] of the
    first child as a prefix, and that is all the ancestry test looks at.
    The ninth child does not see the key, and the traversal of the tenth
    child does not show it either. *)
Theorem tenth_child_reads_first_child :
  Map.version (mapAt tenChildren 1) = "1"%string ∧
  Map.version (mapAt tenChildren 10) = "10"%string ∧
  Map.ancestorMap (mapAt tenChildren 1) = Some 0 ∧
  Map.ancestorMap (mapAt tenChildren 10) = Some 0 ∧
  isAncestorVersionOfDescendantVersion "1" "10" = true ∧
  returned (Call.get 10 1 tenChildren) = Some (Val 10) ∧
  returned (Call.get 9 1 tenChildren) = Some Undefined ∧
  returned (Call.keys 10 tenChildren) = Some [Some 10] ∧
  returned (Call.keys 1 tenChildren) = Some [Some 1].
Proof. vm_compute. repeat split. Qed.

(** C4.  Unsetting a key that an earlier [unset] removed does not return the
    receiver: the lookup finds the orphan node, a new map is forked, and as
    the orphan has no neighbours the new map is emptied, though the
    receiver still holds the two other keys. *)
Theorem unset_of_an_unset_key_forks (mode : Mode) :
  returned (Call.get 1 1 (afterUnset mode)) = Some Undefined ∧
  returned (Call.keys 1 (afterUnset mode)) = Some [Some 2; Some 3] ∧
  returned (invoke 1 (MUnset 1) (afterUnset mode)) = Some 2 ∧
  Map.length (mapAt (run (Method 1 (MUnset 1)) (afterUnset mode)) 2) = 0%Z ∧
  returned (Call.keys 2 (run (Method 1 (MUnset 1)) (afterUnset mode))) = Some [].
Proof. destruct mode; vm_compute; repeat split. Qed.

(** C6.  [replace(5, item, true)] where key 5 is absent and the key 1 of
    the item is present: the probe for the item's key runs while [key] is
    still undefined and finds nothing, so the item is appended as a
    second node of key 1 and the length grows to 3; when the item is the
    very value stored under key 1 the receiver is not returned either. *)
Theorem replace_missing_appends_an_existing_key (mode : Mode) :
  returned (invoke 0 (MReplace 5 (obj 1 11) true false) (fresh mode twoItems))
  = Some 1 ∧
  returned
    (Call.keysValues 1
       (run (Method 0 (MReplace 5 (obj 1 11) true false)) (fresh mode twoItems)))
  = Some [Some (1, Val 10); Some (2, Val 20); Some (1, Val 11)] ∧
  Map.length
    (mapAt (run (Method 0 (MReplace 5 (obj 1 11) true false)) (fresh mode twoItems))
       1) = 3%Z ∧
  returned (invoke 0 (MReplace 5 (obj 1 10) true false) (fresh mode twoItems))
  = Some 1 ∧
  returned
    (Call.keysValues 1
       (run (Method 0 (MReplace 5 (obj 1 10) true false)) (fresh mode twoItems)))
  = Some [Some (1, Val 10); Some (2, Val 20); Some (1, Val 10)].
Proof. destruct mode; vm_compute; repeat split. Qed.

(** * The mode the factory settles on *)

Lemma modeOfCode_Some code mode :
  modeOfCode code = Some mode → code = ImmutableLinkedOrderedMapMode mode.
Proof.
  destruct code as [| [| [| [| code]]]]; simpl; intros [= <-]; reflexivity.
Qed.

Lemma modeOfCode_code mode : modeOfCode (ImmutableLinkedOrderedMapMode mode) = Some mode.
Proof. destruct mode; reflexivity. Qed.

(** The created map has the mode the factory computed from the option. *)
Lemma newImmutableLinkedOrderedMap_mode o w :
  Map.mode
    (mapAt (snd (newImmutableLinkedOrderedMap o w))
       (fst (newImmutableLinkedOrderedMap o w)))
  = default DEFAULT_MAP_MODE
      (modeOfCode
         (default (ImmutableLinkedOrderedMapMode DEFAULT_MAP_MODE) (modeOption o))).
Proof.
  unfold newImmutableLinkedOrderedMap.
  destruct (hydrateNew _ _ w) as [map w1] eqn:Ehyd. cbn [fst snd].
  destruct (appendInitialItemsToMap_gatesKept w1 map
              (default [] (initialItems o)) w1 (gatesKept_refl w1))
    as (_ & Hkept & _).
  unfold hydrateNew, allocHeap, allocMap in Ehyd. injection Ehyd as <- <-.
  unfold addInitialItemsToMap.
  match goal with
  | |- Map.mode (mapAt (appendInitialItemsToMap ?m _ ?w1) _) = _ =>
      destruct (Hkept m) as [-> _]; [cbn; rewrite length_app; cbn; lia |]
  end.
  unfold mapAt. cbn. rewrite lookup_app_r by lia.
  replace (_ - _) with 0 by lia. reflexivity.
Qed.




(** * The read helpers on a map without items *)

Lemma newArray_zero {A : Type} : Base.newArray (A := A) 0 = Some [].
Proof. reflexivity. Qed.

Lemma forEach_no_head {S : Type} this (fn : value → nat → S → S * bool) s w :
  Map.head (mapAt w this) = None → Base.forEach this fn false s w = Some s.
Proof. intros H. unfold Base.forEach. rewrite H. reflexivity. Qed.

(** C10, refuted as stated: on a lightweight map of length 0 that a mutation
    has locked the three helpers throw. *)
Lemma locked_empty_map_throws :
  Map.length (mapAt lockedEmpty 0) = 0%Z ∧
  Map.mode (mapAt lockedEmpty 0) = LIGHTWEIGHT ∧
  thrown (Call.values 0 lockedEmpty)
  = Some (LightweightModeOperationAfterMutationOperationOccurred "values") ∧
  thrown (Call.keys 0 lockedEmpty)
  = Some (LightweightModeOperationAfterMutationOperationOccurred "keys") ∧
  thrown (Call.keysValues 0 lockedEmpty)
  = Some (LightweightModeOperationAfterMutationOperationOccurred "keysValues").
Proof. vm_compute. repeat split. Qed.

(** C10, amended.  On every empty map (length 0 and no head node), of any
    mode, that is not a lightweight map locked by an earlier mutation,
    [values()], [keys()] and [keysValues()] each return an array of length
    0, never undefined. *)
Theorem read_helpers_of_an_empty_map (w : world) (M : mref) :
  Map.length (mapAt w M) = 0%Z →
  Map.head (mapAt w M) = None →
  Map.mode (mapAt w M) ≠ LIGHTWEIGHT ∨ gateArmed w M = false →
  Call.values M w = Return [] w ∧
  Call.keys M w = Return [] w ∧
  Call.keysValues M w = Return [] w.
Proof.
  intros Hlength Hhead Hopen.
  destruct (readsAnswered_intro w M Hopen)
    as (_ & _ & _ & _ & _ & [-> _] & [-> _] & [-> _] & _).
  unfold Base.values, Base.keys, Base.keysValues.
  rewrite Hlength.
  repeat split; rewrite newArray_zero, forEach_no_head by done; reflexivity.
Qed.

Lemma read_helpers_of_an_empty_map_witness :
  (Map.length (mapAt (fresh MULTIWAY []) 0) = 0%Z ∧
   Map.head (mapAt (fresh MULTIWAY []) 0) = None ∧
   (Map.mode (mapAt (fresh MULTIWAY []) 0) ≠ LIGHTWEIGHT ∨
    gateArmed (fresh MULTIWAY []) 0 = false)) ∧
  Call.values 0 (fresh MULTIWAY []) = Return [] (fresh MULTIWAY []) ∧
  Call.keys 0 (fresh MULTIWAY []) = Return [] (fresh MULTIWAY []) ∧
  Call.keysValues 0 (fresh MULTIWAY []) = Return [] (fresh MULTIWAY []).
Proof.
  assert (Map.length (mapAt (fresh MULTIWAY []) 0) = 0%Z) as H1 by reflexivity.
  assert (Map.head (mapAt (fresh MULTIWAY []) 0) = None) as H2 by reflexivity.
  assert (Map.mode (mapAt (fresh MULTIWAY []) 0) ≠ LIGHTWEIGHT ∨
          gateArmed (fresh MULTIWAY []) 0 = false) as H3
    by (right; reflexivity).
  split; [auto |].
  exact (read_helpers_of_an_empty_map _ _ H1 H2 H3).
Defined.

(** * Entries sharing a key: the last one wins *)

Lemma keyValueForItem_keyOf keyPropName it :
  keyValueForItem keyPropName it = (keyOf it, valueOf it).
Proof. destruct it; reflexivity. Qed.

(** ** Duplicates in the walk of [set] *)

Lemma setItem_skip this prependMissing it st w :
  keyOf it ∈ SetLoop.keysMap st →
  Base.setItem this prependMissing it st w = Return st w.
Proof.
  intros Hin. unfold Base.setItem. rewrite keyValueForItem_keyOf.
  by rewrite bool_decide_true.
Qed.

Lemma forkOnce_keysMap this st w map st' w' :
  Base.forkOnce this st w = (map, st', w') →
  SetLoop.keysMap st' = SetLoop.keysMap st ∧
  SetLoop.inserted st' = SetLoop.inserted st ∧
  SetLoop.updated st' = SetLoop.updated st.
Proof.
  unfold Base.forkOnce. destruct (SetLoop.map st).
  - intros [= _ <- _]. done.
  - destruct (forkMap this w). intros [= _ <- _]. done.
Qed.

Lemma nodes_keysMap prependMissing map newNode st w ret st' w' :
  Base.nodes prependMissing map newNode st w = (ret, st', w') →
  SetLoop.keysMap st' = SetLoop.keysMap st ∧
  SetLoop.inserted st' = SetLoop.inserted st ∧
  SetLoop.updated st' = SetLoop.updated st.
Proof.
  unfold Base.nodes. destruct prependMissing.
  - intros [= _ <- _]. done.
  - destruct (SetLoop.firstPrepend st).
    + destruct (Map.tail (mapAt w map)); intros [= _ <- _]; done.
    + intros [= _ <- _]. done.
Qed.

(** What a turn of the loop of [set] records for an item whose key it has
    not met: the key, and at most the pair of the item as inserted or as
    updated. *)
Lemma setItem_records this prependMissing it st w st' w' :
  keyOf it ∉ SetLoop.keysMap st →
  Base.setItem this prependMissing it st w = Return st' w' →
  SetLoop.keysMap st' = {[keyOf it]} ∪ SetLoop.keysMap st ∧
  ((SetLoop.inserted st' = SetLoop.inserted st ∧
    SetLoop.updated st' = SetLoop.updated st) ∨
   (SetLoop.inserted st' = (keyOf it, valueOf it) :: SetLoop.inserted st ∧
    SetLoop.updated st' = SetLoop.updated st) ∨
   (SetLoop.inserted st' = SetLoop.inserted st ∧
    SetLoop.updated st' = (keyOf it, valueOf it) :: SetLoop.updated st)).
Proof.
  intros Hnotin. unfold Base.setItem, bindNodesOrThrow.
  rewrite keyValueForItem_keyOf, bool_decide_false by done.
  repeat destruct_inner; cbn [worldAfter]; try discriminate;
    intros [= <- <-]; cbn;
    repeat match goal with
    | E : Base.forkOnce _ _ _ = _ |- _ => apply forkOnce_keysMap in E; cbn in E
    | E : Base.nodes _ _ _ _ _ = _ |- _ => apply nodes_keysMap in E; cbn in E
    | E : (_, _) = (_, _) |- _ => injection E as <- <-
    | E : _ ∧ _ |- _ => destruct E
    end;
    cbn in *; (split; [congruence |]); intuition congruence.
Qed.

Lemma setItem_keysMap this prependMissing it st w st' w' :
  keyOf it ∉ SetLoop.keysMap st →
  Base.setItem this prependMissing it st w = Return st' w' →
  SetLoop.keysMap st' = {[keyOf it]} ∪ SetLoop.keysMap st.
Proof. intros Hnotin E. by destruct (setItem_records _ _ _ _ _ _ _ Hnotin E). Qed.

Lemma setLoop_firstOccurrences this prependMissing itemsDown :
  ∀ st w,
    Base.setLoop this prependMissing itemsDown st w
    = Base.setLoop this prependMissing
        (firstOccurrences (SetLoop.keysMap st) itemsDown) st w.
Proof.
  induction itemsDown as [| it itemsDown IH]; intros st w; [reflexivity |].
  cbn [firstOccurrences].
  destruct (bool_decide_reflect (keyOf it ∈ SetLoop.keysMap st)) as [Hin | Hnotin].
  - cbn [Base.setLoop]. rewrite setItem_skip by done. apply IH.
  - cbn [Base.setLoop].
    destruct (Base.setItem this prependMissing it st w) as [st' w' | e w'] eqn:Eit;
      [| reflexivity].
    rewrite IH. by rewrite (setItem_keysMap _ _ _ _ _ _ _ Hnotin Eit).
Qed.

(** ** [keepLast] is what the walk goes through *)

Lemma firstOccurrences_snoc seen items it :
  firstOccurrences seen (items ++ [it])
  = firstOccurrences seen items
    ++ (if bool_decide (keyOf it ∈ seen ∨ keyOf it ∈ keyOf <$> items)
        then [] else [it]).
Proof.
  revert seen. induction items as [| it' items IH]; intros seen; simpl.
  - destruct (bool_decide_reflect (keyOf it ∈ seen)) as [Hin | Hnotin].
    + by rewrite bool_decide_true by auto.
    + rewrite bool_decide_false; [done |]. intros [? | ?%elem_of_nil]; done.
  - destruct (bool_decide_reflect (keyOf it' ∈ seen)) as [Hin | Hnotin].
    + rewrite IH. f_equal. erewrite bool_decide_ext; [reflexivity |].
      rewrite elem_of_cons. split; [tauto |]. intros [? | [-> | ?]]; auto.
    + simpl. rewrite IH. do 2 f_equal. erewrite bool_decide_ext; [reflexivity |].
      rewrite elem_of_cons, elem_of_union, elem_of_singleton. tauto.
Qed.

Lemma rev_keepLast items :
  reverse (keepLast items) = firstOccurrences ∅ (reverse items).
Proof.
  induction items as [| it rest IH]; [reflexivity |]. cbn [keepLast].
  rewrite reverse_cons, firstOccurrences_snoc, <- IH.
  destruct (bool_decide_reflect (keyOf it ∈ keyOf <$> rest)) as [Hin | Hnotin].
  - rewrite bool_decide_true; [by rewrite app_nil_r |].
    right. rewrite fmap_reverse. by apply elem_of_reverse.
  - rewrite reverse_cons, bool_decide_false; [done |].
    intros [?%elem_of_empty | Hin]; [done |]. apply Hnotin.
    rewrite fmap_reverse in Hin. by apply elem_of_reverse.
Qed.

Lemma keepLast_nil items : keepLast items = [] → items = [].
Proof.
  induction items as [| it rest IH]; [done |]. simpl.
  destruct (bool_decide_reflect (keyOf it ∈ keyOf <$> rest)) as [Hin | Hnotin];
    [| done].
  intros E. rewrite (IH E) in Hin. by apply elem_of_nil in Hin.
Qed.

Lemma lastEntry_None k items : lastEntry k items = None ↔ k ∉ keyOf <$> items.
Proof.
  induction items as [| it rest IH]; simpl.
  - split; [intros _ ?%elem_of_nil; done | done].
  - rewrite not_elem_of_cons. destruct (lastEntry k rest) as [v |].
    + split; [done |]. intros [_ H]. by apply IH in H.
    + destruct (bool_decide_reflect (keyOf it = k)) as [-> | Hne].
      * split; [done | intros [? _]; done].
      * split; [intros _ | done]. split; [congruence | by apply IH].
Qed.

(** [keepLast] keeps, for every key, the entry of highest index and no
    other. *)
Lemma lastEntry_keepLast k items :
  lastEntry k (keepLast items) = lastEntry k items.
Proof.
  induction items as [| it rest IH]; [reflexivity |]. simpl.
  destruct (bool_decide_reflect (keyOf it ∈ keyOf <$> rest)) as [Hin | Hnotin].
  - rewrite IH. destruct (lastEntry k rest) as [v |] eqn:E; [done |].
    rewrite bool_decide_false; [done |]. intros <-.
    by apply lastEntry_None in E.
  - simpl. by rewrite IH.
Qed.

Lemma elem_of_keepLast it items : it ∈ keepLast items → it ∈ items.
Proof.
  induction items as [| it' rest IH]; [done |]. simpl.
  destruct (bool_decide _); rewrite ?elem_of_cons; intuition.
Qed.

Lemma NoDup_keepLast items : NoDup (keyOf <$> keepLast items).
Proof.
  induction items as [| it rest IH]; simpl; [constructor |].
  destruct (bool_decide_reflect (keyOf it ∈ keyOf <$> rest)) as [Hin | Hnotin];
    [done |].
  simpl. constructor; [| done]. intros Hin. apply Hnotin.
  apply list_elem_of_fmap in Hin as (it' & -> & Hin).
  apply list_elem_of_fmap. eauto using elem_of_keepLast.
Qed.

(** ** [set] walks its items as if only the last entry of each key were
    there *)

Lemma set_keepLast this items prependMissing w :
  Base.set this items prependMissing w
  = Base.set this (keepLast items) prependMissing w.
Proof.
  unfold Base.set. destruct items as [| it rest]; [reflexivity |].
  destruct (keepLast (it :: rest)) as [| it' rest'] eqn:E;
    [by apply keepLast_nil in E |].
  rewrite <- E, rev_keepLast, (setLoop_firstOccurrences _ _ (reverse (it :: rest))).
  reflexivity.
Qed.

Lemma Call_set_keepLast this items prependMissing w :
  Call.set this items prependMissing w
  = Call.set this (keepLast items) prependMissing w.
Proof.
  unfold Call.set, Single.set, Light.set, Light.guarded.
  rewrite (set_keepLast this items). reflexivity.
Qed.

(** ** What [set] records as inserted or updated *)

Lemma setLoop_records this prependMissing itemsDown :
  ∀ st w st' w' walked,
    Base.setLoop this prependMissing itemsDown st w = Return st' w' →
    (∀ k, k ∈ SetLoop.keysMap st ↔ k ∈ keyOf <$> walked) →
    (∀ k v, (k, v) ∈ SetLoop.inserted st ++ SetLoop.updated st →
            lastEntry k (reverse walked) = Some v) →
    (∀ k, k ∈ SetLoop.keysMap st' ↔ k ∈ keyOf <$> walked ++ itemsDown) ∧
    (∀ k v, (k, v) ∈ SetLoop.inserted st' ++ SetLoop.updated st' →
            lastEntry k (reverse (walked ++ itemsDown)) = Some v).
Proof.
  induction itemsDown as [| it itemsDown IH]; intros st w st' w' walked;
    cbn [Base.setLoop].
  - intros [= <- <-]. rewrite app_nil_r. auto.
  - intros Eloop Hkeys Hpairs.
    replace (walked ++ it :: itemsDown) with ((walked ++ [it]) ++ itemsDown)
      by (by rewrite <- app_assoc).
    assert (∀ k v, lastEntry k (reverse walked) = Some v →
                   lastEntry k (reverse (walked ++ [it])) = Some v) as Hold.
    { intros k v E. rewrite reverse_app. simpl. by rewrite E. }
    destruct (decide (keyOf it ∈ SetLoop.keysMap st)) as [Hin | Hnotin].
    + rewrite setItem_skip in Eloop by done.
      apply (IH _ _ _ _ _ Eloop).
      * intros k. rewrite Hkeys, fmap_app, elem_of_app. simpl.
        rewrite list_elem_of_singleton. split; [auto |].
        intros [? | ->]; [done | by apply Hkeys].
      * eauto.
    + destruct (Base.setItem this prependMissing it st w) as [st1 w1 | e w1] eqn:Eit;
        [| done].
      destruct (setItem_records _ _ _ _ _ _ _ Hnotin Eit) as [Ekeys Erecorded].
      assert (lastEntry (keyOf it) (reverse (walked ++ [it])) = Some (valueOf it))
        as Hnew.
      { rewrite reverse_app. simpl.
        assert (lastEntry (keyOf it) (reverse walked) = None) as ->.
        { apply lastEntry_None. rewrite fmap_reverse, elem_of_reverse.
          by rewrite <- Hkeys. }
        by rewrite bool_decide_true. }
      apply (IH _ _ _ _ _ Eloop).
      * intros k. rewrite Ekeys, fmap_app, elem_of_app, elem_of_union,
          elem_of_singleton, Hkeys. simpl. rewrite list_elem_of_singleton. tauto.
      * intros k v.
        destruct Erecorded as [[-> ->] | [[-> ->] | [-> ->]]].
        -- eauto.
        -- simpl. rewrite elem_of_cons. intros [[= -> ->] | ?]; eauto.
        -- rewrite elem_of_app, elem_of_cons.
           intros [Hin | [[= -> ->] | Hin]]; [| done |];
             apply Hold, Hpairs, elem_of_app; auto.
Qed.

(** The change record of the map [set] returns lists, as inserted or
    updated, only pairs of last entries. *)
Lemma set_records this items prependMissing w map w' :
  Base.set this items prependMissing w = Return map w' →
  map ≠ this →
  map < length (mapStore w') ∧
  ∃ inserted updated,
    Map.change (mapAt w' map) = Some (ChangeSet inserted updated prependMissing) ∧
    ∀ k v, (k, v) ∈ inserted ++ updated → lastEntry k items = Some v.
Proof.
  unfold Base.set. destruct items as [| it rest]; [intros [= <- _]; done |].
  destruct (Base.setLoop _ _ _ _ _) as [st w1 | e w1] eqn:Eloop; [| done].
  destruct (SetLoop.map st) as [m |] eqn:Emap; [| intros [= <- _]; done].
  intros [= <- <-] _.
  assert (m < length (mapStore (Base.loopEnd prependMissing st w1))) as Hvalid.
  { destruct (loopEnd_gatesKept w1 prependMissing st w1 (gatesKept_refl w1))
      as (Hlength & _).
    enough (m < length (mapStore w1)) by lia.
    eapply (setLoop_valid _ _ _ SetLoop.init w); [done | exact Eloop | exact Emap]. }
  split; [unfold mapChange; by rewrite length_updMap |].
  exists (SetLoop.inserted st), (SetLoop.updated st). split.
  - unfold mapChange. rewrite mapAt_updMap_eq by done. reflexivity.
  - destruct (setLoop_records _ _ _ _ _ _ _ [] Eloop) as [_ Hpairs].
    + intros k. split; [intros ?%elem_of_empty | intros ?%elem_of_nil]; done.
    + intros k v ?%elem_of_nil. done.
    + intros k v Hin. specialize (Hpairs k v Hin).
      by rewrite app_nil_l, reverse_involutive in Hpairs.
Qed.

Lemma Call_set_records this items prependMissing w map w' :
  Call.set this items prependMissing w = Return map w' →
  map ≠ this →
  ∃ inserted updated,
    Map.change (mapAt w' map) = Some (ChangeSet inserted updated prependMissing) ∧
    ∀ k v, (k, v) ∈ inserted ++ updated → lastEntry k items = Some v.
Proof.
  intros Ecall Hne.
  assert (∃ w0, Base.set this items prependMissing w = Return map w0 ∧
                mapAt w' map = mapAt w0 map) as (w0 & Eset & ->).
  { revert Ecall.
    unfold Call.set, Single.set, Light.set, Light.guarded, Single.noteMutation,
      Light.noteMutation,
      Single.throwSingleModemutationOperationOccurredError,
      Light.throwLightweightModeOperationAftermutationOperationOccurredError.
    destruct (Call.classOf w this);
      try destruct (Map.mutationOperationOccurred (mapAt w this)); try done;
      try (intros E; by exists w');
      destruct (Base.set this items prependMissing w) as [m w0 | e w0]; try done;
      destruct (bool_decide (this ≠ m)); intros [= <- <-]; exists w0;
      rewrite ?mapAt_updMap_ne by done; done. }
  by destruct (set_records _ _ _ _ _ _ Eset Hne).
Qed.

(** ** Duplicates in the walk of the factory *)

Lemma mapAt_mapStore w w' m : mapStore w' = mapStore w → mapAt w' m = mapAt w m.
Proof. unfold mapAt. by intros ->. Qed.

Lemma firstOccurrences_ext seen seen' items :
  (∀ k, k ∈ keyOf <$> items → k ∈ seen ↔ k ∈ seen') →
  firstOccurrences seen items = firstOccurrences seen' items.
Proof.
  revert seen seen'. induction items as [| it rest IH]; intros seen seen' H;
    [reflexivity |]. simpl.
  assert (keyOf it ∈ seen ↔ keyOf it ∈ seen') as Hit
    by (apply H; simpl; apply elem_of_cons; auto).
  rewrite (bool_decide_ext _ _ Hit). destruct (bool_decide _).
  - apply IH. intros k Hk. apply H. simpl. apply elem_of_cons. auto.
  - f_equal. apply IH. intros k Hk. rewrite !elem_of_union.
    rewrite (H k); [done |]. simpl. apply elem_of_cons. auto.
Qed.

(** Once the map has a length other than zero the loop of the factory
    records every key it adds, and so skips what [firstOccurrences] skips. *)
Lemma appendInitialItemsLoop_firstOccurrences map itemsBelow :
  ∀ keysMap lastNode w,
    map < length (mapStore w) →
    (0 < Map.length (mapAt w map))%Z →
    appendInitialItemsLoop map itemsBelow keysMap lastNode w
    = appendInitialItemsLoop map (firstOccurrences keysMap itemsBelow)
        keysMap lastNode w.
Proof.
  induction itemsBelow as [| it rest IH]; intros keysMap lastNode w Hvalid Hlength;
    [reflexivity |].
  cbn [firstOccurrences appendInitialItemsLoop].
  rewrite keyValueForItem_keyOf.
  destruct (bool_decide_reflect (keyOf it ∈ keysMap)) as [Hin | Hnotin].
  - by apply IH.
  - cbn [appendInitialItemsLoop].
    rewrite keyValueForItem_keyOf, bool_decide_false by done.
    destruct (ModeOps.makeImmutableLinkedOrderedMapNode _ _ _ _ _ _ _)
      as [node w1] eqn:Emake.
    match goal with
    | |- context [incrementLengthAndRecord map (keyOf it) keysMap ?w2] =>
        assert (mapStore w2 = mapStore w) as Estore
          by (by rewrite mapStore_bindNodes, mapStore_updateHeapMap,
                (mapStore_makeNode _ _ _ _ _ _ _ _ _ Emake));
        unfold incrementLengthAndRecord;
        rewrite (mapAt_mapStore _ _ _ Estore);
        rewrite bool_decide_false by lia;
        apply IH;
        [ rewrite length_updMap, Estore; done
        | rewrite mapAt_updMap_eq by (by rewrite Estore); simpl; lia ]
    end.
Qed.

Lemma length_set_tail tl M : Map.length (Map.set_tail tl M) = Map.length M.
Proof. reflexivity. Qed.

Lemma appendInitialItemsToMap_keepLast map items w :
  map < length (mapStore w) →
  Map.length (mapAt w map) = 0%Z →
  lastKeyOnce items →
  appendInitialItemsToMap map items w
  = appendInitialItemsToMap map (keepLast items) w.
Proof.
  intros Hvalid Hlength Honce. unfold appendInitialItemsToMap, lastKeyOnce in *.
  rewrite rev_keepLast. destruct (reverse items) as [| lastItem itemsBelow];
    [reflexivity |].
  cbn [firstOccurrences]. rewrite bool_decide_false by apply not_elem_of_empty.
  rewrite (firstOccurrences_ext _ ∅ itemsBelow); cycle 1.
  { intros k Hk. rewrite elem_of_union, elem_of_singleton.
    split; [intros [-> | ?]; done | auto]. }
  rewrite keyValueForItem_keyOf.
  destruct (ModeOps.makeImmutableLinkedOrderedMapNode _ _ _ _ _ _ _)
    as [newTail w1] eqn:Emake.
  destruct (incrementLengthAndRecord _ _ _ _) as [keysMap w0] eqn:Einc.
  assert (keysMap = ∅ ∧ map < length (mapStore w0) ∧
          (0 < Map.length (mapAt w0 map))%Z) as (-> & Hvalid0 & Hlength0).
  { unfold incrementLengthAndRecord in Einc.
    match type of Einc with
    | context [updMap map (Map.set_tail _) ?x] => set (w2 := x) in *
    end.
    assert (mapStore w2 = mapStore w) as Estore.
    { unfold w2. rewrite mapStore_updateHeapMap.
      exact (mapStore_makeNode _ _ _ _ _ _ _ _ _ Emake). }
    rewrite mapAt_updMap_eq in Einc by (by rewrite Estore).
    rewrite (mapAt_mapStore w w2 map Estore) in Einc.
    rewrite length_set_tail, Hlength, bool_decide_true in Einc by done.
    injection Einc as <- <-. split; [done |].
    split; [by rewrite !length_updMap, Estore |].
    rewrite mapAt_updMap_eq by (by rewrite length_updMap, Estore). simpl. lia. }
  destruct itemsBelow as [| it rest]; [reflexivity |].
  rewrite (appendInitialItemsLoop_firstOccurrences map (it :: rest)) by done.
  cbn [firstOccurrences]. rewrite bool_decide_false by apply not_elem_of_empty.
  reflexivity.
Qed.

Lemma newImmutableLinkedOrderedMap_keepLast o w items :
  initialItems o = Some items →
  lastKeyOnce items →
  newImmutableLinkedOrderedMap o w
  = newImmutableLinkedOrderedMap
      (Options (Some (keepLast items)) (keyPropNameOption o) (modeOption o)) w.
Proof.
  intros Eitems Honce. unfold newImmutableLinkedOrderedMap. rewrite Eitems.
  cbn [initialItems keyPropNameOption modeOption default from_option id].
  unfold hydrateNew, allocHeap, allocMap, addInitialItemsToMap.
  f_equal. apply appendInitialItemsToMap_keepLast; [| | done].
  - cbn. rewrite length_app. cbn. lia.
  - unfold mapAt. cbn. rewrite lookup_app_r by lia.
    replace (_ - _) with 0 by lia. reflexivity.
Qed.




(** * What each step of a mutation leaves alone *)

Arguments nodeAt : simpl never.
Arguments heapAt : simpl never.
Arguments updNode : simpl never.
Arguments updHeap : simpl never.

Section Frames.
Implicit Types (w : world) (M : Map.t) (mode : Mode).

(** ** Reads depend on one part of the store *)

Lemma lookup_heapStore mode w w' M k :
  heapStore w' = heapStore w →
  ModeOps.lookup (forMode mode) w' M k = ModeOps.lookup (forMode mode) w M k.
Proof.
  intros E. destruct mode; simpl;
    unfold lookupSingleMode, lookupMultiwayMode, lookupLightweightMode, heapAt;
    by rewrite E.
Qed.

Lemma find_nodeAt mode w w' M n d :
  nodeAt w' n = nodeAt w n →
  ModeOps.findMapNodeByDirection (forMode mode) w' M n d
  = ModeOps.findMapNodeByDirection (forMode mode) w M n d.
Proof.
  intros E. destruct mode; simpl;
    unfold findSingleModeMapNodeByDirection, findMultiwayModeMapNodeByDirection,
      findLightweightModeMapNodeByDirection;
    by rewrite E.
Qed.

Lemma elementAt_nodeAt w w' n : nodeAt w' n = nodeAt w n → elementAt w' n = elementAt w n.
Proof. unfold elementAt. by intros ->. Qed.

Lemma lookup_sameView mode w M M' k :
  sameView M M' →
  ModeOps.lookup (forMode mode) w M' k = ModeOps.lookup (forMode mode) w M k.
Proof.
  intros (Eh & Ed & Ev & _). destruct mode; simpl;
    unfold lookupSingleMode, lookupMultiwayMode, lookupLightweightMode;
    by rewrite Eh, ?Ed, ?Ev.
Qed.

Lemma lookup_index mode w w' M M' k :
  heapStore w' = heapStore w →
  Map.heapMap M' = Map.heapMap M → Map.depth M' = Map.depth M →
  Map.version M' = Map.version M →
  ModeOps.lookup (forMode mode) w' M' k = ModeOps.lookup (forMode mode) w M k.
Proof.
  intros E Eh Ed Ev. destruct mode; simpl;
    unfold lookupSingleMode, lookupMultiwayMode, lookupLightweightMode, heapAt;
    by rewrite E, Eh, ?Ed, ?Ev.
Qed.

Lemma find_sameView mode w M M' n d :
  sameView M M' →
  ModeOps.findMapNodeByDirection (forMode mode) w M' n d
  = ModeOps.findMapNodeByDirection (forMode mode) w M n d.
Proof.
  intros (_ & Ed & Ev & Ehead & Etail). destruct mode; simpl;
    unfold findSingleModeMapNodeByDirection, findMultiwayModeMapNodeByDirection,
      findLightweightModeMapNodeByDirection, isBoundary;
    by rewrite ?Ed, ?Ev, ?Ehead, ?Etail.
Qed.

(** ** The parts of the store after each step *)

Lemma nodeStore_updMap m f w : nodeStore (updMap m f w) = nodeStore w.
Proof. reflexivity. Qed.

Lemma heapStore_updMap m f w : heapStore (updMap m f w) = heapStore w.
Proof. reflexivity. Qed.

Lemma heapStore_bindNodes mode M a b w :
  heapStore (ModeOps.bindNodes (forMode mode) M a b w) = heapStore w.
Proof. destruct mode; reflexivity. Qed.

Lemma nodeStore_updateHeapMap mode M a w :
  nodeStore (ModeOps.updateHeapMap (forMode mode) M a w) = nodeStore w.
Proof.
  destruct mode; simpl;
    unfold updateSingleModeHeapMap, updateMultiWayModeHeapMap,
      updateLightweightModeHeapMap;
    destruct (nodeAt w a); reflexivity.
Qed.

Lemma length_nodeStore_updNode n f w :
  length (nodeStore (updNode n f w)) = length (nodeStore w).
Proof. unfold updNode; simpl. apply length_alter. Qed.

Lemma length_nodeStore_bindNodes mode M a b w :
  length (nodeStore (ModeOps.bindNodes (forMode mode) M a b w))
  = length (nodeStore w).
Proof.
  destruct mode; cbn [ModeOps.bindNodes ImmutableLinkedOrderedMapForMode];
    unfold bindSingleModeNodes, bindMultiwayModeNodes, bindLightweightModeNodes;
    by rewrite !length_nodeStore_updNode.
Qed.

Lemma elementAt_updNode n f w n' :
  (∀ N, Node.element (f N) = Node.element N) →
  elementAt (updNode n f w) n' = elementAt w n'.
Proof.
  intros Hf. unfold elementAt, nodeAt, updNode; simpl.
  destruct (decide (n = n')) as [-> | Hne].
  - rewrite list_lookup_alter_eq. destruct (nodeStore w !! n'); simpl; [| done].
    by rewrite Hf.
  - by rewrite list_lookup_alter_ne.
Qed.

Lemma elementAt_bindNodes mode M a b w n :
  elementAt (ModeOps.bindNodes (forMode mode) M a b w) n = elementAt w n.
Proof.
  destruct mode; cbn [ModeOps.bindNodes ImmutableLinkedOrderedMapForMode];
    unfold bindSingleModeNodes, bindMultiwayModeNodes, bindLightweightModeNodes;
    rewrite !elementAt_updNode; try done;
    intros N; try destruct (Node.next N); try destruct (Node.previous N); done.
Qed.

(** The node [make...Node] creates is the next free reference. *)
Lemma makeNode_fst mode M p x k v w :
  ModeOps.makeImmutableLinkedOrderedMapNode (forMode mode) M p x k v w
  = (length (nodeStore w),
     snd (ModeOps.makeImmutableLinkedOrderedMapNode (forMode mode) M p x k v w)).
Proof. destruct mode; reflexivity. Qed.

Section Made.
Context (mode : Mode) (M : Map.t) (p x : option nat) (k : nat) (v : value)
  (w : world).
Local Abbreviation w' :=
  (snd (ModeOps.makeImmutableLinkedOrderedMapNode (forMode mode) M p x k v w)).

Lemma mapStore_made : mapStore w' = mapStore w.
Proof. destruct mode; reflexivity. Qed.

Lemma heapStore_made : heapStore w' = heapStore w.
Proof. destruct mode; reflexivity. Qed.

Lemma length_nodeStore_made : length (nodeStore w') = S (length (nodeStore w)).
Proof.
  destruct mode; simpl; rewrite length_app; simpl; lia.
Qed.

Lemma nodeAt_made_old n : n < length (nodeStore w) → nodeAt w' n = nodeAt w n.
Proof.
  intros Hn. unfold nodeAt. destruct mode; simpl; by rewrite lookup_app_l.
Qed.

Lemma nodeAt_made_new :
  ∃ N, nodeAt w' (length (nodeStore w)) = Some N ∧ Node.element N = (k, v).
Proof.
  unfold nodeAt. destruct mode; simpl; eexists;
    (split; [rewrite lookup_app_r by lia; replace (_ - _) with 0 by lia;
             reflexivity | reflexivity]).
Qed.

Lemma elementAt_made_new : elementAt w' (length (nodeStore w)) = (k, v).
Proof.
  unfold elementAt. destruct nodeAt_made_new as (N & -> & <-). reflexivity.
Qed.

Lemma elementAt_made_old n :
  n < length (nodeStore w) → elementAt w' n = elementAt w n.
Proof. intros Hn. by apply elementAt_nodeAt, nodeAt_made_old. Qed.

End Made.

End Frames.

(** * Writing to the heap map and looking it up *)

Section ForEach.
Context {K V S : Type} `{EqDecision K}.
Implicit Types (m : LinkedOrderedMap.t K V) (f : K → V → S → S * bool).

(** A key whose entry the callback passes over, whatever it holds, can be
    overwritten and can be prepended without the loop noticing. *)
Lemma forEach_overwrite_skipped f k v m s :
  (∀ v' s', f k v' s' = (s', true)) →
  LinkedOrderedMap.forEach f (LinkedOrderedMap.overwrite k v m) s
  = LinkedOrderedMap.forEach f m s.
Proof.
  intros Hskip. revert s. induction m as [| [k' v'] m IH]; intros s; [done |].
  simpl. destruct (decide (k = k')) as [<- | Hne]; simpl.
  - by rewrite !Hskip.
  - destruct (f k' v' s) as [s' []]; [apply IH | done].
Qed.

Lemma forEach_set_skipped f k v m s :
  (∀ v' s', f k v' s' = (s', true)) →
  LinkedOrderedMap.forEach f (LinkedOrderedMap.set k v true m) s
  = LinkedOrderedMap.forEach f m s.
Proof.
  intros Hskip. unfold LinkedOrderedMap.set.
  destruct (LinkedOrderedMap.has k m).
  - by apply forEach_overwrite_skipped.
  - simpl. by rewrite Hskip.
Qed.

Lemma has_get k m :
  LinkedOrderedMap.has k m = false → LinkedOrderedMap.get k m = None.
Proof.
  induction m as [| [k' v'] m IH]; [done |]. simpl.
  destruct (decide (k = k')); [done | apply IH].
Qed.

End ForEach.

Lemma substring_all s : String.substring 0 (String.length s) s = s.
Proof. induction s as [| c s IH]; simpl; [done | by rewrite IH]. Qed.

(** A version is an ancestor of itself. *)
Lemma isAncestorVersion_refl version :
  isAncestorVersionOfDescendantVersion version version = true.
Proof.
  unfold isAncestorVersionOfDescendantVersion. rewrite substring_all.
  apply String.eqb_refl.
Qed.

Section Heap.
Implicit Types (w : world) (M : Map.t) (mode : Mode).

Lemma heapAt_updHeap_eq h f w :
  heapAt (updHeap h f w) h = f <$> heapAt w h.
Proof. unfold heapAt, updHeap; simpl. apply list_lookup_alter_eq. Qed.

Lemma heapAt_updHeap_ne h h' f w :
  h ≠ h' → heapAt (updHeap h f w) h' = heapAt w h'.
Proof. intros Hne. unfold heapAt, updHeap; simpl. by apply list_lookup_alter_ne. Qed.

Lemma keyAt_nodeAt w n N : nodeAt w n = Some N → keyAt w n = fst (Node.element N).
Proof. unfold keyAt, elementAt. by intros ->. Qed.

(** A lookup that finds a node reads a heap map of its mode. *)
Lemma lookup_heapOf mode w M k n :
  ModeOps.lookup (forMode mode) w M k = Some n → heapOf mode w (Map.heapMap M).
Proof.
  unfold heapOf. destruct mode; simpl;
    unfold lookupSingleMode, lookupMultiwayMode, lookupLightweightMode;
    destruct (heapAt w (Map.heapMap M)) as [[] |]; done.
Qed.

(** Writing a node leaves the lookups of every other key as they were. *)
Lemma lookup_updateHeapMap_other mode M0 a w M k :
  keyAt w a ≠ k →
  ModeOps.lookup (forMode mode) (ModeOps.updateHeapMap (forMode mode) M0 a w) M k
  = ModeOps.lookup (forMode mode) w M k.
Proof.
  intros Hne. destruct mode; simpl;
    unfold updateSingleModeHeapMap, updateMultiWayModeHeapMap,
      updateLightweightModeHeapMap;
    destruct (nodeAt w a) as [N |] eqn:EN; try done;
    rewrite (keyAt_nodeAt _ _ _ EN) in Hne;
    unfold lookupSingleMode, lookupMultiwayMode, lookupLightweightMode;
    (destruct (decide (Map.heapMap M0 = Map.heapMap M)) as [<- | Hh];
      [ rewrite heapAt_updHeap_eq;
        destruct (heapAt w (Map.heapMap M0)) as [[h | h | h] |]; simpl; try done;
        by rewrite lookup_insert_ne
      | by rewrite heapAt_updHeap_ne ]).
Qed.

(** Writing a node at a depth leaves the lookups from every shallower map
    as they were, in the modes that keep depths. *)
Lemma lookup_updateHeapMap_deeper mode M0 a w M k :
  mode ≠ LIGHTWEIGHT →
  Map.depth M < Map.depth M0 →
  ModeOps.lookup (forMode mode) (ModeOps.updateHeapMap (forMode mode) M0 a w) M k
  = ModeOps.lookup (forMode mode) w M k.
Proof.
  intros Hmode Hdepth.
  destruct (decide (keyAt w a = k)) as [Hk | Hk];
    [| by apply lookup_updateHeapMap_other].
  destruct mode; [| | done]; simpl;
    unfold updateSingleModeHeapMap, updateMultiWayModeHeapMap;
    destruct (nodeAt w a) as [N |] eqn:EN; try done;
    rewrite (keyAt_nodeAt _ _ _ EN) in Hk; rewrite Hk;
    unfold lookupSingleMode, lookupMultiwayMode;
    (destruct (decide (Map.heapMap M0 = Map.heapMap M)) as [<- | Hh];
      [| by rewrite heapAt_updHeap_ne]);
    rewrite heapAt_updHeap_eq;
    destruct (heapAt w (Map.heapMap M0)) as [[h | h | h] |]; simpl; try done;
    rewrite lookup_insert_eq.
  - transitivity
      (LinkedOrderedMap.forEach
         (λ depthKey v node,
            if (depthKey <=? Map.depth M)%nat then (Some v, false) else (node, true))
         (default LinkedOrderedMap.new (h !! k)) None);
      [| by destruct (h !! k)].
    apply forEach_set_skipped. intros v' s'.
    by rewrite (proj2 (Nat.leb_gt _ _)) by lia.
  - transitivity
      (LinkedOrderedMap.forEach
         (λ depthKey v node,
            if (depthKey <=? Map.depth M)%nat then
              let node :=
                LinkedOrderedMap.forEach (λ stackVersion possibleNode node,
                  if isAncestorVersionOfDescendantVersion stackVersion
                       (Map.version M)
                  then (Some possibleNode, false) else (node, true)) v node in
              if node is Some _ then (node, false) else (node, true)
            else (node, true))
         (default LinkedOrderedMap.new (h !! k)) None);
      [| by destruct (h !! k)].
    unfold setVersionAtDepth.
    rewrite forEach_overwrite_skipped
      by (intros v' s'; by rewrite (proj2 (Nat.leb_gt _ _)) by lia).
    destruct (LinkedOrderedMap.has _ _); [done |].
    apply forEach_set_skipped. intros v' s'.
    by rewrite (proj2 (Nat.leb_gt _ _)) by lia.
Qed.

(** Writing a node at a depth that has no entry under its key makes it what
    a lookup from that depth and version finds. *)
Lemma lookup_updateHeapMap_own mode M0 a w M k N :
  nodeAt w a = Some N → fst (Node.element N) = k →
  heapOf mode w (Map.heapMap M0) →
  layerAt w M0 k (Map.depth M0) = false →
  sameView M0 M →
  ModeOps.lookup (forMode mode) (ModeOps.updateHeapMap (forMode mode) M0 a w) M k
  = Some a.
Proof.
  intros EN Ek Hheap Hlayer (Eh & Ed & Ev & _).
  unfold heapOf, layerAt in *.
  destruct mode; simpl;
    unfold updateSingleModeHeapMap, updateMultiWayModeHeapMap,
      updateLightweightModeHeapMap;
    rewrite EN, Ek;
    unfold lookupSingleMode, lookupMultiwayMode, lookupLightweightMode;
    rewrite Eh, heapAt_updHeap_eq;
    destruct (heapAt w (Map.heapMap M0)) as [[h | h | h] |]; try done; simpl;
    rewrite lookup_insert_eq; try done.
  - unfold LinkedOrderedMap.set. rewrite Hlayer. simpl.
    by rewrite Ed, Nat.leb_refl.
  - unfold setVersionAtDepth. rewrite Hlayer.
    unfold LinkedOrderedMap.set at 2 3. rewrite Hlayer. simpl.
    rewrite !decide_True by done. simpl.
    by rewrite Ed, Nat.leb_refl, Ev, isAncestorVersion_refl.
Qed.

Lemma heapOf_heapStore mode w w' h :
  heapStore w' = heapStore w → heapOf mode w' h ↔ heapOf mode w h.
Proof. intros E. unfold heapOf, heapAt. by rewrite E. Qed.

Lemma layerAt_heapStore w w' M k depth :
  heapStore w' = heapStore w → layerAt w' M k depth = layerAt w M k depth.
Proof. intros E. unfold layerAt, heapAt. by rewrite E. Qed.

Lemma layerAt_sameView w M M' k depth :
  Map.heapMap M' = Map.heapMap M → layerAt w M' k depth = layerAt w M k depth.
Proof. intros E. unfold layerAt. by rewrite E. Qed.

End Heap.

(** * Removing a key *)

Section Walk.
Implicit Types (w : world) (M : Map.t) (d : direction) (l : list nat).

Lemma walk_head fuel w M d current l :
  walk fuel w M d current = Some l → current = head l.
Proof.
  destruct fuel as [| fuel], current as [node |]; simpl; try done;
    try (by intros [= <-]).
  destruct (walk fuel _ _ _ _); simpl; [| done]. by intros [= <-].
Qed.

(** What [find] returns at a node of a walk is the node the walk went to. *)
Lemma walk_find fuel w M d current l1 n l2 :
  walk fuel w M d current = Some (l1 ++ n :: l2) →
  ModeOps.findMapNodeByDirection (forMode (Map.mode M)) w M n d = head l2.
Proof.
  revert fuel current. induction l1 as [| a l1 IH]; intros fuel current;
    destruct fuel as [| fuel], current as [node |]; simpl; try done;
    destruct (walk fuel _ _ _ _) as [l |] eqn:E; simpl; try done;
    intros [= -> ->].
  - by apply walk_head in E.
  - by apply IH in E.
Qed.

End Walk.

(** The node of a present key of a well-formed map, and what the map knows
    of its neighbours. *)
Lemma wellFormed_present w m k :
  wellFormed w m → present w m k →
  let M := mapAt w m in
  let ops := forMode (Map.mode M) in
  ∃ node,
    ModeOps.lookup ops w M k = Some node ∧
    node < length (nodeStore w) ∧ keyAt w node = k ∧
    (∀ d x, ModeOps.findMapNodeByDirection ops w M node d = Some x →
       x < length (nodeStore w) ∧ keyAt w x ≠ k) ∧
    (ModeOps.findMapNodeByDirection ops w M node Previous = None →
     ModeOps.findMapNodeByDirection ops w M node Next = None →
     Map.length M = 1%Z).
Proof.
  intros (_ & chain & Hnext & Hprev & Hlen & Hdup & Hall) (chain' & Hnext' & Hin).
  rewrite Hnext in Hnext'. injection Hnext' as <-.
  apply list_elem_of_fmap in Hin as (node & -> & Hin).
  apply list_elem_of_split in Hin as (l1 & l2 & ->).
  cbn zeta. exists node.
  pose proof Hall as Hnode.
  rewrite Forall_app, Forall_cons in Hnode. destruct Hnode as (_ & [Hlt Hlook] & _).
  unfold nodesOf in Hnext, Hprev.
  apply walk_find in Hnext.
  rewrite reverse_app, reverse_cons, <- app_assoc in Hprev.
  apply walk_find in Hprev. simpl in Hprev.
  rewrite fmap_app, fmap_cons in Hdup.
  apply NoDup_app in Hdup as (_ & Hl1 & Hdup).
  apply NoDup_cons in Hdup as [Hl2 _].
  split; [done |]. split; [done |]. split; [done |]. split.
  - intros [] x Hx.
    + rewrite Hprev in Hx.
      assert (x ∈ l1) as Hxin.
      { apply elem_of_reverse. destruct (reverse l1); [done |].
        injection Hx as ->. left. }
      split.
      * rewrite Forall_app, Forall_forall in Hall. by apply Hall.
      * intros Hk. apply (Hl1 (keyAt w x)); [| rewrite Hk; left].
        apply list_elem_of_fmap. eauto.
    + rewrite Hnext in Hx. destruct l2 as [| y l2]; [done |].
      injection Hx as ->. split.
      * rewrite Forall_app, !Forall_cons in Hall. by destruct Hall as (_ & _ & [] & _).
      * intros Hk. apply Hl2. rewrite fmap_cons, Hk. left.
  - rewrite Hprev, Hnext. intros H1 H2.
    destruct l2; [| done].
    destruct (reverse l1) eqn:E; [| done].
    apply (f_equal reverse) in E. rewrite reverse_involutive in E. subst l1.
    by rewrite <- Hlen.
Qed.

(** ** The fork *)

Lemma forkMap_spec this w :
  this < length (mapStore w) →
  let map := length (mapStore w) in
  let w' := snd (forkMap this w) in
  forkMap this w = (map, w') ∧
  nodeStore w' = nodeStore w ∧ heapStore w' = heapStore w ∧
  length (mapStore w') = S map ∧
  Map.heapMap (mapAt w' map) = Map.heapMap (mapAt w this) ∧
  Map.depth (mapAt w' map) = S (Map.depth (mapAt w this)) ∧
  Map.length (mapAt w' map) = Map.length (mapAt w this) ∧
  Map.mode (mapAt w' map) = Map.mode (mapAt w this) ∧
  Map.mutationOperationOccurred (mapAt w' map) = false ∧
  Map.mode (mapAt w' this) = Map.mode (mapAt w this) ∧
  Map.mutationOperationOccurred (mapAt w' this)
  = Map.mutationOperationOccurred (mapAt w this) ∧
  sameView (mapAt w this) (mapAt w' this).
Proof.
  intros Hthis. cbn zeta.
  assert (this ≠ length (mapStore w)) as Hne by lia.
  assert (length (mapStore w) ≠ this) as Hne' by lia.
  pose proof (mapAt_allocMap_new w) as Hnew.
  pose proof (λ M, mapAt_allocMap_old w M this Hthis) as Hold.
  pose proof (length_allocMap w) as Hlen.
  unfold forkMap.
  destruct (Map.mode (mapAt w this)) eqn:Hmode;
    cbn [ModeOps.fork ImmutableLinkedOrderedMapForMode forMode];
    unfold forkMultiwayModeMap;
    cbn [fst snd allocMap] in *;
    rewrite ?length_updMap, ?Hlen;
    rewrite ?mapAt_updMap_eq, ?(mapAt_updMap_ne _ _ _ _ Hne),
      ?(mapAt_updMap_ne _ _ _ _ Hne'), ?mapAt_updMap_eq,
      ?(mapAt_updMap_ne _ _ _ _ Hne), ?(mapAt_updMap_ne _ _ _ _ Hne'),
      ?mapAt_updMap_eq, ?Hnew, ?Hold
      by (rewrite ?length_updMap, ?Hlen; lia);
    repeat split; try done.
Qed.

(** ** The steps of [unset] after the orphan node *)

Section Unsetting.
Context (w0 : world) (this : mref) (k : key) (map : mref) (o : nref).
Implicit Types (w : world) (len : Z).

Lemma unsetting_updMap len len' f w :
  (∀ X, Map.heapMap (f X) = Map.heapMap X ∧ Map.depth (f X) = Map.depth X ∧
        Map.version (f X) = Map.version X ∧ Map.mode (f X) = Map.mode X ∧
        Map.mutationOperationOccurred (f X) = Map.mutationOperationOccurred X) →
  (∀ X, Map.length X = len → Map.length (f X) = len') →
  unsetting w0 this k map o len w →
  unsetting w0 this k map o len' (updMap map f w).
Proof.
  intros Hf Hlen
    (Hthis & Hmap & Hlt & Hmode & Hflag & Hl & Hmode' & Hflag' & Hview & Ho & Hon
     & Hoe & Hk & Hnodes & Helts).
  apply Hlen in Hl.
  assert (map ≠ this) as Hne by lia.
  destruct (Hf (mapAt w map)) as (Eh & Ed & Ev & Em & Ef).
  unfold unsetting. cbn zeta.
  rewrite length_updMap, mapAt_updMap_eq, (mapAt_updMap_ne _ _ _ _ Hne) by done.
  rewrite Em, Ef.
  repeat split; try done; try apply Hview.
  - rewrite <- Ho. by apply lookup_index.
  - intros Hm. rewrite <- Hk by done. by apply lookup_index.
Qed.

Lemma unsetting_frame len w w' :
  mapStore w' = mapStore w →
  length (nodeStore w) ≤ length (nodeStore w') →
  (∀ n, n < length (nodeStore w) → elementAt w' n = elementAt w n) →
  (∀ M, ModeOps.lookup (forMode (Map.mode (mapAt w0 this))) w' M k
        = ModeOps.lookup (forMode (Map.mode (mapAt w0 this))) w M k) →
  unsetting w0 this k map o len w → unsetting w0 this k map o len w'.
Proof.
  intros Emaps Hle Hel Hlook
    (Hthis & Hmap & Hlt & Hmode & Hflag & Hlen & Hmode' & Hflag' & Hview & Ho & Hon
     & Hoe & Hk & Hnodes & Helts).
  unfold unsetting, mapAt. cbn zeta. rewrite Emaps. fold (mapAt w map) (mapAt w this).
  rewrite !Hlook, Hel by done.
  repeat split; try done; try apply Hview; try lia.
  intros n Hn. rewrite Hel by lia. by apply Helts.
Qed.

Lemma unsetting_made len w M p x k' v :
  unsetting w0 this k map o len w →
  unsetting w0 this k map o len
    (snd (ModeOps.makeImmutableLinkedOrderedMapNode
            (forMode (Map.mode (mapAt w0 this))) M p x k' v w)).
Proof.
  apply unsetting_frame.
  - apply mapStore_made.
  - rewrite length_nodeStore_made. lia.
  - intros n Hn. by apply elementAt_made_old.
  - intros M'. apply lookup_heapStore, heapStore_made.
Qed.

Lemma unsetting_updateHeapMap len w M a :
  keyAt w a ≠ k →
  unsetting w0 this k map o len w →
  unsetting w0 this k map o len
    (ModeOps.updateHeapMap (forMode (Map.mode (mapAt w0 this))) M a w).
Proof.
  intros Hkey. apply unsetting_frame.
  - apply mapStore_updateHeapMap.
  - by rewrite nodeStore_updateHeapMap.
  - intros n Hn. apply elementAt_nodeAt. unfold nodeAt.
    by rewrite nodeStore_updateHeapMap.
  - intros M'. by apply lookup_updateHeapMap_other.
Qed.

Lemma unsetting_bindNodes len w M a b :
  unsetting w0 this k map o len w →
  unsetting w0 this k map o len
    (ModeOps.bindNodes (forMode (Map.mode (mapAt w0 this))) M a b w).
Proof.
  apply unsetting_frame.
  - apply mapStore_bindNodes.
  - by rewrite length_nodeStore_bindNodes.
  - intros n Hn. apply elementAt_bindNodes.
  - intros M'. apply lookup_heapStore, heapStore_bindNodes.
Qed.

End Unsetting.

(** The store once the receiver is forked and the orphan node is planted. *)
Lemma unsetting_orphan w this k node :
  this < length (mapStore w) →
  ModeOps.lookup (forMode (Map.mode (mapAt w this))) w (mapAt w this) k
  = Some node →
  layerAt w (mapAt w this) k (S (Map.depth (mapAt w this))) = false →
  let map := length (mapStore w) in
  let w2 := addImmutableLinkedOrderedMapOrphanNode map k (snd (forkMap this w)) in
  unsetting w this k map (length (nodeStore w)) (Map.length (mapAt w this)) w2 ∧
  ∀ n, n < length (nodeStore w) → nodeAt w2 n = nodeAt w n.
Proof.
  intros Hthis Hlook Hlayer. cbn zeta.
  destruct (forkMap_spec this w Hthis)
    as (_ & En & Eh & Elen & Fh & Fd & Fl & Fm & Ff & Tm & Tf & Tview).
  set (w1 := snd (forkMap this w)) in *.
  set (map := length (mapStore w)) in *.
  unfold addImmutableLinkedOrderedMapOrphanNode.
  rewrite Fm, makeNode_fst, En.
  set (w1' := snd (ModeOps.makeImmutableLinkedOrderedMapNode _ _ _ _ _ _ w1)).
  assert (mapStore w1' = mapStore w1) as Emaps by apply mapStore_made.
  assert (heapStore w1' = heapStore w) as Eheap
    by (unfold w1'; by rewrite heapStore_made).
  assert (mapAt w1' map = mapAt w1 map) as -> by (unfold mapAt; by rewrite Emaps).
  set (w2 := ModeOps.updateHeapMap _ _ _ w1').
  assert (mapStore w2 = mapStore w1) as Emaps2
    by (unfold w2; by rewrite mapStore_updateHeapMap).
  assert (nodeStore w2 = nodeStore w1') as Enodes2
    by apply nodeStore_updateHeapMap.
  assert (∀ m, mapAt w2 m = mapAt w1 m) as Hmaps
    by (intros m; unfold mapAt; by rewrite Emaps2).
  destruct (nodeAt_made_new (Map.mode (mapAt w this)) (mapAt w1 map) None None k
              Undefined w1) as (N & HN & HNe).
  fold w1' in HN. rewrite En in HN.
  split.
  - unfold unsetting. cbn zeta. rewrite !Hmaps, Emaps2, Elen, Enodes2.
    assert (length (nodeStore w1') = S (length (nodeStore w))) as ->
      by (unfold w1'; by rewrite length_nodeStore_made, En).
    repeat split; try done; try apply Tview; try lia.
    + unfold w2. eapply lookup_updateHeapMap_own; [exact HN | by rewrite HNe | ..].
      * apply (heapOf_heapStore _ w); [done |]. rewrite Fh.
        by eapply lookup_heapOf.
      * rewrite (layerAt_heapStore w) by done.
        rewrite (layerAt_sameView _ (mapAt w this)) by done. by rewrite Fd.
      * done.
    + unfold elementAt, nodeAt. rewrite Enodes2. fold (nodeAt w1' (length (nodeStore w))).
      by rewrite HN, <- HNe.
    + intros Hmode. unfold w2. rewrite lookup_updateHeapMap_deeper.
      * apply lookup_index; [done | apply Tview..].
      * done.
      * destruct Tview as (_ & -> & _). rewrite Fd. lia.
    + intros n Hn. unfold elementAt, nodeAt. rewrite Enodes2.
      fold (nodeAt w1' n). unfold w1'. rewrite nodeAt_made_old by (rewrite En; lia).
      unfold nodeAt. by rewrite En.
  - intros n Hn. unfold nodeAt. rewrite Enodes2.
    fold (nodeAt w1' n). unfold w1'. rewrite nodeAt_made_old by (rewrite En; lia).
    unfold nodeAt. by rewrite En.
Qed.

(** ** [unset] of a present key *)

Ltac unsetting_steps :=
  repeat first
    [ eassumption
    | eapply unsetting_updMap;
        [ by intros ?
        | intros ? HX; cbn; rewrite ?HX; reflexivity
        | ]
    | apply unsetting_bindNodes
    | apply unsetting_updateHeapMap
    | apply unsetting_made
    | match goal with
      | |- context [match ?e with Some _ => _ | None => _ end] => destruct e
      end ].

Lemma unset_present w this k :
  wellFormed w this → present w this k →
  layerAt w (mapAt w this) k (S (Map.depth (mapAt w this))) = false →
  ∃ w',
    Base.unset this k w = Return (length (mapStore w)) w' ∧
    unsetting w this k (length (mapStore w)) (length (nodeStore w))
      (Map.length (mapAt w this) - 1) w'.
Proof.
  intros Hwf Hpresent Hlayer.
  destruct (wellFormed_present _ _ _ Hwf Hpresent)
    as (node & Hlook & Hnode & Hkey & Hnb & Hone).
  destruct Hwf as [Hthis _].
  destruct (unsetting_orphan _ _ _ _ Hthis Hlook Hlayer) as [Hinv Hnodes].
  destruct (forkMap_spec this w Hthis) as (Efork & _).
  unfold Base.unset. rewrite Hlook, Efork.
  set (map := length (mapStore w)) in *.
  set (w2 := addImmutableLinkedOrderedMapOrphanNode _ _ _) in *.
  pose proof Hinv as
    (_ & _ & Hlt & Hmode & _ & _ & _ & _ & Hview & _ & _ & _ & _ & _ & Helts).
  cbn zeta. rewrite Hmode.
  rewrite !(find_sameView _ _ _ _ _ _ Hview),
    !(find_nodeAt _ w w2) by (by apply Hnodes).
  unfold mapChange.
  eexists. split; [reflexivity |].
  assert (∀ x, x < length (nodeStore w) → keyAt w x ≠ k →
          ∀ M nk nv, elementAt w2 x = (nk, nv) →
          keyAt (snd (ModeOps.makeImmutableLinkedOrderedMapNode
                        (forMode (Map.mode (mapAt w this))) M None None nk nv w2))
            (length (nodeStore w2)) ≠ k) as Hfresh.
  { intros x Hx Hxk M nk nv Hel. unfold keyAt. rewrite elementAt_made_new. simpl.
    rewrite Helts in Hel by done. unfold keyAt in Hxk. by rewrite Hel in Hxk. }
  eapply unsetting_updMap; [by intros ? | intros ? HX; exact HX |].
  destruct (ModeOps.findMapNodeByDirection _ w _ node Previous)
    as [previous |] eqn:Eprevious;
    destruct (ModeOps.findMapNodeByDirection _ w _ node Next)
      as [next |] eqn:Enext.
  - unsetting_steps.
  - destruct (Hnb _ _ Eprevious) as [Hp Hpk].
    destruct (elementAt w2 previous) as [pk pv] eqn:Eel.
    rewrite makeNode_fst. cbn beta iota zeta.
    unsetting_steps; by eapply Hfresh.
  - destruct (Hnb _ _ Enext) as [Hn Hnk].
    destruct (elementAt w2 next) as [nk nv] eqn:Eel.
    rewrite makeNode_fst. cbn beta iota zeta.
    unsetting_steps; by eapply Hfresh.
  - rewrite (Hone eq_refl eq_refl) in *.
    eapply (unsetting_updMap _ _ _ _ _ 1%Z); [by intros ? | by intros ? _ |].
    unsetting_steps.
Qed.

(** ** The claim *)

(** What a read of [k] finds once the receiver of the [unset] is marked. *)
Lemma unsetting_marked w0 this k map o len w f :
  (∀ X, Map.heapMap (f X) = Map.heapMap X ∧ Map.depth (f X) = Map.depth X ∧
        Map.version (f X) = Map.version X ∧ Map.mode (f X) = Map.mode X) →
  unsetting w0 this k map o len w →
  let w' := updMap this f w in
  this ≠ map ∧
  Map.mode (mapAt w' map) = Map.mode (mapAt w0 this) ∧
  Map.mutationOperationOccurred (mapAt w' map) = false ∧
  Map.length (mapAt w' map) = len ∧
  Base.get map k w' = Undefined ∧
  Map.mode (mapAt w' this) = Map.mode (mapAt w0 this) ∧
  Map.mutationOperationOccurred (mapAt w' this)
  = Map.mutationOperationOccurred (f (mapAt w this)) ∧
  (Map.mode (mapAt w0 this) ≠ LIGHTWEIGHT →
   ∀ node,
     ModeOps.lookup (forMode (Map.mode (mapAt w0 this))) w0 (mapAt w0 this) k
     = Some node →
     node < length (nodeStore w0) →
     Base.get this k w' = Base.get this k w0).
Proof.
  intros Hf
    (Hthis & Hmap & Hlt & Hmode & Hflag & Hl & Hmode' & Hflag' & Hview & Ho & Hon
     & Hoe & Hk & Hnodes & Helts).
  cbn zeta.
  assert (this ≠ map) as Hne by lia.
  assert (this < length (mapStore w)) as Hthis' by lia.
  destruct (Hf (mapAt w this)) as (Eh & Ed & Ev & Em).
  unfold Base.get.
  rewrite (mapAt_updMap_ne _ _ _ _ Hne), mapAt_updMap_eq by done.
  rewrite Hmode, Em, Hmode'.
  rewrite !(lookup_heapStore _ w (updMap this f w)) by apply heapStore_updMap.
  rewrite Ho.
  rewrite (lookup_index _ w w (mapAt w this) (f (mapAt w this))) by done.
  repeat split; try done.
  - rewrite (elementAt_nodeAt w) by reflexivity. by rewrite Hoe.
  - intros Hm node Hlook Hnode. rewrite Hk, Hlook by done.
    rewrite (elementAt_nodeAt w) by reflexivity. by rewrite Helts.
Qed.

Lemma updMap_id m f w : (∀ X, f X = X) → updMap m f w = w.
Proof.
  intros Hf. unfold updMap. destruct w as [ns hs ms]; simpl. f_equal.
  revert m. induction ms as [| M ms IH]; intros [| m]; simpl; try done.
  - by rewrite Hf.
  - f_equal. apply IH.
Qed.


(** The maps of the examples are well formed. *)
Lemma wellFormed_fresh_threeItems mode : wellFormed (fresh mode threeItems) 0.
Proof.
  split; [destruct mode; vm_compute; lia |]. exists [2; 1; 0].
  destruct mode;
    (split; [by vm_compute |]); (split; [by vm_compute |]);
    (split; [by vm_compute |]);
    (split; apply (bool_decide_unpack _); by vm_compute).
Qed.

Lemma present_fresh_threeItems mode k :
  k ∈ [1; 2; 3] → present (fresh mode threeItems) 0 k.
Proof.
  intros Hk. exists [2; 1; 0]. split; [by destruct mode; vm_compute |].
  replace (keyAt (fresh mode threeItems) <$> [2; 1; 0]) with [1; 2; 3]; [done |].
  by destruct mode; vm_compute.
Qed.



(** * Reading a well-formed map *)

Section Reads.
Implicit Types (w : world) (m : mref) (M : Map.t).

Lemma forEachLoop_walk {S : Type} fuel w M d (fn : value → key → S → S * bool)
    current chain s :
  walk fuel w M d current = Some chain →
  Base.forEachLoop fuel w M d fn current s
  = Some (visit fn (elementAt w <$> chain) s).
Proof.
  revert current chain s. induction fuel as [| fuel IH]; intros current chain s;
    destruct current as [node |]; simpl; try done; try (by intros [= <-]).
  destruct (walk fuel _ _ _ _) as [rest |] eqn:E; simpl; [| done].
  intros [= <-]. simpl. destruct (elementAt w node) as [k v].
  destruct (fn v k s) as [s' []]; [| done]. by apply IH.
Qed.

Lemma wellFormed_chainOf w m :
  wellFormed w m →
  nodesOf w m Next = Some (chainOf w m) ∧
  nodesOf w m Previous = Some (reverse (chainOf w m)) ∧
  Z.of_nat (length (chainOf w m)) = Map.length (mapAt w m) ∧
  NoDup (keyAt w <$> chainOf w m) ∧
  Forall (λ n,
    n < length (nodeStore w) ∧
    ModeOps.lookup (forMode (Map.mode (mapAt w m))) w (mapAt w m) (keyAt w n)
    = Some n) (chainOf w m).
Proof.
  intros (_ & chain & Hnext & H). unfold chainOf. by rewrite Hnext.
Qed.

Lemma forEach_entries {S : Type} w m (fn : value → key → S → S * bool)
    reversed s :
  wellFormed w m →
  Base.forEach m fn reversed s w
  = Some (visit fn (if reversed then reverse (entriesOf w m) else entriesOf w m) s).
Proof.
  intros (Hnext & Hprev & _)%wellFormed_chainOf.
  unfold Base.forEach, entriesOf. unfold nodesOf in *.
  destruct reversed.
  - rewrite <- fmap_reverse. by apply forEachLoop_walk.
  - by apply forEachLoop_walk.
Qed.

(** Filling the slots of an array one after the other, as the callbacks of
    [values], [keys], [keysValues] and [map] do. *)
Lemma arrayAssign_next {B : Type} (pre : list B) n x :
  Base.arrayAssign ((Some <$> pre) ++ None :: replicate n None) (length pre) x
  = (Some <$> (pre ++ [x])) ++ replicate n None.
Proof.
  unfold Base.arrayAssign.
  rewrite bool_decide_eq_true_2 by (rewrite length_app, length_fmap; simpl; lia).
  rewrite insert_app_r_alt by (rewrite length_fmap; lia).
  rewrite length_fmap, Nat.sub_diag. simpl. by rewrite fmap_app, <- app_assoc.
Qed.

Lemma visit_fill {B : Type} (f : value → key → nat → B) entries (pre : list B) :
  visit (λ v k '(array, i), ((Base.arrayAssign array i (f v k i), S i), true))
    entries ((Some <$> pre) ++ replicate (length entries) None, length pre)
  = (Some <$> (pre ++ imap (λ j '(k, v), f v k (length pre + j)) entries),
     length pre + length entries).
Proof.
  revert pre. induction entries as [| [k v] entries IH]; intros pre; simpl.
  - rewrite !app_nil_r. f_equal. lia.
  - rewrite arrayAssign_next.
    replace (S (length pre)) with (length (pre ++ [f v k (length pre)]))
      by (rewrite length_app; simpl; lia).
    rewrite IH. rewrite length_app. simpl. rewrite <- app_assoc. simpl.
    f_equal; [| lia]. do 3 f_equal; [f_equal; lia |].
    apply imap_ext. intros j [k' v'] _. simpl. f_equal. lia.
Qed.

Lemma newArray_length {A : Type} (n : nat) :
  (Z.of_nat n < 2 ^ 32)%Z →
  Base.newArray (A := A) (Z.of_nat n) = Some (replicate n None).
Proof.
  intros Hn. unfold Base.newArray. rewrite bool_decide_eq_false_2 by lia.
  by rewrite Nat2Z.id.
Qed.

Lemma map_entries {B : Type} w m (fn : value → key → nat → B) reversed :
  wellFormed w m →
  (Map.length (mapAt w m) < 2 ^ 32)%Z →
  Base.map m fn reversed w
  = Return
      (Some <$> imap (λ i '(k, v), fn v k i)
                  (if reversed then reverse (entriesOf w m) else entriesOf w m))
      w.
Proof.
  intros Hwf Hlen. unfold Base.map.
  destruct (wellFormed_chainOf _ _ Hwf) as (_ & _ & Hl & _).
  rewrite <- Hl in *. rewrite newArray_length by done.
  rewrite (forEach_entries _ _ _ _ _ Hwf).
  set (entries := if reversed then _ else _).
  assert (length (chainOf w m) = length entries) as ->.
  { unfold entries, entriesOf. destruct reversed;
      by rewrite ?length_reverse, length_fmap. }
  pose proof (visit_fill fn entries []) as E. simpl in E. by rewrite E.
Qed.

End Reads.

Lemma imap_entries_fst (entries : list (key * value)) :
  imap (λ (_ : nat) '(k, _), k) entries = entries.*1.
Proof.
  rewrite <- (imap_const fst). apply imap_ext. by intros ? [] ?.
Qed.

Lemma imap_entries_snd (entries : list (key * value)) :
  imap (λ (_ : nat) '(_, v), v) entries = entries.*2.
Proof.
  rewrite <- (imap_const snd). apply imap_ext. by intros ? [] ?.
Qed.

Lemma imap_entries_id (entries : list (key * value)) :
  imap (λ (_ : nat) '(k, v), (k, v)) entries = entries.
Proof.
  rewrite <- (list_fmap_id entries) at 2. rewrite <- (imap_const id).
  apply imap_ext. by intros ? [] ?.
Qed.



(** X2: on such a map of fewer than 2^32 entries, [keysValues], [keys] and
    [values] return arrays without holes that list the entries, their keys
    and their values from the head to the tail, and [map] returns the array
    of what its callback answered on each entry and its index, in the order
    of the traversal. *)
Theorem arrays_list_the_entries (w : world) (m : mref) :
  wellFormed w m → readable w m →
  (Map.length (mapAt w m) < 2 ^ 32)%Z →
  Call.keysValues m w = Return (Some <$> entriesOf w m) w ∧
  Call.keys m w = Return (Some <$> (entriesOf w m).*1) w ∧
  Call.values m w = Return (Some <$> (entriesOf w m).*2) w ∧
  ∀ (B : Type) (fn : value → key → nat → B) reversed,
    Call.map m fn reversed w
    = Return
        (Some <$> imap (λ i '(k, v), fn v k i)
                    (if reversed then reverse (entriesOf w m) else entriesOf w m))
        w.
Proof.
  intros Hwf Hread Hlen.
  destruct (readsAnswered_intro _ _ Hread)
    as (_ & _ & _ & _ & _ & [-> _] & [-> _] & [-> _] & Hmap).
  pose proof (λ B fn, map_entries (B := B) w m fn false Hwf Hlen) as E.
  split; [| split; [| split]].
  - change (Base.keysValues m w) with (Base.map m (λ v k _, (k, v)) false w).
    by rewrite E, imap_entries_id.
  - change (Base.keys m w) with (Base.map m (λ _ k _, k) false w).
    by rewrite E, imap_entries_fst.
  - change (Base.values m w) with (Base.map m (λ v _ _, v) false w).
    by rewrite E, imap_entries_snd.
  - intros B fn reversed. destruct (Hmap B fn reversed) as [-> _].
    by apply map_entries.
Qed.

Lemma arrays_list_the_entries_witness :
  (wellFormed (fresh SINGLE threeItems) 0 ∧
   readable (fresh SINGLE threeItems) 0 ∧
   (Map.length (mapAt (fresh SINGLE threeItems) 0) < 2 ^ 32)%Z) ∧
  Call.keysValues 0 (fresh SINGLE threeItems)
  = Return (Some <$> entriesOf (fresh SINGLE threeItems) 0)
      (fresh SINGLE threeItems) ∧
  Call.keys 0 (fresh SINGLE threeItems)
  = Return (Some <$> (entriesOf (fresh SINGLE threeItems) 0).*1)
      (fresh SINGLE threeItems) ∧
  Call.values 0 (fresh SINGLE threeItems)
  = Return (Some <$> (entriesOf (fresh SINGLE threeItems) 0).*2)
      (fresh SINGLE threeItems) ∧
  ∀ (B : Type) (fn : value → key → nat → B) reversed,
    Call.map 0 fn reversed (fresh SINGLE threeItems)
    = Return
        (Some <$> imap (λ i '(k, v), fn v k i)
                    (if reversed
                     then reverse (entriesOf (fresh SINGLE threeItems) 0)
                     else entriesOf (fresh SINGLE threeItems) 0))
        (fresh SINGLE threeItems).
Proof.
  assert (wellFormed (fresh SINGLE threeItems) 0) as H1
    by apply wellFormed_fresh_threeItems.
  assert (readable (fresh SINGLE threeItems) 0) as H2 by (by left).
  assert (Map.length (mapAt (fresh SINGLE threeItems) 0) < 2 ^ 32)%Z as H3
    by (by vm_compute).
  split; [done |].
  exact (arrays_list_the_entries _ _ H1 H2 H3).
Defined.



(** * Mutations that change nothing *)

Section Noops.
Implicit Types (w : world) (m : mref) (st : SetLoop.t).

(** A mutation whose base method returns the receiver is passed on as it is
    by the classes of the three modes, when they do not refuse it. *)
Lemma invoke_noop w m μ :
  mutable w m → super m μ w = Return m w → invoke m μ w = Return m w.
Proof.
  intros Hmut E.
  assert (Single.noteMutation m (Return m w) = Return m w) as Hnote.
  { simpl. by rewrite bool_decide_eq_false_2 by (by intros ?). }
  destruct (Map.mode (mapAt w m)) eqn:Hmode.
  - destruct Hmut as [? | Hgate]; [congruence |].
    by rewrite invoke_single, Hgate, E.
  - by rewrite invoke_multiway.
  - destruct Hmut as [? | Hgate]; [congruence |].
    by rewrite invoke_lightweight, Hgate, E.
Qed.

Lemma setItem_stored m prependMissing it st w :
  stored w m it →
  ∃ st', Base.setItem m prependMissing it st w = Return st' w ∧
         SetLoop.map st' = SetLoop.map st.
Proof.
  intros (node & Hlook & Hval). unfold Base.setItem.
  rewrite keyValueForItem_keyOf.
  destruct (bool_decide (keyOf it ∈ SetLoop.keysMap st)); [by eexists |].
  rewrite Hlook, Hval. rewrite bool_decide_eq_false_2 by (by intros ?).
  by eexists.
Qed.

Lemma setLoop_stored m prependMissing items st w :
  Forall (stored w m) items →
  ∃ st', Base.setLoop m prependMissing items st w = Return st' w ∧
         SetLoop.map st' = SetLoop.map st.
Proof.
  intros Hall. revert st. induction Hall as [| it items Hit _ IH]; intros st.
  - by eexists.
  - simpl. destruct (setItem_stored m prependMissing it st w Hit) as (st1 & -> & E1).
    destruct (IH st1) as (st2 & -> & E2). eexists. split; [done | congruence].
Qed.

Lemma set_stored m items prependMissing w :
  Forall (stored w m) items → Base.set m items prependMissing w = Return m w.
Proof.
  intros Hall. unfold Base.set. destruct items as [| it items]; [done |].
  destruct (setLoop_stored m prependMissing (reverse (it :: items)) SetLoop.init w)
    as (st & -> & Hmap); [by apply Forall_reverse |].
  simpl in Hmap. unfold Base.loopEnd. rewrite Hmap.
  by destruct prependMissing, (SetLoop.lastPrepend st).
Qed.

End Noops.

(** X4: [set] of items that the map already holds, each under its key with
    the identical value, returns the receiver itself and leaves the store as
    it is, whatever the number of items (none included) and wherever missing
    ones would have gone; the gate of the receiver is not armed by it. *)
Theorem set_of_stored_items_returns_the_receiver (w : world) (m : mref)
    (items : list item) (prependMissing : bool) :
  mutable w m → Forall (stored w m) items →
  Call.set m items prependMissing w = Return m w.
Proof.
  intros Hmut Hall.
  apply (invoke_noop w m (MSet items prependMissing) Hmut).
  by apply set_stored.
Qed.

Lemma set_of_stored_items_returns_the_receiver_witness :
  (mutable (fresh SINGLE threeItems) 0 ∧
   Forall (stored (fresh SINGLE threeItems) 0) [obj 3 30; obj 1 10]) ∧
  Call.set 0 [obj 3 30; obj 1 10] false (fresh SINGLE threeItems)
  = Return 0 (fresh SINGLE threeItems).
Proof.
  assert (mutable (fresh SINGLE threeItems) 0) as H1 by (by right).
  assert (Forall (stored (fresh SINGLE threeItems) 0) [obj 3 30; obj 1 10]) as H2.
  { repeat constructor; [by exists 0 | by exists 2]. }
  split; [done |].
  exact (set_of_stored_items_returns_the_receiver _ _ _ false H1 H2).
Defined.

(** X5: the other mutations that find nothing to do return the receiver
    itself and leave the store, the gate included, as it is: [unset] of a
    key the map does not resolve; [replace] of such a key unless
    [addMissing] is set; [replace] of a key whose node holds the identical
    value, whatever the key of the item; [empty] on a map of length 0. *)
Theorem mutations_without_effect_return_the_receiver (w : world) (m : mref) :
  mutable w m →
  let lookup := ModeOps.lookup (forMode (Map.mode (mapAt w m))) w (mapAt w m) in
  (∀ k, lookup k = None → Call.unset m k w = Return m w) ∧
  (∀ oldKey it prependMissing,
     lookup oldKey = None →
     Call.replace m oldKey it false prependMissing w = Return m w) ∧
  (∀ oldKey node it addMissing prependMissing,
     lookup oldKey = Some node → snd (elementAt w node) = valueOf it →
     Call.replace m oldKey it addMissing prependMissing w = Return m w) ∧
  ((Map.length (mapAt w m) ≤ 0)%Z → Call.empty m w = Return m w).
Proof.
  intros Hmut lookup. unfold lookup. repeat split.
  - intros k Hk. apply (invoke_noop w m (MUnset k) Hmut).
    simpl. unfold Base.unset. by rewrite Hk.
  - intros oldKey it prependMissing Hk.
    apply (invoke_noop w m (MReplace oldKey it false prependMissing) Hmut).
    simpl. unfold Base.replace. by rewrite Hk.
  - intros oldKey node it addMissing prependMissing Hk Hval.
    apply (invoke_noop w m (MReplace oldKey it addMissing prependMissing) Hmut).
    simpl. unfold Base.replace. rewrite Hk.
    destruct (keyValueForItem _ it) as [k v] eqn:E.
    assert (valueOf it = v) as Hv by (unfold valueOf; destruct it; by inversion E).
    rewrite Hval, Hv. by rewrite bool_decide_eq_false_2 by (by intros ?).
  - intros Hlen. apply (invoke_noop w m MEmpty Hmut).
    simpl. unfold Base.empty. by rewrite bool_decide_eq_true_2.
Qed.

Lemma mutations_without_effect_return_the_receiver_witness :
  mutable (fresh LIGHTWEIGHT threeItems) 0 ∧
  Call.unset 0 7 (fresh LIGHTWEIGHT threeItems)
  = Return 0 (fresh LIGHTWEIGHT threeItems).
Proof.
  assert (mutable (fresh LIGHTWEIGHT threeItems) 0) as H1 by (by right).
  split; [done |].
  exact (proj1 (mutations_without_effect_return_the_receiver _ _ H1) 7 eq_refl).
Defined.

(** * The factory *)

Section Flat.
Implicit Types (w : world) (M : Map.t) (mode : Mode) (N : Node.t).

Lemma nodeAt_updNode_eq n f w : nodeAt (updNode n f w) n = f <$> nodeAt w n.
Proof. unfold nodeAt, updNode; simpl. apply list_lookup_alter_eq. Qed.

Lemma nodeAt_updNode_ne n n' f w :
  n ≠ n' → nodeAt (updNode n f w) n' = nodeAt w n'.
Proof. intros Hne. unfold nodeAt, updNode; simpl. by apply list_lookup_alter_ne. Qed.

(** The node [make...Node] creates for a map. *)
Lemma make_flat mode M p x k v w :
  ModeOps.makeImmutableLinkedOrderedMapNode (forMode mode) M p x k v w
  = (length (nodeStore w),
     World
       (nodeStore w
        ++ [Node.make (flatLinks mode (Map.depth M) (Map.version M) p)
              (flatLinks mode (Map.depth M) (Map.version M) x) (k, v)])
       (heapStore w) (mapStore w)).
Proof. by destruct mode. Qed.

(** Binding two nodes whose fields on the side of the other are the ones a
    map of this depth and version left. *)
Lemma bind_flat mode M a b w Na Nb xa xb :
  nodeAt w a = Some Na → nodeAt w b = Some Nb → a ≠ b →
  Node.next Na = flatLinks mode (Map.depth M) (Map.version M) xa →
  Node.previous Nb = flatLinks mode (Map.depth M) (Map.version M) xb →
  let w' := ModeOps.bindNodes (forMode mode) M a b w in
  nodeAt w' a
  = Some (Node.set_next
            (flatLinks mode (Map.depth M) (Map.version M) (Some b)) Na) ∧
  nodeAt w' b
  = Some (Node.set_previous
            (flatLinks mode (Map.depth M) (Map.version M) (Some a)) Nb) ∧
  (∀ c, c ≠ a → c ≠ b → nodeAt w' c = nodeAt w c).
Proof.
  intros Ha Hb Hne Hnext Hprev.
  destruct mode; cbn [ModeOps.bindNodes ImmutableLinkedOrderedMapForMode forMode];
    unfold bindSingleModeNodes, bindMultiwayModeNodes, bindLightweightModeNodes;
    cbn zeta; (split; [| split]);
    try (by intros c Hca Hcb; rewrite !nodeAt_updNode_ne by done);
    rewrite ?(nodeAt_updNode_ne b a) by done;
    rewrite ?nodeAt_updNode_eq; rewrite ?(nodeAt_updNode_ne a b) by done;
    rewrite ?Ha, ?Hb; simpl; rewrite ?Hnext, ?Hprev; simpl;
    unfold setVersionAtDepth, LinkedOrderedMap.set; simpl;
    rewrite ?decide_True by done; simpl; rewrite ?decide_True by done; simpl;
    rewrite ?decide_True by done; done.
Qed.

(** What [find] reads in such a field. *)
Lemma find_flat mode w M n N d t :
  nodeAt w n = Some N →
  directionField d N = flatLinks mode (Map.depth M) (Map.version M) t →
  (isBoundary M n d = true → t = None) →
  ModeOps.findMapNodeByDirection (forMode mode) w M n d = t.
Proof.
  intros Hn Hlinks Hboundary.
  destruct mode; simpl;
    unfold findSingleModeMapNodeByDirection, findMultiwayModeMapNodeByDirection,
      findLightweightModeMapNodeByDirection;
    rewrite Hn, Hlinks; simpl; try done;
    (destruct (isBoundary M n d); [by rewrite Hboundary |]);
    rewrite Nat.leb_refl, ?isAncestorVersion_refl; by destruct t.
Qed.

End Flat.

Section Unknown.
Implicit Types (w : world) (M : Map.t) (mode : Mode).

Lemma unknown_lookup w M k :
  unknown w M k → ModeOps.lookup (forMode (Map.mode M)) w M k = None.
Proof.
  unfold unknown. destruct (Map.mode M); simpl;
    unfold lookupSingleMode, lookupMultiwayMode, lookupLightweightMode;
    destruct (heapAt w (Map.heapMap M)) as [[h | h | h] |]; try done;
    by intros ->.
Qed.

Lemma unknown_layerAt w M k depth : unknown w M k → layerAt w M k depth = false.
Proof.
  unfold unknown, layerAt.
  destruct (heapAt w (Map.heapMap M)) as [[h | h | h] |], (Map.mode M);
    try done; by intros ->.
Qed.

Lemma unknown_heapOf w M k : unknown w M k → heapOf (Map.mode M) w (Map.heapMap M).
Proof.
  unfold unknown, heapOf.
  by destruct (heapAt w (Map.heapMap M)) as [[h | h | h] |], (Map.mode M).
Qed.

Lemma unknown_frame w w' M M' k :
  heapStore w' = heapStore w → Map.heapMap M' = Map.heapMap M →
  Map.mode M' = Map.mode M → unknown w M k → unknown w' M' k.
Proof. unfold unknown, heapAt. by intros -> -> ->. Qed.

Lemma unknown_updateHeapMap mode M0 a w M k :
  keyAt w a ≠ k → unknown w M k →
  unknown (ModeOps.updateHeapMap (forMode mode) M0 a w) M k.
Proof.
  intros Hne. unfold unknown.
  destruct mode; simpl;
    unfold updateSingleModeHeapMap, updateMultiWayModeHeapMap,
      updateLightweightModeHeapMap;
    destruct (nodeAt w a) as [N |] eqn:EN; try done;
    rewrite (keyAt_nodeAt _ _ _ EN) in Hne;
    (destruct (decide (Map.heapMap M0 = Map.heapMap M)) as [<- | Hh];
      [ rewrite heapAt_updHeap_eq;
        destruct (heapAt w (Map.heapMap M0)) as [[h | h | h] |], (Map.mode M);
        simpl; try done; by rewrite lookup_insert_ne
      | by rewrite heapAt_updHeap_ne ]).
Qed.

End Unknown.

Lemma NoDup_reverse {A : Type} (l : list A) : NoDup l → NoDup (reverse l).
Proof. by rewrite reverse_Permutation. Qed.

(** A list of nodes each of which [find] leads to the next one is what a
    walk from its first node goes through. *)
Lemma walk_chain fuel w M d chain :
  (∀ i n, chain !! i = Some n →
     ModeOps.findMapNodeByDirection (forMode (Map.mode M)) w M n d
     = chain !! S i) →
  length chain ≤ fuel →
  walk fuel w M d (head chain) = Some chain.
Proof.
  revert fuel. induction chain as [| n chain IH]; intros fuel Hfind Hfuel.
  - by destruct fuel.
  - destruct fuel as [| fuel]; [simpl in Hfuel; lia |]. simpl.
    rewrite (Hfind 0 n eq_refl). simpl.
    rewrite <- (head_lookup chain), IH; [done | | simpl in Hfuel; lia].
    intros i n' Hi. apply (Hfind (S i) n' Hi).
Qed.

(** ** The nodes of the initial items *)

Section Built.
Context (m : mref) (mode : Mode) (n0 : nref) (h0 : href).
Implicit Types (w : world) (made : list (key * value)).

Local Abbreviation flat := (flatLinks mode 0 MULTIWAY_MODE_INITIAL_MAP_TREE_DEPTH_VERSION).

(** The store once the node of a new key is created and written to the heap
    map. *)
Lemma built_node w made k v :
  built w m mode n0 h0 made → k ∉ made.*1 →
  let M := mapAt w m in
  let n := n0 + length made in
  let w1 :=
    snd (ModeOps.makeImmutableLinkedOrderedMapNode (forMode mode) M
           None None k v w) in
  let w2 := ModeOps.updateHeapMap (forMode mode) (mapAt w1 m) n w1 in
  ModeOps.makeImmutableLinkedOrderedMapNode (forMode mode) M None None k v w
  = (n, w1) ∧
  mapStore w1 = mapStore w ∧
  mapStore w2 = mapStore w ∧
  length (nodeStore w2) = S n ∧
  nodeAt w2 n = Some (Node.make (flat None) (flat None) (k, v)) ∧
  (∀ c, c < n → nodeAt w2 c = nodeAt w c) ∧
  ModeOps.lookup (forMode mode) w2 M k = Some n ∧
  (∀ k', k' ≠ k →
     ModeOps.lookup (forMode mode) w2 M k' = ModeOps.lookup (forMode mode) w M k') ∧
  (∀ k', k' ≠ k → unknown w M k' → unknown w2 M k').
Proof.
  intros (Hm & Hmode & Hdepth & Hheap & Hversion & Hflag & Hlen & Htail & Hnodes
          & Hmade & Hunknown) Hk.
  cbn zeta. rewrite make_flat, Hdepth, Hversion, Hnodes. cbn [snd].
  set (N := Node.make (flat None) (flat None) (k, v)).
  set (w1 := World (nodeStore w ++ [N]) (heapStore w) (mapStore w)).
  assert (mapAt w1 m = mapAt w m) as -> by done.
  assert (nodeAt w1 (n0 + length made) = Some N) as HN.
  { unfold nodeAt, w1; simpl. rewrite lookup_app_r by lia.
    by replace (_ - _) with 0 by lia. }
  assert (∀ c, c < n0 + length made → nodeAt w1 c = nodeAt w c) as Hold.
  { intros c Hc. unfold nodeAt, w1; simpl. by rewrite lookup_app_l by lia. }
  assert (keyAt w1 (n0 + length made) = k) as Hkey
    by (by rewrite (keyAt_nodeAt _ _ _ HN)).
  pose proof (Hunknown k Hk) as Hu.
  split; [done |]. split; [done |]. split; [by rewrite mapStore_updateHeapMap |].
  split; [rewrite nodeStore_updateHeapMap; unfold w1; simpl;
          rewrite length_app; simpl; lia |].
  split; [unfold nodeAt; rewrite nodeStore_updateHeapMap; exact HN |].
  split; [intros c Hc; unfold nodeAt at 1; rewrite nodeStore_updateHeapMap;
          by apply Hold |].
  split; [| split].
  - apply (lookup_updateHeapMap_own _ _ _ _ _ _ N); try done.
    + pose proof (unknown_heapOf _ _ _ Hu) as Hh. rewrite Hmode in Hh.
      by apply (heapOf_heapStore _ w).
    + apply (unknown_layerAt w1). by apply (unknown_frame w _ (mapAt w m)).
  - intros k' Hk'. rewrite lookup_updateHeapMap_other by congruence.
    by apply lookup_heapStore.
  - intros k' Hk' Hu'. apply unknown_updateHeapMap; [congruence |].
    by apply (unknown_frame w _ (mapAt w m)).
Qed.

(** The facts on the heap map that make the nodes created so far and the
    new one a state of the loop again. *)
Lemma built_extend w made k v w4 :
  built w m mode n0 h0 made → k ∉ made.*1 →
  let M := mapAt w m in
  let n := n0 + length made in
  let w1 :=
    snd (ModeOps.makeImmutableLinkedOrderedMapNode (forMode mode) M
           None None k v w) in
  let w2 := ModeOps.updateHeapMap (forMode mode) (mapAt w1 m) n w1 in
  heapStore w4 = heapStore w2 →
  m < length (mapStore w4) →
  Map.mode (mapAt w4 m) = Map.mode M →
  Map.depth (mapAt w4 m) = Map.depth M →
  Map.heapMap (mapAt w4 m) = Map.heapMap M →
  Map.version (mapAt w4 m) = Map.version M →
  Map.mutationOperationOccurred (mapAt w4 m) = Map.mutationOperationOccurred M →
  Map.length (mapAt w4 m) = (Map.length M + 1)%Z →
  Map.tail (mapAt w4 m) = Some n0 →
  length (nodeStore w4) = S n →
  (∀ i kv, (made ++ [(k, v)]) !! i = Some kv →
     nodeAt w4 (n0 + i) = Some (builtNode mode n0 (made ++ [(k, v)]) i kv)) →
  built w4 m mode n0 h0 (made ++ [(k, v)]).
Proof.
  intros Hbuilt Hk. cbn zeta.
  destruct (built_node w made k v Hbuilt Hk)
    as (_ & _ & _ & _ & _ & _ & Hlook & Hother & Hunk).
  destruct Hbuilt as (Hm & Hmode & Hdepth & Hheap & Hversion & Hflag & Hlen & Htail
                      & Hnodes & Hmade & Hunknown).
  cbn zeta in *.
  set (w2 := ModeOps.updateHeapMap _ _ _ _) in *.
  intros Eheap Hm4 Emode Edepth Eheapmap Eversion Eflag Elen Etail Enodes Hnew.
  assert (∀ k', ModeOps.lookup (forMode mode) w4 (mapAt w4 m) k'
                = ModeOps.lookup (forMode mode) w2 (mapAt w m) k') as Hlookup
    by (intros k'; by apply lookup_index).
  unfold built. cbn zeta.
  rewrite Emode, Edepth, Eheapmap, Eversion, Eflag, Elen, Etail, Enodes, Hlen.
  rewrite length_app. simpl.
  repeat split; try done; try lia.
  - by destruct made.
  - by apply Hnew.
  - rewrite Hlookup. apply lookup_snoc_Some in H as [[Hi Hkv] | [-> <-]].
    + rewrite Hother; [by apply Hmade |].
      intros Heq. apply Hk, list_elem_of_fmap. exists kv.
      split; [done |]. by eapply list_elem_of_lookup_2.
    + by rewrite Nat.add_comm, (Nat.add_comm (length made)).
  - intros k' Hk'. rewrite fmap_app, not_elem_of_app in Hk'.
    destruct Hk' as [Hk1 Hk2]. simpl in Hk2.
    apply (unknown_frame w2 _ (mapAt w m)); try done.
    apply Hunk; [| by apply Hunknown]. intros ->. apply Hk2. left.
Qed.

Lemma builtNode_snoc_old made kv' i kv :
  S i < length made →
  builtNode mode n0 (made ++ [kv']) i kv = builtNode mode n0 made i kv.
Proof.
  intros Hi. unfold builtNode. rewrite length_app. simpl.
  by rewrite !bool_decide_eq_false_2 by lia.
Qed.

(** One turn of the loop of [appendInitialItemsToMap], for an item whose
    key is new. *)
Lemma built_append w made k v :
  built w m mode n0 h0 made → made ≠ [] → k ∉ made.*1 →
  let M := mapAt w m in
  let n := n0 + length made in
  let w1 :=
    snd (ModeOps.makeImmutableLinkedOrderedMapNode (forMode mode) M
           None None k v w) in
  let w2 := ModeOps.updateHeapMap (forMode mode) (mapAt w1 m) n w1 in
  let w3 := ModeOps.bindNodes (forMode mode) (mapAt w2 m) n (n - 1) w2 in
  let w4 :=
    updMap m (Map.set_length (Map.length (mapAt w3 m) + 1)) w3 in
  built w4 m mode n0 h0 (made ++ [(k, v)]) ∧
  Map.head (mapAt w4 m) = Map.head M.
Proof.
  intros Hbuilt Hne Hk. cbn zeta.
  destruct (built_node w made k v Hbuilt Hk)
    as (_ & Emaps1 & Emaps2 & Hlen2 & Hn & Hold & _).
  pose proof Hbuilt as
    (Hm & Hmode & Hdepth & Hheap & Hversion & Hflag & Hlen & Htail & Hnodes
     & Hmade & Hunknown).
  cbn zeta in *.
  set (w1 := snd _) in *.
  set (w2 := ModeOps.updateHeapMap _ _ _ _) in *.
  assert (mapAt w2 m = mapAt w m) as EM2 by (by apply mapAt_mapStore).
  rewrite EM2.
  set (b := n0 + length made - 1).
  set (w3 := ModeOps.bindNodes _ _ _ _ _).
  assert (mapStore w3 = mapStore w) as Emaps3
    by (unfold w3; by rewrite mapStore_bindNodes).
  assert (mapAt w3 m = mapAt w m) as EM3 by (by apply mapAt_mapStore).
  rewrite EM3.
  assert (0 < length made) as Hpos by (destruct made; [done | simpl; lia]).
  destruct (lookup_lt_is_Some_2 made (length made - 1) ltac:(lia)) as [kvb Hkvb].
  destruct (Hmade _ kvb Hkvb) as [Hb _].
  replace (n0 + (length made - 1)) with b in Hb by (unfold b; lia).
  destruct (bind_flat mode (mapAt w m) (n0 + length made) b w2 _ _ None None
              Hn ltac:(rewrite Hold by (unfold b; lia); exact Hb)
              ltac:(unfold b; lia))
    as (Ha3 & Hb3 & Hc3).
  { by rewrite Hdepth, Hversion. }
  { unfold builtNode. rewrite Hdepth, Hversion. simpl.
    by rewrite bool_decide_eq_true_2 by lia. }
  fold w3 in Ha3, Hb3, Hc3. rewrite Hdepth, Hversion in Ha3, Hb3.
  assert (m < length (mapStore w3)) as Hm3 by (by rewrite Emaps3).
  split; [| rewrite mapAt_updMap_eq by done; simpl; by rewrite EM3].
  apply (built_extend w made k v); try done;
    rewrite ?mapAt_updMap_eq, ?EM3 by done; try done.
  - unfold w3. by rewrite heapStore_updMap, heapStore_bindNodes.
  - by rewrite length_updMap.
  - simpl. rewrite Htail. by destruct made.
  - rewrite nodeStore_updMap. unfold w3.
    by rewrite length_nodeStore_bindNodes.
  - intros i kv Hi. unfold nodeAt. rewrite nodeStore_updMap. fold (nodeAt w3 (n0 + i)).
    apply lookup_snoc_Some in Hi as [[Hi Hkv] | [-> <-]].
    + destruct (decide (i = length made - 1)) as [-> | Hij].
      * replace (n0 + (length made - 1)) with b by (unfold b; lia).
        rewrite Hb3. rewrite Hkvb in Hkv. injection Hkv as ->.
        unfold builtNode, Node.set_previous. rewrite length_app. simpl.
        rewrite bool_decide_eq_false_2 by lia.
        do 4 f_equal. lia.
      * rewrite Hc3, Hold by (unfold b; lia). rewrite builtNode_snoc_old by lia.
        by apply Hmade.
    + rewrite Ha3. unfold builtNode, Node.set_next. rewrite length_app.
      simpl. rewrite bool_decide_eq_true_2 by lia.
      destruct (length made) as [| j] eqn:Ej; [lia |].
      do 4 f_equal. unfold b. lia.
Qed.

(** The node of the last item, the first one created. *)
Lemma built_tail w k v :
  built w m mode n0 h0 [] →
  let M := mapAt w m in
  let w1 :=
    snd (ModeOps.makeImmutableLinkedOrderedMapNode (forMode mode) M
           None None k v w) in
  let w2 := ModeOps.updateHeapMap (forMode mode) (mapAt w1 m) n0 w1 in
  let w3 := updMap m (Map.set_tail (Some n0)) w2 in
  let w4 :=
    updMap m (Map.set_length (Map.length (mapAt w3 m) + 1)) w3 in
  built w4 m mode n0 h0 [(k, v)] ∧
  Map.head (mapAt w4 m) = Map.head M ∧
  Map.tail (mapAt w2 m) = None ∧
  Map.length (mapAt w3 m) = 0%Z.
Proof.
  intros Hbuilt. cbn zeta.
  assert (k ∉ ([] : list (key * value)).*1) as Hk by apply not_elem_of_nil.
  destruct (built_node w [] k v Hbuilt Hk)
    as (_ & Emaps1 & Emaps2 & Hlen2 & Hn & Hold & _).
  pose proof (built_extend w [] k v) as Hextend.
  pose proof Hbuilt as
    (Hm & Hmode & Hdepth & Hheap & Hversion & Hflag & Hlen & Htail & Hnodes
     & Hmade & Hunknown).
  cbn zeta in *. cbn [length] in *. rewrite Nat.add_0_r in *.
  set (w1 := snd _) in *.
  set (w2 := ModeOps.updateHeapMap _ _ _ _) in *.
  assert (mapAt w2 m = mapAt w m) as EM2 by (by apply mapAt_mapStore).
  assert (m < length (mapStore w2)) as Hm2 by (by rewrite Emaps2).
  assert (m < length (mapStore (updMap m (Map.set_tail (Some n0)) w2))) as Hm3
    by (by rewrite length_updMap).
  rewrite !mapAt_updMap_eq, EM2 by done. cbn.
  split; [| by rewrite Htail, Hlen].
  apply Hextend; try done;
    rewrite ?length_updMap, ?mapAt_updMap_eq, ?EM2 by done; try done.
  intros [| i] kv; [| done]. intros [= <-]. rewrite Nat.add_0_r.
  unfold nodeAt. rewrite !nodeStore_updMap. exact Hn.
Qed.

(** Setting the head keeps the state of the loop. *)
Lemma built_set_head w made node :
  built w m mode n0 h0 made →
  built (updMap m (Map.set_head node) w) m mode n0 h0 made.
Proof.
  intros (Hm & Hmode & Hdepth & Hheap & Hversion & Hflag & Hlen & Htail & Hnodes
          & Hmade & Hunknown).
  unfold built. cbn zeta. rewrite length_updMap, mapAt_updMap_eq by done.
  repeat split; try done.
  - by apply Hmade.
  - rewrite <- (proj2 (Hmade i kv H)). by apply lookup_index.
Qed.

(** The loop over the items below the last one. *)
Lemma appendInitialItemsLoop_built itemsBelow :
  ∀ made keysMap w,
    built w m mode n0 h0 made → made ≠ [] →
    NoDup (keyOf <$> itemsBelow) →
    (∀ it, it ∈ itemsBelow → keyOf it ∉ made.*1) →
    (∀ k, k ∈ keysMap → k ∈ made.*1) →
    let r :=
      appendInitialItemsLoop m itemsBelow keysMap (n0 + length made - 1) w in
    fst r = n0 + length made + length itemsBelow - 1 ∧
    built (snd r) m mode n0 h0 (made ++ (entryOf <$> itemsBelow)) ∧
    Map.head (mapAt (snd r) m) = Map.head (mapAt w m).
Proof.
  induction itemsBelow as [| it itemsBelow IH];
    intros made keysMap w Hbuilt Hne Hdup Hnew Hkeys; cbn zeta.
  - simpl. rewrite app_nil_r. split; [lia | done].
  - cbn [appendInitialItemsLoop]. rewrite keyValueForItem_keyOf.
    assert (keyOf it ∉ made.*1) as Hk by (apply Hnew; left).
    rewrite bool_decide_eq_false_2 by (intros Hin; by apply Hk, Hkeys).
    destruct (built_node w made _ (valueOf it) Hbuilt Hk) as (Emake & E1 & E2 & _).
    destruct (built_append w made _ (valueOf it) Hbuilt Hne Hk) as [Hbuilt' Hhead].
    pose proof Hbuilt as (_ & Hmode & _). cbn zeta in *.
    rewrite Hmode, Emake.
    unfold incrementLengthAndRecord.
    set (w4 := updMap m _ _) in *.
    rewrite fmap_cons in Hdup. apply NoDup_cons in Hdup as [Hit Hdup].
    match goal with
    | |- context [appendInitialItemsLoop m itemsBelow ?ks _ w4] =>
        destruct (IH (made ++ [entryOf it]) ks w4) as (Efst & Hfinal & Hhead')
    end; try done.
    + by destruct made.
    + intros it' Hit'. rewrite fmap_app, not_elem_of_app. split.
      * apply Hnew. by right.
      * intros Heq%list_elem_of_singleton.
        change ((entryOf it).1) with (keyOf it) in Heq.
        apply Hit. rewrite <- Heq. apply list_elem_of_fmap. eauto.
    + intros k' Hk'. rewrite fmap_app, elem_of_app.
      change ([entryOf it].*1) with [keyOf it].
      destruct (bool_decide _); [left; by apply Hkeys |].
      apply elem_of_union in Hk' as [->%elem_of_singleton | Hk'];
        [right; left | left; by apply Hkeys].
    + assert (n0 + length (made ++ [entryOf it]) - 1 = n0 + length made) as Elen
        by (rewrite length_app; simpl; lia).
      rewrite Elen in Efst, Hfinal, Hhead'.
      rewrite Efst, Hhead', Hhead. rewrite <- app_assoc in Hfinal.
      rewrite length_app. simpl. split; [lia | done].
Qed.

(** [appendInitialItemsToMap] on a map without nodes, for items of
    pairwise distinct keys. *)
Lemma appendInitialItemsToMap_built w items :
  built w m mode n0 h0 [] → Map.head (mapAt w m) = None →
  NoDup (keyOf <$> items) →
  let w' := appendInitialItemsToMap m items w in
  built w' m mode n0 h0 (entryOf <$> reverse items) ∧
  Map.head (mapAt w' m)
  = (if items is [] then None else Some (n0 + length items - 1)).
Proof.
  intros Hbuilt Hhead Hdup. cbn zeta. unfold appendInitialItemsToMap.
  assert (length items = length (reverse items)) as Elen
    by (by rewrite length_reverse).
  apply NoDup_reverse in Hdup. rewrite <- fmap_reverse in Hdup.
  destruct (reverse items) as [| lastItem itemsBelow] eqn:Erev.
  - destruct items; [done | simpl in Elen; lia].
  - rewrite keyValueForItem_keyOf.
    destruct (built_tail w (keyOf lastItem) (valueOf lastItem) Hbuilt)
      as (Hbuilt1 & Hhead1 & Htail2 & Hlen3).
    pose proof Hbuilt as (_ & Hmode & _ & _ & _ & _ & _ & _ & Hnodes & _).
    cbn zeta in *. cbn [length] in Hnodes. rewrite Nat.add_0_r in Hnodes.
    rewrite Hmode, makeNode_fst, Hnodes.
    set (w1 := snd _) in *.
    set (w2 := ModeOps.updateHeapMap _ _ _ _) in *.
    rewrite Htail2. unfold incrementLengthAndRecord.
    set (w3 := updMap m (Map.set_tail _) w2) in *.
    rewrite Hlen3, bool_decide_eq_true_2 by done.
    rewrite Hlen3 in Hbuilt1, Hhead1.
    set (w4 := updMap m (Map.set_length _) w3) in *.
    rewrite fmap_cons in Hdup. apply NoDup_cons in Hdup as [Hlast Hdup].
    destruct items as [| it0 items0]; [simpl in Elen; lia |].
    rewrite Elen. cbn [length].
    destruct itemsBelow as [| it itemsBelow].
    + split; [by apply built_set_head |].
      rewrite mapAt_updMap_eq by apply Hbuilt1. simpl. f_equal. lia.
    + destruct (appendInitialItemsLoop_built (it :: itemsBelow) [entryOf lastItem]
                  ∅ w4 Hbuilt1 ltac:(done) Hdup) as (Efst & Hfinal & Hhead').
      { intros it' Hit' Heq%list_elem_of_singleton.
        change ((entryOf lastItem).1) with (keyOf lastItem) in Heq.
        apply Hlast. rewrite <- Heq. apply list_elem_of_fmap. eauto. }
      { intros k' Hk'. by apply not_elem_of_empty in Hk'. }
      cbn [length] in Efst, Hfinal, Hhead'.
      replace (n0 + 1 - 1) with n0 in * by lia.
      destruct (appendInitialItemsLoop _ _ _ _ _) as [lastNode w5].
      simpl in Efst, Hfinal, Hhead'. rewrite Hhead', Hhead1, Hhead.
      split; [by apply built_set_head |].
      rewrite mapAt_updMap_eq by apply Hfinal. simpl. f_equal. lia.
Qed.

Lemma built_elements w made :
  built w m mode n0 h0 made → elementAt w <$> seq n0 (length made) = made.
Proof.
  intros (_ & _ & _ & _ & _ & _ & _ & _ & _ & Hmade & _).
  apply list_eq. intros i. rewrite list_lookup_fmap.
  destruct (made !! i) as [kv |] eqn:Ei.
  - rewrite lookup_seq_lt by (by eapply lookup_lt_Some). simpl.
    destruct (Hmade i kv Ei) as [Hn _]. unfold elementAt. by rewrite Hn.
  - by rewrite lookup_seq_ge by (by apply lookup_ge_None).
Qed.

Lemma built_NoDup w made : built w m mode n0 h0 made → NoDup made.*1.
Proof.
  intros (_ & _ & _ & _ & _ & _ & _ & _ & _ & Hmade & _).
  apply NoDup_alt. intros i j k Hi Hj.
  rewrite list_lookup_fmap in Hi, Hj.
  destruct (made !! i) as [kvi |] eqn:Ei; [| done].
  destruct (made !! j) as [kvj |] eqn:Ej; [| done].
  injection Hi as <-. injection Hj as Hk.
  destruct (Hmade i kvi Ei) as [_ Hli]. destruct (Hmade j kvj Ej) as [_ Hlj].
  rewrite Hk in Hlj. rewrite Hli in Hlj. injection Hlj. lia.
Qed.

(** The map of such a state, once its head is set, is well formed; its
    nodes, from head to tail, are the ones created, the last one first. *)
Lemma built_wellFormed w made :
  built w m mode n0 h0 made →
  Map.head (mapAt w m)
  = (if made is [] then None else Some (n0 + length made - 1)) →
  wellFormed w m ∧
  chainOf w m = reverse (seq n0 (length made)) ∧
  entriesOf w m = reverse made.
Proof.
  intros Hbuilt Hhead.
  pose proof (built_elements w made Hbuilt) as Helts.
  pose proof (built_NoDup w made Hbuilt) as Hdup.
  destruct Hbuilt as (Hm & Hmode & Hdepth & Hheap & Hversion & Hflag & Hlen & Htail
                      & Hnodes & Hmade & Hunknown).
  cbn zeta in *.
  assert (0 < length made → Map.head (mapAt w m) = Some (n0 + length made - 1))
    as Hhead' by (intros ?; rewrite Hhead; destruct made; [simpl in *; lia | done]).
  assert (0 < length made → Map.tail (mapAt w m) = Some n0)
    as Htail' by (intros ?; rewrite Htail; destruct made; [simpl in *; lia | done]).
  assert (∀ i n, seq n0 (length made) !! i = Some n →
            ModeOps.findMapNodeByDirection (forMode (Map.mode (mapAt w m))) w
              (mapAt w m) n Previous = seq n0 (length made) !! S i) as Hprev.
  { intros i n [-> Hi]%lookup_seq.
    destruct (lookup_lt_is_Some_2 made i Hi) as [kv Hkv].
    destruct (Hmade i kv Hkv) as [Hn _]. rewrite Hmode.
    erewrite find_flat; [| exact Hn | by rewrite Hdepth, Hversion |].
    - destruct (bool_decide_reflect (S i = (length made))) as [E | E].
      + by rewrite lookup_seq_ge by lia.
      + by rewrite lookup_seq_lt by lia.
    - simpl. rewrite Hhead' by lia. intros [= E]%bool_decide_eq_true_1.
      by rewrite bool_decide_eq_true_2 by lia. }
  assert (∀ i n, reverse (seq n0 (length made)) !! i = Some n →
            ModeOps.findMapNodeByDirection (forMode (Map.mode (mapAt w m))) w
              (mapAt w m) n Next = reverse (seq n0 (length made)) !! S i) as Hnext.
  { intros i n [Hn Hi]%reverse_lookup_Some. rewrite length_seq in Hn, Hi.
    apply lookup_seq in Hn as [-> _].
    destruct (lookup_lt_is_Some_2 made ((length made) - S i) ltac:(lia)) as [kv Hkv].
    destruct (Hmade _ kv Hkv) as [Hn _]. rewrite Hmode.
    erewrite find_flat; [| exact Hn | by rewrite Hdepth, Hversion |].
    - destruct (decide (S i = (length made))) as [E | E].
      + rewrite lookup_ge_None_2 by (rewrite length_reverse, length_seq; lia).
        by replace ((length made) - S i) with 0 by lia.
      + rewrite reverse_lookup by (rewrite length_seq; lia).
        rewrite length_seq, lookup_seq_lt by lia.
        destruct ((length made) - S i) as [| i'] eqn:Ei; [lia |]. f_equal. lia.
    - simpl. rewrite Htail' by lia. intros [= E]%bool_decide_eq_true_1.
      by replace ((length made) - S i) with 0 by lia. }
  assert (nodesOf w m Next = Some (reverse (seq n0 (length made)))) as Enext.
  { unfold nodesOf. rewrite Hhead.
    replace (if made is [] then None else Some (n0 + (length made) - 1))
      with (head (reverse (seq n0 (length made)))).
    - apply walk_chain; [done |]. rewrite length_reverse, length_seq. lia.
    - rewrite head_reverse, last_lookup, length_seq.
      destruct made as [| kv made]; [done |].
      rewrite lookup_seq_lt by (simpl; lia). f_equal. simpl. lia. }
  assert (nodesOf w m Previous = Some (seq n0 (length made))) as Eprev.
  { unfold nodesOf. rewrite Htail.
    replace (if made is [] then None else Some n0) with (head (seq n0 (length made)))
      by (by destruct made).
    apply walk_chain; [done |]. rewrite length_seq. lia. }
  assert (chainOf w m = reverse (seq n0 (length made))) as Echain
    by (unfold chainOf; by rewrite Enext).
  split; [| split; [done |]].
  - split; [done |]. exists (reverse (seq n0 (length made))).
    split; [done |]. split; [by rewrite reverse_involutive |].
    split; [by rewrite length_reverse, length_seq |].
    split.
    + replace (keyAt w <$> reverse (seq n0 (length made))) with (reverse made.*1).
      * by apply NoDup_reverse.
      * rewrite <- Helts at 1. rewrite <- list_fmap_compose.
        by rewrite fmap_reverse.
    + apply Forall_forall. intros n [i Hn]%list_elem_of_lookup.
      apply reverse_lookup_Some in Hn as [[-> Hi]%lookup_seq _].
      destruct (lookup_lt_is_Some_2 made _ Hi) as [kv Hkv].
      destruct (Hmade _ kv Hkv) as [Hn Hl]. split; [lia |].
      rewrite Hmode. unfold keyAt, elementAt. by rewrite Hn.
  - unfold entriesOf. by rewrite Echain, fmap_reverse, Helts.
Qed.

End Built.

(** ** The factory *)

Lemma hydrateNew_built keyPropName mode w :
  let r := hydrateNew keyPropName mode w in
  built (snd r) (fst r) mode (length (nodeStore w)) (length (heapStore w)) [] ∧
  Map.head (mapAt (snd r) (fst r)) = None.
Proof.
  cbn zeta. unfold hydrateNew, allocHeap, allocMap.
  cbn [fst snd nodeStore heapStore mapStore].
  set (w1 := World _ _ _).
  assert (mapAt w1 (length (mapStore w))
          = hydrate (length (heapStore w)) 0 0 keyPropName mode None None None)
    as EM.
  { unfold mapAt, w1; simpl. rewrite lookup_app_r by lia.
    by replace (_ - _) with 0 by lia. }
  unfold built. cbn zeta. rewrite EM. simpl.
  repeat split; try done; try lia.
  - rewrite length_app. simpl. lia.
  - intros k _. unfold unknown, heapAt. simpl.
    rewrite lookup_app_r by lia. replace (_ - _) with 0 by lia. simpl.
    by destruct mode.
Qed.

(** The map the factory builds from items of pairwise distinct keys. *)
Lemma newImmutableLinkedOrderedMap_built o w :
  let items := default [] (initialItems o) in
  let mode :=
    default DEFAULT_MAP_MODE
      (modeOfCode
         (default (ImmutableLinkedOrderedMapMode DEFAULT_MAP_MODE) (modeOption o))) in
  let r := newImmutableLinkedOrderedMap o w in
  NoDup (keyOf <$> items) →
  built (snd r) (fst r) mode (length (nodeStore w)) (length (heapStore w))
    (entryOf <$> reverse items) ∧
  Map.head (mapAt (snd r) (fst r))
  = (if items is [] then None
     else Some (length (nodeStore w) + length items - 1)).
Proof.
  cbn zeta. intros Hdup. unfold newImmutableLinkedOrderedMap.
  set (mode := default DEFAULT_MAP_MODE _).
  set (keyPropName := default DEFAULT_KEY_PROP_NAME _).
  set (items := default [] _) in *.
  destruct (hydrateNew_built keyPropName mode w) as (Hbuilt & Hhead).
  destruct (hydrateNew keyPropName mode w) as [m w1]. cbn [fst snd] in *.
  unfold addInitialItemsToMap.
  by apply appendInitialItemsToMap_built.
Qed.



(** * Well-formed maps under changes of the store *)

Section Kept.
Implicit Types (w : world) (m : mref) (M : Map.t).

(** A walk goes the same way in a store that has the nodes it goes through
    as they were, for a map that looks the same. *)
Lemma walk_kept fuel fuel' w w' M M' d current chain :
  walk fuel w M d current = Some chain →
  fuel ≤ fuel' →
  sameView M M' → Map.mode M' = Map.mode M →
  (∀ n, n ∈ chain → nodeAt w' n = nodeAt w n) →
  walk fuel' w' M' d current = Some chain.
Proof.
  intros Hwalk Hfuel Hview Hmode. revert fuel' current chain Hwalk Hfuel.
  induction fuel as [| fuel IH]; intros fuel' current chain;
    destruct current as [node |]; simpl; try done.
  - intros [= <-] _ _. by destruct fuel'.
  - destruct (walk fuel _ _ _ _) as [rest |] eqn:E; simpl; [| done].
    intros [= <-] Hfuel Hnodes. destruct fuel' as [| fuel']; [lia |]. simpl.
    rewrite Hmode, (find_sameView _ _ _ _ _ _ Hview),
      (find_nodeAt _ w w') by (apply Hnodes; left).
    rewrite (IH fuel' _ rest E); [done | lia |].
    intros n Hn. apply Hnodes. by right.
  - intros [= <-] _ _. by destruct fuel'.
Qed.

(** A well-formed map stays well formed, with the same nodes and entries,
    when its own fields, its nodes and what the heap map resolves their
    keys to are kept. *)
Lemma wellFormed_kept w w' m :
  wellFormed w m →
  m < length (mapStore w') →
  sameView (mapAt w m) (mapAt w' m) →
  Map.mode (mapAt w' m) = Map.mode (mapAt w m) →
  Map.length (mapAt w' m) = Map.length (mapAt w m) →
  length (nodeStore w) ≤ length (nodeStore w') →
  (∀ n, n ∈ chainOf w m → nodeAt w' n = nodeAt w n) →
  (∀ n, n ∈ chainOf w m →
     ModeOps.lookup (forMode (Map.mode (mapAt w m))) w' (mapAt w m) (keyAt w n)
     = ModeOps.lookup (forMode (Map.mode (mapAt w m))) w (mapAt w m) (keyAt w n)) →
  wellFormed w' m ∧ chainOf w' m = chainOf w m ∧ entriesOf w' m = entriesOf w m.
Proof.
  intros Hwf Hm Hview Hmode Hlen Hnodes Hkept Hlookup.
  destruct (wellFormed_chainOf _ _ Hwf) as (Hnext & Hprev & Hl & Hdup & Hall).
  assert (nodesOf w' m Next = Some (chainOf w m)) as Hnext'.
  { pose proof Hview as (_ & _ & _ & Ehead & _).
    unfold nodesOf in *. rewrite Ehead.
    eapply walk_kept; [exact Hnext | lia | done | done | done]. }
  assert (nodesOf w' m Previous = Some (reverse (chainOf w m))) as Hprev'.
  { pose proof Hview as (_ & _ & _ & _ & Etail).
    unfold nodesOf in *. rewrite Etail.
    eapply walk_kept; [exact Hprev | lia | done | done |].
    intros n Hn. apply Hkept. by apply elem_of_reverse. }
  assert (chainOf w' m = chainOf w m) as Echain
    by (unfold chainOf at 1; by rewrite Hnext').
  assert (∀ n, n ∈ chainOf w m → elementAt w' n = elementAt w n) as Helts
    by (intros n Hn; by apply elementAt_nodeAt, Hkept).
  assert (elementAt w' <$> chainOf w m = elementAt w <$> chainOf w m) as Eelts.
  { apply list_fmap_ext. intros i n Hn. apply Helts.
    by eapply list_elem_of_lookup_2. }
  split; [| split; [done |]].
  - split; [done |]. exists (chainOf w m).
    split; [done |]. split; [done |]. split; [congruence |]. split.
    + replace (keyAt w' <$> chainOf w m) with (keyAt w <$> chainOf w m); [done |].
      apply list_fmap_ext. intros i n Hn. unfold keyAt. f_equal. symmetry.
      apply Helts. by eapply list_elem_of_lookup_2.
    + apply Forall_forall. intros n Hn.
      rewrite Forall_forall in Hall. destruct (Hall n Hn) as [Hlt Hlook].
      split; [lia |]. unfold keyAt. rewrite Helts by done.
      rewrite Hmode. fold (keyAt w n). rewrite <- Hlook, <- Hlookup by done.
      apply lookup_index; [done | apply Hview..].
  - unfold entriesOf. by rewrite Echain.
Qed.

(** A found key stays found in a store that has more heap maps. *)
Lemma lookup_heapStore_app mode w w' M k n extra :
  heapStore w' = heapStore w ++ extra →
  ModeOps.lookup (forMode mode) w M k = Some n →
  ModeOps.lookup (forMode mode) w' M k = Some n.
Proof.
  intros E. destruct mode; simpl;
    unfold lookupSingleMode, lookupMultiwayMode, lookupLightweightMode, heapAt;
    rewrite E; destruct (heapStore w !! Map.heapMap M) as [hp |] eqn:Eh;
    try done; by rewrite (lookup_app_l_Some _ _ _ _ Eh).
Qed.

End Kept.

(** * [empty] *)

(** A mutation whose base method returns a new map is passed on by the
    classes of the three modes, which mark the receiver except in multiway
    mode. *)
Lemma invoke_new w m μ m' w1 :
  mutable w m → super m μ w = Return m' w1 → m' ≠ m →
  invoke m μ w
  = Return m'
      (updMap m
         (if decide (Map.mode (mapAt w m) = MULTIWAY) then λ X, X
          else Map.set_mutationOperationOccurred true) w1).
Proof.
  intros Hmut E Hne.
  assert (Single.noteMutation m (Return m' w1)
          = Return m' (updMap m (Map.set_mutationOperationOccurred true) w1))
    as Hnote by (simpl; by rewrite bool_decide_eq_true_2 by done).
  destruct (Map.mode (mapAt w m)) eqn:Hmode.
  - destruct Hmut as [? | Hgate]; [congruence |].
    by rewrite invoke_single, Hgate, E.
  - rewrite invoke_multiway, E by done. simpl. by rewrite updMap_id.
  - destruct Hmut as [? | Hgate]; [congruence |].
    by rewrite invoke_lightweight, Hgate, E.
Qed.

Lemma updMap_new ns hs ms M f :
  updMap (length ms) f (World ns hs (ms ++ [M])) = World ns hs (ms ++ [f M]).
Proof.
  unfold updMap. simpl. f_equal.
  rewrite alter_app_r_alt by lia. by rewrite Nat.sub_diag.
Qed.

(** The store [empty] leaves for a map that has entries: one more heap map,
    without entries, and one more map. *)
Lemma empty_new w m :
  (0 < Map.length (mapAt w m))%Z →
  Base.empty m w
  = Return (length (mapStore w))
      (World (nodeStore w)
         (heapStore w ++ [newHeapMap (Map.mode (mapAt w m))])
         (mapStore w
          ++ [Map.make (length (heapStore w)) (Map.depth (mapAt w m) + 1) 0
                (Map.keyPropName (mapAt w m)) (Map.mode (mapAt w m)) None None
                (Some m) (Some ChangeEmpty) false 0
                MULTIWAY_MODE_INITIAL_MAP_TREE_DEPTH_VERSION])).
Proof.
  intros Hlen. unfold Base.empty.
  rewrite bool_decide_eq_false_2 by lia.
  unfold newImmutableLinkedOrderedMap, hydrateNew, allocHeap, allocMap,
    addInitialItemsToMap, appendInitialItemsToMap, mapChange.
  cbn [initialItems keyPropNameOption modeOption default from_option id].
  rewrite modeOfCode_code.
  cbn [default from_option id reverse rev_append fst snd nodeStore heapStore
       mapStore].
  by rewrite !updMap_new.
Qed.



(** * Versions of multiway maps *)

Section Versions.
Local Open Scope string_scope.
Implicit Types (a b d s : string).

Lemma substring_append a b d :
  String.substring 0 (String.length (a ++ b)) (a ++ d)
  = a ++ String.substring 0 (String.length b) d.
Proof. induction a as [| c a IH]; simpl; [done | by rewrite IH]. Qed.

Lemma substring_prefix a s :
  String.substring 0 (String.length a) (a ++ s) = a.
Proof.
  induction a as [| c a IH]; simpl; [by destruct s | by rewrite IH].
Qed.

Lemma substring_0_append n d :
  String.substring 0 n d ++ String.substring n (String.length d - n) d = d.
Proof.
  revert n. induction d as [| c d IH]; intros [| n]; simpl; try done.
  - by rewrite substring_all.
  - change (String c (String.substring 0 n d
                      ++ String.substring n (String.length d - n) d)
            = String c d).
    by rewrite IH.
Qed.

Lemma append_assoc a s1 s2 : (a ++ s1) ++ s2 = a ++ s1 ++ s2.
Proof.
  induction a as [| c a IH]; [done |].
  change (String c ((a ++ s1) ++ s2) = String c (a ++ s1 ++ s2)). by rewrite IH.
Qed.

Lemma append_inj a s1 s2 : a ++ s1 = a ++ s2 → s1 = s2.
Proof. induction a as [| c a IH]; simpl; [done | intros [= E]; auto]. Qed.

(** The test is the prefix test. *)
Lemma isAncestorVersion_prefix a d :
  isAncestorVersionOfDescendantVersion a d = true ↔ ∃ s, d = a ++ s.
Proof.
  unfold isAncestorVersionOfDescendantVersion. rewrite String.eqb_eq. split.
  - intros E. exists (String.substring (String.length a) (String.length d - String.length a) d).
    rewrite <- E at 1. symmetry. apply substring_0_append.
  - intros [s ->]. apply substring_prefix.
Qed.

Lemma isAncestorVersion_append a b d :
  isAncestorVersionOfDescendantVersion (a ++ b) (a ++ d)
  = isAncestorVersionOfDescendantVersion b d.
Proof.
  unfold isAncestorVersionOfDescendantVersion. rewrite substring_append.
  destruct (String.eqb_spec (String.substring 0 (String.length b) d) b) as [-> | Hne].
  - apply String.eqb_refl.
  - apply String.eqb_neq. intros E%append_inj. done.
Qed.

Lemma decimal_inj i j : decimal i = decimal j → i = j.
Proof.
  unfold decimal. intros E.
  assert (∀ n, NilZero.uint_of_string (NilZero.string_of_uint (Nat.to_uint n))
               = Some (Nat.to_uint n)) as Husu.
  { intros n. apply NilZero.usu.
    rewrite <- (DecimalNat.Unsigned.of_to n), DecimalNat.Unsigned.to_of.
    apply DecimalFacts.unorm_nonnil. }
  pose proof (Husu i) as Hi. rewrite E, Husu in Hi. injection Hi as Hi.
  by rewrite <- (DecimalNat.Unsigned.of_to i), <- (DecimalNat.Unsigned.of_to j), Hi.
Qed.

End Versions.

(** X8: [isAncestorVersionOfDescendantVersion] is the prefix test on version
    strings: it holds exactly when the descendant version starts with the
    possible ancestor version.  So every version is an ancestor version of
    itself, ancestor versions of ancestor versions are ancestor versions,
    and the version of a root is an ancestor version of every version. *)
Theorem ancestor_versions_are_prefixes :
  (∀ a d, isAncestorVersionOfDescendantVersion a d = true
          ↔ ∃ s, d = (a +:+ s)%string) ∧
  (∀ v, isAncestorVersionOfDescendantVersion v v = true) ∧
  (∀ a b c,
     isAncestorVersionOfDescendantVersion a b = true →
     isAncestorVersionOfDescendantVersion b c = true →
     isAncestorVersionOfDescendantVersion a c = true) ∧
  (∀ v, isAncestorVersionOfDescendantVersion
          MULTIWAY_MODE_INITIAL_MAP_TREE_DEPTH_VERSION v = true).
Proof.
  split; [apply isAncestorVersion_prefix |].
  split; [apply isAncestorVersion_refl |]. split.
  - intros a b c [s1 ->]%isAncestorVersion_prefix [s2 ->]%isAncestorVersion_prefix.
    apply isAncestorVersion_prefix. exists (s1 +:+ s2)%string.
    apply append_assoc.
  - intros v. apply isAncestorVersion_prefix. by exists v.
Qed.

Lemma childVersion_inj version i j :
  childVersion version i = childVersion version j → i = j.
Proof.
  unfold childVersion. destruct (String.length version =? 0)%nat.
  - apply decimal_inj.
  - intros E%append_inj%append_inj. by apply decimal_inj.
Qed.

Lemma isAncestorVersion_child version count :
  isAncestorVersionOfDescendantVersion version (childVersion version count) = true.
Proof.
  apply isAncestorVersion_prefix. unfold childVersion.
  destruct (String.length version =? 0)%nat eqn:E.
  - apply Nat.eqb_eq in E. destruct version; [| done]. by eexists.
  - by eexists.
Qed.

Lemma isAncestorVersion_siblings version i j :
  isAncestorVersionOfDescendantVersion (childVersion version i)
    (childVersion version j)
  = isAncestorVersionOfDescendantVersion (decimal i) (decimal j).
Proof.
  unfold childVersion. destruct (String.length version =? 0)%nat; [done |].
  by rewrite !isAncestorVersion_append.
Qed.

(** X9: forking a multiway map raises the children count of the map by one
    and gives the fork the version of the map followed by the separator and
    that count in decimal (the count alone when the map is a root); the
    version of the map is an ancestor version of it.  The forks of one map
    get pairwise different versions, and the version of one is an ancestor
    version of that of another exactly when the decimal count of the first
    is a prefix of the decimal count of the second. *)
Theorem forks_of_a_multiway_map (w : world) (m : mref) :
  m < length (mapStore w) → Map.mode (mapAt w m) = MULTIWAY →
  let fork := fst (forkMap m w) in
  let w' := snd (forkMap m w) in
  let count := S (Map.childrenCount (mapAt w m)) in
  Map.childrenCount (mapAt w' m) = count ∧
  Map.version (mapAt w' m) = Map.version (mapAt w m) ∧
  Map.version (mapAt w' fork) = childVersion (Map.version (mapAt w m)) count ∧
  isAncestorVersionOfDescendantVersion (Map.version (mapAt w m))
    (Map.version (mapAt w' fork)) = true ∧
  (∀ i j, childVersion (Map.version (mapAt w m)) i
          = childVersion (Map.version (mapAt w m)) j → i = j) ∧
  (∀ i j,
     isAncestorVersionOfDescendantVersion
       (childVersion (Map.version (mapAt w m)) i)
       (childVersion (Map.version (mapAt w m)) j)
     = isAncestorVersionOfDescendantVersion (decimal i) (decimal j)).
Proof.
  intros Hm Hmode. cbn zeta.
  assert (Map.childrenCount (mapAt (snd (forkMap m w)) m)
          = S (Map.childrenCount (mapAt w m)) ∧
          Map.version (mapAt (snd (forkMap m w)) m) = Map.version (mapAt w m) ∧
          Map.version (mapAt (snd (forkMap m w)) (fst (forkMap m w)))
          = childVersion (Map.version (mapAt w m)) (S (Map.childrenCount (mapAt w m))))
    as (-> & -> & ->).
  { unfold forkMap, allocMap. rewrite Hmode.
    cbn [ModeOps.fork ImmutableLinkedOrderedMapForMode forMode fst snd].
    unfold forkMultiwayModeMap.
    set (w1 := updMap (length (mapStore w)) (λ N, Map.set_depth _ N) _).
    assert (mapAt w1 m = mapAt w m) as E1.
    { unfold w1. rewrite mapAt_updMap_ne by lia. unfold mapAt. simpl.
      by rewrite lookup_app_l. }
    assert (length (mapStore w1) = S (length (mapStore w))) as L1
      by (unfold w1; rewrite length_updMap; simpl; rewrite length_app; simpl; lia).
    rewrite E1.
    rewrite !(mapAt_updMap_ne _ (length (mapStore w)) m) by lia.
    rewrite !mapAt_updMap_eq by (rewrite ?length_updMap; lia).
    by rewrite E1. }
  split; [done |]. split; [done |]. split; [done |].
  split; [apply isAncestorVersion_child |].
  split; [apply childVersion_inj | apply isAncestorVersion_siblings].
Qed.

Lemma forks_of_a_multiway_map_witness :
  (0 < length (mapStore (fresh MULTIWAY threeItems)) ∧
   Map.mode (mapAt (fresh MULTIWAY threeItems) 0) = MULTIWAY) ∧
  Map.childrenCount (mapAt (snd (forkMap 0 (fresh MULTIWAY threeItems))) 0) = 1 ∧
  Map.version (mapAt (snd (forkMap 0 (fresh MULTIWAY threeItems))) 0)
  = Map.version (mapAt (fresh MULTIWAY threeItems) 0) ∧
  Map.version
    (mapAt (snd (forkMap 0 (fresh MULTIWAY threeItems)))
       (fst (forkMap 0 (fresh MULTIWAY threeItems))))
  = childVersion (Map.version (mapAt (fresh MULTIWAY threeItems) 0)) 1 ∧
  isAncestorVersionOfDescendantVersion
    (Map.version (mapAt (fresh MULTIWAY threeItems) 0))
    (Map.version
       (mapAt (snd (forkMap 0 (fresh MULTIWAY threeItems)))
          (fst (forkMap 0 (fresh MULTIWAY threeItems))))) = true ∧
  (∀ i j, childVersion (Map.version (mapAt (fresh MULTIWAY threeItems) 0)) i
          = childVersion (Map.version (mapAt (fresh MULTIWAY threeItems) 0)) j →
          i = j) ∧
  (∀ i j,
     isAncestorVersionOfDescendantVersion
       (childVersion (Map.version (mapAt (fresh MULTIWAY threeItems) 0)) i)
       (childVersion (Map.version (mapAt (fresh MULTIWAY threeItems) 0)) j)
     = isAncestorVersionOfDescendantVersion (decimal i) (decimal j)).
Proof.
  assert (0 < length (mapStore (fresh MULTIWAY threeItems))) as H1
    by (vm_compute; lia).
  assert (Map.mode (mapAt (fresh MULTIWAY threeItems) 0) = MULTIWAY) as H2
    by reflexivity.
  split; [done |].
  exact (forks_of_a_multiway_map _ _ H1 H2).
Defined.

(** * The linked list *)

Section Linked.
Context {A : Type}.
Implicit Types (st : LinkedList.store A) (cells : list (nat * A))
  (l : LinkedList.t).

Lemma firstRef_app cells1 cells2 otherwise :
  firstRef (cells1 ++ cells2) otherwise
  = firstRef cells1 (firstRef cells2 otherwise).
Proof. by destruct cells1 as [| [] ?]. Qed.

Lemma lastRef_snoc cells n x otherwise :
  lastRef (cells ++ [(n, x)]) otherwise = Some n.
Proof. unfold lastRef. by rewrite last_snoc. Qed.

Lemma lastRef_app cells1 cells2 otherwise :
  lastRef (cells1 ++ cells2) otherwise
  = lastRef cells2 (lastRef cells1 otherwise).
Proof.
  unfold lastRef. rewrite last_app. by destruct (last cells2) as [[] |].
Qed.

Lemma lastRef_cons n x cells otherwise :
  lastRef ((n, x) :: cells) otherwise = lastRef cells (Some n).
Proof. apply (lastRef_app [(n, x)]). Qed.

(** Cells linked one after the other split into two runs of linked cells. *)
Lemma linked_app st before cells1 cells2 after :
  linked st before (cells1 ++ cells2) after
  ↔ linked st before cells1 (firstRef cells2 after) ∧
    linked st (lastRef cells1 before) cells2 after.
Proof.
  revert before. induction cells1 as [| [n x] cells1 IH]; intros before; simpl.
  - unfold lastRef. simpl. tauto.
  - rewrite IH, firstRef_app, lastRef_cons. tauto.
Qed.

(** Linked cells are nodes of the store. *)
Lemma linked_valid st before cells after n :
  linked st before cells after → n ∈ cells.*1 → n < length st.
Proof.
  revert before. induction cells as [| [n' x] cells IH]; intros before; simpl.
  - by intros _ ?%elem_of_nil.
  - intros [Hn Hrest] [-> | Hin]%elem_of_cons.
    + by eapply lookup_lt_Some.
    + by eapply IH.
Qed.

(** Linked cells stay linked when their nodes are kept. *)
Lemma linked_kept st st' before cells after :
  (∀ n, n ∈ cells.*1 → st' !! n = st !! n) →
  linked st before cells after → linked st' before cells after.
Proof.
  revert before. induction cells as [| [n x] cells IH]; intros before; simpl;
    [done |].
  intros Hkept [Hn Hrest]. split.
  - rewrite Hkept; [done | left].
  - apply IH; [| done]. intros n' Hn'. apply Hkept. by right.
Qed.

(** A list has no more cells than the store has nodes. *)
Lemma listOf_length st l cells : listOf st l cells → length cells ≤ length st.
Proof.
  intros (Hdup & Hlinked & _).
  assert (length cells.*1 ≤ length (seq 0 (length st))) as Hle.
  { apply submseteq_length, NoDup_submseteq; [done |].
    intros n Hn. apply elem_of_seq. split; [lia |]. simpl.
    by eapply linked_valid. }
  by rewrite length_fmap, length_seq in Hle.
Qed.

End Linked.

Section Append.
Context {A : Type}.
Implicit Types (st : LinkedList.store A) (cells : list (nat * A))
  (l : LinkedList.t).

Lemma append_listOf st l cells x :
  listOf st l cells →
  ∃ l' st',
    LinkedList.append x l st = LinkedList.Done (length st, l', st') ∧
    listOf st' l' (cells ++ [(length st, x)]) ∧
    othersKept st st' cells ∧
    length st' = S (length st) ∧
    LinkedList.shouldNextForEachBreak l' = LinkedList.shouldNextForEachBreak l.
Proof.
  intros (Hdup & Hlinked & Hhead & Htail & Hlen).
  assert (∀ n, n ∈ cells.*1 → n < length st) as Hvalid
    by (intros n; by eapply linked_valid).
  assert (NoDup (cells ++ [(length st, x)]).*1) as Hdup'.
  { rewrite fmap_app. apply NoDup_app. split; [done |]. split.
    - intros n Hn [Heq | []%elem_of_nil]%elem_of_cons. apply Hvalid in Hn.
      simpl in Heq. lia.
    - apply NoDup_singleton. }
  unfold LinkedList.append. simpl. unfold LinkedList.store in *.
  destruct cells as [| [t xt] cells0 _] using rev_ind.
  - simpl in Hhead. rewrite Hhead. eexists _, _. split; [done |].
    split; [| split; [| split; [| done]]].
    + split; [done |]. simpl. unfold lastRef. simpl. unfold LinkedList.store.
      rewrite list_lookup_middle by done. rewrite Hlen. simpl.
      repeat split; lia.
    + intros n Hn _. unfold LinkedList.store. by rewrite lookup_app_l.
    + rewrite length_app. simpl. lia.
  - rewrite lastRef_snoc in Htail. rewrite Htail, Hhead.
    assert (firstRef (cells0 ++ [(t, xt)]) None
            = Some (default t (fst <$> head cells0))) as Efirst
      by (by destruct cells0 as [| [] ?]).
    rewrite Efirst.
    apply linked_app in Hlinked as [Hlinked0 Hlast]. simpl in Hlinked0, Hlast.
    destruct Hlast as [Ht _].
    assert (t < length st) as Hlt by (by eapply lookup_lt_Some).
    unfold LinkedList.update. unfold LinkedList.store in *. rewrite lookup_app_l, Ht by done. simpl.
    set (st' := alter _ t _).
    assert (st' !! t
            = Some (LinkedList.makeNode (lastRef cells0 None) (Some (length st)) xt))
      as Ht'.
    { unfold st'. rewrite list_lookup_alter_eq, lookup_app_l, Ht by done. done. }
    assert (st' !! length st
            = Some (LinkedList.makeNode (Some t) None x)) as Hn'.
    { unfold st'. rewrite list_lookup_alter_ne by lia.
      by apply list_lookup_middle. }
    assert (∀ n, n < length st → n ≠ t → st' !! n = st !! n) as Hkept.
    { intros n Hn Hne. unfold st'. rewrite list_lookup_alter_ne by done.
      by rewrite lookup_app_l. }
    rewrite fmap_app in Hdup. apply NoDup_app in Hdup as (Hdup0 & Hnot & _).
    eexists _, _. split; [done |]. split; [| split; [| split; [| done]]].
    + split; [done |]. split; [| split; [| split]].
      * apply linked_app. split; [apply linked_app; split |]; simpl.
        -- apply (linked_kept st); [| done]. intros n Hn. apply Hkept.
           ++ apply Hvalid. rewrite fmap_app. apply elem_of_app. by left.
           ++ intros ->. apply (Hnot t Hn). left.
        -- done.
        -- by rewrite lastRef_snoc.
      * simpl. by destruct cells0 as [| [] ?].
      * simpl. by rewrite lastRef_snoc.
      * simpl. rewrite Hlen, !length_app. simpl. lia.
    + intros n Hn Hnot'. apply Hkept; [done |]. intros ->. apply Hnot'.
      rewrite fmap_app. apply elem_of_app. right. left.
    + unfold st'. rewrite length_alter, length_app. simpl. lia.
Qed.

Lemma prepend_listOf st l cells x :
  listOf st l cells →
  ∃ l' st',
    LinkedList.prepend x l st = LinkedList.Done (length st, l', st') ∧
    listOf st' l' ((length st, x) :: cells) ∧
    othersKept st st' cells ∧
    length st' = S (length st) ∧
    LinkedList.shouldNextForEachBreak l' = LinkedList.shouldNextForEachBreak l.
Proof.
  intros (Hdup & Hlinked & Hhead & Htail & Hlen).
  assert (∀ n, n ∈ cells.*1 → n < length st) as Hvalid
    by (intros n; by eapply linked_valid).
  assert (NoDup ((length st, x) :: cells).*1) as Hdup'.
  { rewrite fmap_cons. apply NoDup_cons. split; [| done].
    intros Hn%Hvalid. simpl in Hn. lia. }
  unfold LinkedList.prepend. simpl. unfold LinkedList.store in *.
  destruct cells as [| [h xh] cells0].
  - simpl in Hhead. rewrite Hhead. eexists _, _. split; [done |].
    split; [| split; [| split; [| done]]].
    + split; [done |]. simpl. unfold lastRef. simpl. unfold LinkedList.store.
      rewrite list_lookup_middle by done. rewrite Hlen. simpl.
      repeat split; lia.
    + intros n Hn _. unfold LinkedList.store. by rewrite lookup_app_l.
    + rewrite length_app. simpl. lia.
  - simpl in Hhead. rewrite Hhead. simpl in Hlinked. destruct Hlinked as [Hh Hrest].
    assert (h < length st) as Hlt by (by eapply lookup_lt_Some).
    unfold LinkedList.update. unfold LinkedList.store in *. rewrite lookup_app_l, Hh by done. simpl.
    set (st' := alter _ h _).
    assert (st' !! h
            = Some (LinkedList.makeNode (Some (length st)) (firstRef cells0 None) xh))
      as Hh'.
    { unfold st'. rewrite list_lookup_alter_eq, lookup_app_l, Hh by done. done. }
    assert (st' !! length st
            = Some (LinkedList.makeNode None (Some h) x)) as Hn'.
    { unfold st'. rewrite list_lookup_alter_ne by lia.
      by apply list_lookup_middle. }
    assert (∀ n, n < length st → n ≠ h → st' !! n = st !! n) as Hkept.
    { intros n Hn Hne. unfold st'. rewrite list_lookup_alter_ne by done.
      by rewrite lookup_app_l. }
    rewrite fmap_cons in Hdup. apply NoDup_cons in Hdup as [Hnot Hdup0].
    eexists _, _. split; [done |]. split; [| split; [| split; [| done]]].
    + split; [done |]. split; [| split; [| split]].
      * simpl. split; [done |]. split; [done |].
        apply (linked_kept st); [| done]. intros n Hn. apply Hkept.
        -- apply Hvalid. by right.
        -- by intros ->.
      * done.
      * simpl. by rewrite Htail, !lastRef_cons.
      * simpl. rewrite Hlen. simpl. lia.
    + intros n Hn Hnot'. apply Hkept; [done |]. intros ->. apply Hnot'. left.
    + unfold st'. rewrite length_alter, length_app. simpl. lia.
Qed.

End Append.

Section Remove.
Context {A : Type}.
Implicit Types (st : LinkedList.store A) (cells : list (nat * A))
  (l : LinkedList.t).

Lemma update_valid n f st :
  n < length st → LinkedList.update n f st = LinkedList.Done (alter f n st).
Proof.
  intros [N E]%lookup_lt_is_Some. unfold LinkedList.update.
  unfold LinkedList.store in *. by rewrite E.
Qed.

Lemma lastRef_None cells : lastRef cells None = None → cells = [].
Proof.
  destruct cells as [| [t xt] c _] using rev_ind; [done |].
  by rewrite lastRef_snoc.
Qed.

Lemma firstRef_None cells : firstRef cells None = None → cells = [].
Proof. by destruct cells as [| [] ?]. Qed.

Lemma firstRef_elem cells n : firstRef cells None = Some n → n ∈ cells.*1.
Proof. destruct cells as [| [h xh] c]; [done |]. intros [= <-]. left. Qed.

Lemma lastRef_elem cells n : lastRef cells None = Some n → n ∈ cells.*1.
Proof.
  destruct cells as [| [t xt] c _] using rev_ind; [done |].
  rewrite lastRef_snoc. intros [= <-]. rewrite fmap_app.
  apply elem_of_app. right. left.
Qed.

Lemma linked_alter_other st f q before cells after :
  q ∉ cells.*1 → linked st before cells after →
  linked (alter f q st) before cells after.
Proof.
  intros Hq. apply linked_kept. intros n Hn. unfold LinkedList.store.
  rewrite list_lookup_alter_ne; [done |]. by intros ->.
Qed.

Lemma linked_set_next st before cells after after' p :
  NoDup cells.*1 → linked st before cells after →
  lastRef cells None = Some p →
  linked (alter (LinkedList.set_next after') p st) before cells after'.
Proof.
  destruct cells as [| [t xt] c _] using rev_ind; [done |].
  rewrite lastRef_snoc. intros Hdup Hl [= <-].
  apply linked_app in Hl as [Hc [Ht _]]. simpl in Hc.
  rewrite fmap_app in Hdup. apply NoDup_app in Hdup as (_ & Hnot & _).
  apply linked_app. split; simpl.
  - apply linked_alter_other; [| done]. intros Hin. apply (Hnot t Hin). left.
  - split; [| done]. unfold LinkedList.store in *.
    by rewrite list_lookup_alter_eq, Ht.
Qed.

Lemma linked_set_previous st before before' cells after h :
  NoDup cells.*1 → linked st before cells after →
  firstRef cells None = Some h →
  linked (alter (LinkedList.set_previous before') h st) before' cells after.
Proof.
  destruct cells as [| [t xt] c]; [done |].
  intros Hdup [Ht Hc] [= <-].
  rewrite fmap_cons in Hdup. apply NoDup_cons in Hdup as [Hnot _].
  split.
  - unfold LinkedList.store in *. by rewrite list_lookup_alter_eq, Ht.
  - by apply linked_alter_other.
Qed.

Lemma remove_listOf st l cells1 n x cells2 :
  listOf st l (cells1 ++ (n, x) :: cells2) →
  ∃ l' st',
    LinkedList.remove (Some n) l st = LinkedList.Done (l', st') ∧
    listOf st' l' (cells1 ++ cells2) ∧
    othersKept st st' (cells1 ++ cells2) ∧
    length st' = length st ∧
    LinkedList.shouldNextForEachBreak l' = LinkedList.shouldNextForEachBreak l.
Proof.
  intros (Hdup & Hlinked & Hhead & Htail & Hlen).
  apply linked_app in Hlinked as [H1 [Hn H2]].
  rewrite fmap_app, fmap_cons in Hdup.
  apply NoDup_app in Hdup as (Hdup1 & Hnot & [Hn2 Hdup2]%NoDup_cons).
  assert (NoDup (cells1 ++ cells2).*1) as Hdup'.
  { rewrite fmap_app. apply NoDup_app. split; [done |].
    split; [| done]. intros q Hq Hq2. apply (Hnot q Hq). by right. }
  rewrite firstRef_app in Hhead. rewrite lastRef_app, lastRef_cons in Htail.
  rewrite length_app in Hlen. simpl in Hlen.
  unfold LinkedList.remove. unfold LinkedList.store in *. rewrite Hn. simpl.
  destruct (lastRef cells1 None) as [p |] eqn:Ep;
    destruct (firstRef cells2 None) as [h |] eqn:Eh.
  - pose proof (lastRef_elem _ _ Ep) as Hp.
    pose proof (firstRef_elem _ _ Eh) as Hh.
    assert (p < length st) as Hplt by (by eapply (linked_valid _ _ cells1)).
    assert (h < length st) as Hhlt by (by eapply (linked_valid _ _ cells2)).
    assert (p ≠ h) as Hne.
    { intros ->. apply (Hnot h Hp). by right. }
    rewrite update_valid by done. simpl.
    rewrite update_valid
      by (unfold LinkedList.store; by rewrite length_alter). simpl.
    eexists _, _. split; [done |]. split; [| split; [| split; [| done]]].
    + split; [done |]. split; [| split; [| split]].
      * apply linked_app. rewrite Ep, Eh. split.
        -- apply linked_alter_other.
           { intros Hin. apply (Hnot h Hin). by right. }
           by eapply linked_set_next.
        -- eapply linked_set_previous; [done | | done].
           apply linked_alter_other; [| done].
           intros Hin. apply (Hnot p Hp). by right.
      * simpl. rewrite Hhead, firstRef_app.
        destruct cells1 as [| [] ?]; [done | done].
      * simpl. rewrite Htail, lastRef_app.
        destruct cells2 as [| c2 cells2 _] using rev_ind; [done |].
        destruct c2. by rewrite !lastRef_snoc.
      * simpl. rewrite Hlen, length_app. lia.
    + intros q Hq Hnotq. unfold LinkedList.store.
      rewrite !list_lookup_alter_ne; [done | |].
      * intros ->. apply Hnotq. rewrite fmap_app. apply elem_of_app. by left.
      * intros ->. apply Hnotq. rewrite fmap_app. apply elem_of_app. by right.
    + unfold LinkedList.store. by rewrite !length_alter.
  - pose proof (lastRef_elem _ _ Ep) as Hp.
    apply firstRef_None in Eh as ->.
    assert (p < length st) as Hplt by (by eapply (linked_valid _ _ cells1)).
    rewrite update_valid by done. simpl.
    eexists _, _. split; [done |]. split; [| split; [| split; [| done]]].
    + split; [done |]. rewrite app_nil_r. split; [| split; [| split]].
      * by eapply linked_set_next.
      * simpl. rewrite Hhead. destruct cells1 as [| [] ?]; [done | done].
      * simpl. done.
      * simpl. rewrite Hlen. simpl. lia.
    + intros q Hq Hnotq. unfold LinkedList.store.
      rewrite list_lookup_alter_ne; [done |].
      intros ->. apply Hnotq. rewrite fmap_app. apply elem_of_app. by left.
    + unfold LinkedList.store. by rewrite length_alter.
  - pose proof (firstRef_elem _ _ Eh) as Hh.
    apply lastRef_None in Ep as ->.
    assert (h < length st) as Hhlt by (by eapply (linked_valid _ _ cells2)).
    rewrite update_valid by done. simpl.
    eexists _, _. split; [done |]. split; [| split; [| split; [| done]]].
    + split; [done |]. split; [| split; [| split]].
      * by eapply linked_set_previous.
      * done.
      * simpl. rewrite Htail. simpl.
        destruct cells2 as [| c2 cells2 _] using rev_ind; [done |].
        destruct c2. by rewrite !lastRef_snoc.
      * simpl. rewrite Hlen. simpl. lia.
    + intros q Hq Hnotq. unfold LinkedList.store.
      rewrite list_lookup_alter_ne; [done |].
      intros ->. by apply Hnotq.
    + unfold LinkedList.store. by rewrite length_alter.
  - apply lastRef_None in Ep as ->. apply firstRef_None in Eh as ->.
    eexists _, _. split; [done |]. split; [| split; [| split; [| done]]].
    + by repeat split.
    + by intros q Hq Hnotq.
    + done.
Qed.

Lemma pop_listOf st l cells :
  listOf st l cells →
  ∃ l' st',
    LinkedList.pop l st
    = LinkedList.Done (snd <$> last cells, l', st') ∧
    listOf st' l' (removelast cells) ∧
    length st' = length st.
Proof.
  intros Hl. pose proof Hl as (Hdup & Hlinked & Hhead & Htail & Hlen).
  unfold LinkedList.pop.
  destruct cells as [| [t xt] c _] using rev_ind.
  - rewrite Htail. by eexists _, _.
  - rewrite lastRef_snoc in Htail. rewrite Htail.
    apply linked_app in Hlinked as [_ [Ht _]].
    unfold LinkedList.store in *. rewrite Ht.
    pose proof (remove_listOf st l c t xt [] Hl) as (l' & st' & -> & Hl' & _ & Hst & _).
    simpl. rewrite last_snoc, removelast_last. rewrite app_nil_r in Hl'.
    by eexists _, _.
Qed.

Lemma shift_listOf st l cells :
  listOf st l cells →
  ∃ l' st',
    LinkedList.shift l st
    = LinkedList.Done (snd <$> head cells, l', st') ∧
    listOf st' l' (tail cells) ∧
    length st' = length st.
Proof.
  intros Hl. pose proof Hl as (Hdup & Hlinked & Hhead & Htail & Hlen).
  unfold LinkedList.shift.
  destruct cells as [| [h xh] c].
  - rewrite Hhead. by eexists _, _.
  - simpl in Hhead. rewrite Hhead. destruct Hlinked as [Hh _].
    unfold LinkedList.store in *. rewrite Hh.
    pose proof (remove_listOf st l [] h xh c Hl) as (l' & st' & -> & Hl' & _ & Hst & _).
    simpl. by eexists _, _.
Qed.

End Remove.

Section ForEach.
Context {A S : Type}.
Implicit Types (st : LinkedList.store A) (cells : list (nat * A))
  (l : LinkedList.t) (fn : bool → Z → A → S → S * bool * bool).

Lemma forEachLoop_stop fuel fn reversed st current i (s : S) :
  LinkedList.forEachLoop fuel fn reversed st true current i s
  = LinkedList.Done (s, true).
Proof. by destruct fuel, current. Qed.

Lemma forEachLoop_forward fn st fuel before cells i (s : S) :
  linked st before cells None → length cells < fuel →
  LinkedList.forEachLoop fuel fn false st false (firstRef cells None) i s
  = LinkedList.Done (listVisit fn 1 cells.*2 i s).
Proof.
  revert fuel before i s.
  induction cells as [| [n x] cells IH]; intros fuel before i s Hl Hfuel.
  - by destruct fuel.
  - destruct fuel as [| fuel]; [simpl in Hfuel; lia |].
    destruct Hl as [Hn Hrest]. simpl. unfold LinkedList.store in *.
    rewrite Hn. simpl.
    destruct (fn false i x s) as [[s' continue] break].
    destruct continue; [| done]. destruct break; simpl.
    + apply forEachLoop_stop.
    + apply (IH _ (Some n)); [done | simpl in Hfuel; lia].
Qed.

Lemma forEachLoop_backward fn st fuel cells after i (s : S) :
  linked st None cells after → length cells < fuel →
  LinkedList.forEachLoop fuel fn true st false (lastRef cells None) i s
  = LinkedList.Done (listVisit fn (-1) (reverse cells.*2) i s).
Proof.
  revert fuel after i s.
  induction cells as [| [n x] cells IH] using rev_ind;
    intros fuel after i s Hl Hfuel.
  - by destruct fuel.
  - rewrite length_app in Hfuel. simpl in Hfuel.
    destruct fuel as [| fuel]; [lia |].
    apply linked_app in Hl as [Hrest [Hn _]].
    rewrite lastRef_snoc, fmap_app, reverse_app. simpl.
    unfold LinkedList.store in *. rewrite Hn. simpl.
    destruct (fn false i x s) as [[s' continue] break].
    destruct continue; [| done]. destruct break; simpl.
    + apply forEachLoop_stop.
    + replace (i - 1)%Z with (i + -1)%Z by lia.
      apply (IH _ (Some n)); [done | lia].
Qed.

Lemma forEach_listOf fn reversed (s : S) st l cells :
  listOf st l cells →
  LinkedList.forEach fn reversed s l st
  = LinkedList.Done
      (let '(s', flag) :=
         listVisit fn (if reversed then -1 else 1)%Z
           (if reversed then reverse cells.*2 else cells.*2)
           (if reversed then Z.of_nat (length cells) - 1 else 0)%Z s in
       (s', LinkedList.set_shouldNextForEachBreak flag l)).
Proof.
  intros Hl. pose proof (listOf_length _ _ _ Hl) as Hfuel.
  destruct Hl as (_ & Hlinked & Hhead & Htail & Hlen).
  unfold LinkedList.forEach.
  destruct reversed;
    cbn [LinkedList.set_shouldNextForEachBreak LinkedList.tail LinkedList.head
         LinkedList.length LinkedList.shouldNextForEachBreak].
  - rewrite Htail, Hlen, (forEachLoop_backward _ _ _ _ None) by (done || lia).
    simpl. by destruct (listVisit _ _ _ _ _).
  - rewrite Hhead, (forEachLoop_forward _ _ _ None) by (done || lia).
    simpl. by destruct (listVisit _ _ _ _ _).
Qed.

End ForEach.

(** * The association list *)

Section AssociationList.
Context {K V : Type} `{EqDecision K}.
Implicit Types (al : list (K * V)).

Lemma has_elem k al : LinkedOrderedMap.has k al = true ↔ k ∈ al.*1.
Proof.
  induction al as [| [k' v'] al IH]; simpl.
  - split; [done | by intros ?%elem_of_nil].
  - destruct (decide (k = k')) as [-> | Hne].
    + split; [intros _; left | done].
    + rewrite IH. split; [by right |].
      by intros [? | ?]%elem_of_cons.
Qed.

Lemma has_absent k al : k ∉ al.*1 → LinkedOrderedMap.has k al = false.
Proof.
  intros Hk. destruct (LinkedOrderedMap.has k al) eqn:E; [| done].
  by apply has_elem in E.
Qed.

Lemma get_elem k v al :
  NoDup al.*1 → (k, v) ∈ al → LinkedOrderedMap.get k al = Some v.
Proof.
  induction al as [| [k' v'] al IH]; intros Hdup Hin.
  - by apply elem_of_nil in Hin.
  - simpl. rewrite fmap_cons in Hdup. apply NoDup_cons in Hdup as [Hnot Hdup].
    apply elem_of_cons in Hin as [[= <- <-] | Hin].
    + by rewrite decide_True.
    + rewrite decide_False; [by apply IH |].
      intros ->. apply Hnot. apply list_elem_of_fmap. by exists (k', v).
Qed.

Lemma get_absent k al : k ∉ al.*1 → LinkedOrderedMap.get k al = None.
Proof.
  induction al as [| [k' v'] al IH]; [done |]. simpl.
  intros Hk. rewrite decide_False.
  - apply IH. intros Hin. apply Hk. by right.
  - intros ->. apply Hk. left.
Qed.

Lemma overwrite_middle k v v0 al1 al2 :
  k ∉ al1.*1 →
  LinkedOrderedMap.overwrite k v (al1 ++ (k, v0) :: al2) = al1 ++ (k, v) :: al2.
Proof.
  induction al1 as [| [k' v'] al1 IH]; simpl; intros Hk.
  - by rewrite decide_True.
  - rewrite decide_False by (intros ->; apply Hk; left).
    rewrite IH; [done |]. intros Hin. apply Hk. by right.
Qed.

Lemma filter_other_keys k al : k ∉ al.*1 → filter (λ e, e.1 ≠ k) al = al.
Proof.
  induction al as [| [k' v'] al IH]; [done |]. intros Hk.
  rewrite filter_cons_True by (simpl; intros ->; apply Hk; left).
  rewrite IH; [done |]. intros Hin. apply Hk. by right.
Qed.

(** Callbacks that fill the slots of an array one after the other, as those
    of [toArray] and [keys] do. *)
Lemma forEach_fill {B : Type} (g : K → V → B)
    (fn : K → V → list (option B) * nat → list (option B) * nat * bool) al
    (pre : list B) :
  (∀ k v array i,
     fn k v (array, i)
     = ((ImmutableLinkedOrderedMap.arrayAssign array i (g k v), S i), true)) →
  LinkedOrderedMap.forEach fn al
    ((Some <$> pre) ++ replicate (length al) None, length pre)
  = (Some <$> (pre ++ ((λ e, g e.1 e.2) <$> al)), length pre + length al).
Proof.
  intros Hfn. revert pre.
  induction al as [| [k v] al IH]; intros pre; simpl.
  - rewrite !app_nil_r. f_equal. lia.
  - rewrite Hfn, arrayAssign_next.
    replace (S (length pre)) with (length (pre ++ [g k v]))
      by (rewrite length_app; simpl; lia).
    rewrite IH. rewrite length_app. simpl. rewrite <- app_assoc. simpl.
    f_equal. lia.
Qed.

End AssociationList.

(** * The linked ordered map *)

Section MapOps.
Context {K V : Type} `{Countable K}.
Implicit Types (st : LinkedList.store (K * V))
  (m : MutableLinkedOrderedMap.t K) (cells : list (nat * (K * V))).

Lemma linked_lookup {A : Type} (st : LinkedList.store A) before
    (cells : list (nat * A)) after n x :
  linked st before cells after → (n, x) ∈ cells →
  ∃ p q, st !! n = Some (LinkedList.makeNode p q x).
Proof.
  revert before. induction cells as [| [n' x'] cells IH]; intros before.
  - by intros _ ?%elem_of_nil.
  - intros [Hn Hrest] [[= <- <-] | Hin]%elem_of_cons; [by eexists _, _ |].
    by eapply IH.
Qed.

Lemma mapOf_keys st m cells : mapOf st m cells → NoDup cells.*2.*1.
Proof.
  intros [(Hdup & _) Hmap]. apply NoDup_alt. intros i j k Hi Hj.
  rewrite !list_lookup_fmap in Hi, Hj.
  destruct (cells !! i) as [[n1 [k1 v1]] |] eqn:Ei; [| done].
  destruct (cells !! j) as [[n2 [k2 v2]] |] eqn:Ej; [| done].
  simpl in Hi, Hj. injection Hi as ->. injection Hj as ->.
  assert (MutableLinkedOrderedMap.map m !! k = Some n1) as E1.
  { apply Hmap. exists v1. by eapply list_elem_of_lookup_2. }
  assert (MutableLinkedOrderedMap.map m !! k = Some n2) as E2.
  { apply Hmap. exists v2. by eapply list_elem_of_lookup_2. }
  assert (n1 = n2) as <- by congruence.
  eapply NoDup_alt; [exact Hdup | |]; by rewrite list_lookup_fmap, ?Ei, ?Ej.
Qed.

Lemma mapOf_absent st m cells k :
  mapOf st m cells → MutableLinkedOrderedMap.map m !! k = None →
  k ∉ cells.*2.*1.
Proof.
  intros [_ Hmap] Hk Hin.
  apply list_elem_of_fmap in Hin as ([k' v] & -> & Hin).
  apply list_elem_of_fmap in Hin as ([n [k'' v']] & [= <- <-] & Hin).
  assert (MutableLinkedOrderedMap.map m !! k' = Some n) as E
    by (apply Hmap; by exists v).
  simpl in Hk. congruence.
Qed.

Lemma mapOf_present st m cells k n :
  mapOf st m cells → MutableLinkedOrderedMap.map m !! k = Some n →
  ∃ v cells1 cells2,
    cells = cells1 ++ (n, (k, v)) :: cells2 ∧
    (k ∉ cells1.*2.*1) ∧ (k ∉ cells2.*2.*1).
Proof.
  intros Hm Hk. pose proof (mapOf_keys _ _ _ Hm) as Hkeys.
  destruct Hm as [_ Hmap]. apply Hmap in Hk as [v Hin].
  apply list_elem_of_split in Hin as (cells1 & cells2 & ->).
  exists v, cells1, cells2. split; [done |].
  rewrite !fmap_app, !fmap_cons in Hkeys. simpl in Hkeys.
  apply NoDup_app in Hkeys as (_ & Hnot & [Hk2 _]%NoDup_cons).
  split; [| done]. intros Hin. apply (Hnot k Hin). left.
Qed.

Lemma get_mapOf st m cells k :
  mapOf st m cells →
  MutableLinkedOrderedMap.get k m st
  = LinkedList.Done (LinkedOrderedMap.get k cells.*2).
Proof.
  intros Hm. unfold MutableLinkedOrderedMap.get.
  destruct (MutableLinkedOrderedMap.map m !! k) as [n |] eqn:E.
  - pose proof (mapOf_keys _ _ _ Hm) as Hkeys.
    destruct Hm as [(_ & Hlinked & _) Hmap]. apply Hmap in E as [v Hin].
    destruct (linked_lookup _ _ _ _ _ _ Hlinked Hin) as (p & q & Hn).
    unfold LinkedList.store in *. rewrite Hn. simpl.
    rewrite (get_elem k v); [done | done |].
    apply list_elem_of_fmap. by exists (n, (k, v)).
  - by rewrite get_absent by (by eapply mapOf_absent).
Qed.

Lemma set_mapOf st m cells k (v : V) prepend :
  mapOf st m cells →
  ∃ m' st' cells',
    MutableLinkedOrderedMap.set k v prepend m st = LinkedList.Done (m', st') ∧
    mapOf st' m' cells' ∧
    cells'.*2 = LinkedOrderedMap.set k v prepend cells.*2 ∧
    othersKept st st' cells ∧
    length st ≤ length st'.
Proof.
  intros Hm. unfold MutableLinkedOrderedMap.set, LinkedOrderedMap.set.
  destruct (MutableLinkedOrderedMap.map m !! k) as [n |] eqn:E.
  - destruct (mapOf_present _ _ _ _ _ Hm E) as (v0 & c1 & c2 & -> & Hk1 & Hk2).
    destruct Hm as [(Hdup & Hlinked & Hhead & Htail & Hlen) Hmap].
    apply linked_app in Hlinked as [Hl1 [Hn Hl2]].
    assert (n < length st) as Hlt by (by eapply lookup_lt_Some).
    rewrite update_valid by done. simpl.
    exists m, (alter (λ N, LinkedList.set_element
                             ((LinkedList.element N).1, v) N) n st),
      (c1 ++ (n, (k, v)) :: c2).
    pose proof Hdup as Hdup'.
    rewrite fmap_app, fmap_cons in Hdup'.
    apply NoDup_app in Hdup' as (_ & Hnot & [Hn2 _]%NoDup_cons).
    split; [done |]. split; [| split; [| split]].
    + split; [split; [| split; [| split; [| split]]] |].
      * by rewrite fmap_app, fmap_cons in *.
      * apply linked_app. split; [| split].
        -- apply linked_alter_other; [| done].
           intros Hin. apply (Hnot n Hin). left.
        -- unfold LinkedList.store in *.
           by rewrite list_lookup_alter_eq, Hn.
        -- by apply linked_alter_other.
      * rewrite Hhead, !firstRef_app. done.
      * rewrite Htail, !lastRef_app, !lastRef_cons. done.
      * rewrite Hlen, !length_app. done.
      * intros k' n'. rewrite Hmap. split; intros [v' Hin]. 
        -- apply elem_of_app in Hin as [Hin | [[= -> -> ->] | Hin]%elem_of_cons].
           ++ exists v'. apply elem_of_app. by left.
           ++ exists v. apply elem_of_app. right. left.
           ++ exists v'. apply elem_of_app. right. by right.
        -- apply elem_of_app in Hin as [Hin | [[= -> -> ->] | Hin]%elem_of_cons].
           ++ exists v'. apply elem_of_app. by left.
           ++ exists v0. apply elem_of_app. right. left.
           ++ exists v'. apply elem_of_app. right. by right.
    + rewrite !fmap_app, !fmap_cons. simpl.
      rewrite (proj2 (has_elem _ _)).
      * by rewrite overwrite_middle.
      * rewrite fmap_app. apply elem_of_app. right. left.
    + intros q Hq Hnotq. unfold LinkedList.store.
      rewrite list_lookup_alter_ne; [done |].
      intros ->. apply Hnotq. rewrite fmap_app. apply elem_of_app. right. left.
    + unfold LinkedList.store. by rewrite length_alter.
  - rewrite has_absent by (by eapply mapOf_absent).
    pose proof (mapOf_absent _ _ _ _ Hm E) as Hk.
    destruct Hm as [Hl Hmap].
    assert (∀ cells' n,
      (∀ c, c ∈ cells' ↔ c ∈ cells ∨ c = (n, (k, v))) →
      ∀ k' n', <[k := n]> (MutableLinkedOrderedMap.map m) !! k' = Some n'
               ↔ ∃ v', (n', (k', v')) ∈ cells') as Hmap'.
    { intros cells' n Hcells k' n'. destruct (decide (k' = k)) as [-> | Hne].
      - rewrite lookup_insert_eq. split.
        + intros [= <-]. exists v. apply Hcells. by right.
        + intros [v' [Hin | [= -> _]]%Hcells]; [| done].
          exfalso. apply Hk. apply list_elem_of_fmap. exists (k, v').
          split; [done |]. apply list_elem_of_fmap. by exists (n', (k, v')).
      - rewrite lookup_insert_ne by done. rewrite Hmap.
        split; intros [v' Hin]; exists v'.
        + apply Hcells. by left.
        + by apply Hcells in Hin as [Hin | [= _ -> _]]. }
    destruct prepend.
    + destruct (prepend_listOf _ _ _ (k, v) Hl) as (l' & st' & -> & Hl' & Hkept & Hst & _).
      simpl. eexists _, _, ((length st, (k, v)) :: cells). split; [done |].
      split; [| split; [done | split; [done | lia]]].
      split; [done |]. simpl. apply Hmap'. intros c.
      rewrite elem_of_cons. tauto.
    + destruct (append_listOf _ _ _ (k, v) Hl) as (l' & st' & -> & Hl' & Hkept & Hst & _).
      simpl. eexists _, _, (cells ++ [(length st, (k, v))]). split; [done |].
      split; [| split; [by rewrite fmap_app | split; [done | lia]]].
      split; [done |]. simpl. apply Hmap'. intros c.
      rewrite elem_of_app, list_elem_of_singleton. tauto.
Qed.

Lemma remove_mapOf st m cells k :
  mapOf st m cells → k ∈ cells.*2.*1 →
  ∃ m' st' cells',
    MutableLinkedOrderedMap.remove (V := V) k m st = LinkedList.Done (m', st') ∧
    mapOf st' m' cells' ∧
    cells'.*2 = filter (λ e, e.1 ≠ k) cells.*2 ∧
    length st' = length st.
Proof.
  intros Hm Hin. unfold MutableLinkedOrderedMap.remove.
  destruct (MutableLinkedOrderedMap.map m !! k) as [n |] eqn:E.
  2: { by eapply mapOf_absent in E. }
  destruct (mapOf_present _ _ _ _ _ Hm E) as (v0 & c1 & c2 & -> & Hk1 & Hk2).
  destruct Hm as [Hl Hmap].
  destruct (remove_listOf _ _ _ _ _ _ Hl) as (l' & st' & -> & Hl' & _ & Hst & _).
  simpl. exists (MutableLinkedOrderedMap.set_map
                   (delete k (MutableLinkedOrderedMap.map m))
                   (MutableLinkedOrderedMap.set_keyValueList l' m)),
    st', (c1 ++ c2).
  split; [done |]. split; [| split; [| done]].
  - split; [done |]. simpl. intros k' n'.
    destruct (decide (k' = k)) as [-> | Hne].
    + rewrite lookup_delete_eq. split; [done |]. intros [v' Hin'].
      exfalso. apply elem_of_app in Hin' as [Hin' | Hin'].
      * apply Hk1. apply list_elem_of_fmap. exists (k, v'). split; [done |].
        apply list_elem_of_fmap. by exists (n', (k, v')).
      * apply Hk2. apply list_elem_of_fmap. exists (k, v'). split; [done |].
        apply list_elem_of_fmap. by exists (n', (k, v')).
    + rewrite lookup_delete_ne by done. rewrite Hmap.
      split; intros [v' Hin']; exists v'.
      * apply elem_of_app in Hin' as [Hin' | [[= _ -> _] | Hin']%elem_of_cons];
          [| done |]; apply elem_of_app; [by left | by right].
      * apply elem_of_app in Hin' as [Hin' | Hin']; apply elem_of_app;
          [by left | right; by right].
  - rewrite !fmap_app, fmap_cons, filter_app. simpl.
    rewrite filter_cons_False by (simpl; by intros Hne).
    by rewrite !filter_other_keys.
Qed.

Lemma remove_missing st m cells k :
  mapOf st m cells → k ∉ cells.*2.*1 →
  MutableLinkedOrderedMap.remove (V := V) k m st
  = LinkedList.Raise (LinkedList.Error "key does not exist").
Proof.
  intros [_ Hmap] Hk. unfold MutableLinkedOrderedMap.remove.
  destruct (MutableLinkedOrderedMap.map m !! k) as [n |] eqn:E; [| done].
  apply Hmap in E as [v Hin]. exfalso. apply Hk.
  apply list_elem_of_fmap. exists (k, v). split; [done |].
  apply list_elem_of_fmap. by exists (n, (k, v)).
Qed.

Lemma getLength_mapOf st m cells :
  mapOf st m cells → MutableLinkedOrderedMap.getLength m = Z.of_nat (length cells).
Proof. by intros [(_ & _ & _ & _ & Hlen) _]. Qed.

(** The function that [forEach] hands to the list calls the callback of
    the map on each element until it returns [false]. *)
Lemma listVisit_entries {S : Type} (f : K → V → S → S * bool * bool)
    (fn : bool → Z → K * V → S * bool → S * bool * bool * bool) step
    (elements : list (K * V)) i s broke :
  (∀ i e s broke,
     fn false i e (s, broke)
     = (let '(s, continue, break) := f e.1 e.2 s in
        ((s, broke || break), continue, false))) →
  ∃ broke',
    listVisit fn step elements i (s, broke)
    = (LinkedOrderedMap.forEach (λ k v s, (f k v s).1) elements s, broke',
       false).
Proof.
  intros Hfn. revert i s broke.
  induction elements as [| [k v] elements IH]; intros i s broke; simpl.
  - by exists broke.
  - rewrite Hfn. simpl. destruct (f k v s) as [[s' continue] break]. simpl.
    destruct continue; [apply IH | by eexists].
Qed.

Lemma forEach_mapOf {S : Type} (f : K → V → S → S * bool * bool) reversed
    (s : S) st m cells :
  mapOf st m cells →
  ∃ m',
    MutableLinkedOrderedMap.forEach f reversed s m st
    = LinkedList.Done
        (LinkedOrderedMap.forEach (λ k v s, (f k v s).1)
           (if reversed then reverse cells.*2 else cells.*2) s, m') ∧
    mapOf st m' cells.
Proof.
  intros [Hl Hmap]. unfold MutableLinkedOrderedMap.forEach.
  rewrite (forEach_listOf _ _ _ _ _ _ Hl).
  match goal with
  | |- context [listVisit ?fn ?step ?elements ?i ?s0] =>
      destruct (listVisit_entries f fn step elements i s false) as [broke E];
        [| cbn [MutableLinkedOrderedMap.shouldNextForEachBreak
                MutableLinkedOrderedMap.set_shouldNextForEachBreak] in *;
           rewrite E]
  end.
  - intros i e s0 broke. simpl. by destruct (f e.1 e.2 s0) as [[? ?] ?].
  - simpl. eexists. split; [done |]. split; [| done].
    destruct Hl as (? & ? & ? & ? & ?). by repeat split.
Qed.

Lemma arrayOf_mapOf {B : Type} (g : K → V → B) st m cells :
  mapOf st m cells → (Z.of_nat (length cells) < 2 ^ 32)%Z →
  ∃ m',
    MutableLinkedOrderedMap.arrayOf g m st
    = LinkedList.Done (Some <$> ((λ e, g e.1 e.2) <$> cells.*2), m') ∧
    mapOf st m' cells.
Proof.
  intros Hm Hlen. unfold MutableLinkedOrderedMap.arrayOf.
  rewrite (getLength_mapOf _ _ _ Hm), newArray_length by done.
  match goal with
  | |- context [MutableLinkedOrderedMap.forEach ?f false ?s m st] =>
      destruct (forEach_mapOf f false s st m cells Hm) as (m' & -> & Hm')
  end.
  pose proof (forEach_fill g
    (λ k v s, ((let '(array, i) := s in
                ((ImmutableLinkedOrderedMap.arrayAssign array i (g k v), S i),
                 true, false)) : list (option B) * nat * bool * bool).1)
    cells.*2 []) as E.
  simpl in E. rewrite !length_fmap in E. rewrite E by done.
  simpl. by exists m'.
Qed.

Lemma fromArrayLoop_mapOf (keyOf : V → K) array : ∀ st m cells,
  mapOf st m cells →
  ∃ m' st' cells',
    MutableLinkedOrderedMap.fromArrayLoop keyOf array m st
    = LinkedList.Done (m', st') ∧
    mapOf st' m' cells' ∧
    cells'.*2
    = foldl (λ al item, LinkedOrderedMap.set (keyOf item) item false al)
        cells.*2 array.
Proof.
  induction array as [| item array IH]; intros st m cells Hm; simpl.
  - by exists m, st, cells.
  - destruct (set_mapOf _ _ _ (keyOf item) item false Hm)
      as (m1 & st1 & cells1 & -> & Hm1 & E1 & Hkept1 & Hst1).
    simpl. destruct (IH _ _ _ Hm1)
      as (m' & st' & cells' & -> & Hm' & E').
    exists m', st', cells'. split; [done |]. split; [done |].
    by rewrite E', E1.
Qed.

End MapOps.

Section Lookups.
Context {K V : Type} `{EqDecision K}.
Implicit Types (al : list (K * V)).

Lemma get_app k al1 al2 :
  LinkedOrderedMap.get k (al1 ++ al2)
  = match LinkedOrderedMap.get k al1 with
    | Some v => Some v
    | None => LinkedOrderedMap.get k al2
    end.
Proof.
  induction al1 as [| [k' v'] al1 IH]; [done |]. simpl.
  by destruct (decide (k = k')).
Qed.

Lemma get_overwrite_eq k v al :
  LinkedOrderedMap.has k al = true →
  LinkedOrderedMap.get k (LinkedOrderedMap.overwrite k v al) = Some v.
Proof.
  induction al as [| [k' v'] al IH]; [done |]. simpl.
  destruct (decide (k = k')) as [<- | Hne]; simpl.
  - by rewrite decide_True.
  - rewrite decide_False by done. apply IH.
Qed.

Lemma get_overwrite_ne k k' v al :
  k' ≠ k →
  LinkedOrderedMap.get k' (LinkedOrderedMap.overwrite k v al)
  = LinkedOrderedMap.get k' al.
Proof.
  intros Hne. induction al as [| [k0 v0] al IH]; [done |]. simpl.
  destruct (decide (k = k0)) as [<- | Hne0]; simpl.
  - by rewrite !decide_False.
  - by rewrite IH.
Qed.

Lemma get_set_eq k v prepend al :
  LinkedOrderedMap.get k (LinkedOrderedMap.set k v prepend al) = Some v.
Proof.
  unfold LinkedOrderedMap.set.
  destruct (LinkedOrderedMap.has k al) eqn:E.
  - by apply get_overwrite_eq.
  - destruct prepend; simpl.
    + by rewrite decide_True.
    + rewrite get_app, (has_get _ _ E). simpl. by rewrite decide_True.
Qed.

Lemma get_set_ne k k' v prepend al :
  k' ≠ k →
  LinkedOrderedMap.get k' (LinkedOrderedMap.set k v prepend al)
  = LinkedOrderedMap.get k' al.
Proof.
  intros Hne. unfold LinkedOrderedMap.set.
  destruct (LinkedOrderedMap.has k al).
  - by apply get_overwrite_ne.
  - destruct prepend; simpl.
    + by rewrite decide_False.
    + rewrite get_app. simpl. rewrite decide_False by done.
      by destruct (LinkedOrderedMap.get k' al).
Qed.

Lemma get_foldl_set (keyOf : V → K) (array : list V) k al :
  LinkedOrderedMap.get k
    (foldl (λ al item, LinkedOrderedMap.set (keyOf item) item false al)
       al array)
  = match last (filter (λ item, keyOf item = k) array) with
    | Some item => Some item
    | None => LinkedOrderedMap.get k al
    end.
Proof.
  revert al. induction array as [| item array IH]; intros al; [done |].
  simpl. rewrite IH. destruct (decide (keyOf item = k)) as [<- | Hne].
  - rewrite filter_cons_True by done. rewrite last_cons, get_set_eq.
    by destruct (last _).
  - rewrite filter_cons_False by done. by rewrite get_set_ne.
Qed.

End Lookups.

(** * The example list and the example map *)

Lemma listOf_two {A : Type} (a b : A) :
  listOf (twoNodes a b) twoList (twoCells a b).
Proof.
  split; [| by repeat split].
  apply NoDup_cons. split; [by intros [= ] %list_elem_of_singleton |].
  apply NoDup_singleton.
Qed.

Lemma mapOf_two (a b : Z) :
  mapOf (twoNodes (1, a) (2, b)) twoMap (twoCells (1, a) (2, b)).
Proof.
  split; [apply listOf_two |]. intros k n. simpl.
  rewrite lookup_insert_Some, lookup_singleton_Some. split.
  - intros [[<- <-] | [_ [<- <-]]].
    + exists a. left.
    + exists b. right. left.
  - intros [v Hin]. unfold twoCells in Hin.
    apply elem_of_cons in Hin as [[= -> -> ->] | Hin]; [by left |].
    apply list_elem_of_singleton in Hin as [= -> -> ->]. by right.
Qed.

Lemma listOf_new {A : Type} (st : LinkedList.store A) :
  listOf st LinkedList.new [].
Proof. split; [apply NoDup_nil_2 | by repeat split]. Qed.

Lemma mapOf_new {K V : Type} `{Countable K} (st : LinkedList.store (K * V)) :
  mapOf st MutableLinkedOrderedMap.new [].
Proof.
  split; [apply listOf_new |]. intros k n. simpl. rewrite lookup_empty.
  split; [done | by intros [v Hin%elem_of_nil]].
Qed.

(** * The operations of the linked list *)

(** X10: on a linked list, [append] adds a node that holds the element
    after the tail and [prepend] adds it before the head; they return the
    new node and count it, and they leave the nodes that are not of this
    list as they are. *)
Theorem append_and_prepend_add_a_node {A : Type} (st : LinkedList.store A) l
    cells (x : A) (prepend : bool) :
  listOf st l cells →
  ∃ l' st',
    (if prepend then LinkedList.prepend else LinkedList.append) x l st
    = LinkedList.Done (length st, l', st') ∧
    listOf st' l'
      (if prepend then (length st, x) :: cells
       else cells ++ [(length st, x)]) ∧
    othersKept st st' cells.
Proof.
  intros Hl. destruct prepend.
  - destruct (prepend_listOf _ _ _ x Hl) as (l' & st' & E & Hl' & Hkept & _).
    by exists l', st'.
  - destruct (append_listOf _ _ _ x Hl) as (l' & st' & E & Hl' & Hkept & _).
    by exists l', st'.
Qed.

Lemma append_and_prepend_add_a_node_witness :
  ∃ l' st',
    LinkedList.append 30%Z twoList (twoNodes 10%Z 20%Z)
    = LinkedList.Done (2, l', st') ∧
    listOf st' l' [(0, 10%Z); (1, 20%Z); (2, 30%Z)] ∧
    othersKept (twoNodes 10%Z 20%Z) st' (twoCells 10%Z 20%Z).
Proof.
  apply (append_and_prepend_add_a_node (twoNodes 10%Z 20%Z) twoList
           (twoCells 10%Z 20%Z) 30%Z false).
  apply listOf_two.
Defined.

(** X11: [remove] of a node of a linked list leaves the list of the other
    nodes, in their order, one shorter; it writes to the neighbours of the
    node only, so the removed node keeps its links and the nodes that are
    not of this list stay as they are. *)
Theorem remove_unlinks_the_node {A : Type} (st : LinkedList.store A) l cells1
    n (x : A) cells2 :
  listOf st l (cells1 ++ (n, x) :: cells2) →
  ∃ l' st',
    LinkedList.remove (Some n) l st = LinkedList.Done (l', st') ∧
    listOf st' l' (cells1 ++ cells2) ∧
    st' !! n = st !! n ∧
    othersKept st st' (cells1 ++ cells2).
Proof.
  intros Hl. pose proof Hl as (Hdup & Hlinked & _).
  destruct (remove_listOf _ _ _ _ _ _ Hl) as (l' & st' & E & Hl' & Hkept & _).
  exists l', st'. split; [done |]. split; [done |]. split; [| done].
  apply Hkept.
  - eapply linked_valid; [exact Hlinked |]. rewrite fmap_app, fmap_cons.
    apply elem_of_app. right. left.
  - rewrite fmap_app, fmap_cons in Hdup.
    apply NoDup_app in Hdup as (_ & Hnot & [Hn _]%NoDup_cons).
    rewrite fmap_app. intros [Hin | Hin]%elem_of_app; [| done].
    apply (Hnot n Hin). left.
Qed.

Lemma remove_unlinks_the_node_witness :
  ∃ l' st',
    LinkedList.remove (Some 0) twoList (twoNodes 10%Z 20%Z)
    = LinkedList.Done (l', st') ∧
    listOf st' l' [(1, 20%Z)] ∧
    st' !! 0 = twoNodes 10%Z 20%Z !! 0 ∧
    othersKept (twoNodes 10%Z 20%Z) st' [(1, 20%Z)].
Proof.
  apply (remove_unlinks_the_node (twoNodes 10%Z 20%Z) twoList [] 0 10%Z
           [(1, 20%Z)]).
  apply listOf_two.
Defined.

(** X12: [pop] returns the last element of a linked list and [shift] the
    first one, and they leave the list of the other elements; on an empty
    list they return [undefined] and leave the list empty. *)
Theorem pop_and_shift_take_the_ends {A : Type} (st : LinkedList.store A) l
    cells :
  listOf st l cells →
  (∃ l' st',
     LinkedList.pop l st = LinkedList.Done (snd <$> last cells, l', st') ∧
     listOf st' l' (removelast cells)) ∧
  (∃ l' st',
     LinkedList.shift l st = LinkedList.Done (snd <$> head cells, l', st') ∧
     listOf st' l' (tail cells)).
Proof.
  intros Hl. split.
  - destruct (pop_listOf _ _ _ Hl) as (l' & st' & E & Hl' & _).
    by exists l', st'.
  - destruct (shift_listOf _ _ _ Hl) as (l' & st' & E & Hl' & _).
    by exists l', st'.
Qed.

Lemma pop_and_shift_take_the_ends_witness :
  (∃ l' st',
     LinkedList.pop twoList (twoNodes 10%Z 20%Z)
     = LinkedList.Done (Some 20%Z, l', st') ∧
     listOf st' l' [(0, 10%Z)]) ∧
  (∃ l' st',
     LinkedList.shift twoList (twoNodes 10%Z 20%Z)
     = LinkedList.Done (Some 10%Z, l', st') ∧
     listOf st' l' [(1, 20%Z)]).
Proof.
  apply (pop_and_shift_take_the_ends (twoNodes 10%Z 20%Z) twoList
           (twoCells 10%Z 20%Z)).
  apply listOf_two.
Defined.

(** X13: [forEach] of a linked list calls [fn] with index and element, from
    the head on with the indices from 0 up or, reversed, from the tail on
    with the indices from [length - 1] down; it stops when [fn] returns
    [false] and before the next element when [fn] called [break()], and it
    ends on every list. *)
Theorem forEach_calls_fn_on_the_elements {A S : Type}
    (fn : bool → Z → A → S → S * bool * bool) (reversed : bool) (s : S)
    (st : LinkedList.store A) l cells :
  listOf st l cells →
  LinkedList.forEach fn reversed s l st
  = LinkedList.Done
      (let '(s', flag) :=
         listVisit fn (if reversed then -1 else 1)%Z
           (if reversed then reverse cells.*2 else cells.*2)
           (if reversed then Z.of_nat (length cells) - 1 else 0)%Z s in
       (s', LinkedList.set_shouldNextForEachBreak flag l)).
Proof. apply forEach_listOf. Qed.

Lemma forEach_calls_fn_on_the_elements_witness :
  LinkedList.forEach (λ _ i x s, (s ++ [(i, x)], true, false)) true []
    twoList (twoNodes 10%Z 20%Z)
  = LinkedList.Done ([(1%Z, 20%Z); (0%Z, 10%Z)], twoList).
Proof.
  apply (forEach_calls_fn_on_the_elements
           (λ _ i x s, (s ++ [(i, x)], true, false)) true []
           (twoNodes 10%Z 20%Z) twoList (twoCells 10%Z 20%Z)).
  apply listOf_two.
Defined.

(** * The operations of the linked ordered map *)

Section MapTheorems.
Context {K V : Type} `{Countable K}.
Implicit Types (st : LinkedList.store (K * V))
  (m : MutableLinkedOrderedMap.t K) (cells : list (nat * (K * V))).

(** X14: [set] on a linked ordered map overwrites the value of a key the
    map has, in its place, and adds the entry of a new key at the end, or
    at the front when asked to prepend; after it [get] of the key returns
    the value, and [get] of any other key returns what it did. *)
Theorem set_then_get st m cells k (v : V) (prepend : bool) :
  mapOf st m cells →
  ∃ m' st' cells',
    MutableLinkedOrderedMap.set k v prepend m st = LinkedList.Done (m', st') ∧
    mapOf st' m' cells' ∧
    cells'.*2 = LinkedOrderedMap.set k v prepend cells.*2 ∧
    MutableLinkedOrderedMap.get k m' st' = LinkedList.Done (Some v) ∧
    ∀ k', k' ≠ k →
      MutableLinkedOrderedMap.get k' m' st'
      = MutableLinkedOrderedMap.get k' m st.
Proof.
  intros Hm.
  destruct (set_mapOf _ _ _ k v prepend Hm)
    as (m' & st' & cells' & E & Hm' & Hcells & _).
  exists m', st', cells'. split; [done |]. split; [done |]. split; [done |].
  split.
  - by rewrite (get_mapOf _ _ _ _ Hm'), Hcells, get_set_eq.
  - intros k' Hne.
    by rewrite (get_mapOf _ _ _ _ Hm'), (get_mapOf _ _ _ _ Hm), Hcells,
      get_set_ne.
Qed.

(** X15: on a linked ordered map, [get] returns the value of the key, or
    [undefined] for a key the map has not, [getLength] the number of
    entries, and [isEmpty] whether there is none. *)
Theorem get_reads_the_entries st m cells k :
  mapOf st m cells →
  MutableLinkedOrderedMap.get k m st
  = LinkedList.Done (LinkedOrderedMap.get k cells.*2) ∧
  (LinkedOrderedMap.get k cells.*2 = None ↔ k ∉ cells.*2.*1) ∧
  MutableLinkedOrderedMap.getLength m = Z.of_nat (length cells) ∧
  (MutableLinkedOrderedMap.isEmpty m = true ↔ cells = []).
Proof.
  intros Hm. split; [by apply get_mapOf |]. split; [| split].
  - split; [| apply get_absent].
    intros Hget Hin. apply list_elem_of_fmap in Hin as ([k' v] & -> & Hin).
    simpl in Hget.
    by rewrite (get_elem k' v cells.*2 (mapOf_keys _ _ _ Hm) Hin) in Hget.
  - by eapply getLength_mapOf.
  - unfold MutableLinkedOrderedMap.isEmpty.
    rewrite (getLength_mapOf _ _ _ Hm), bool_decide_eq_true.
    destruct cells; simpl; split; (done || lia).
Qed.

(** X16: [remove] of a key the map has leaves the other entries, in their
    order; [remove] of a key the map has not throws the error
    "key does not exist". *)
Theorem remove_drops_the_entry st m cells k :
  mapOf st m cells →
  if LinkedOrderedMap.has k cells.*2 then
    ∃ m' st' cells',
      MutableLinkedOrderedMap.remove (V := V) k m st
      = LinkedList.Done (m', st') ∧
      mapOf st' m' cells' ∧
      cells'.*2 = filter (λ e, e.1 ≠ k) cells.*2 ∧
      MutableLinkedOrderedMap.get k m' st' = LinkedList.Done None
  else
    MutableLinkedOrderedMap.remove (V := V) k m st
    = LinkedList.Raise (LinkedList.Error "key does not exist").
Proof.
  intros Hm. destruct (LinkedOrderedMap.has k cells.*2) eqn:E.
  - apply has_elem in E.
    destruct (remove_mapOf _ _ _ _ Hm E)
      as (m' & st' & cells' & Er & Hm' & Hcells & _).
    exists m', st', cells'. split; [done |]. split; [done |]. split; [done |].
    rewrite (get_mapOf _ _ _ _ Hm'), Hcells, get_absent; [done |].
    intros ([k' v] & -> & [Hne _]%list_elem_of_filter)%list_elem_of_fmap.
    done.
  - eapply remove_missing; [done |]. intros Hin%has_elem. congruence.
Qed.

(** X17: [forEach] of a linked ordered map calls the callback with key and
    value of the entries, in their order or reversed, until it returns
    [false]; a [break()] that the callback calls does not stop it.  The
    map holds its entries afterwards. *)
Theorem forEach_goes_on_after_break {S : Type}
    (f : K → V → S → S * bool * bool) (reversed : bool) (s : S) st m cells :
  mapOf st m cells →
  ∃ m',
    MutableLinkedOrderedMap.forEach f reversed s m st
    = LinkedList.Done
        (LinkedOrderedMap.forEach (λ k v s, (f k v s).1)
           (if reversed then reverse cells.*2 else cells.*2) s, m') ∧
    mapOf st m' cells.
Proof. apply forEach_mapOf. Qed.

(** X18: [toArray] returns the values and [keys] the keys of the entries
    of a linked ordered map, in their order. *)
Theorem toArray_and_keys_list_the_entries st m cells :
  mapOf st m cells → (Z.of_nat (length cells) < 2 ^ 32)%Z →
  (∃ m', MutableLinkedOrderedMap.toArray m st
         = LinkedList.Done (Some <$> cells.*2.*2, m')) ∧
  (∃ m', MutableLinkedOrderedMap.keys m st
         = LinkedList.Done (Some <$> cells.*2.*1, m')).
Proof.
  intros Hm Hlen. split.
  - destruct (arrayOf_mapOf (λ _ v, v) _ _ _ Hm Hlen) as (m' & E & _).
    by exists m'.
  - destruct (arrayOf_mapOf (λ k _, k) _ _ _ Hm Hlen) as (m' & E & _).
    by exists m'.
Qed.

(** X19: [LinkedOrderedMap.fromArray] returns a map that holds what the
    calls of [set] for the items, one after the other on an empty map,
    leave; [get] of a key then returns the last item of the array with
    that key, or [undefined] when there is none. *)
Theorem fromArray_sets_the_items (keyOf : V → K) (array : list V) st :
  ∃ m st' cells,
    MutableLinkedOrderedMap.fromArray keyOf array st
    = LinkedList.Done (m, st') ∧
    mapOf st' m cells ∧
    cells.*2
    = foldl (λ al item, LinkedOrderedMap.set (keyOf item) item false al)
        [] array ∧
    ∀ k, MutableLinkedOrderedMap.get k m st'
         = LinkedList.Done (last (filter (λ item, keyOf item = k) array)).
Proof.
  destruct (fromArrayLoop_mapOf keyOf array st MutableLinkedOrderedMap.new []
              (mapOf_new st))
    as (m & st' & cells & E & Hm & Hcells).
  exists m, st', cells. split; [done |]. split; [done |]. split; [done |].
  intros k. rewrite (get_mapOf _ _ _ _ Hm), Hcells. f_equal.
  etransitivity; [exact (get_foldl_set keyOf array k []) |].
  by destruct (last _).
Qed.

End MapTheorems.

Lemma set_then_get_witness :
  ∃ m' st' cells',
    MutableLinkedOrderedMap.set 3 30%Z false twoMap
      (twoNodes (1, 10%Z) (2, 20%Z))
    = LinkedList.Done (m', st') ∧
    mapOf st' m' cells' ∧
    cells'.*2 = [(1, 10%Z); (2, 20%Z); (3, 30%Z)] ∧
    MutableLinkedOrderedMap.get 3 m' st' = LinkedList.Done (Some 30%Z) ∧
    ∀ k', k' ≠ 3 →
      MutableLinkedOrderedMap.get k' m' st'
      = MutableLinkedOrderedMap.get k' twoMap (twoNodes (1, 10%Z) (2, 20%Z)).
Proof.
  exact (set_then_get (twoNodes (1, 10%Z) (2, 20%Z)) twoMap
           (twoCells (1, 10%Z) (2, 20%Z)) 3 30%Z false (mapOf_two 10 20)).
Defined.

Lemma get_reads_the_entries_witness :
  MutableLinkedOrderedMap.get 2 twoMap (twoNodes (1, 10%Z) (2, 20%Z))
  = LinkedList.Done (Some 20%Z) ∧
  (Some 20%Z = None ↔ 2 ∉ [1; 2]) ∧
  MutableLinkedOrderedMap.getLength twoMap = 2%Z ∧
  (MutableLinkedOrderedMap.isEmpty twoMap = true
   ↔ twoCells (1, 10%Z) (2, 20%Z) = []).
Proof.
  exact (get_reads_the_entries (twoNodes (1, 10%Z) (2, 20%Z)) twoMap
           (twoCells (1, 10%Z) (2, 20%Z)) 2 (mapOf_two 10 20)).
Defined.

Lemma remove_drops_the_entry_witness :
  ∃ m' st' cells',
    MutableLinkedOrderedMap.remove (V := Z) 1 twoMap
      (twoNodes (1, 10%Z) (2, 20%Z))
    = LinkedList.Done (m', st') ∧
    mapOf st' m' cells' ∧
    cells'.*2 = [(2, 20%Z)] ∧
    MutableLinkedOrderedMap.get 1 m' st' = LinkedList.Done None.
Proof.
  exact (remove_drops_the_entry (twoNodes (1, 10%Z) (2, 20%Z)) twoMap
           (twoCells (1, 10%Z) (2, 20%Z)) 1 (mapOf_two 10 20)).
Defined.

Lemma forEach_goes_on_after_break_witness :
  ∃ m',
    MutableLinkedOrderedMap.forEach (λ k (_ : Z) s, (s ++ [k], true, true))
      false [] twoMap (twoNodes (1, 10%Z) (2, 20%Z))
    = LinkedList.Done ([1; 2], m') ∧
    mapOf (twoNodes (1, 10%Z) (2, 20%Z)) m' (twoCells (1, 10%Z) (2, 20%Z)).
Proof.
  exact (forEach_goes_on_after_break
           (λ k (_ : Z) s, (s ++ [k], true, true)) false []
           (twoNodes (1, 10%Z) (2, 20%Z)) twoMap
           (twoCells (1, 10%Z) (2, 20%Z)) (mapOf_two 10 20)).
Defined.

Lemma toArray_and_keys_list_the_entries_witness :
  (∃ m', MutableLinkedOrderedMap.toArray twoMap (twoNodes (1, 10%Z) (2, 20%Z))
         = LinkedList.Done ([Some 10%Z; Some 20%Z], m')) ∧
  (∃ m', MutableLinkedOrderedMap.keys twoMap (twoNodes (1, 10%Z) (2, 20%Z))
         = LinkedList.Done ([Some 1; Some 2], m')).
Proof.
  apply (toArray_and_keys_list_the_entries (twoNodes (1, 10%Z) (2, 20%Z))
           twoMap (twoCells (1, 10%Z) (2, 20%Z)) (mapOf_two 10 20)).
  reflexivity.
Defined.

(** * The first [set] on a map fresh from the factory *)

Section Layers.
Implicit Types (w : world) (M : Map.t) (mode : Mode) (N : Node.t).

Lemma isAncestorVersion_initial version :
  isAncestorVersionOfDescendantVersion
    MULTIWAY_MODE_INITIAL_MAP_TREE_DEPTH_VERSION version = true.
Proof. by destruct version. Qed.

(** Binding a node of the root to a node made for a deeper map. *)
Lemma bind_over mode M a b w Na Nb xa xb :
  nodeAt w a = Some Na → nodeAt w b = Some Nb → a ≠ b →
  Map.depth M ≠ 0 →
  Node.next Na = flatLinks mode 0 MULTIWAY_MODE_INITIAL_MAP_TREE_DEPTH_VERSION xa →
  Node.previous Nb = flatLinks mode (Map.depth M) (Map.version M) xb →
  let w' := ModeOps.bindNodes (forMode mode) M a b w in
  nodeAt w' a
  = Some (Node.set_next
            (layeredLinks mode (Map.depth M) (Map.version M) (Some b) xa) Na) ∧
  nodeAt w' b
  = Some (Node.set_previous
            (flatLinks mode (Map.depth M) (Map.version M) (Some a)) Nb) ∧
  (∀ c, c ≠ a → c ≠ b → nodeAt w' c = nodeAt w c).
Proof.
  intros Ha Hb Hne Hdepth Hnext Hprev.
  destruct mode; cbn [ModeOps.bindNodes ImmutableLinkedOrderedMapForMode forMode];
    unfold bindSingleModeNodes, bindMultiwayModeNodes, bindLightweightModeNodes;
    cbn zeta; (split; [| split]);
    try (by intros c Hca Hcb; rewrite !nodeAt_updNode_ne by done);
    rewrite ?(nodeAt_updNode_ne b a) by done;
    rewrite ?nodeAt_updNode_eq; rewrite ?(nodeAt_updNode_ne a b) by done;
    rewrite ?Ha, ?Hb; simpl; rewrite ?Hnext, ?Hprev; simpl;
    unfold setVersionAtDepth, LinkedOrderedMap.set; simpl;
    rewrite ?decide_True by done; rewrite ?decide_False by done; simpl;
    rewrite ?decide_True by done; simpl;
    rewrite ?decide_True by done; done.
Qed.

(** Binding a node made for a deeper map to a node of the root. *)
Lemma bind_under mode M a b w Na Nb xa xb :
  nodeAt w a = Some Na → nodeAt w b = Some Nb → a ≠ b →
  Map.depth M ≠ 0 →
  Node.next Na = flatLinks mode (Map.depth M) (Map.version M) xa →
  Node.previous Nb
  = flatLinks mode 0 MULTIWAY_MODE_INITIAL_MAP_TREE_DEPTH_VERSION xb →
  let w' := ModeOps.bindNodes (forMode mode) M a b w in
  nodeAt w' a
  = Some (Node.set_next
            (flatLinks mode (Map.depth M) (Map.version M) (Some b)) Na) ∧
  nodeAt w' b
  = Some (Node.set_previous
            (layeredLinks mode (Map.depth M) (Map.version M) (Some a) xb) Nb) ∧
  (∀ c, c ≠ a → c ≠ b → nodeAt w' c = nodeAt w c).
Proof.
  intros Ha Hb Hne Hdepth Hnext Hprev.
  destruct mode; cbn [ModeOps.bindNodes ImmutableLinkedOrderedMapForMode forMode];
    unfold bindSingleModeNodes, bindMultiwayModeNodes, bindLightweightModeNodes;
    cbn zeta; (split; [| split]);
    try (by intros c Hca Hcb; rewrite !nodeAt_updNode_ne by done);
    rewrite ?(nodeAt_updNode_ne b a) by done;
    rewrite ?nodeAt_updNode_eq; rewrite ?(nodeAt_updNode_ne a b) by done;
    rewrite ?Ha, ?Hb; simpl; rewrite ?Hnext, ?Hprev; simpl;
    unfold setVersionAtDepth, LinkedOrderedMap.set; simpl;
    rewrite ?decide_True by done; rewrite ?decide_False by done; simpl;
    rewrite ?decide_True by done; simpl;
    rewrite ?decide_True by done; done.
Qed.

(** What [find] reads, for any map, in a field that holds the entry of the
    root only. *)
Lemma find_below mode w M n N d t :
  nodeAt w n = Some N →
  directionField d N
  = flatLinks mode 0 MULTIWAY_MODE_INITIAL_MAP_TREE_DEPTH_VERSION t →
  (isBoundary M n d = true → t = None) →
  ModeOps.findMapNodeByDirection (forMode mode) w M n d = t.
Proof.
  intros Hn Hlinks Hboundary.
  destruct mode; simpl;
    unfold findSingleModeMapNodeByDirection, findMultiwayModeMapNodeByDirection,
      findLightweightModeMapNodeByDirection;
    rewrite Hn, Hlinks; simpl; try done;
    (destruct (isBoundary M n d); [by rewrite Hboundary |]);
    rewrite ?isAncestorVersion_initial; by destruct t.
Qed.

(** What [find] reads in a layered field: the deeper map finds its own
    entry, the root finds the one beneath. *)
Lemma find_over mode w M n N d over under :
  nodeAt w n = Some N →
  directionField d N
  = layeredLinks mode (Map.depth M) (Map.version M) (Some over) under →
  isBoundary M n d = false →
  ModeOps.findMapNodeByDirection (forMode mode) w M n d = Some over.
Proof.
  intros Hn Hlinks Hboundary.
  destruct mode; simpl;
    unfold findSingleModeMapNodeByDirection, findMultiwayModeMapNodeByDirection,
      findLightweightModeMapNodeByDirection;
    rewrite Hn, Hlinks, ?Hboundary; simpl; try done;
    by rewrite Nat.leb_refl, ?isAncestorVersion_refl.
Qed.

Lemma find_under mode w M n N d depth version over under :
  mode ≠ LIGHTWEIGHT →
  nodeAt w n = Some N →
  directionField d N = layeredLinks mode depth version over under →
  Map.depth M = 0 → depth ≠ 0 →
  (isBoundary M n d = true → under = None) →
  ModeOps.findMapNodeByDirection (forMode mode) w M n d = under.
Proof.
  intros Hmode Hn Hlinks Hdepth Hne Hboundary.
  destruct mode; [| | done]; simpl;
    unfold findSingleModeMapNodeByDirection, findMultiwayModeMapNodeByDirection;
    rewrite Hn, Hlinks, Hdepth; simpl;
    (destruct (isBoundary M n d); [by rewrite Hboundary |]);
    (destruct depth as [| depth']; [done |]); simpl;
    rewrite ?isAncestorVersion_initial; by destruct under.
Qed.

End Layers.

Section RootHeap.
Implicit Types (w : world) (M : Map.t) (mode : Mode).

Lemma rootHeap_frame mode w w' h :
  heapStore w' = heapStore w → rootHeap mode w h → rootHeap mode w' h.
Proof. unfold rootHeap, heapAt. by intros ->. Qed.

(** Every map on a heap map of a root resolves the keys as the root. *)
Lemma rootHeap_lookup mode w M M' k :
  rootHeap mode w (Map.heapMap M) → Map.heapMap M' = Map.heapMap M →
  ModeOps.lookup (forMode mode) w M' k = ModeOps.lookup (forMode mode) w M k.
Proof.
  unfold rootHeap. intros Hroot Eheap.
  destruct mode; simpl;
    unfold lookupSingleMode, lookupMultiwayMode, lookupLightweightMode;
    rewrite Eheap; destruct (heapAt w (Map.heapMap M)) as [[h | h | h] |];
    try done;
    destruct (h !! k) as [e |] eqn:E; try done;
    destruct (Hroot _ _ E) as [n ->]; simpl;
    by rewrite ?isAncestorVersion_initial.
Qed.

Lemma rootHeap_updateHeapMap mode w M a k :
  rootHeap mode w (Map.heapMap M) → unknown w M k → Map.mode M = mode →
  keyAt w a = k → a < length (nodeStore w) →
  Map.depth M = 0 →
  Map.version M = MULTIWAY_MODE_INITIAL_MAP_TREE_DEPTH_VERSION →
  rootHeap mode (ModeOps.updateHeapMap (forMode mode) M a w) (Map.heapMap M).
Proof.
  unfold rootHeap, unknown, keyAt, elementAt.
  intros Hroot Hunknown Hmode Hk Ha Hdepth Hversion. rewrite Hmode in Hunknown.
  destruct (lookup_lt_is_Some_2 _ _ Ha) as [N HN]. fold (nodeAt w a) in HN.
  rewrite HN in Hk. simpl in Hk.
  destruct mode; simpl;
    unfold updateSingleModeHeapMap, updateMultiWayModeHeapMap,
      updateLightweightModeHeapMap;
    rewrite HN, heapAt_updHeap_eq, Hk;
    destruct (heapAt w (Map.heapMap M)) as [[h | h | h] |]; try done; simpl.
  - intros k' e. rewrite Hunknown, Hdepth. simpl.
    destruct (decide (k' = k)) as [-> | Hne].
    + rewrite lookup_insert_eq. intros [= <-]. by eexists.
    + rewrite lookup_insert_ne by done. apply Hroot.
  - intros k' e. rewrite Hunknown, Hdepth, Hversion. simpl.
    destruct (decide (k' = k)) as [-> | Hne].
    + rewrite lookup_insert_eq. intros [= <-]. by eexists.
    + rewrite lookup_insert_ne by done. apply Hroot.
Qed.

End RootHeap.

Section RootFactory.
Context (m : mref) (mode : Mode) (n0 : nref) (h0 : href).
Implicit Types (w : world) (made : list (key * value)).

(** The heap map stays that of a root when the loop of the factory enters
    a node of a new key. *)
Lemma rootHeap_step w made k v w4 :
  built w m mode n0 h0 made → k ∉ made.*1 → rootHeap mode w h0 →
  let M := mapAt w m in
  let n := n0 + length made in
  let w1 :=
    snd (ModeOps.makeImmutableLinkedOrderedMapNode (forMode mode) M
           None None k v w) in
  let w2 := ModeOps.updateHeapMap (forMode mode) (mapAt w1 m) n w1 in
  heapStore w4 = heapStore w2 →
  rootHeap mode w4 h0.
Proof.
  intros Hbuilt Hk Hroot. cbn zeta. intros Eheap.
  apply (rootHeap_frame _ _ _ _ Eheap).
  pose proof Hbuilt as
    (Hm & Hmode & Hdepth & Hheap & Hversion & Hflag & Hlen & Htail & Hnodes
     & Hmade & Hunknown).
  cbn zeta in *.
  set (w1 := snd _).
  assert (mapAt w1 m = mapAt w m) as EM
    by (apply mapAt_mapStore, mapStore_made).
  rewrite EM. rewrite <- Hheap.
  apply (rootHeap_updateHeapMap _ _ _ _ k); try done.
  - rewrite Hheap. apply (rootHeap_frame _ w); [apply heapStore_made | done].
  - apply (unknown_frame w _ (mapAt w m)); [apply heapStore_made | done..|].
    by apply Hunknown.
  - unfold keyAt, w1. rewrite <- Hnodes. by rewrite elementAt_made_new.
  - unfold w1. rewrite length_nodeStore_made. lia.
Qed.

Lemma appendInitialItemsLoop_rootHeap itemsBelow :
  ∀ made keysMap w,
    built w m mode n0 h0 made → made ≠ [] →
    NoDup (keyOf <$> itemsBelow) →
    (∀ it, it ∈ itemsBelow → keyOf it ∉ made.*1) →
    (∀ k, k ∈ keysMap → k ∈ made.*1) →
    rootHeap mode w h0 →
    rootHeap mode
      (snd (appendInitialItemsLoop m itemsBelow keysMap (n0 + length made - 1) w))
      h0.
Proof.
  induction itemsBelow as [| it itemsBelow IH];
    intros made keysMap w Hbuilt Hne Hdup Hnew Hkeys Hroot; [done |].
  cbn [appendInitialItemsLoop]. rewrite keyValueForItem_keyOf.
  assert (keyOf it ∉ made.*1) as Hk by (apply Hnew; left).
  rewrite bool_decide_eq_false_2 by (intros Hin; by apply Hk, Hkeys).
  destruct (built_node m mode n0 h0 w made _ (valueOf it) Hbuilt Hk)
    as (Emake & E1 & E2 & _).
  destruct (built_append m mode n0 h0 w made _ (valueOf it) Hbuilt Hne Hk)
    as [Hbuilt' Hhead].
  pose proof (rootHeap_step w made (keyOf it) (valueOf it)) as Hstep.
  pose proof Hbuilt as (_ & Hmode & _). cbn zeta in *.
  rewrite Hmode, Emake.
  unfold incrementLengthAndRecord.
  set (w4 := updMap m _ _) in *.
  specialize (Hstep w4 Hbuilt Hk Hroot).
  rewrite fmap_cons in Hdup. apply NoDup_cons in Hdup as [Hit Hdup].
  assert (n0 + length (made ++ [entryOf it]) - 1 = n0 + length made) as Elen
    by (rewrite length_app; simpl; lia).
  match goal with
  | |- context [appendInitialItemsLoop m itemsBelow ?ks _ w4] =>
      pose proof (IH (made ++ [entryOf it]) ks w4) as Hfinal
  end.
  rewrite Elen in Hfinal. apply Hfinal; try done.
  - by destruct made.
  - intros it' Hit'. rewrite fmap_app, not_elem_of_app. split.
    + apply Hnew. by right.
    + intros Heq%list_elem_of_singleton.
      change ((entryOf it).1) with (keyOf it) in Heq.
      apply Hit. rewrite <- Heq. apply list_elem_of_fmap. eauto.
  - intros k' Hk'. rewrite fmap_app, elem_of_app.
    change ([entryOf it].*1) with [keyOf it].
    destruct (bool_decide _); [left; by apply Hkeys |].
    apply elem_of_union in Hk' as [->%elem_of_singleton | Hk'];
      [right; left | left; by apply Hkeys].
  - apply Hstep. unfold w4.
    by rewrite heapStore_updMap, heapStore_bindNodes.
Qed.

Lemma appendInitialItemsToMap_rootHeap w items :
  built w m mode n0 h0 [] → Map.head (mapAt w m) = None →
  NoDup (keyOf <$> items) →
  rootHeap mode w h0 →
  rootHeap mode (appendInitialItemsToMap m items w) h0.
Proof.
  intros Hbuilt Hhead Hdup Hroot. unfold appendInitialItemsToMap.
  apply NoDup_reverse in Hdup. rewrite <- fmap_reverse in Hdup.
  destruct (reverse items) as [| lastItem itemsBelow] eqn:Erev; [done |].
  rewrite keyValueForItem_keyOf.
  destruct (built_tail m mode n0 h0 w (keyOf lastItem) (valueOf lastItem) Hbuilt)
    as (Hbuilt1 & Hhead1 & Htail2 & Hlen3).
  assert (keyOf lastItem ∉ ([] : list (key * value)).*1) as Hk
    by apply not_elem_of_nil.
  pose proof (rootHeap_step w [] (keyOf lastItem) (valueOf lastItem)) as Hstep.
  pose proof Hbuilt as (_ & Hmode & _ & _ & _ & _ & _ & _ & Hnodes & _).
  cbn zeta in *. cbn [length] in Hnodes, Hstep. rewrite Nat.add_0_r in Hnodes, Hstep.
  rewrite Hmode, makeNode_fst, Hnodes.
  set (w1 := snd _) in *.
  set (w2 := ModeOps.updateHeapMap _ _ _ _) in *.
  rewrite Htail2. unfold incrementLengthAndRecord.
  set (w3 := updMap m (Map.set_tail _) w2) in *.
  rewrite Hlen3, bool_decide_eq_true_2 by done.
  rewrite Hlen3 in Hbuilt1, Hhead1.
  set (w4 := updMap m (Map.set_length _) w3) in *.
  assert (rootHeap mode w4 h0) as Hroot4.
  { apply Hstep; try done. }
  rewrite fmap_cons in Hdup. apply NoDup_cons in Hdup as [Hlast Hdup].
  destruct itemsBelow as [| it itemsBelow].
  - by apply (rootHeap_frame _ w4); [apply heapStore_updMap |].
  - pose proof (appendInitialItemsLoop_rootHeap (it :: itemsBelow)
                  [entryOf lastItem] ∅ w4 Hbuilt1 ltac:(done) Hdup) as Hfinal.
    cbn [length] in Hfinal. replace (n0 + 1 - 1) with n0 in Hfinal by lia.
    destruct (appendInitialItemsLoop _ _ _ _ _) as [lastNode w5].
    simpl in Hfinal.
    assert (rootHeap mode w5 h0) as Hroot5.
    { apply Hfinal; [| | done].
      - intros it' Hit' Heq%list_elem_of_singleton.
        change ((entryOf lastItem).1) with (keyOf lastItem) in Heq.
        apply Hlast. rewrite <- Heq. apply list_elem_of_fmap. eauto.
      - intros k' Hk'. by apply not_elem_of_empty in Hk'. }
    destruct (Map.head (mapAt w5 m)); [done |].
    by apply (rootHeap_frame _ w5); [apply heapStore_updMap |].
Qed.

End RootFactory.

Lemma newImmutableLinkedOrderedMap_rootHeap o w :
  let items := default [] (initialItems o) in
  let mode :=
    default DEFAULT_MAP_MODE
      (modeOfCode
         (default (ImmutableLinkedOrderedMapMode DEFAULT_MAP_MODE) (modeOption o))) in
  NoDup (keyOf <$> items) →
  rootHeap mode (snd (newImmutableLinkedOrderedMap o w)) (length (heapStore w)).
Proof.
  cbn zeta. intros Hdup. unfold newImmutableLinkedOrderedMap.
  set (mode := default DEFAULT_MAP_MODE _).
  set (keyPropName := default DEFAULT_KEY_PROP_NAME _).
  set (items := default [] _) in *.
  destruct (hydrateNew_built keyPropName mode w) as (Hbuilt & Hhead).
  assert (rootHeap mode (snd (hydrateNew keyPropName mode w))
            (length (heapStore w))) as Hroot.
  { unfold rootHeap, heapAt, hydrateNew, allocHeap, allocMap. simpl.
    rewrite lookup_app_r by lia. replace (_ - _) with 0 by lia. simpl.
    by destruct mode. }
  destruct (hydrateNew keyPropName mode w) as [m w1]. cbn [fst snd] in *.
  unfold addInitialItemsToMap.
  by eapply appendInitialItemsToMap_rootHeap.
Qed.

(** A map whose nodes are found one from the other along a list of nodes
    of pairwise different keys, each resolved by the heap map, is well
    formed. *)
Lemma wellFormed_intro w m chain :
  let M := mapAt w m in
  let ops := forMode (Map.mode M) in
  m < length (mapStore w) →
  Map.head M = head chain → Map.tail M = last chain →
  (∀ i n, chain !! i = Some n →
     ModeOps.findMapNodeByDirection ops w M n Next = chain !! S i) →
  (∀ i n, chain !! i = Some n →
     ModeOps.findMapNodeByDirection ops w M n Previous
     = match i with 0 => None | S j => chain !! j end) →
  Z.of_nat (length chain) = Map.length M →
  NoDup (keyAt w <$> chain) →
  (∀ n, n ∈ chain →
     n < length (nodeStore w) ∧ ModeOps.lookup ops w M (keyAt w n) = Some n) →
  wellFormed w m ∧ chainOf w m = chain.
Proof.
  cbn zeta. intros Hm Hhead Htail Hnext Hprev Hlen Hdup Hnodes.
  assert (length chain ≤ length (nodeStore w)) as Hfuel.
  { assert (chain ⊆+ seq 0 (length (nodeStore w))) as Hsub.
    { apply NoDup_submseteq; [by eapply NoDup_fmap_1 |].
      intros n Hn. apply elem_of_seq. destruct (Hnodes n Hn). lia. }
    apply submseteq_length in Hsub. by rewrite length_seq in Hsub. }
  assert (nodesOf w m Next = Some chain) as Enext.
  { unfold nodesOf. rewrite Hhead. apply walk_chain; [done | lia]. }
  assert (nodesOf w m Previous = Some (reverse chain)) as Eprev.
  { unfold nodesOf. rewrite Htail, <- head_reverse.
    apply walk_chain; [| rewrite length_reverse; lia].
    intros i n Hi. pose proof (lookup_lt_Some _ _ _ Hi) as Hlt.
    rewrite length_reverse in Hlt.
    rewrite reverse_lookup in Hi by done.
    rewrite (Hprev _ _ Hi).
    destruct (decide (S i < length chain)) as [Hlt' | Hge].
    - rewrite reverse_lookup by done.
      replace (length chain - S i) with (S (length chain - S (S i))) by lia.
      done.
    - rewrite (lookup_ge_None_2 (reverse chain)) by (rewrite length_reverse; lia).
      by replace (length chain - S i) with 0 by lia. }
  split; [| unfold chainOf; by rewrite Enext].
  split; [done |]. exists chain. repeat split; try done.
  apply Forall_forall. intros n Hn. by apply Hnodes.
Qed.

Lemma forkMap_fields this w :
  this < length (mapStore w) →
  let map := length (mapStore w) in
  let w' := snd (forkMap this w) in
  Map.head (mapAt w' map) = Map.head (mapAt w this) ∧
  Map.tail (mapAt w' map) = Map.tail (mapAt w this) ∧
  Map.ancestorMap (mapAt w' map) = Some this ∧
  Map.length (mapAt w' this) = Map.length (mapAt w this).
Proof.
  intros Hthis. cbn zeta.
  assert (this ≠ length (mapStore w)) as Hne by lia.
  assert (length (mapStore w) ≠ this) as Hne' by lia.
  pose proof (mapAt_allocMap_new w) as Hnew.
  pose proof (λ M, mapAt_allocMap_old w M this Hthis) as Hold.
  pose proof (length_allocMap w) as Hlen.
  unfold forkMap.
  destruct (Map.mode (mapAt w this)) eqn:Hmode;
    cbn [ModeOps.fork ImmutableLinkedOrderedMapForMode forMode];
    unfold forkMultiwayModeMap;
    cbn [fst snd allocMap] in *;
    rewrite ?length_updMap, ?Hlen;
    rewrite ?mapAt_updMap_eq, ?(mapAt_updMap_ne _ _ _ _ Hne),
      ?(mapAt_updMap_ne _ _ _ _ Hne'), ?mapAt_updMap_eq,
      ?(mapAt_updMap_ne _ _ _ _ Hne), ?(mapAt_updMap_ne _ _ _ _ Hne'),
      ?mapAt_updMap_eq, ?Hnew, ?Hold
      by (rewrite ?length_updMap, ?Hlen; lia);
    repeat split; try done.
Qed.

Ltac loop_variables :=
  cbn [SetLoop.map SetLoop.justForked SetLoop.inserted SetLoop.updated
       SetLoop.keysMap SetLoop.firstPrepend SetLoop.appendOperationOldTail
       SetLoop.lastPrepend SetLoop.init SetLoop.set_keysMap
       SetLoop.set_inserted SetLoop.set_updated SetLoop.set_fork
       SetLoop.set_firstPrepend SetLoop.set_appendOperationOldTail
       SetLoop.set_lastPrepend].

Section FirstSet.
Context (m : mref) (mode : Mode) (n0 : nref) (h0 : href) (w : world)
  (made : list (key * value)) (it : item).
Local Abbreviation k := (keyOf it).
Local Abbreviation v := (valueOf it).
Hypotheses (Hbuilt : built w m mode n0 h0 made)
  (Hroot : rootHeap mode w h0) (Hk : k ∉ made.*1)
  (Hhead : Map.head (mapAt w m)
           = (if made is [] then None else Some (n0 + length made - 1))).

Local Abbreviation m' := (length (mapStore w)).
Local Abbreviation wf := (snd (forkMap m w)).
Local Abbreviation nn := (n0 + length made).
Local Abbreviation w1 :=
  (snd (ModeOps.makeImmutableLinkedOrderedMapNode (forMode mode) (mapAt wf m')
          None None k v wf)).
Local Abbreviation w2 :=
  (ModeOps.updateHeapMap (forMode mode) (mapAt w1 m') nn w1).

(** The store once [set] has forked the map, created the node of the new
    key and written it to the heap map. *)
Lemma forked_node :
  let M' := mapAt w2 m' in
  forkMap m w = (m', wf) ∧
  ModeOps.makeImmutableLinkedOrderedMapNode (forMode mode) (mapAt wf m')
    None None k v wf = (nn, w1) ∧
  mapAt w1 m' = M' ∧ mapAt wf m' = M' ∧
  length (mapStore w2) = S m' ∧
  (Map.mode M' = mode ∧ Map.depth M' = 1 ∧ Map.heapMap M' = h0 ∧
   Map.length M' = Z.of_nat (length made) ∧
   Map.head M' = Map.head (mapAt w m) ∧ Map.tail M' = Map.tail (mapAt w m) ∧
   Map.mutationOperationOccurred M' = false ∧
   Map.ancestorMap M' = Some m) ∧
  (sameView (mapAt w m) (mapAt w2 m) ∧
   Map.mode (mapAt w2 m) = mode ∧
   Map.length (mapAt w2 m) = Map.length (mapAt w m) ∧
   Map.mutationOperationOccurred (mapAt w2 m) = false) ∧
  (length (nodeStore w2) = S nn ∧
   nodeAt w2 nn
   = Some (Node.make (flatLinks mode 1 (Map.version M') None)
             (flatLinks mode 1 (Map.version M') None) (k, v)) ∧
   ∀ c, c < nn → nodeAt w2 c = nodeAt w c) ∧
  (ModeOps.lookup (forMode mode) w2 M' k = Some nn ∧
   (∀ X k', k' ≠ k →
      ModeOps.lookup (forMode mode) w2 X k' = ModeOps.lookup (forMode mode) w X k') ∧
   (mode ≠ LIGHTWEIGHT →
    ∀ k', ModeOps.lookup (forMode mode) w2 (mapAt w m) k'
          = ModeOps.lookup (forMode mode) w (mapAt w m) k')).
Proof.
  pose proof Hbuilt as
    (Hm & Hmode & Hdepth & Hheap & Hversion & Hflag & Hlen & Htail & Hnodes
     & Hmade & Hunknown).
  cbn zeta in *.
  destruct (forkMap_spec m w Hm)
    as (Efork & Enodes & Eheaps & Elen & EheapMap & Edepth & Elength & Emode
        & Eflag & Emode0 & Eflag0 & Hview).
  destruct (forkMap_fields m w Hm) as (Ehead & Etail & Eanc & Elength0).
  cbn zeta in *.
  rewrite make_flat. cbn [snd].
  set (N := Node.make _ _ _).
  set (u1 := World (nodeStore wf ++ [N]) (heapStore wf) (mapStore wf)).
  assert (∀ x, mapAt u1 x = mapAt wf x) as EM1 by done.
  set (u2 := ModeOps.updateHeapMap _ _ _ u1).
  assert (mapStore u2 = mapStore wf) as Emaps2
    by (unfold u2; by rewrite mapStore_updateHeapMap).
  assert (∀ x, mapAt u2 x = mapAt wf x) as EM2
    by (intros x; by apply mapAt_mapStore).
  assert (nodeAt u1 nn = Some N) as HN.
  { unfold nodeAt, u1; cbn [nodeStore]. rewrite Enodes, lookup_app_r by lia.
    by replace (_ - _) with 0 by lia. }
  assert (keyAt u1 nn = k) as Hkey by (by rewrite (keyAt_nodeAt _ _ _ HN)).
  pose proof (Hunknown k Hk) as Hu.
  rewrite !EM2, !EM1.
  split; [done |]. split; [by rewrite Enodes, Hnodes |].
  split; [done |]. split; [done |].
  split; [by rewrite Emaps2 |].
  split; [by rewrite Emode, Edepth, EheapMap, Elength, Ehead, Etail, Eflag, Eanc,
            Hmode, Hdepth, Hheap, Hlen |].
  split; [by rewrite Emode0, Elength0, Eflag0, Hmode, Hflag |].
  split; [| split; [| split]].
  - split; [| split].
    + unfold u2. rewrite nodeStore_updateHeapMap. unfold u1. cbn [nodeStore].
      rewrite length_app, Enodes. simpl. lia.
    + unfold nodeAt, u2. rewrite nodeStore_updateHeapMap. fold (nodeAt u1 nn).
      rewrite HN. unfold N. by rewrite Edepth, Hdepth.
    + intros c Hc. unfold nodeAt, u2. rewrite nodeStore_updateHeapMap.
      unfold u1. cbn [nodeStore]. rewrite Enodes. by rewrite lookup_app_l by lia.
  - apply (lookup_updateHeapMap_own _ _ _ _ _ _ N); rewrite ?EM1; try done.
    + rewrite EheapMap. pose proof (unknown_heapOf _ _ _ Hu) as Hh.
      rewrite Hmode in Hh. by apply (heapOf_heapStore _ w).
    + apply (unknown_layerAt u1).
      apply (unknown_frame w _ (mapAt w m)); try done.
  - intros X k' Hk'. unfold u2. rewrite lookup_updateHeapMap_other by congruence.
    by apply lookup_heapStore.
  - intros Hlight k'. unfold u2. rewrite lookup_updateHeapMap_deeper.
    + by apply lookup_heapStore.
    + done.
    + rewrite EM1, Edepth. lia.
Qed.

Local Abbreviation chainAfter prepend :=
  (if prepend then nn :: reverse (seq n0 (length made))
   else reverse (seq n0 (length made)) ++ [nn]).

(** What [set] leaves in the store: the fork with the new node at one end
    of its nodes, which it finds one from the other; the receiver finds its
    nodes as before where the mode keeps depths. *)
Local Abbreviation setFacts W prepend :=
  (heapStore W = heapStore w2 ∧
   length (nodeStore W) = S nn ∧
   (∀ c, elementAt W c = elementAt w2 c) ∧
   length (mapStore W) = S m' ∧
   mapAt W m = mapAt w2 m ∧
   (Map.mode (mapAt W m') = mode ∧ Map.depth (mapAt W m') = 1 ∧
    Map.heapMap (mapAt W m') = h0 ∧
    Map.version (mapAt W m') = Map.version (mapAt w2 m') ∧
    Map.mutationOperationOccurred (mapAt W m') = false ∧
    Map.ancestorMap (mapAt W m') = Some m ∧
    Map.length (mapAt W m') = Z.of_nat (S (length made)) ∧
    Map.head (mapAt W m') = head (chainAfter prepend) ∧
    Map.tail (mapAt W m') = last (chainAfter prepend)) ∧
   (∀ i n, chainAfter prepend !! i = Some n →
      ModeOps.findMapNodeByDirection (forMode mode) W (mapAt W m') n Next
      = chainAfter prepend !! S i) ∧
   (∀ i n, chainAfter prepend !! i = Some n →
      ModeOps.findMapNodeByDirection (forMode mode) W (mapAt W m') n Previous
      = match i with 0 => None | S j => chainAfter prepend !! j end) ∧
   (mode ≠ LIGHTWEIGHT →
    ∀ n d, n0 ≤ n < nn →
      ModeOps.findMapNodeByDirection (forMode mode) W (mapAt w m) n d
      = ModeOps.findMapNodeByDirection (forMode mode) w (mapAt w m) n d)).

Lemma down_lookup a len i :
  reverse (seq a len) !! i
  = (if decide (i < len) then Some (a + (len - 1 - i)) else None).
Proof.
  destruct (decide (i < len)) as [Hlt | Hge].
  - rewrite reverse_lookup by (by rewrite length_seq).
    rewrite length_seq, lookup_seq_lt by lia. f_equal. lia.
  - apply lookup_ge_None_2. rewrite length_reverse, length_seq. lia.
Qed.

(** The nodes of the receiver, as the factory left them. *)
Lemma built_links j :
  j < length made →
  ∃ N,
    nodeAt w (n0 + j) = Some N ∧
    Node.previous N
    = flatLinks mode 0 MULTIWAY_MODE_INITIAL_MAP_TREE_DEPTH_VERSION
        (if bool_decide (S j = length made) then None else Some (n0 + S j)) ∧
    Node.next N
    = flatLinks mode 0 MULTIWAY_MODE_INITIAL_MAP_TREE_DEPTH_VERSION
        (match j with 0 => None | S j' => Some (n0 + j') end).
Proof.
  intros Hj. destruct (lookup_lt_is_Some_2 made j Hj) as [kv Hkv].
  destruct Hbuilt as (_ & _ & _ & _ & _ & _ & _ & _ & _ & Hmade & _).
  destruct (Hmade j kv Hkv) as [HN _]. by eexists.
Qed.

Lemma set_append_nonempty :
  made ≠ [] →
  ∃ W, Base.set m [it] false w = Return m' W ∧ setFacts W false.
Proof.
  intros Hne.
  destruct forked_node
    as (Efork & Emake & EM1 & EMf & Hmaps & HM' & HM & Hnodes & Hlookups).
  pose proof Hbuilt as
    (Hm & Hmode & Hdepth & Hheap & Hversion & Hflag & Hlen & Htail & Hnodes0
     & Hmade & Hunknown).
  cbn zeta in *.
  assert (0 < length made) as Hpos by (destruct made; [done | simpl; lia]).
  destruct HM' as (EmodeM' & EdepthM' & EheapM' & ElenM' & EheadM' & EtailM'
                   & EflagM' & EancM').
  assert (Map.tail (mapAt w m) = Some n0) as Htail'
    by (rewrite Htail; by destruct made).
  assert (Map.head (mapAt w m) = Some (n0 + length made - 1)) as Hhead'
    by (rewrite Hhead; by destruct made).
  set (w5 := updMap m' (λ M, Map.set_length (Map.length M + 1) M)
               (updMap m' (Map.set_tail (Some nn)) w2)).
  assert (m' < length (mapStore w2)) as Hm2 by lia.
  assert (mapAt w5 m'
          = Map.set_length (Map.length (mapAt w2 m') + 1)
              (Map.set_tail (Some nn) (mapAt w2 m'))) as EM5.
  { unfold w5. by rewrite !mapAt_updMap_eq by (by rewrite ?length_updMap). }
  assert (Map.head (mapAt w5 m') = Some (n0 + length made - 1)) as Ehead5'
    by (rewrite EM5; cbn; by rewrite EheadM').
  set (wB := ModeOps.bindNodes (forMode (Map.mode (mapAt w5 m'))) (mapAt w5 m')
               n0 nn w5).
  exists (mapChange m' (ChangeSet [(k, v)] [] false) wB). split.
  { unfold Base.set, Base.setLoop, Base.setItem. cbn [reverse rev_append app].
    rewrite keyValueForItem_keyOf.
    rewrite bool_decide_eq_false_2 by set_solver.
    rewrite (unknown_lookup _ _ _ (Hunknown _ Hk)).
    unfold Base.forkOnce. cbn [SetLoop.map SetLoop.init SetLoop.set_keysMap].
    rewrite Efork.
    assert (Map.mode (mapAt wf m') = mode) as Emodef by (by rewrite EMf).
    rewrite Emodef, Emake.
    rewrite EtailM', Htail'.
    rewrite bool_decide_eq_false_2 by done. cbn [andb].
    unfold Base.nodes. loop_variables. rewrite EtailM', Htail'.
    unfold Base.loopEnd. loop_variables. fold w5.
    by rewrite Ehead5'. }
  unfold mapChange.
  assert (Map.mode (mapAt w5 m') = mode) as Emode5 by (by rewrite EM5).
  subst wB. rewrite Emode5.
  set (M5 := mapAt w5 m') in *.
  set (wB := ModeOps.bindNodes (forMode mode) M5 n0 nn w5).
  set (W := updMap m' _ wB).
  (* the nodes *)
  destruct Hnodes as (Hlen2 & Hnew & Hold).
  destruct (built_links 0 Hpos) as (N0 & HN0 & Hprev0 & Hnext0).
  rewrite Nat.add_0_r in HN0.
  assert (∀ c, nodeAt w5 c = nodeAt w2 c) as Hnodes5 by done.
  assert (Map.depth M5 = 1 ∧ Map.version M5 = Map.version (mapAt w2 m')
          ∧ Map.tail M5 = Some nn ∧ Map.head M5 = Some (n0 + length made - 1))
    as (Edepth5 & Eversion5 & Etail5 & Ehead5).
  { rewrite EM5. cbn. by rewrite EdepthM', EheadM', Hhead'. }
  set (Nnew := Node.make _ _ _) in Hnew.
  destruct (bind_over mode M5 n0 nn w5 N0 Nnew None None) as (Ha & Hb & Hc);
    [by rewrite Hnodes5, Hold by lia | by rewrite Hnodes5 | lia | lia | done
    | by rewrite Edepth5, Eversion5 |].
  fold wB in Ha, Hb, Hc.
  assert (∀ c, nodeAt W c = nodeAt wB c) as HnodesW by done.
  assert (mapStore wB = mapStore w5) as EmapsB
    by (unfold wB; by rewrite mapStore_bindNodes).
  assert (mapAt W m' = Map.set_change
            (Some (ChangeSet [(k, v)] [] false)) M5) as EMW.
  { unfold W. rewrite mapAt_updMap_eq by (rewrite EmapsB; unfold w5;
      by rewrite !length_updMap).
    by rewrite (mapAt_mapStore _ _ _ EmapsB). }
  split; [| split; [| split; [| split; [| split; [| split; [| split; [| split]]]]]]].
  - unfold W. rewrite heapStore_updMap. unfold wB.
    rewrite heapStore_bindNodes. unfold w5. by rewrite !heapStore_updMap.
  - unfold W. rewrite nodeStore_updMap. unfold wB.
    rewrite length_nodeStore_bindNodes. unfold w5.
    by rewrite !nodeStore_updMap.
  - intros c. unfold elementAt at 1. rewrite HnodesW. fold (elementAt wB c).
    unfold wB. rewrite elementAt_bindNodes. done.
  - unfold W. rewrite length_updMap, EmapsB. unfold w5.
    by rewrite !length_updMap.
  - unfold W. rewrite mapAt_updMap_ne by lia.
    rewrite (mapAt_mapStore _ _ _ EmapsB). unfold w5.
    by rewrite !mapAt_updMap_ne by lia.
  - rewrite EMW, EM5. cbn.
    rewrite EmodeM', EdepthM', EheapM', EflagM', EancM', ElenM', EheadM', Hhead'.
    rewrite last_snoc. repeat split; try done; try lia.
    rewrite head_lookup, lookup_app_l, down_lookup, decide_True
      by (rewrite ?length_reverse, ?length_seq; lia).
    f_equal. lia.
  - intros i n Hi. rewrite (find_sameView _ _ M5) by (by rewrite EMW).
    destruct (decide (i < length made)) as [Hlt | Hge].
    + rewrite lookup_app_l in Hi by (by rewrite length_reverse, length_seq).
      rewrite down_lookup, decide_True in Hi by done. injection Hi as <-.
      destruct (decide (S i < length made)) as [Hlt' | Hge'].
      * rewrite lookup_app_l by (by rewrite length_reverse, length_seq).
        rewrite down_lookup, decide_True by done.
        destruct (built_links (length made - 1 - i) ltac:(lia))
          as (N & HN & _ & Hnext).
        erewrite find_below; [| rewrite HnodesW, Hc, Hnodes5, Hold by lia;
                                exact HN | exact Hnext |].
        -- destruct (length made - 1 - i) as [| j'] eqn:Ej; [lia |].
           f_equal. lia.
        -- simpl. rewrite Etail5. intros [= E]%bool_decide_eq_true. lia.
      * replace (length made - 1 - i) with 0 by lia. rewrite Nat.add_0_r.
        rewrite lookup_app_r by (rewrite length_reverse, length_seq; lia).
        rewrite length_reverse, length_seq.
        replace (S i - length made) with 0 by lia. simpl.
        eapply find_over; [rewrite HnodesW; exact Ha | done |].
        simpl. rewrite Etail5. apply bool_decide_eq_false. intros [= E]. lia.
    + rewrite lookup_app_r in Hi by (rewrite length_reverse, length_seq; lia).
      rewrite length_reverse, length_seq in Hi.
      destruct (i - length made) as [| x] eqn:Ei; [| done].
      injection Hi as <-.
      rewrite lookup_ge_None_2
        by (rewrite length_app, length_reverse, length_seq; simpl; lia).
      eapply find_flat; [rewrite HnodesW; exact Hb | | done].
      simpl. by rewrite Edepth5, Eversion5.
  - intros i n Hi. rewrite (find_sameView _ _ M5) by (by rewrite EMW).
    destruct (decide (i < length made)) as [Hlt | Hge].
    + rewrite lookup_app_l in Hi by (by rewrite length_reverse, length_seq).
      rewrite down_lookup, decide_True in Hi by done. injection Hi as <-.
      destruct (built_links (length made - 1 - i) ltac:(lia))
        as (N & HN & Hprev & _).
      destruct i as [| i'].
      * rewrite bool_decide_eq_true_2 in Hprev by lia.
        destruct (decide (length made = 1)) as [E1 | Hne1].
        -- replace (length made - 1 - 0) with 0 in * by lia.
           rewrite Nat.add_0_r in *.
           eapply find_below; [rewrite HnodesW; exact Ha | | done].
           simpl. rewrite HN0 in HN. injection HN as <-. exact Hprev.
        -- eapply find_below;
             [rewrite HnodesW, Hc, Hnodes5, Hold by lia; exact HN
             | exact Hprev | done].
      * rewrite bool_decide_eq_false_2 in Hprev by lia.
        rewrite lookup_app_l by (rewrite length_reverse, length_seq; lia).
        rewrite down_lookup, decide_True by lia.
        replace (n0 + (length made - 1 - i'))
          with (n0 + S (length made - 1 - S i')) by lia.
        destruct (decide (S (S i') = length made)) as [Elast | Hnl].
        -- replace (length made - 1 - S i') with 0 in * by lia.
           rewrite Nat.add_0_r in *.
           eapply find_below; [rewrite HnodesW; exact Ha | |].
           ++ simpl. rewrite HN0 in HN. injection HN as <-. exact Hprev.
           ++ simpl. rewrite Ehead5. intros [= E]%bool_decide_eq_true. lia.
        -- eapply find_below;
             [rewrite HnodesW, Hc, Hnodes5, Hold by lia; exact HN
             | exact Hprev |].
           simpl. rewrite Ehead5. intros [= E]%bool_decide_eq_true. lia.
    + rewrite lookup_app_r in Hi by (rewrite length_reverse, length_seq; lia).
      rewrite length_reverse, length_seq in Hi.
      destruct (i - length made) as [| x] eqn:Ei; [| done].
      injection Hi as <-.
      assert (i = length made) as -> by lia.
      destruct (length made) as [| len'] eqn:El; [lia |].
      rewrite lookup_app_l by (rewrite length_reverse, length_seq; lia).
      rewrite down_lookup, decide_True by lia.
      replace (n0 + (S len' - 1 - len')) with n0 by lia.
      eapply find_flat; [rewrite HnodesW; exact Hb | |].
      * simpl. by rewrite Edepth5, Eversion5.
      * simpl. rewrite Ehead5. intros [= E]%bool_decide_eq_true. lia.
  - intros Hlight n d Hn.
    destruct (decide (n = n0)) as [-> | Hnn0].
    + destruct d.
      * transitivity (if bool_decide (1 = length made) then None
                      else Some (n0 + 1)).
        -- eapply find_below; [rewrite HnodesW; exact Ha | exact Hprev0 |].
           simpl. rewrite Hhead'. intros [= E]%bool_decide_eq_true.
           rewrite bool_decide_eq_true_2; [done | lia].
        -- symmetry. eapply find_below; [exact HN0 | exact Hprev0 |].
           simpl. rewrite Hhead'. intros [= E]%bool_decide_eq_true.
           rewrite bool_decide_eq_true_2; [done | lia].
      * transitivity (@None nref).
        -- eapply (find_under _ _ _ _ _ _ 1); [done | rewrite HnodesW; exact Ha
             | | done | done | done].
           simpl. by rewrite Edepth5.
        -- symmetry. eapply find_below; [exact HN0 | exact Hnext0 | done].
    + apply find_nodeAt. rewrite HnodesW, Hc, Hnodes5, Hold by lia. done.
Qed.

Lemma set_prepend_nonempty :
  made ≠ [] →
  ∃ W, Base.set m [it] true w = Return m' W ∧ setFacts W true.
Proof.
  intros Hne.
  destruct forked_node
    as (Efork & Emake & EM1 & EMf & Hmaps & HM' & HM & Hnodes & Hlookups).
  pose proof Hbuilt as
    (Hm & Hmode & Hdepth & Hheap & Hversion & Hflag & Hlen & Htail & Hnodes0
     & Hmade & Hunknown).
  cbn zeta in *.
  assert (0 < length made) as Hpos by (destruct made; [done | simpl; lia]).
  destruct HM' as (EmodeM' & EdepthM' & EheapM' & ElenM' & EheadM' & EtailM'
                   & EflagM' & EancM').
  assert (Map.tail (mapAt w m) = Some n0) as Htail'
    by (rewrite Htail; by destruct made).
  assert (Map.head (mapAt w m) = Some (n0 + length made - 1)) as Hhead'
    by (rewrite Hhead; by destruct made).
  set (h := n0 + length made - 1) in *.
  set (w3 := updMap m' (Map.set_head (Some nn)) w2).
  assert (m' < length (mapStore w2)) as Hm2 by lia.
  assert (mapAt w3 m' = Map.set_head (Some nn) (mapAt w2 m')) as EM3.
  { unfold w3. by rewrite !mapAt_updMap_eq by (by rewrite ?length_updMap). }
  set (wB := ModeOps.bindNodes (forMode (Map.mode (mapAt w3 m'))) (mapAt w3 m')
               nn h w3).
  set (w5 := updMap m' (λ M, Map.set_length (Map.length M + 1) M) wB).
  exists (mapChange m' (ChangeSet [(k, v)] [] true) w5). split.
  { unfold Base.set, Base.setLoop, Base.setItem. cbn [reverse rev_append app].
    rewrite keyValueForItem_keyOf.
    rewrite bool_decide_eq_false_2 by set_solver.
    rewrite (unknown_lookup _ _ _ (Hunknown _ Hk)).
    unfold Base.forkOnce. cbn [SetLoop.map SetLoop.init SetLoop.set_keysMap].
    rewrite Efork.
    assert (Map.mode (mapAt wf m') = mode) as Emodef by (by rewrite EMf).
    rewrite Emodef, Emake.
    rewrite EtailM', Htail'.
    rewrite bool_decide_eq_false_2 by done. cbn [andb].
    unfold Base.nodes. rewrite EheadM', Hhead'. fold w3.
    unfold bindNodesOrThrow. loop_variables. done. }
  unfold mapChange.
  assert (Map.mode (mapAt w3 m') = mode) as Emode3 by (by rewrite EM3).
  subst w5 wB. rewrite Emode3.
  set (M3 := mapAt w3 m') in *.
  set (wB := ModeOps.bindNodes (forMode mode) M3 nn h w3).
  set (w5 := updMap m' _ wB).
  set (W := updMap m' _ w5).
  (* the nodes *)
  destruct Hnodes as (Hlen2 & Hnew & Hold).
  destruct (built_links (length made - 1) ltac:(lia)) as (Nh & HNh & Hprevh & Hnexth).
  replace (n0 + (length made - 1)) with h in HNh by (unfold h; lia).
  rewrite bool_decide_eq_true_2 in Hprevh by lia.
  assert (∀ c, nodeAt w3 c = nodeAt w2 c) as Hnodes3 by done.
  assert (Map.depth M3 = 1 ∧ Map.version M3 = Map.version (mapAt w2 m')
          ∧ Map.tail M3 = Some n0 ∧ Map.head M3 = Some nn)
    as (Edepth3 & Eversion3 & Etail3 & Ehead3).
  { rewrite EM3. cbn. by rewrite EdepthM', EtailM', Htail'. }
  set (Nnew := Node.make _ _ _) in Hnew.
  destruct (bind_under mode M3 nn h w3 Nnew Nh None None) as (Ha & Hb & Hc);
    [by rewrite Hnodes3 | rewrite Hnodes3, Hold by (unfold h; lia); exact HNh
    | unfold h; lia | lia | by rewrite Edepth3, Eversion3 | done |].
  fold wB in Ha, Hb, Hc.
  assert (∀ c, nodeAt W c = nodeAt wB c) as HnodesW by done.
  assert (mapStore wB = mapStore w3) as EmapsB
    by (unfold wB; by rewrite mapStore_bindNodes).
  set (MW := Map.set_change (Some (ChangeSet [(k, v)] [] true))
               (Map.set_length (Map.length M3 + 1) M3)).
  assert (mapAt W m' = MW) as EMW.
  { unfold W, w5.
    rewrite !mapAt_updMap_eq
      by (rewrite ?length_updMap, EmapsB; unfold w3; by rewrite !length_updMap).
    by rewrite (mapAt_mapStore _ _ _ EmapsB). }
  assert (sameView MW M3) as HviewW by done.
  split; [| split; [| split; [| split; [| split; [| split; [| split; [| split]]]]]]].
  - unfold W, w5. rewrite !heapStore_updMap. unfold wB.
    rewrite heapStore_bindNodes. unfold w3. by rewrite !heapStore_updMap.
  - unfold W, w5. rewrite !nodeStore_updMap. unfold wB.
    rewrite length_nodeStore_bindNodes. unfold w3.
    by rewrite !nodeStore_updMap.
  - intros c. unfold elementAt at 1. rewrite HnodesW. fold (elementAt wB c).
    unfold wB. rewrite elementAt_bindNodes. done.
  - unfold W, w5. rewrite !length_updMap, EmapsB. unfold w3.
    by rewrite !length_updMap.
  - unfold W, w5. rewrite !mapAt_updMap_ne by lia.
    rewrite (mapAt_mapStore _ _ _ EmapsB). unfold w3.
    by rewrite !mapAt_updMap_ne by lia.
  - rewrite EMW. unfold MW. rewrite EM3. cbn.
    rewrite EmodeM', EdepthM', EheapM', EflagM', EancM', ElenM', EtailM', Htail'.
    repeat split; try done; try lia.
    rewrite last_cons, last_lookup, length_reverse, length_seq, down_lookup,
      decide_True by lia.
    f_equal. lia.
  - intros i n Hi. rewrite (find_sameView _ _ M3) by (by rewrite EMW).
    destruct i as [| i'].
    + injection Hi as <-. cbn [lookup list_lookup].
      change ((nn :: reverse (seq n0 (length made))) !! 1)
        with (reverse (seq n0 (length made)) !! 0).
      rewrite down_lookup, decide_True by lia.
      replace (n0 + (length made - 1 - 0)) with h by (unfold h; lia).
      eapply find_flat; [rewrite HnodesW; exact Ha | |].
      * simpl. by rewrite Edepth3, Eversion3.
      * simpl. rewrite Etail3. intros [= E]%bool_decide_eq_true. lia.
    + change ((nn :: reverse (seq n0 (length made))) !! S i')
        with (reverse (seq n0 (length made)) !! i') in Hi.
      change ((nn :: reverse (seq n0 (length made))) !! S (S i'))
        with (reverse (seq n0 (length made)) !! S i').
      rewrite down_lookup in Hi. rewrite down_lookup.
      destruct (decide (i' < length made)) as [Hlt | Hge]; [| done].
      injection Hi as <-.
      destruct (built_links (length made - 1 - i') ltac:(lia))
        as (N & HN & _ & Hnext).
      assert (∃ N', nodeAt W (n0 + (length made - 1 - i')) = Some N'
                    ∧ Node.next N' = Node.next N) as (N' & HN' & Enext).
      { destruct (decide (i' = 0)) as [-> | Hne0].
        - replace (n0 + (length made - 1 - 0)) with h in * by (unfold h; lia).
          rewrite HNh in HN. injection HN as <-.
          eexists. split; [rewrite HnodesW; exact Hb | done].
        - exists N. split; [| done].
          rewrite HnodesW, Hc, Hnodes3, Hold by (unfold h; lia). done. }
      erewrite find_below; [| exact HN' | simpl; rewrite Enext; exact Hnext |].
      * destruct (decide (S i' < length made)) as [Hlt' | Hge'].
        -- destruct (length made - 1 - i') as [| j'] eqn:Ej; [lia |].
           f_equal. lia.
        -- by replace (length made - 1 - i') with 0 by lia.
      * simpl. rewrite Etail3. intros [= E]%bool_decide_eq_true.
        by replace (length made - 1 - i') with 0 by lia.
  - intros i n Hi. rewrite (find_sameView _ _ M3) by (by rewrite EMW).
    destruct i as [| i'].
    + injection Hi as <-.
      eapply find_flat; [rewrite HnodesW; exact Ha | | done].
      simpl. by rewrite Edepth3, Eversion3.
    + change ((nn :: reverse (seq n0 (length made))) !! S i')
        with (reverse (seq n0 (length made)) !! i') in Hi.
      rewrite down_lookup in Hi.
      destruct (decide (i' < length made)) as [Hlt | Hge]; [| done].
      injection Hi as <-.
      destruct i' as [| i''].
      * replace (n0 + (length made - 1 - 0)) with h by (unfold h; lia).
        eapply find_over; [rewrite HnodesW; exact Hb | done |].
        simpl. rewrite Ehead3. apply bool_decide_eq_false. intros [= E].
        unfold h in E. lia.
      * change ((nn :: reverse (seq n0 (length made))) !! S i'')
          with (reverse (seq n0 (length made)) !! i'').
        rewrite down_lookup, decide_True by lia.
        destruct (built_links (length made - 1 - S i'') ltac:(lia))
          as (N & HN & Hprev & _).
        rewrite bool_decide_eq_false_2 in Hprev by lia.
        erewrite find_below;
          [| rewrite HnodesW, Hc, Hnodes3, Hold by (unfold h; lia); exact HN
           | exact Hprev |].
        -- f_equal. lia.
        -- simpl. rewrite Ehead3. intros [= E]%bool_decide_eq_true. lia.
  - intros Hlight n d Hn.
    destruct (decide (n = h)) as [-> | Hnh].
    + destruct d.
      * transitivity (@None nref).
        -- eapply (find_under _ _ _ _ _ _ 1); [done | rewrite HnodesW; exact Hb
             | | done | done | done].
           simpl. by rewrite Edepth3.
        -- symmetry. eapply find_below; [exact HNh | exact Hprevh | done].
      * transitivity (match length made - 1 with
                      | 0 => None
                      | S j' => Some (n0 + j')
                      end).
        -- eapply find_below; [rewrite HnodesW; exact Hb | exact Hnexth |].
           simpl. rewrite Htail'. intros [= E]%bool_decide_eq_true.
           unfold h in E. by replace (length made - 1) with 0 by lia.
        -- symmetry. eapply find_below; [exact HNh | exact Hnexth |].
           simpl. rewrite Htail'. intros [= E]%bool_decide_eq_true.
           unfold h in E. by replace (length made - 1) with 0 by lia.
    + apply find_nodeAt. rewrite HnodesW, Hc, Hnodes3, Hold by lia. done.
Qed.

Lemma set_empty prepend :
  made = [] →
  ∃ W, Base.set m [it] prepend w = Return m' W ∧ setFacts W prepend.
Proof.
  intros Hnil.
  destruct forked_node
    as (Efork & Emake & EM1 & EMf & Hmaps & HM' & HM & Hnodes & Hlookups).
  pose proof Hbuilt as
    (Hm & Hmode & Hdepth & Hheap & Hversion & Hflag & Hlen & Htail & Hnodes0
     & Hmade & Hunknown).
  cbn zeta in *.
  destruct HM' as (EmodeM' & EdepthM' & EheapM' & ElenM' & EheadM' & EtailM'
                   & EflagM' & EancM').
  assert (Map.tail (mapAt w m) = None) as Htail' by (by rewrite Htail, Hnil).
  assert (Map.head (mapAt w m) = None) as Hhead' by (by rewrite Hhead, Hnil).
  assert (m' < length (mapStore w2)) as Hm2 by lia.
  set (MW := Map.set_change (Some (ChangeSet [(k, v)] [] prepend))
               (Map.set_length (Map.length (mapAt w2 m') + 1)
                  (Map.set_head (Some nn)
                     (Map.set_tail (Some nn) (mapAt w2 m'))))).
  assert (∃ W, Base.set m [it] prepend w = Return m' W ∧
               nodeStore W = nodeStore w2 ∧ heapStore W = heapStore w2 ∧
               length (mapStore W) = S m' ∧ mapAt W m = mapAt w2 m ∧
               mapAt W m' = MW)
    as (W & Eexec & EnodesW & EheapsW & ElenW & EmW & EMW).
  { unfold Base.set, Base.setLoop, Base.setItem. cbn [reverse rev_append app].
    rewrite keyValueForItem_keyOf.
    rewrite bool_decide_eq_false_2 by set_solver.
    rewrite (unknown_lookup _ _ _ (Hunknown _ Hk)).
    unfold Base.forkOnce. cbn [SetLoop.map SetLoop.init SetLoop.set_keysMap].
    rewrite Efork.
    assert (Map.mode (mapAt wf m') = mode) as Emodef by (by rewrite EMf).
    rewrite Emodef, Emake.
    rewrite EtailM', Htail'.
    rewrite bool_decide_eq_true_2 by done. cbn [andb].
    destruct prepend.
    - loop_variables. unfold Base.loopEnd, mapChange.
      eexists. split; [reflexivity |].
      rewrite !nodeStore_updMap, !heapStore_updMap, !length_updMap.
      rewrite !mapAt_updMap_ne by lia.
      rewrite !mapAt_updMap_eq by (by rewrite ?length_updMap).
      done.
    - unfold Base.nodes. loop_variables. rewrite EtailM', Htail'.
      unfold Base.loopEnd. loop_variables.
      set (w5 := updMap m' (λ M, Map.set_length (Map.length M + 1) M) _).
      assert (Map.head (mapAt w5 m') = None) as Ehead5.
      { unfold w5. rewrite !mapAt_updMap_eq by (by rewrite ?length_updMap).
        cbn. by rewrite EheadM'. }
      rewrite Ehead5. unfold mapChange.
      eexists. split; [reflexivity |]. unfold w5.
      rewrite !nodeStore_updMap, !heapStore_updMap, !length_updMap.
      rewrite !mapAt_updMap_ne by lia.
      rewrite !mapAt_updMap_eq by (by rewrite ?length_updMap).
      done. }
  exists W. split; [done |].
  destruct Hnodes as (Hlen2 & Hnew & Hold).
  assert (∀ c, nodeAt W c = nodeAt w2 c) as HnodesW
    by (intros c; unfold nodeAt; by rewrite EnodesW).
  assert (chainAfter prepend = [nn]) as Echain
    by (rewrite Hnil; by destruct prepend).
  rewrite Echain.
  split; [done |]. split; [by rewrite EnodesW |].
  split; [intros c; unfold elementAt; by rewrite HnodesW |].
  split; [done |]. split; [done |].
  split; [| split; [| split]].
  - rewrite EMW. unfold MW. cbn.
    rewrite EmodeM', EdepthM', EheapM', EflagM', EancM', ElenM'.
    repeat split; try done. lia.
  - intros [| i] n; [| done]. intros [= <-].
    eapply find_flat; [rewrite HnodesW; exact Hnew | | done].
    rewrite EMW. unfold MW. cbn. by rewrite EdepthM'.
  - intros [| i] n; [| done]. intros [= <-].
    eapply find_flat; [rewrite HnodesW; exact Hnew | | done].
    rewrite EMW. unfold MW. cbn. by rewrite EdepthM'.
  - intros _ n d Hn. rewrite Hnil in Hn. simpl in Hn. lia.
Qed.

(** [set] of one item of a new key on a map fresh from the factory. *)
Lemma set_new_key prepend :
  ∃ W, Base.set m [it] prepend w = Return m' W ∧ setFacts W prepend.
Proof.
  assert (made = [] ∨ made ≠ []) as [Hnil | Hne]
    by (clear; destruct made; [by left | by right]).
  - by apply set_empty.
  - destruct prepend; [by apply set_prepend_nonempty |].
    by apply set_append_nonempty.
Qed.

End FirstSet.

Section Found.
Implicit Types (w : world) (m : mref) (M : Map.t).

(** A walk goes the same way when each of its nodes finds the neighbour it
    found. *)
Lemma walk_found fuel fuel' w w' M M' d current chain :
  walk fuel w M d current = Some chain →
  fuel ≤ fuel' → Map.mode M' = Map.mode M →
  (∀ n, n ∈ chain →
     ModeOps.findMapNodeByDirection (forMode (Map.mode M)) w' M' n d
     = ModeOps.findMapNodeByDirection (forMode (Map.mode M)) w M n d) →
  walk fuel' w' M' d current = Some chain.
Proof.
  intros Hwalk Hfuel Hmode. revert fuel' current chain Hwalk Hfuel.
  induction fuel as [| fuel IH]; intros fuel' current chain;
    destruct current as [node |]; simpl; try done.
  - intros [= <-] _ _. by destruct fuel'.
  - destruct (walk fuel _ _ _ _) as [rest |] eqn:E; simpl; [| done].
    intros [= <-] Hfuel Hnodes. destruct fuel' as [| fuel']; [lia |]. simpl.
    rewrite Hmode, Hnodes by left.
    rewrite (IH fuel' _ rest E); [done | lia |].
    intros n Hn. apply Hnodes. by right.
  - intros [= <-] _ _. by destruct fuel'.
Qed.

(** A well-formed map stays well formed, with the same nodes and entries,
    when its nodes find the neighbours they found, hold the elements they
    held and are resolved by the heap map as they were. *)
Lemma wellFormed_found w w' m :
  let M := mapAt w m in
  let ops := forMode (Map.mode M) in
  wellFormed w m →
  m < length (mapStore w') →
  Map.head (mapAt w' m) = Map.head M → Map.tail (mapAt w' m) = Map.tail M →
  Map.mode (mapAt w' m) = Map.mode M →
  Map.length (mapAt w' m) = Map.length M →
  length (nodeStore w) ≤ length (nodeStore w') →
  (∀ n d, n ∈ chainOf w m →
     ModeOps.findMapNodeByDirection ops w' (mapAt w' m) n d
     = ModeOps.findMapNodeByDirection ops w M n d) →
  (∀ n, n ∈ chainOf w m → elementAt w' n = elementAt w n) →
  (∀ n, n ∈ chainOf w m →
     ModeOps.lookup ops w' (mapAt w' m) (keyAt w n)
     = ModeOps.lookup ops w M (keyAt w n)) →
  wellFormed w' m ∧ chainOf w' m = chainOf w m ∧ entriesOf w' m = entriesOf w m.
Proof.
  cbn zeta.
  intros Hwf Hm Ehead Etail Hmode Hlen Hnodes Hfound Helts Hlookup.
  destruct (wellFormed_chainOf _ _ Hwf) as (Hnext & Hprev & Hl & Hdup & Hall).
  assert (nodesOf w' m Next = Some (chainOf w m)) as Hnext'.
  { unfold nodesOf in *. rewrite Ehead.
    eapply walk_found; [exact Hnext | lia | done |]. intros n Hn. by apply Hfound. }
  assert (nodesOf w' m Previous = Some (reverse (chainOf w m))) as Hprev'.
  { unfold nodesOf in *. rewrite Etail.
    eapply walk_found; [exact Hprev | lia | done |].
    intros n Hn. apply Hfound. by apply elem_of_reverse. }
  assert (chainOf w' m = chainOf w m) as Echain
    by (unfold chainOf at 1; by rewrite Hnext').
  assert (elementAt w' <$> chainOf w m = elementAt w <$> chainOf w m) as Eelts.
  { apply list_fmap_ext. intros i n Hn. apply Helts.
    by eapply list_elem_of_lookup_2. }
  split; [| split; [done |]].
  - split; [done |]. exists (chainOf w m).
    split; [done |]. split; [done |]. split; [congruence |]. split.
    + replace (keyAt w' <$> chainOf w m) with (keyAt w <$> chainOf w m); [done |].
      apply list_fmap_ext. intros i n Hn. unfold keyAt. f_equal. symmetry.
      apply Helts. by eapply list_elem_of_lookup_2.
    + apply Forall_forall. intros n Hn.
      rewrite Forall_forall in Hall. destruct (Hall n Hn) as [Hlt Hlook].
      split; [lia |]. unfold keyAt. rewrite Helts by done.
      rewrite Hmode. fold (keyAt w n). by rewrite Hlookup.
  - unfold entriesOf. by rewrite Echain.
Qed.

End Found.



(** * The first [set] of a key that the map fresh from the factory has *)

Lemma rootHeap_layerAt mode w M k depth :
  rootHeap mode w (Map.heapMap M) → depth ≠ 0 → layerAt w M k depth = false.
Proof.
  unfold rootHeap, layerAt. intros Hroot Hdepth.
  destruct (heapAt w (Map.heapMap M)) as [[h | h | h] |]; destruct mode;
    try done; destruct (h !! k) as [e |] eqn:E; try done;
    destruct (Hroot _ _ E) as [n ->]; simpl; by rewrite decide_False.
Qed.

Section FirstUpdate.
Context (m : mref) (mode : Mode) (n0 : nref) (h0 : href) (w : world)
  (made : list (key * value)) (it : item) (j : nat) (v0 : value).
Local Abbreviation k := (keyOf it).
Local Abbreviation v := (valueOf it).
Hypotheses (Hbuilt : built w m mode n0 h0 made)
  (Hroot : rootHeap mode w h0)
  (Hhead : Map.head (mapAt w m)
           = (if made is [] then None else Some (n0 + length made - 1)))
  (Hj : made !! j = Some (k, v0)).

Local Abbreviation m' := (length (mapStore w)).
Local Abbreviation wf := (snd (forkMap m w)).
Local Abbreviation nn := (n0 + length made).
Local Abbreviation node := (n0 + j).
Local Abbreviation w1 :=
  (snd (ModeOps.makeImmutableLinkedOrderedMapNode (forMode mode) (mapAt wf m')
          None None k v wf)).
Local Abbreviation w2 :=
  (ModeOps.updateHeapMap (forMode mode) (mapAt w1 m') nn w1).
Local Abbreviation flat0 :=
  (flatLinks mode 0 MULTIWAY_MODE_INITIAL_MAP_TREE_DEPTH_VERSION).
Local Abbreviation predOf a :=
  (if bool_decide (S a = length made)%nat then None else Some (n0 + S a)%nat).
Local Abbreviation succOf a :=
  (if decide (a = 0)%nat then None else Some (n0 + Nat.pred a)%nat).

(** The store once [set] has forked the map, created the new node of the
    key and written it to the heap map. *)
Lemma forked_known :
  let M' := mapAt w2 m' in
  forkMap m w = (m', wf) ∧
  ModeOps.makeImmutableLinkedOrderedMapNode (forMode mode) (mapAt wf m')
    None None k v wf = (nn, w1) ∧
  mapAt w1 m' = M' ∧ mapAt wf m' = M' ∧
  length (mapStore w2) = S m' ∧
  (Map.mode M' = mode ∧ Map.depth M' = 1 ∧ Map.heapMap M' = h0 ∧
   Map.length M' = Z.of_nat (length made) ∧
   Map.head M' = Map.head (mapAt w m) ∧ Map.tail M' = Map.tail (mapAt w m) ∧
   Map.mutationOperationOccurred M' = false ∧
   Map.ancestorMap M' = Some m) ∧
  (sameView (mapAt w m) (mapAt w2 m) ∧
   Map.mode (mapAt w2 m) = mode ∧
   Map.length (mapAt w2 m) = Map.length (mapAt w m) ∧
   Map.mutationOperationOccurred (mapAt w2 m) = false ∧
   mapAt w1 m = mapAt w2 m ∧ mapAt wf m = mapAt w2 m) ∧
  (length (nodeStore w2) = S nn ∧
   nodeAt w2 nn
   = Some (Node.make (flatLinks mode 1 (Map.version M') None)
             (flatLinks mode 1 (Map.version M') None) (k, v)) ∧
   (∀ c, c < nn → nodeAt w2 c = nodeAt w c) ∧
   (∀ c, c < nn → nodeAt wf c = nodeAt w c)) ∧
  (ModeOps.lookup (forMode mode) w2 M' k = Some nn ∧
   (∀ X k', k' ≠ k →
      ModeOps.lookup (forMode mode) w2 X k' = ModeOps.lookup (forMode mode) w X k') ∧
   (mode ≠ LIGHTWEIGHT →
    ∀ k', ModeOps.lookup (forMode mode) w2 (mapAt w m) k'
          = ModeOps.lookup (forMode mode) w (mapAt w m) k')).
Proof.
  pose proof Hbuilt as
    (Hm & Hmode & Hdepth & Hheap & Hversion & Hflag & Hlen & Htail & Hnodes
     & Hmade & Hunknown).
  cbn zeta in *.
  destruct (forkMap_spec m w Hm)
    as (Efork & Enodes & Eheaps & Elen & EheapMap & Edepth & Elength & Emode
        & Eflag & Emode0 & Eflag0 & Hview).
  destruct (forkMap_fields m w Hm) as (Ehead & Etail & Eanc & Elength0).
  cbn zeta in *.
  rewrite make_flat. cbn [snd].
  set (N := Node.make _ _ _).
  set (u1 := World (nodeStore wf ++ [N]) (heapStore wf) (mapStore wf)).
  assert (∀ x, mapAt u1 x = mapAt wf x) as EM1 by done.
  set (u2 := ModeOps.updateHeapMap _ _ _ u1).
  assert (mapStore u2 = mapStore wf) as Emaps2
    by (unfold u2; by rewrite mapStore_updateHeapMap).
  assert (∀ x, mapAt u2 x = mapAt wf x) as EM2
    by (intros x; by apply mapAt_mapStore).
  assert (nodeAt u1 nn = Some N) as HN.
  { unfold nodeAt, u1; cbn [nodeStore]. rewrite Enodes, lookup_app_r by lia.
    by replace (_ - _) with 0 by lia. }
  assert (keyAt u1 nn = k) as Hkey by (by rewrite (keyAt_nodeAt _ _ _ HN)).
  destruct (Hmade _ _ Hj) as [_ Hlook].
  rewrite !EM2, !EM1.
  split; [done |]. split; [by rewrite Enodes, Hnodes |].
  split; [done |]. split; [done |].
  split; [by rewrite Emaps2 |].
  split; [by rewrite Emode, Edepth, EheapMap, Elength, Ehead, Etail, Eflag, Eanc,
            Hmode, Hdepth, Hheap, Hlen |].
  split; [by rewrite Emode0, Elength0, Eflag0, Hmode, Hflag |].
  split; [| split; [| split]].
  - split; [| split; [| split]].
    + unfold u2. rewrite nodeStore_updateHeapMap. unfold u1. cbn [nodeStore].
      rewrite length_app, Enodes. simpl. lia.
    + unfold nodeAt, u2. rewrite nodeStore_updateHeapMap. fold (nodeAt u1 nn).
      rewrite HN. unfold N. by rewrite Edepth, Hdepth.
    + intros c Hc. unfold nodeAt, u2. rewrite nodeStore_updateHeapMap.
      unfold u1. cbn [nodeStore]. rewrite Enodes. by rewrite lookup_app_l by lia.
    + intros c Hc. unfold nodeAt. by rewrite Enodes.
  - apply (lookup_updateHeapMap_own _ _ _ _ _ _ N); rewrite ?EM1; try done.
    + rewrite EheapMap. apply (heapOf_heapStore _ w); [done |].
      by eapply lookup_heapOf.
    + rewrite (layerAt_heapStore w u1) by done.
      rewrite (layerAt_sameView w (mapAt w m) (mapAt wf m')) by done.
      apply (rootHeap_layerAt mode); [by rewrite Hheap | rewrite Edepth; lia].
  - intros X k' Hk'. unfold u2. rewrite lookup_updateHeapMap_other by congruence.
    by apply lookup_heapStore.
  - intros Hlight k'. unfold u2. rewrite lookup_updateHeapMap_deeper.
    + by apply lookup_heapStore.
    + done.
    + rewrite EM1, Edepth. lia.
Qed.

Local Abbreviation flat1 :=
  (flatLinks mode 1 (Map.version (mapAt w2 m'))).
Local Abbreviation layered :=
  (layeredLinks mode 1 (Map.version (mapAt w2 m')) (Some nn) (Some node)).
Local Abbreviation wP :=
  (match predOf j with
   | Some p => ModeOps.bindNodes (forMode mode) (mapAt w2 m') p nn w2
   | None => updMap m' (Map.set_head (Some nn)) w2
   end).
Local Abbreviation wN :=
  (match succOf j with
   | Some x => ModeOps.bindNodes (forMode mode) (mapAt wP m') nn x wP
   | None => updMap m' (Map.set_tail (Some nn)) wP
   end).

(** The nodes of the receiver, as the factory left them. *)
Lemma built_fields a :
  a < length made →
  ∃ N,
    nodeAt w (n0 + a) = Some N ∧
    Node.previous N = flat0 (predOf a) ∧ Node.next N = flat0 (succOf a).
Proof.
  intros Ha. destruct (lookup_lt_is_Some_2 made a Ha) as [kv Hkv].
  destruct Hbuilt as (_ & _ & _ & _ & _ & _ & _ & _ & _ & Hmade & _).
  destruct (Hmade a kv Hkv) as [HN _]. eexists. split; [exact HN |].
  split; [done |]. simpl. f_equal. destruct a as [| a']; [done |].
  by rewrite decide_False by done.
Qed.

Lemma known_index : j < length made.
Proof. by eapply lookup_lt_Some. Qed.

(** The store once the node before the old node of the key is bound to the
    new one, or the new node is made the head. *)
Lemma bound_before :
  heapStore wP = heapStore w2 ∧
  length (nodeStore wP) = S nn ∧
  (∀ c, elementAt wP c = elementAt w2 c) ∧
  length (mapStore wP) = S m' ∧
  mapAt wP m = mapAt w2 m ∧
  mapAt wP m'
  = (if predOf j is None then Map.set_head (Some nn) (mapAt w2 m')
     else mapAt w2 m') ∧
  nodeAt wP nn = Some (Node.make (flat1 (predOf j)) (flat1 None) (k, v)) ∧
  ∀ a, a < length made →
    ∃ N, nodeAt wP (n0 + a) = Some N ∧
         Node.previous N = flat0 (predOf a) ∧
         Node.next N
         = (if decide (a = S j) then layered else flat0 (succOf a)).
Proof.
  destruct forked_known
    as (_ & _ & _ & _ & Hmaps & HM' & HM & (Hlen2 & Hnew & Hold & _) & _).
  pose proof Hbuilt as (Hm & _). cbn zeta in *.
  destruct HM' as (EmodeM' & EdepthM' & _).
  pose proof known_index as Hjlt.
  destruct (bool_decide_reflect (S j = length made)) as [Elast | Hnl].
  - rewrite !heapStore_updMap, !nodeStore_updMap, !length_updMap.
    rewrite mapAt_updMap_ne, mapAt_updMap_eq by lia.
    repeat split; try done.
    intros a Ha. destruct (built_fields a Ha) as (N & HN & Hp & Hn).
    exists N.
    split; [unfold nodeAt; rewrite nodeStore_updMap; fold (nodeAt w2 (n0 + a));
            by rewrite Hold by lia |].
    split; [done |]. by rewrite decide_False by lia.
  - destruct (built_fields (S j) ltac:(lia)) as (Np & HNp & Hpp & Hnp).
    rewrite decide_False in Hnp by done. cbn [Nat.pred] in Hnp.
    set (Nnew := Node.make _ _ _) in Hnew.
    destruct (bind_over mode (mapAt w2 m') (n0 + S j) nn w2 Np Nnew
                (Some node) None) as (Ha & Hb & Hc);
      [by rewrite Hold by lia | done | lia | lia | done
      | by rewrite EdepthM' |].
    rewrite EdepthM' in Ha, Hb.
    rewrite heapStore_bindNodes, length_nodeStore_bindNodes, mapStore_bindNodes.
    repeat split; try done;
      try (by apply mapAt_mapStore, mapStore_bindNodes).
    + intros c. by rewrite elementAt_bindNodes.
    + intros a Ha'. destruct (decide (a = S j)) as [-> | Hne].
      * eexists. split; [exact Ha |]. by split.
      * destruct (built_fields a Ha') as (N & HN & Hp & Hn).
        exists N. split; [rewrite Hc, Hold by lia; done | by split].
Qed.

(** The store once the new node is bound to the node after the old node of
    the key too, or is made the tail. *)
Lemma bound_after :
  heapStore wN = heapStore w2 ∧
  length (nodeStore wN) = S nn ∧
  (∀ c, elementAt wN c = elementAt w2 c) ∧
  length (mapStore wN) = S m' ∧
  mapAt wN m = mapAt w2 m ∧
  mapAt wN m'
  = (let M := if predOf j is None then Map.set_head (Some nn) (mapAt w2 m')
              else mapAt w2 m' in
     if succOf j is None then Map.set_tail (Some nn) M else M) ∧
  nodeAt wN nn = Some (Node.make (flat1 (predOf j)) (flat1 (succOf j)) (k, v)) ∧
  ∀ a, a < length made →
    ∃ N, nodeAt wN (n0 + a) = Some N ∧
         Node.previous N
         = (if decide (S a = j) then layered else flat0 (predOf a)) ∧
         Node.next N
         = (if decide (a = S j) then layered else flat0 (succOf a)).
Proof.
  destruct bound_before
    as (Eheap & Enodes & Eelts & Emaps & Em & Em' & Hnew & Hold).
  destruct forked_known as (_ & _ & _ & _ & _ & HM' & _).
  pose proof Hbuilt as (Hm & _). cbn zeta in *.
  destruct HM' as (EmodeM' & EdepthM' & _).
  pose proof known_index as Hjlt.
  assert (Map.depth (mapAt wP m') = 1
          ∧ Map.version (mapAt wP m') = Map.version (mapAt w2 m'))
    as [EdepthP EversionP].
  { rewrite Em'. by destruct (predOf j). }
  destruct (decide (j = 0)) as [Ej | Hj0].
  - rewrite !heapStore_updMap, !nodeStore_updMap, !length_updMap.
    rewrite mapAt_updMap_ne, mapAt_updMap_eq by lia.
    split; [done |]. split; [done |]. split; [done |]. split; [done |].
    split; [done |]. split; [by rewrite Em' |]. split; [done |].
    intros a Ha. destruct (Hold a Ha) as (N & HN & Hp & Hn).
    exists N. split; [done |]. split; [| done].
    by rewrite decide_False by lia.
  - destruct (Hold (Nat.pred j) ltac:(lia)) as (Nx & HNx & Hpx & Hnx).
    rewrite bool_decide_eq_false_2 in Hpx by lia.
    replace (n0 + S (Nat.pred j)) with node in Hpx by lia.
    set (Nnew := Node.make _ _ _) in Hnew.
    destruct (bind_under mode (mapAt wP m') nn (n0 + Nat.pred j) wP Nnew Nx
                None (Some node)) as (Ha & Hb & Hc);
      [done | done | lia | lia | by rewrite EdepthP, EversionP | done |].
    rewrite EdepthP, EversionP in Ha, Hb.
    rewrite heapStore_bindNodes, length_nodeStore_bindNodes, mapStore_bindNodes.
    split; [done |]. split; [done |].
    split; [intros c; by rewrite elementAt_bindNodes |].
    split; [done |].
    split; [by rewrite (mapAt_mapStore wP) by apply mapStore_bindNodes |].
    split; [by rewrite (mapAt_mapStore wP) by apply mapStore_bindNodes |].
    split; [done |].
    intros a Ha'. destruct (decide (S a = j)) as [Eaj | Hne].
    + replace a with (Nat.pred j) by lia.
      eexists. split; [exact Hb |]. split; [done |]. simpl.
      by rewrite decide_False in Hnx |- * by lia.
    + destruct (Hold a Ha') as (N & HN & Hp & Hn).
      exists N. split; [rewrite Hc by lia; done | by split].
Qed.

Lemma set_known_exec prepend :
  v0 ≠ v →
  Base.set m [it] prepend w
  = Return m' (mapChange m' (ChangeSet [] [(k, v)] prepend) wN).
Proof.
  intros Hv.
  destruct forked_known
    as (Efork & Emake & EM1 & EMf & Hmaps & HM' & HM & Hnodes & Hlookups).
  pose proof Hbuilt as
    (Hm & Hmode & Hdepth & Hheap & Hversion & Hflag & Hlen & Htail & Hnodes0
     & Hmade & Hunknown).
  pose proof known_index as Hjlt.
  cbn zeta in *.
  destruct (Hmade _ _ Hj) as [HNj Hlook]. cbn [fst] in Hlook.
  destruct HM as (Hview & Emode2 & Elen2 & Eflag2 & Em1 & Emf).
  destruct Hnodes as (Hlen2 & Hnew & Hold & Holdf).
  destruct (built_fields j Hjlt) as (Nj & HNj' & Hpj & Hnj).
  assert (Map.head (mapAt w m) = Some (n0 + length made - 1)) as Hhead'
    by (rewrite Hhead; destruct made; [simpl in Hjlt; lia | done]).
  assert (Map.tail (mapAt w m) = Some n0) as Htail'
    by (rewrite Htail; destruct made; [simpl in Hjlt; lia | done]).
  assert (sameView (mapAt w m) (mapAt wf m)) as Hviewf by (by rewrite Emf).
  assert (∀ d t, directionField d Nj = flat0 t →
            (isBoundary (mapAt w m) node d = true → t = None) →
            ModeOps.findMapNodeByDirection (forMode mode) wf (mapAt wf m) node d
            = t) as Hfind.
  { intros d t Hd Hb. rewrite (find_sameView _ _ _ _ _ _ Hviewf).
    rewrite (find_nodeAt _ w wf) by (apply Holdf; lia).
    by eapply find_below. }
  assert (Map.mode (mapAt wf m') = mode) as Emodef by (rewrite EMf; apply HM').
  assert (Map.mode (mapAt w1 m) = mode) as Emode1 by (by rewrite Em1).
  assert (elementAt w node = (k, v0)) as Eelt
    by (unfold elementAt; by rewrite HNj).
  unfold Base.set, Base.setLoop, Base.setItem. cbn [reverse rev_append app].
  rewrite keyValueForItem_keyOf.
  rewrite bool_decide_eq_false_2 by set_solver.
  rewrite Hmode, Hlook, Eelt. cbn [snd].
  rewrite bool_decide_eq_true_2 by done.
  unfold Base.forkOnce. loop_variables. rewrite Efork. loop_variables.
  rewrite Emodef.
  rewrite (Hfind Previous (predOf j)), (Hfind Next (succOf j)).
  - rewrite Emake, Emode1.
    unfold Base.loopEnd, mapChange.
    destruct (bool_decide (S j = length made)), (decide (j = 0)), prepend;
      loop_variables; reflexivity.
  - exact Hnj.
  - simpl. rewrite Htail'. intros [= E]%bool_decide_eq_true.
    rewrite decide_True; [done | lia].
  - exact Hpj.
  - simpl. rewrite Hhead'. intros [= E]%bool_decide_eq_true.
    rewrite bool_decide_eq_true_2; [done | lia].
Qed.

Local Abbreviation subst c := (if decide (c = node) then nn else c).
Local Abbreviation chainAfter := ((λ c, subst c) <$> reverse (seq n0 (length made))).

Lemma chainAfter_lookup i :
  chainAfter !! i
  = (if decide (i < length made) then Some (subst (n0 + (length made - 1 - i)))
     else None).
Proof.
  rewrite list_lookup_fmap, down_lookup. by destruct (decide (i < length made)).
Qed.

(** [set] of one item of a key of the map, with another value, on a map
    fresh from the factory: the fork has the new node in the place of the
    old one. *)
Lemma set_known prepend :
  v0 ≠ v →
  ∃ W,
    Base.set m [it] prepend w = Return m' W ∧
    heapStore W = heapStore w2 ∧
    length (nodeStore W) = S nn ∧
    (∀ c, elementAt W c = elementAt w2 c) ∧
    length (mapStore W) = S m' ∧
    mapAt W m = mapAt w2 m ∧
    (Map.version (mapAt W m') = Map.version (mapAt w2 m') ∧
     Map.mode (mapAt W m') = mode ∧ Map.depth (mapAt W m') = 1 ∧
     Map.heapMap (mapAt W m') = h0 ∧
     Map.mutationOperationOccurred (mapAt W m') = false ∧
     Map.ancestorMap (mapAt W m') = Some m ∧
     Map.length (mapAt W m') = Z.of_nat (length made) ∧
     Map.head (mapAt W m') = head chainAfter ∧
     Map.tail (mapAt W m') = last chainAfter) ∧
    (∀ i n, chainAfter !! i = Some n →
       ModeOps.findMapNodeByDirection (forMode mode) W (mapAt W m') n Next
       = chainAfter !! S i) ∧
    (∀ i n, chainAfter !! i = Some n →
       ModeOps.findMapNodeByDirection (forMode mode) W (mapAt W m') n Previous
       = match i with 0 => None | S i' => chainAfter !! i' end) ∧
    (mode ≠ LIGHTWEIGHT →
     ∀ n d, n0 ≤ n < nn →
       ModeOps.findMapNodeByDirection (forMode mode) W (mapAt w m) n d
       = ModeOps.findMapNodeByDirection (forMode mode) w (mapAt w m) n d).
Proof.
  intros Hv. eexists. split; [by apply set_known_exec |].
  destruct bound_after
    as (Eheap & Enodes & Eelts & Emaps & Em & Em' & Hnew & Hold).
  destruct forked_known as (_ & _ & _ & _ & _ & HM' & _).
  pose proof Hbuilt as
    (Hm & Hmode & Hdepth & Hheap & Hversion & Hflag & Hlen & Htail & Hnodes0
     & Hmade & Hunknown).
  pose proof known_index as Hjlt.
  cbn zeta in *.
  destruct HM' as (EmodeM' & EdepthM' & EheapM' & ElenM' & EheadM' & EtailM'
                   & EflagM' & EancM').
  assert (Map.head (mapAt w m) = Some (n0 + length made - 1)) as Hhead'
    by (rewrite Hhead; destruct made; [simpl in Hjlt; lia | done]).
  assert (Map.tail (mapAt w m) = Some n0) as Htail'
    by (rewrite Htail; destruct made; [simpl in Hjlt; lia | done]).
  unfold mapChange.
  set (change := Some _).
  set (W := updMap m' (Map.set_change change) wN).
  assert (∀ c, nodeAt W c = nodeAt wN c) as HnodesW by done.
  assert (mapAt W m' = Map.set_change change (mapAt wN m')) as EMW
    by (unfold W; by rewrite mapAt_updMap_eq by lia).
  assert (sameView (mapAt wN m') (mapAt W m')) as HviewW by (by rewrite EMW).
  assert (Map.depth (mapAt wN m') = 1
          ∧ Map.version (mapAt wN m') = Map.version (mapAt w2 m')
          ∧ Map.head (mapAt wN m')
            = (if bool_decide (S j = length made) then Some nn
               else Some (n0 + length made - 1))
          ∧ Map.tail (mapAt wN m')
            = (if decide (j = 0) then Some nn else Some n0)
          ∧ Map.mode (mapAt wN m') = mode
          ∧ Map.heapMap (mapAt wN m') = h0
          ∧ Map.mutationOperationOccurred (mapAt wN m') = false
          ∧ Map.ancestorMap (mapAt wN m') = Some m
          ∧ Map.length (mapAt wN m') = Z.of_nat (length made))
    as (EdepthN & EversionN & EheadN & EtailN & EmodeN & EheapN & EflagN
        & EancN & ElenN).
  { rewrite Em'. cbn zeta.
    destruct (bool_decide (S j = length made)), (decide (j = 0)); cbn;
      by rewrite ?EheadM', ?EtailM', ?Hhead', ?Htail'. }
  clear Em'. set (WN := wN) in *. clearbody WN.
  split; [exact Eheap |].
  split; [exact Enodes |].
  split; [exact Eelts |]. split; [unfold W; by rewrite length_updMap |].
  split; [unfold W; by rewrite mapAt_updMap_ne by lia |].
  split; [| split; [| split]].
  - rewrite EMW. cbn [Map.mode Map.depth Map.heapMap Map.mutationOperationOccurred
      Map.ancestorMap Map.length Map.head Map.tail Map.version Map.set_change].
    rewrite EheadN, EtailN, EdepthN, EmodeN, EheapN, EflagN, EancN, ElenN,
      EversionN.
    rewrite head_lookup, last_lookup, length_fmap, length_reverse, length_seq,
      !chainAfter_lookup.
    rewrite (decide_True (P := 0 < length made)) by lia.
    rewrite (decide_True (P := Nat.pred (length made) < length made)) by lia.
    replace (length made - 1 - 0) with (length made - 1) by lia.
    replace (length made - 1 - Nat.pred (length made)) with 0 by lia.
    rewrite Nat.add_0_r.
    do 7 (split; [done |]).
    split.
    + destruct (bool_decide_reflect (S j = length made)) as [E | E].
      * rewrite decide_True by lia. done.
      * rewrite decide_False by lia. f_equal. lia.
    + destruct (decide (j = 0)) as [E | E].
      * rewrite decide_True by lia. done.
      * by rewrite decide_False by lia.
  - intros i n Hi. rewrite (find_sameView _ _ _ _ _ _ HviewW).
    rewrite (find_nodeAt _ WN W) by done.
    rewrite chainAfter_lookup in Hi. rewrite chainAfter_lookup.
    destruct (decide (i < length made)) as [Hlt | Hge]; [| done].
    injection Hi as <-.
    destruct (decide (n0 + (length made - 1 - i) = node)) as [Ea | Hna].
    + assert (length made - 1 - i = j) as Eij by lia.
      eapply find_flat; [exact Hnew | ..].
      * cbn [directionField Node.next Node.previous]. rewrite EdepthN, EversionN.
        destruct (decide (j = 0)) as [E0 | E0].
        -- by rewrite decide_False by lia.
        -- rewrite decide_True by lia. rewrite decide_False by lia.
           do 3 f_equal. lia.
      * cbn [isBoundary]. rewrite EtailN.
        destruct (decide (j = 0)); [intros _; by rewrite decide_False by lia |].
        intros [= E]%bool_decide_eq_true. lia.
    + destruct (Hold (length made - 1 - i) ltac:(lia)) as (N & HN & _ & Hnext).
      destruct (decide (length made - 1 - i = S j)) as [Es | Hns].
      * rewrite decide_True by lia. rewrite decide_True by lia.
        eapply find_over; [exact HN | |].
        { cbn [directionField]. by rewrite Hnext, EdepthN, EversionN. }
        cbn [isBoundary]. rewrite EtailN. apply bool_decide_eq_false.
        destruct (decide (j = 0)); intros [= E]; lia.
      * erewrite find_below; [| exact HN | exact Hnext |].
        -- destruct (decide (length made - 1 - i = 0)) as [E0 | E0].
           ++ by rewrite decide_False by lia.
           ++ rewrite decide_True by lia. rewrite decide_False by lia.
              do 2 f_equal. lia.
        -- cbn [isBoundary]. rewrite EtailN. intros Hb%bool_decide_eq_true.
           rewrite decide_True; [done |].
           destruct (decide (j = 0)); injection Hb; lia.
  - intros i n Hi. rewrite (find_sameView _ _ _ _ _ _ HviewW).
    rewrite (find_nodeAt _ WN W) by done.
    rewrite chainAfter_lookup in Hi.
    destruct (decide (i < length made)) as [Hlt | Hge]; [| done].
    injection Hi as <-.
    assert (match i with 0 => None | S i' => chainAfter !! i' end
            = (if bool_decide (S (length made - 1 - i) = length made) then None
               else Some (subst (n0 + S (length made - 1 - i))))) as ->.
    { destruct i as [| i'].
      - by rewrite bool_decide_eq_true_2 by lia.
      - rewrite chainAfter_lookup, decide_True by lia.
        rewrite bool_decide_eq_false_2 by lia.
        by replace (length made - 1 - i') with (S (length made - 1 - S i'))
          by lia. }
    destruct (decide (n0 + (length made - 1 - i) = node)) as [Ea | Hna].
    + assert (length made - 1 - i = j) as -> by lia.
      eapply find_flat; [exact Hnew | ..].
      * cbn [directionField Node.next Node.previous]. rewrite EdepthN, EversionN.
        destruct (bool_decide (S j = length made)); [done |].
        by rewrite decide_False by lia.
      * cbn [isBoundary]. rewrite EheadN.
        destruct (bool_decide (S j = length made)); [done |].
        intros [= E]%bool_decide_eq_true. lia.
    + destruct (Hold (length made - 1 - i) ltac:(lia)) as (N & HN & Hprev & _).
      destruct (decide (S (length made - 1 - i) = j)) as [Es | Hns].
      * rewrite bool_decide_eq_false_2 by lia. rewrite decide_True by lia.
        eapply find_over; [exact HN | |].
        { cbn [directionField]. by rewrite Hprev, EdepthN, EversionN. }
        cbn [isBoundary]. rewrite EheadN. apply bool_decide_eq_false.
        destruct (bool_decide (S j = length made)); intros [= E]; lia.
      * erewrite find_below; [| exact HN | exact Hprev |].
        -- destruct (bool_decide (S (length made - 1 - i) = length made));
             [done |].
           by rewrite decide_False by lia.
        -- cbn [isBoundary]. rewrite EheadN. intros Hb%bool_decide_eq_true.
           rewrite bool_decide_eq_true_2; [done |].
           destruct (bool_decide_reflect (S j = length made));
             injection Hb; lia.
  - intros Hlight n d Hn. rewrite (find_nodeAt _ WN W) by done.
    destruct (built_fields (n - n0) ltac:(lia)) as (N0 & HN0 & Hp0 & Hn0).
    destruct (Hold (n - n0) ltac:(lia)) as (N & HN & Hp & Hnx).
    replace (n0 + (n - n0)) with n in * by lia.
    destruct d.
    + transitivity (predOf (n - n0)).
      * destruct (decide (S (n - n0) = j)) as [Es | Hns].
        -- rewrite bool_decide_eq_false_2 by lia.
           replace (n0 + S (n - n0)) with node by lia.
           eapply (find_under _ _ _ _ _ _ 1); [done | exact HN | exact Hp
             | done | done |].
           cbn [isBoundary]. rewrite Hhead'. intros [= E]%bool_decide_eq_true. lia.
        -- eapply find_below; [exact HN | exact Hp |].
           cbn [isBoundary]. rewrite Hhead'. intros [= E]%bool_decide_eq_true.
           rewrite bool_decide_eq_true_2; [done | lia].
      * symmetry. eapply find_below; [exact HN0 | exact Hp0 |].
        cbn [isBoundary]. rewrite Hhead'. intros [= E]%bool_decide_eq_true.
        rewrite bool_decide_eq_true_2; [done | lia].
    + transitivity (succOf (n - n0)).
      * destruct (decide (n - n0 = S j)) as [Es | Hns].
        -- rewrite decide_False by lia.
           replace (n0 + Nat.pred (n - n0)) with node by lia.
           eapply (find_under _ _ _ _ _ _ 1); [done | exact HN | exact Hnx
             | done | done |].
           cbn [isBoundary]. rewrite Htail'. intros [= E]%bool_decide_eq_true. lia.
        -- eapply find_below; [exact HN | exact Hnx |].
           cbn [isBoundary]. rewrite Htail'. intros [= E]%bool_decide_eq_true.
           rewrite decide_True; [done | lia].
      * symmetry. eapply find_below; [exact HN0 | exact Hn0 |].
        cbn [isBoundary]. rewrite Htail'. intros [= E]%bool_decide_eq_true.
        rewrite decide_True; [done | lia].
Qed.

End FirstUpdate.


